(** * Wirehair: the matrix construction and sparse GF(2) inversion engine

    A shallow embedding of [Wirehair.cpp] and the properties of its
    utilities, row generator, peeling solver, Gaussian eliminator and
    codec facade.

    Conventions.  C integers are values of [Z]; an assignment to a
    [u8]/[u16]/[u32]/[u64] object is written with the matching wrap
    ([u8], [u16], ...).  Arrays are lists read with [sel] and written
    with [upd]; a read outside the list yields the element given as
    default and a write outside the list leaves it unchanged (both are
    undefined behaviour in C).  Loops whose trip count is not evident
    from their bounds take a fuel argument and return [None] when it
    runs out. *)

From Stdlib Require Import ZArith List Bool Lia.
From Stdlib Require Sorted.
From stdpp Require Import base option list gmap.
Import ListNotations.
Local Open Scope Z_scope.

(** ** Machine integers *)

Definition u8  (x : Z) : Z := x mod 2^8.
Definition u16 (x : Z) : Z := x mod 2^16.
Definition u32 (x : Z) : Z := x mod 2^32.
Definition u64 (x : Z) : Z := x mod 2^64.

(** [CAT_ROL64] and [CAT_ROR64] on 64-bit words. *)
Definition CAT_ROL64 (x n : Z) : Z :=
  u64 (Z.lor (Z.shiftl x n) (Z.shiftr x (64 - n))).
Definition CAT_ROR64 (x n : Z) : Z :=
  u64 (Z.lor (Z.shiftr x n) (Z.shiftl x (64 - n))).

(** Bitwise complement of a 64-bit word. *)
Definition not64 (x : Z) : Z := Z.lxor x (2^64 - 1).

(** ** Arrays *)

Definition sel {A} (d : A) (l : list A) (i : Z) : A :=
  if i <? 0 then d else default d (l !! Z.to_nat i).

Definition upd {A} (l : list A) (i : Z) (v : A) : list A :=
  if i <? 0 then l else <[Z.to_nat i := v]> l.

(** ** Result codes *)

Inductive Result := R_WIN | R_MORE_BLOCKS | R_BAD_INPUT | R_OUT_OF_MEMORY.

(** ** Utility: 16-bit integer square root *)

Definition SQQ_TABLE : list Z :=
  [ 0; 16; 22; 27; 32; 35; 39; 42; 45; 48; 50; 53; 55; 57; 59; 61;
    64; 65; 67; 69; 71; 73; 75; 76; 78; 80; 81; 83; 84; 86; 87; 89;
    90; 91; 93; 94; 96; 97; 98; 99; 101; 102; 103; 104; 106; 107; 108; 109;
    110; 112; 113; 114; 115; 116; 117; 118; 119; 120; 121; 122; 123; 124; 125; 126;
    128; 128; 129; 130; 131; 132; 133; 134; 135; 136; 137; 138; 139; 140; 141; 142;
    143; 144; 144; 145; 146; 147; 148; 149; 150; 150; 151; 152; 153; 154; 155; 155;
    156; 157; 158; 159; 160; 160; 161; 162; 163; 163; 164; 165; 166; 167; 167; 168;
    169; 170; 170; 171; 172; 173; 173; 174; 175; 176; 176; 177; 178; 178; 179; 180;
    181; 181; 182; 183; 183; 184; 185; 185; 186; 187; 187; 188; 189; 189; 190; 191;
    192; 192; 193; 193; 194; 195; 195; 196; 197; 197; 198; 199; 199; 200; 201; 201;
    202; 203; 203; 204; 204; 205; 206; 206; 207; 208; 208; 209; 209; 210; 211; 211;
    212; 212; 213; 214; 214; 215; 215; 216; 217; 217; 218; 218; 219; 219; 220; 221;
    221; 222; 222; 223; 224; 224; 225; 225; 226; 226; 227; 227; 228; 229; 229; 230;
    230; 231; 231; 232; 232; 233; 234; 234; 235; 235; 236; 236; 237; 237; 238; 238;
    239; 240; 240; 241; 241; 242; 242; 243; 243; 244; 244; 245; 245; 246; 246; 247;
    247; 248; 248; 249; 249; 250; 250; 251; 251; 252; 252; 253; 253; 254; 254; 255 ].

Definition SquareRoot16 (x : Z) : Z :=
  if 0x100 <=? x then
    let r :=
      if 0x1000 <=? x then
        if 0x4000 <=? x then u16 (sel 0 SQQ_TABLE (Z.shiftr x 8) + 1)
        else u16 (Z.shiftr (sel 0 SQQ_TABLE (Z.shiftr x 6)) 1 + 1)
      else
        if 0x400 <=? x then u16 (Z.shiftr (sel 0 SQQ_TABLE (Z.shiftr x 4)) 2 + 1)
        else u16 (Z.shiftr (sel 0 SQQ_TABLE (Z.shiftr x 2)) 3 + 1) in
    (* r -= (r * r > x); *)
    u16 (r - (if x <? r * r then 1 else 0))
  else
    Z.shiftr (sel 0 SQQ_TABLE x) 4.

(** ** Utility: 16-bit next prime (truncated sieve and trial division) *)

Definition SIEVE_TABLE_SIZE : Z := 2*3*5*7.

Definition SIEVE_TABLE : list Z :=
  [ 1; 0; 9; 8; 7; 6; 5; 4; 3; 2; 1; 0; 1; 0; 3; 2; 1; 0; 1; 0; 3; 2; 1; 0; 5; 4; 3; 2; 1; 0;
    1; 0; 5; 4; 3; 2; 1; 0; 3; 2; 1; 0; 1; 0; 3; 2; 1; 0; 5; 4; 3; 2; 1; 0; 5; 4; 3; 2; 1; 0;
    1; 0; 5; 4; 3; 2; 1; 0; 3; 2; 1; 0; 1; 0; 5; 4; 3; 2; 1; 0; 3; 2; 1; 0; 5; 4; 3; 2; 1; 0;
    7; 6; 5; 4; 3; 2; 1; 0; 3; 2; 1; 0; 1; 0; 3; 2; 1; 0; 1; 0; 3; 2; 1; 0; 7; 6; 5; 4; 3; 2;
    1; 0; 5; 4; 3; 2; 1; 0; 3; 2; 1; 0; 5; 4; 3; 2; 1; 0; 1; 0; 3; 2; 1; 0; 5; 4; 3; 2; 1; 0;
    1; 0; 5; 4; 3; 2; 1; 0; 5; 4; 3; 2; 1; 0; 3; 2; 1; 0; 1; 0; 3; 2; 1; 0; 5; 4; 3; 2; 1; 0;
    1; 0; 5; 4; 3; 2; 1; 0; 3; 2; 1; 0; 1; 0; 3; 2; 1; 0; 1; 0; 9; 8; 7; 6; 5; 4; 3; 2; 1; 0 ].

Definition PRIMES_UNDER_256 : list Z :=
  [ 11; 13; 17; 19; 23; 29; 31; 37; 41; 43; 47; 53; 59; 61;
    67; 71; 73; 79; 83; 89; 97; 101; 103; 107; 109; 113; 127; 131;
    137; 139; 149; 151; 157; 163; 167; 173; 179; 181; 191; 193; 197; 199;
    211; 223; 227; 229; 233; 239; 241; 251; 32767 ].

(** The inner loop over [PRIMES_UNDER_256]: [true] when the loop returns
    [n] (the next prime exceeds [p_max]), [false] when a divisor is found.
    The table ends with the sentinel 0x7fff, so the scan stops inside it
    for every [p_max] below that value; the empty case stands for a read
    past the table. *)
Fixpoint trial_division (primes : list Z) (p_max n : Z) : bool :=
  match primes with
  | [] => true
  | p :: rest =>
      if p_max <? p then true
      else if n mod p =? 0 then false
      else trial_division rest p_max n
  end.

Fixpoint NextPrime16_loop (fuel : nat) (offset n p_max : Z) : option Z :=
  match fuel with
  | O => None
  | S fuel' =>
      if trial_division PRIMES_UNDER_256 p_max n then Some n
      else
        let offset := if SIEVE_TABLE_SIZE <=? offset then offset - SIEVE_TABLE_SIZE else offset in
        let next := sel 0 SIEVE_TABLE offset in
        let offset := offset + (next + 1) in
        let n := u16 (n + (next + 1)) in
        let p_max := if p_max * p_max <? n then p_max + 1 else p_max in
        NextPrime16_loop fuel' offset n p_max
  end.

Definition NextPrime16_fuel : nat := 64.

Definition NextPrime16 (n : Z) : option Z :=
  if n <=? 1 then Some 1
  else if n =? 2 then Some 2
  else if n =? 3 then Some 3
  else if n <=? 5 then Some 5
  else if n <=? 7 then Some 7
  else
    let offset := n mod SIEVE_TABLE_SIZE in
    let next := sel 0 SIEVE_TABLE offset in
    let offset := offset + (next + 1) in
    let n := u16 (n + next) in
    let p_max := SquareRoot16 n in
    NextPrime16_loop NextPrime16_fuel offset n p_max.

(** ** Utility: peeling row weight generator *)

Definition WEIGHT_DIST : list Z :=
  [ 0; 5243; 529531; 704294; 791675; 844104; 879057; 904023;
    922747; 937311; 948962; 958494; 966438; 973160; 978921;
    983914; 988283; 992138; 995565; 998631; 1001391; 1003887;
    1006157; 1008229; 1010129; 1011876; 1013490; 1014983;
    1016370; 1017662; 1048576 ].

(** [for (ii = 1; rv >= WEIGHT_DIST[ii]; ++ii);] as a scan of the table
    from index [ii] on.  The empty case is the index one past the table,
    where the C loop would read outside it. *)
Fixpoint weight_scan (tbl : list Z) (ii rv : Z) : Z :=
  match tbl with
  | [] => ii
  | d :: rest => if d <=? rv then weight_scan rest (ii + 1) rv else ii
  end.

Definition GeneratePeelRowWeight (rv max_weight : Z) : Z :=
  let rv := Z.land rv 0xfffff in
  let ii := weight_scan (drop 1 WEIGHT_DIST) 1 rv in
  if max_weight <? ii then max_weight else ii.

(** ** The pseudo-random generator

    [CatsChoice] is declared in a header that is not part of
    [Wirehair.cpp].  The code only relies on [Initialize(x, y)] and on
    [Next()], which returns a 32-bit word; the development is
    parametric in both. *)

Record CatsChoice := {
  prng : Type;
  Initialize : Z -> Z -> prng;
  Next : prng -> Z * prng
}.

(** ** Utility: peel matrix row generator *)

Module RowShape.
Record t := mk {
  peel_weight : Z;
  peel_a : Z;
  peel_x0 : Z;
  mix_a : Z;
  mix_x0 : Z
}.
End RowShape.

(** The first word drawn by [GeneratePeelRow id p_seed]. *)
Definition first_draw (G : CatsChoice) (id p_seed : Z) : Z :=
  u32 (fst (Next G (Initialize G id p_seed))).

(** The operands of [%] are non-negative [int]s, so C's remainder is
    [Z.rem]; a zero divisor is undefined in C. *)
Definition GeneratePeelRow (G : CatsChoice)
    (id p_seed peel_column_count mix_column_count : Z) : RowShape.t :=
  let g := Initialize G id p_seed in
  let '(r1, g) := Next G g in
  let w := GeneratePeelRowWeight (u32 r1) (u16 (peel_column_count - 1)) in
  let '(rv, g) := Next G g in
  let rv := u32 rv in
  let pa := u16 (Z.rem (u16 rv) (peel_column_count - 1) + 1) in
  let px := u16 (Z.rem (u16 (Z.shiftr rv 16)) peel_column_count) in
  let '(rv, g) := Next G g in
  let rv := u32 rv in
  let ma := u16 (Z.rem (u16 rv) (mix_column_count - 1) + 1) in
  let mx := u16 (Z.rem (u16 (Z.shiftr rv 16)) mix_column_count) in
  RowShape.mk w pa px ma mx.

(** ** Utility: matrix parameter generator *)

(** The process-wide seeds [g_p_seed] and [g_c_seed]. *)
Record Globals := {
  g_p_seed : Z;
  g_c_seed : Z
}.

Record MatrixParameters := {
  mp_p_seed : Z;
  mp_c_seed : Z;
  mp_light_count : Z;
  mp_dense_count : Z
}.

(** The table of [GenerateMatrixParameters]: block count to
    (light count, dense count). *)
Definition matrix_parameter_table : list (Z * (Z * Z)) :=
  [ (16, (6, 2)); (64, (8, 2)); (128, (11, 2)); (256, (14, 5));
    (512, (14, 5)); (1024, (18, 12)); (2048, (45, 8)); (4096, (55, 14));
    (8192, (100, 16)); (10000, (120, 20)); (16384, (180, 26));
    (32768, (400, 30)); (40000, (460, 29)); (50000, (600, 34));
    (64000, (6, 750)) ].

Fixpoint switch_block_count (cases : list (Z * (Z * Z))) (block_count : Z)
    : option (Z * Z) :=
  match cases with
  | [] => None
  | (n, ld) :: rest =>
      if block_count =? n then Some ld else switch_block_count rest block_count
  end.

(** [p_seed] and [c_seed] are written from the globals before the
    [switch]; [light_count] and [dense_count] are written only by a
    matching case.  [prev] holds the previous contents of the four
    reference arguments. *)
Definition GenerateMatrixParameters (g : Globals) (block_count : Z)
    (prev : MatrixParameters) : bool * MatrixParameters :=
  let p_seed := u32 (g_p_seed g) in
  let c_seed := u32 (g_c_seed g) in
  match switch_block_count matrix_parameter_table block_count with
  | Some (l, d) =>
      (true, {| mp_p_seed := p_seed; mp_c_seed := c_seed;
                mp_light_count := l; mp_dense_count := d |})
  | None =>
      (false, {| mp_p_seed := p_seed; mp_c_seed := c_seed;
                 mp_light_count := mp_light_count prev;
                 mp_dense_count := mp_dense_count prev |})
  end.

Definition tabulated (block_count : Z) : Prop :=
  In block_count (map fst matrix_parameter_table).

(** ** Data structures *)

Inductive MarkTypes := MARK_TODO | MARK_PEEL | MARK_DEFER.

Definition MarkTypes_eqb (a b : MarkTypes) : bool :=
  match a, b with
  | MARK_TODO, MARK_TODO | MARK_PEEL, MARK_PEEL | MARK_DEFER, MARK_DEFER => true
  | _, _ => false
  end.

(** [struct Codec::PeelRow].  The anonymous union is kept as its two
    16-bit cells: [unmarked[0]] shares its storage with [peel_column],
    and the low byte of [unmarked[1]] with [is_copied] (packed,
    little-endian layout). *)
Module PeelRow.
Record t := mk {
  next : Z;
  id : Z;
  peel_weight : Z;
  peel_a : Z;
  peel_x0 : Z;
  mix_a : Z;
  mix_x0 : Z;
  unmarked_count : Z;
  unmarked0 : Z;
  unmarked1 : Z
}.

Definition zero : t := mk 0 0 0 0 0 0 0 0 0 0.

Definition peel_column (r : t) : Z := unmarked0 r.
Definition is_copied (r : t) : Z := u8 (unmarked1 r).

Definition set_next (v : Z) (r : t) : t :=
  mk v (id r) (peel_weight r) (peel_a r) (peel_x0 r) (mix_a r) (mix_x0 r)
     (unmarked_count r) (unmarked0 r) (unmarked1 r).
Definition set_id (v : Z) (r : t) : t :=
  mk (next r) v (peel_weight r) (peel_a r) (peel_x0 r) (mix_a r) (mix_x0 r)
     (unmarked_count r) (unmarked0 r) (unmarked1 r).
Definition set_shape (s : RowShape.t) (r : t) : t :=
  mk (next r) (id r) (RowShape.peel_weight s) (RowShape.peel_a s)
     (RowShape.peel_x0 s) (RowShape.mix_a s) (RowShape.mix_x0 s)
     (unmarked_count r) (unmarked0 r) (unmarked1 r).
Definition set_unmarked_count (v : Z) (r : t) : t :=
  mk (next r) (id r) (peel_weight r) (peel_a r) (peel_x0 r) (mix_a r) (mix_x0 r)
     v (unmarked0 r) (unmarked1 r).
Definition set_unmarked0 (v : Z) (r : t) : t :=
  mk (next r) (id r) (peel_weight r) (peel_a r) (peel_x0 r) (mix_a r) (mix_x0 r)
     (unmarked_count r) v (unmarked1 r).
Definition set_unmarked1 (v : Z) (r : t) : t :=
  mk (next r) (id r) (peel_weight r) (peel_a r) (peel_x0 r) (mix_a r) (mix_x0 r)
     (unmarked_count r) (unmarked0 r) v.

(** [row->unmarked[k] = v]; an index outside the two cells is a store
    outside the union. *)
Definition set_unmarked (k v : Z) (r : t) : t :=
  if k =? 0 then set_unmarked0 v r
  else if k =? 1 then set_unmarked1 v r
  else r.
Definition unmarked (k : Z) (r : t) : Z :=
  if k =? 0 then unmarked0 r else unmarked1 r.

Definition set_peel_column (v : Z) (r : t) : t := set_unmarked0 v r.
(** A store to the byte [is_copied] keeps the high byte of the cell. *)
Definition set_is_copied (v : Z) (r : t) : t :=
  set_unmarked1 (Z.lor (Z.land (unmarked1 r) 0xff00) (u8 v)) r.

Definition shape (r : t) : RowShape.t :=
  RowShape.mk (peel_weight r) (peel_a r) (peel_x0 r) (mix_a r) (mix_x0 r).
End PeelRow.

(** [struct Codec::PeelColumn].  The union of [w2_refs], [peel_row] and
    [ge_column] is one 16-bit cell. *)
Module PeelColumn.
Record t := mk {
  next : Z;
  w2_refs : Z;
  mark : MarkTypes
}.

Definition zero : t := mk 0 0 MARK_TODO.

Definition peel_row (c : t) : Z := w2_refs c.
Definition ge_column (c : t) : Z := w2_refs c.

Definition set_next (v : Z) (c : t) : t := mk v (w2_refs c) (mark c).
Definition set_w2_refs (v : Z) (c : t) : t := mk (next c) v (mark c).
Definition set_peel_row (v : Z) (c : t) : t := set_w2_refs v c.
Definition set_ge_column (v : Z) (c : t) : t := set_w2_refs v c.
Definition set_mark (m : MarkTypes) (c : t) : t := mk (next c) (w2_refs c) m.
End PeelColumn.

(** [struct Codec::PeelRefs]: [rows] has [CAT_REF_LIST_MAX] cells. *)
Module PeelRefs.
Record t := mk {
  row_count : Z;
  rows : list Z
}.

Definition zero : t := mk 0 [].
End PeelRefs.

(** ** The codec state

    The members of [class Codec].  Pointers to arrays are the arrays
    themselves, a null pointer being the empty list; [_peel_tail_rows]
    points to a row and is [None] when null.  [_ge_pivots], [_ge_row_map]
    and [_ge_col_map] are the three parts of one allocation.  The
    class is declared in the header, so the width of a member is known
    only where the source binds it to a typed reference or local; no
    wrap-around is applied to the others.  [_block_count] is a 16-bit
    member: the source hands it to 16-bit parameters and compares it
    with 16-bit counters throughout, and [ChooseMatrix] narrows the
    [int] quotient it stores there.  [heap] records the element
    counts passed to [operator new], most recent first. *)
Record Codec := mkCodec {
  _block_bytes : Z;
  _block_count : Z;
  _block_next_prime : Z;
  _extra_count : Z;
  _p_seed : Z;
  _c_seed : Z;
  _light_count : Z;
  _dense_count : Z;
  _light_next_prime : Z;
  _added_count : Z;
  _added_next_prime : Z;
  _input_final_bytes : Z;
  _output_final_bytes : Z;
  _used_count : Z;
  _peel_rows : list PeelRow.t;
  _peel_cols : list PeelColumn.t;
  _peel_col_refs : list PeelRefs.t;
  _peel_head_rows : Z;
  _peel_tail_rows : option Z;
  _defer_head_rows : Z;
  _defer_head_columns : Z;
  _defer_count : Z;
  _ge_matrix : list Z;
  _ge_compress_matrix : list Z;
  _ge_pitch : Z;
  _ge_rows : Z;
  _ge_pivots : list Z;
  _ge_row_map : list Z;
  _ge_col_map : list Z;
  _ge_resume_pivot : Z;
  _input_blocks : list Z;
  _input_allocated : bool;
  _recovery_blocks : list Z;
  heap : list Z
}.

Definition set_block_bytes (v : Z) (c : Codec) : Codec :=
  mkCodec
    v (_block_count c) (_block_next_prime c) (_extra_count c) (_p_seed c)
    (_c_seed c) (_light_count c) (_dense_count c) (_light_next_prime c)
    (_added_count c) (_added_next_prime c) (_input_final_bytes c)
    (_output_final_bytes c) (_used_count c) (_peel_rows c) (_peel_cols c)
    (_peel_col_refs c) (_peel_head_rows c) (_peel_tail_rows c)
    (_defer_head_rows c) (_defer_head_columns c) (_defer_count c)
    (_ge_matrix c) (_ge_compress_matrix c) (_ge_pitch c) (_ge_rows c)
    (_ge_pivots c) (_ge_row_map c) (_ge_col_map c) (_ge_resume_pivot c)
    (_input_blocks c) (_input_allocated c) (_recovery_blocks c) (heap c).
Definition set_block_count (v : Z) (c : Codec) : Codec :=
  mkCodec
    (_block_bytes c) v (_block_next_prime c) (_extra_count c) (_p_seed c)
    (_c_seed c) (_light_count c) (_dense_count c) (_light_next_prime c)
    (_added_count c) (_added_next_prime c) (_input_final_bytes c)
    (_output_final_bytes c) (_used_count c) (_peel_rows c) (_peel_cols c)
    (_peel_col_refs c) (_peel_head_rows c) (_peel_tail_rows c)
    (_defer_head_rows c) (_defer_head_columns c) (_defer_count c)
    (_ge_matrix c) (_ge_compress_matrix c) (_ge_pitch c) (_ge_rows c)
    (_ge_pivots c) (_ge_row_map c) (_ge_col_map c) (_ge_resume_pivot c)
    (_input_blocks c) (_input_allocated c) (_recovery_blocks c) (heap c).
Definition set_block_next_prime (v : Z) (c : Codec) : Codec :=
  mkCodec
    (_block_bytes c) (_block_count c) v (_extra_count c) (_p_seed c)
    (_c_seed c) (_light_count c) (_dense_count c) (_light_next_prime c)
    (_added_count c) (_added_next_prime c) (_input_final_bytes c)
    (_output_final_bytes c) (_used_count c) (_peel_rows c) (_peel_cols c)
    (_peel_col_refs c) (_peel_head_rows c) (_peel_tail_rows c)
    (_defer_head_rows c) (_defer_head_columns c) (_defer_count c)
    (_ge_matrix c) (_ge_compress_matrix c) (_ge_pitch c) (_ge_rows c)
    (_ge_pivots c) (_ge_row_map c) (_ge_col_map c) (_ge_resume_pivot c)
    (_input_blocks c) (_input_allocated c) (_recovery_blocks c) (heap c).
Definition set_extra_count (v : Z) (c : Codec) : Codec :=
  mkCodec
    (_block_bytes c) (_block_count c) (_block_next_prime c) v (_p_seed c)
    (_c_seed c) (_light_count c) (_dense_count c) (_light_next_prime c)
    (_added_count c) (_added_next_prime c) (_input_final_bytes c)
    (_output_final_bytes c) (_used_count c) (_peel_rows c) (_peel_cols c)
    (_peel_col_refs c) (_peel_head_rows c) (_peel_tail_rows c)
    (_defer_head_rows c) (_defer_head_columns c) (_defer_count c)
    (_ge_matrix c) (_ge_compress_matrix c) (_ge_pitch c) (_ge_rows c)
    (_ge_pivots c) (_ge_row_map c) (_ge_col_map c) (_ge_resume_pivot c)
    (_input_blocks c) (_input_allocated c) (_recovery_blocks c) (heap c).
Definition set_p_seed (v : Z) (c : Codec) : Codec :=
  mkCodec
    (_block_bytes c) (_block_count c) (_block_next_prime c) (_extra_count c)
    v (_c_seed c) (_light_count c) (_dense_count c) (_light_next_prime c)
    (_added_count c) (_added_next_prime c) (_input_final_bytes c)
    (_output_final_bytes c) (_used_count c) (_peel_rows c) (_peel_cols c)
    (_peel_col_refs c) (_peel_head_rows c) (_peel_tail_rows c)
    (_defer_head_rows c) (_defer_head_columns c) (_defer_count c)
    (_ge_matrix c) (_ge_compress_matrix c) (_ge_pitch c) (_ge_rows c)
    (_ge_pivots c) (_ge_row_map c) (_ge_col_map c) (_ge_resume_pivot c)
    (_input_blocks c) (_input_allocated c) (_recovery_blocks c) (heap c).
Definition set_c_seed (v : Z) (c : Codec) : Codec :=
  mkCodec
    (_block_bytes c) (_block_count c) (_block_next_prime c) (_extra_count c)
    (_p_seed c) v (_light_count c) (_dense_count c) (_light_next_prime c)
    (_added_count c) (_added_next_prime c) (_input_final_bytes c)
    (_output_final_bytes c) (_used_count c) (_peel_rows c) (_peel_cols c)
    (_peel_col_refs c) (_peel_head_rows c) (_peel_tail_rows c)
    (_defer_head_rows c) (_defer_head_columns c) (_defer_count c)
    (_ge_matrix c) (_ge_compress_matrix c) (_ge_pitch c) (_ge_rows c)
    (_ge_pivots c) (_ge_row_map c) (_ge_col_map c) (_ge_resume_pivot c)
    (_input_blocks c) (_input_allocated c) (_recovery_blocks c) (heap c).
Definition set_light_count (v : Z) (c : Codec) : Codec :=
  mkCodec
    (_block_bytes c) (_block_count c) (_block_next_prime c) (_extra_count c)
    (_p_seed c) (_c_seed c) v (_dense_count c) (_light_next_prime c)
    (_added_count c) (_added_next_prime c) (_input_final_bytes c)
    (_output_final_bytes c) (_used_count c) (_peel_rows c) (_peel_cols c)
    (_peel_col_refs c) (_peel_head_rows c) (_peel_tail_rows c)
    (_defer_head_rows c) (_defer_head_columns c) (_defer_count c)
    (_ge_matrix c) (_ge_compress_matrix c) (_ge_pitch c) (_ge_rows c)
    (_ge_pivots c) (_ge_row_map c) (_ge_col_map c) (_ge_resume_pivot c)
    (_input_blocks c) (_input_allocated c) (_recovery_blocks c) (heap c).
Definition set_dense_count (v : Z) (c : Codec) : Codec :=
  mkCodec
    (_block_bytes c) (_block_count c) (_block_next_prime c) (_extra_count c)
    (_p_seed c) (_c_seed c) (_light_count c) v (_light_next_prime c)
    (_added_count c) (_added_next_prime c) (_input_final_bytes c)
    (_output_final_bytes c) (_used_count c) (_peel_rows c) (_peel_cols c)
    (_peel_col_refs c) (_peel_head_rows c) (_peel_tail_rows c)
    (_defer_head_rows c) (_defer_head_columns c) (_defer_count c)
    (_ge_matrix c) (_ge_compress_matrix c) (_ge_pitch c) (_ge_rows c)
    (_ge_pivots c) (_ge_row_map c) (_ge_col_map c) (_ge_resume_pivot c)
    (_input_blocks c) (_input_allocated c) (_recovery_blocks c) (heap c).
Definition set_light_next_prime (v : Z) (c : Codec) : Codec :=
  mkCodec
    (_block_bytes c) (_block_count c) (_block_next_prime c) (_extra_count c)
    (_p_seed c) (_c_seed c) (_light_count c) (_dense_count c) v
    (_added_count c) (_added_next_prime c) (_input_final_bytes c)
    (_output_final_bytes c) (_used_count c) (_peel_rows c) (_peel_cols c)
    (_peel_col_refs c) (_peel_head_rows c) (_peel_tail_rows c)
    (_defer_head_rows c) (_defer_head_columns c) (_defer_count c)
    (_ge_matrix c) (_ge_compress_matrix c) (_ge_pitch c) (_ge_rows c)
    (_ge_pivots c) (_ge_row_map c) (_ge_col_map c) (_ge_resume_pivot c)
    (_input_blocks c) (_input_allocated c) (_recovery_blocks c) (heap c).
Definition set_added_count (v : Z) (c : Codec) : Codec :=
  mkCodec
    (_block_bytes c) (_block_count c) (_block_next_prime c) (_extra_count c)
    (_p_seed c) (_c_seed c) (_light_count c) (_dense_count c)
    (_light_next_prime c) v (_added_next_prime c) (_input_final_bytes c)
    (_output_final_bytes c) (_used_count c) (_peel_rows c) (_peel_cols c)
    (_peel_col_refs c) (_peel_head_rows c) (_peel_tail_rows c)
    (_defer_head_rows c) (_defer_head_columns c) (_defer_count c)
    (_ge_matrix c) (_ge_compress_matrix c) (_ge_pitch c) (_ge_rows c)
    (_ge_pivots c) (_ge_row_map c) (_ge_col_map c) (_ge_resume_pivot c)
    (_input_blocks c) (_input_allocated c) (_recovery_blocks c) (heap c).
Definition set_added_next_prime (v : Z) (c : Codec) : Codec :=
  mkCodec
    (_block_bytes c) (_block_count c) (_block_next_prime c) (_extra_count c)
    (_p_seed c) (_c_seed c) (_light_count c) (_dense_count c)
    (_light_next_prime c) (_added_count c) v (_input_final_bytes c)
    (_output_final_bytes c) (_used_count c) (_peel_rows c) (_peel_cols c)
    (_peel_col_refs c) (_peel_head_rows c) (_peel_tail_rows c)
    (_defer_head_rows c) (_defer_head_columns c) (_defer_count c)
    (_ge_matrix c) (_ge_compress_matrix c) (_ge_pitch c) (_ge_rows c)
    (_ge_pivots c) (_ge_row_map c) (_ge_col_map c) (_ge_resume_pivot c)
    (_input_blocks c) (_input_allocated c) (_recovery_blocks c) (heap c).
Definition set_input_final_bytes (v : Z) (c : Codec) : Codec :=
  mkCodec
    (_block_bytes c) (_block_count c) (_block_next_prime c) (_extra_count c)
    (_p_seed c) (_c_seed c) (_light_count c) (_dense_count c)
    (_light_next_prime c) (_added_count c) (_added_next_prime c) v
    (_output_final_bytes c) (_used_count c) (_peel_rows c) (_peel_cols c)
    (_peel_col_refs c) (_peel_head_rows c) (_peel_tail_rows c)
    (_defer_head_rows c) (_defer_head_columns c) (_defer_count c)
    (_ge_matrix c) (_ge_compress_matrix c) (_ge_pitch c) (_ge_rows c)
    (_ge_pivots c) (_ge_row_map c) (_ge_col_map c) (_ge_resume_pivot c)
    (_input_blocks c) (_input_allocated c) (_recovery_blocks c) (heap c).
Definition set_output_final_bytes (v : Z) (c : Codec) : Codec :=
  mkCodec
    (_block_bytes c) (_block_count c) (_block_next_prime c) (_extra_count c)
    (_p_seed c) (_c_seed c) (_light_count c) (_dense_count c)
    (_light_next_prime c) (_added_count c) (_added_next_prime c)
    (_input_final_bytes c) v (_used_count c) (_peel_rows c) (_peel_cols c)
    (_peel_col_refs c) (_peel_head_rows c) (_peel_tail_rows c)
    (_defer_head_rows c) (_defer_head_columns c) (_defer_count c)
    (_ge_matrix c) (_ge_compress_matrix c) (_ge_pitch c) (_ge_rows c)
    (_ge_pivots c) (_ge_row_map c) (_ge_col_map c) (_ge_resume_pivot c)
    (_input_blocks c) (_input_allocated c) (_recovery_blocks c) (heap c).
Definition set_used_count (v : Z) (c : Codec) : Codec :=
  mkCodec
    (_block_bytes c) (_block_count c) (_block_next_prime c) (_extra_count c)
    (_p_seed c) (_c_seed c) (_light_count c) (_dense_count c)
    (_light_next_prime c) (_added_count c) (_added_next_prime c)
    (_input_final_bytes c) (_output_final_bytes c) v (_peel_rows c)
    (_peel_cols c) (_peel_col_refs c) (_peel_head_rows c) (_peel_tail_rows c)
    (_defer_head_rows c) (_defer_head_columns c) (_defer_count c)
    (_ge_matrix c) (_ge_compress_matrix c) (_ge_pitch c) (_ge_rows c)
    (_ge_pivots c) (_ge_row_map c) (_ge_col_map c) (_ge_resume_pivot c)
    (_input_blocks c) (_input_allocated c) (_recovery_blocks c) (heap c).
Definition set_peel_rows (v : list PeelRow.t) (c : Codec) : Codec :=
  mkCodec
    (_block_bytes c) (_block_count c) (_block_next_prime c) (_extra_count c)
    (_p_seed c) (_c_seed c) (_light_count c) (_dense_count c)
    (_light_next_prime c) (_added_count c) (_added_next_prime c)
    (_input_final_bytes c) (_output_final_bytes c) (_used_count c) v
    (_peel_cols c) (_peel_col_refs c) (_peel_head_rows c) (_peel_tail_rows c)
    (_defer_head_rows c) (_defer_head_columns c) (_defer_count c)
    (_ge_matrix c) (_ge_compress_matrix c) (_ge_pitch c) (_ge_rows c)
    (_ge_pivots c) (_ge_row_map c) (_ge_col_map c) (_ge_resume_pivot c)
    (_input_blocks c) (_input_allocated c) (_recovery_blocks c) (heap c).
Definition set_peel_cols (v : list PeelColumn.t) (c : Codec) : Codec :=
  mkCodec
    (_block_bytes c) (_block_count c) (_block_next_prime c) (_extra_count c)
    (_p_seed c) (_c_seed c) (_light_count c) (_dense_count c)
    (_light_next_prime c) (_added_count c) (_added_next_prime c)
    (_input_final_bytes c) (_output_final_bytes c) (_used_count c)
    (_peel_rows c) v (_peel_col_refs c) (_peel_head_rows c)
    (_peel_tail_rows c) (_defer_head_rows c) (_defer_head_columns c)
    (_defer_count c) (_ge_matrix c) (_ge_compress_matrix c) (_ge_pitch c)
    (_ge_rows c) (_ge_pivots c) (_ge_row_map c) (_ge_col_map c)
    (_ge_resume_pivot c) (_input_blocks c) (_input_allocated c)
    (_recovery_blocks c) (heap c).
Definition set_peel_col_refs (v : list PeelRefs.t) (c : Codec) : Codec :=
  mkCodec
    (_block_bytes c) (_block_count c) (_block_next_prime c) (_extra_count c)
    (_p_seed c) (_c_seed c) (_light_count c) (_dense_count c)
    (_light_next_prime c) (_added_count c) (_added_next_prime c)
    (_input_final_bytes c) (_output_final_bytes c) (_used_count c)
    (_peel_rows c) (_peel_cols c) v (_peel_head_rows c) (_peel_tail_rows c)
    (_defer_head_rows c) (_defer_head_columns c) (_defer_count c)
    (_ge_matrix c) (_ge_compress_matrix c) (_ge_pitch c) (_ge_rows c)
    (_ge_pivots c) (_ge_row_map c) (_ge_col_map c) (_ge_resume_pivot c)
    (_input_blocks c) (_input_allocated c) (_recovery_blocks c) (heap c).
Definition set_peel_head_rows (v : Z) (c : Codec) : Codec :=
  mkCodec
    (_block_bytes c) (_block_count c) (_block_next_prime c) (_extra_count c)
    (_p_seed c) (_c_seed c) (_light_count c) (_dense_count c)
    (_light_next_prime c) (_added_count c) (_added_next_prime c)
    (_input_final_bytes c) (_output_final_bytes c) (_used_count c)
    (_peel_rows c) (_peel_cols c) (_peel_col_refs c) v (_peel_tail_rows c)
    (_defer_head_rows c) (_defer_head_columns c) (_defer_count c)
    (_ge_matrix c) (_ge_compress_matrix c) (_ge_pitch c) (_ge_rows c)
    (_ge_pivots c) (_ge_row_map c) (_ge_col_map c) (_ge_resume_pivot c)
    (_input_blocks c) (_input_allocated c) (_recovery_blocks c) (heap c).
Definition set_peel_tail_rows (v : option Z) (c : Codec) : Codec :=
  mkCodec
    (_block_bytes c) (_block_count c) (_block_next_prime c) (_extra_count c)
    (_p_seed c) (_c_seed c) (_light_count c) (_dense_count c)
    (_light_next_prime c) (_added_count c) (_added_next_prime c)
    (_input_final_bytes c) (_output_final_bytes c) (_used_count c)
    (_peel_rows c) (_peel_cols c) (_peel_col_refs c) (_peel_head_rows c) v
    (_defer_head_rows c) (_defer_head_columns c) (_defer_count c)
    (_ge_matrix c) (_ge_compress_matrix c) (_ge_pitch c) (_ge_rows c)
    (_ge_pivots c) (_ge_row_map c) (_ge_col_map c) (_ge_resume_pivot c)
    (_input_blocks c) (_input_allocated c) (_recovery_blocks c) (heap c).
Definition set_defer_head_rows (v : Z) (c : Codec) : Codec :=
  mkCodec
    (_block_bytes c) (_block_count c) (_block_next_prime c) (_extra_count c)
    (_p_seed c) (_c_seed c) (_light_count c) (_dense_count c)
    (_light_next_prime c) (_added_count c) (_added_next_prime c)
    (_input_final_bytes c) (_output_final_bytes c) (_used_count c)
    (_peel_rows c) (_peel_cols c) (_peel_col_refs c) (_peel_head_rows c)
    (_peel_tail_rows c) v (_defer_head_columns c) (_defer_count c)
    (_ge_matrix c) (_ge_compress_matrix c) (_ge_pitch c) (_ge_rows c)
    (_ge_pivots c) (_ge_row_map c) (_ge_col_map c) (_ge_resume_pivot c)
    (_input_blocks c) (_input_allocated c) (_recovery_blocks c) (heap c).
Definition set_defer_head_columns (v : Z) (c : Codec) : Codec :=
  mkCodec
    (_block_bytes c) (_block_count c) (_block_next_prime c) (_extra_count c)
    (_p_seed c) (_c_seed c) (_light_count c) (_dense_count c)
    (_light_next_prime c) (_added_count c) (_added_next_prime c)
    (_input_final_bytes c) (_output_final_bytes c) (_used_count c)
    (_peel_rows c) (_peel_cols c) (_peel_col_refs c) (_peel_head_rows c)
    (_peel_tail_rows c) (_defer_head_rows c) v (_defer_count c)
    (_ge_matrix c) (_ge_compress_matrix c) (_ge_pitch c) (_ge_rows c)
    (_ge_pivots c) (_ge_row_map c) (_ge_col_map c) (_ge_resume_pivot c)
    (_input_blocks c) (_input_allocated c) (_recovery_blocks c) (heap c).
Definition set_defer_count (v : Z) (c : Codec) : Codec :=
  mkCodec
    (_block_bytes c) (_block_count c) (_block_next_prime c) (_extra_count c)
    (_p_seed c) (_c_seed c) (_light_count c) (_dense_count c)
    (_light_next_prime c) (_added_count c) (_added_next_prime c)
    (_input_final_bytes c) (_output_final_bytes c) (_used_count c)
    (_peel_rows c) (_peel_cols c) (_peel_col_refs c) (_peel_head_rows c)
    (_peel_tail_rows c) (_defer_head_rows c) (_defer_head_columns c) v
    (_ge_matrix c) (_ge_compress_matrix c) (_ge_pitch c) (_ge_rows c)
    (_ge_pivots c) (_ge_row_map c) (_ge_col_map c) (_ge_resume_pivot c)
    (_input_blocks c) (_input_allocated c) (_recovery_blocks c) (heap c).
Definition set_ge_matrix (v : list Z) (c : Codec) : Codec :=
  mkCodec
    (_block_bytes c) (_block_count c) (_block_next_prime c) (_extra_count c)
    (_p_seed c) (_c_seed c) (_light_count c) (_dense_count c)
    (_light_next_prime c) (_added_count c) (_added_next_prime c)
    (_input_final_bytes c) (_output_final_bytes c) (_used_count c)
    (_peel_rows c) (_peel_cols c) (_peel_col_refs c) (_peel_head_rows c)
    (_peel_tail_rows c) (_defer_head_rows c) (_defer_head_columns c)
    (_defer_count c) v (_ge_compress_matrix c) (_ge_pitch c) (_ge_rows c)
    (_ge_pivots c) (_ge_row_map c) (_ge_col_map c) (_ge_resume_pivot c)
    (_input_blocks c) (_input_allocated c) (_recovery_blocks c) (heap c).
Definition set_ge_compress_matrix (v : list Z) (c : Codec) : Codec :=
  mkCodec
    (_block_bytes c) (_block_count c) (_block_next_prime c) (_extra_count c)
    (_p_seed c) (_c_seed c) (_light_count c) (_dense_count c)
    (_light_next_prime c) (_added_count c) (_added_next_prime c)
    (_input_final_bytes c) (_output_final_bytes c) (_used_count c)
    (_peel_rows c) (_peel_cols c) (_peel_col_refs c) (_peel_head_rows c)
    (_peel_tail_rows c) (_defer_head_rows c) (_defer_head_columns c)
    (_defer_count c) (_ge_matrix c) v (_ge_pitch c) (_ge_rows c)
    (_ge_pivots c) (_ge_row_map c) (_ge_col_map c) (_ge_resume_pivot c)
    (_input_blocks c) (_input_allocated c) (_recovery_blocks c) (heap c).
Definition set_ge_pitch (v : Z) (c : Codec) : Codec :=
  mkCodec
    (_block_bytes c) (_block_count c) (_block_next_prime c) (_extra_count c)
    (_p_seed c) (_c_seed c) (_light_count c) (_dense_count c)
    (_light_next_prime c) (_added_count c) (_added_next_prime c)
    (_input_final_bytes c) (_output_final_bytes c) (_used_count c)
    (_peel_rows c) (_peel_cols c) (_peel_col_refs c) (_peel_head_rows c)
    (_peel_tail_rows c) (_defer_head_rows c) (_defer_head_columns c)
    (_defer_count c) (_ge_matrix c) (_ge_compress_matrix c) v (_ge_rows c)
    (_ge_pivots c) (_ge_row_map c) (_ge_col_map c) (_ge_resume_pivot c)
    (_input_blocks c) (_input_allocated c) (_recovery_blocks c) (heap c).
Definition set_ge_rows (v : Z) (c : Codec) : Codec :=
  mkCodec
    (_block_bytes c) (_block_count c) (_block_next_prime c) (_extra_count c)
    (_p_seed c) (_c_seed c) (_light_count c) (_dense_count c)
    (_light_next_prime c) (_added_count c) (_added_next_prime c)
    (_input_final_bytes c) (_output_final_bytes c) (_used_count c)
    (_peel_rows c) (_peel_cols c) (_peel_col_refs c) (_peel_head_rows c)
    (_peel_tail_rows c) (_defer_head_rows c) (_defer_head_columns c)
    (_defer_count c) (_ge_matrix c) (_ge_compress_matrix c) (_ge_pitch c) v
    (_ge_pivots c) (_ge_row_map c) (_ge_col_map c) (_ge_resume_pivot c)
    (_input_blocks c) (_input_allocated c) (_recovery_blocks c) (heap c).
Definition set_ge_pivots (v : list Z) (c : Codec) : Codec :=
  mkCodec
    (_block_bytes c) (_block_count c) (_block_next_prime c) (_extra_count c)
    (_p_seed c) (_c_seed c) (_light_count c) (_dense_count c)
    (_light_next_prime c) (_added_count c) (_added_next_prime c)
    (_input_final_bytes c) (_output_final_bytes c) (_used_count c)
    (_peel_rows c) (_peel_cols c) (_peel_col_refs c) (_peel_head_rows c)
    (_peel_tail_rows c) (_defer_head_rows c) (_defer_head_columns c)
    (_defer_count c) (_ge_matrix c) (_ge_compress_matrix c) (_ge_pitch c)
    (_ge_rows c) v (_ge_row_map c) (_ge_col_map c) (_ge_resume_pivot c)
    (_input_blocks c) (_input_allocated c) (_recovery_blocks c) (heap c).
Definition set_ge_row_map (v : list Z) (c : Codec) : Codec :=
  mkCodec
    (_block_bytes c) (_block_count c) (_block_next_prime c) (_extra_count c)
    (_p_seed c) (_c_seed c) (_light_count c) (_dense_count c)
    (_light_next_prime c) (_added_count c) (_added_next_prime c)
    (_input_final_bytes c) (_output_final_bytes c) (_used_count c)
    (_peel_rows c) (_peel_cols c) (_peel_col_refs c) (_peel_head_rows c)
    (_peel_tail_rows c) (_defer_head_rows c) (_defer_head_columns c)
    (_defer_count c) (_ge_matrix c) (_ge_compress_matrix c) (_ge_pitch c)
    (_ge_rows c) (_ge_pivots c) v (_ge_col_map c) (_ge_resume_pivot c)
    (_input_blocks c) (_input_allocated c) (_recovery_blocks c) (heap c).
Definition set_ge_col_map (v : list Z) (c : Codec) : Codec :=
  mkCodec
    (_block_bytes c) (_block_count c) (_block_next_prime c) (_extra_count c)
    (_p_seed c) (_c_seed c) (_light_count c) (_dense_count c)
    (_light_next_prime c) (_added_count c) (_added_next_prime c)
    (_input_final_bytes c) (_output_final_bytes c) (_used_count c)
    (_peel_rows c) (_peel_cols c) (_peel_col_refs c) (_peel_head_rows c)
    (_peel_tail_rows c) (_defer_head_rows c) (_defer_head_columns c)
    (_defer_count c) (_ge_matrix c) (_ge_compress_matrix c) (_ge_pitch c)
    (_ge_rows c) (_ge_pivots c) (_ge_row_map c) v (_ge_resume_pivot c)
    (_input_blocks c) (_input_allocated c) (_recovery_blocks c) (heap c).
Definition set_ge_resume_pivot (v : Z) (c : Codec) : Codec :=
  mkCodec
    (_block_bytes c) (_block_count c) (_block_next_prime c) (_extra_count c)
    (_p_seed c) (_c_seed c) (_light_count c) (_dense_count c)
    (_light_next_prime c) (_added_count c) (_added_next_prime c)
    (_input_final_bytes c) (_output_final_bytes c) (_used_count c)
    (_peel_rows c) (_peel_cols c) (_peel_col_refs c) (_peel_head_rows c)
    (_peel_tail_rows c) (_defer_head_rows c) (_defer_head_columns c)
    (_defer_count c) (_ge_matrix c) (_ge_compress_matrix c) (_ge_pitch c)
    (_ge_rows c) (_ge_pivots c) (_ge_row_map c) (_ge_col_map c) v
    (_input_blocks c) (_input_allocated c) (_recovery_blocks c) (heap c).
Definition set_input_blocks (v : list Z) (c : Codec) : Codec :=
  mkCodec
    (_block_bytes c) (_block_count c) (_block_next_prime c) (_extra_count c)
    (_p_seed c) (_c_seed c) (_light_count c) (_dense_count c)
    (_light_next_prime c) (_added_count c) (_added_next_prime c)
    (_input_final_bytes c) (_output_final_bytes c) (_used_count c)
    (_peel_rows c) (_peel_cols c) (_peel_col_refs c) (_peel_head_rows c)
    (_peel_tail_rows c) (_defer_head_rows c) (_defer_head_columns c)
    (_defer_count c) (_ge_matrix c) (_ge_compress_matrix c) (_ge_pitch c)
    (_ge_rows c) (_ge_pivots c) (_ge_row_map c) (_ge_col_map c)
    (_ge_resume_pivot c) v (_input_allocated c) (_recovery_blocks c) (heap c).
Definition set_input_allocated (v : bool) (c : Codec) : Codec :=
  mkCodec
    (_block_bytes c) (_block_count c) (_block_next_prime c) (_extra_count c)
    (_p_seed c) (_c_seed c) (_light_count c) (_dense_count c)
    (_light_next_prime c) (_added_count c) (_added_next_prime c)
    (_input_final_bytes c) (_output_final_bytes c) (_used_count c)
    (_peel_rows c) (_peel_cols c) (_peel_col_refs c) (_peel_head_rows c)
    (_peel_tail_rows c) (_defer_head_rows c) (_defer_head_columns c)
    (_defer_count c) (_ge_matrix c) (_ge_compress_matrix c) (_ge_pitch c)
    (_ge_rows c) (_ge_pivots c) (_ge_row_map c) (_ge_col_map c)
    (_ge_resume_pivot c) (_input_blocks c) v (_recovery_blocks c) (heap c).
Definition set_recovery_blocks (v : list Z) (c : Codec) : Codec :=
  mkCodec
    (_block_bytes c) (_block_count c) (_block_next_prime c) (_extra_count c)
    (_p_seed c) (_c_seed c) (_light_count c) (_dense_count c)
    (_light_next_prime c) (_added_count c) (_added_next_prime c)
    (_input_final_bytes c) (_output_final_bytes c) (_used_count c)
    (_peel_rows c) (_peel_cols c) (_peel_col_refs c) (_peel_head_rows c)
    (_peel_tail_rows c) (_defer_head_rows c) (_defer_head_columns c)
    (_defer_count c) (_ge_matrix c) (_ge_compress_matrix c) (_ge_pitch c)
    (_ge_rows c) (_ge_pivots c) (_ge_row_map c) (_ge_col_map c)
    (_ge_resume_pivot c) (_input_blocks c) (_input_allocated c) v (heap c).
Definition set_heap (v : list Z) (c : Codec) : Codec :=
  mkCodec
    (_block_bytes c) (_block_count c) (_block_next_prime c) (_extra_count c)
    (_p_seed c) (_c_seed c) (_light_count c) (_dense_count c)
    (_light_next_prime c) (_added_count c) (_added_next_prime c)
    (_input_final_bytes c) (_output_final_bytes c) (_used_count c)
    (_peel_rows c) (_peel_cols c) (_peel_col_refs c) (_peel_head_rows c)
    (_peel_tail_rows c) (_defer_head_rows c) (_defer_head_columns c)
    (_defer_count c) (_ge_matrix c) (_ge_compress_matrix c) (_ge_pitch c)
    (_ge_rows c) (_ge_pivots c) (_ge_row_map c) (_ge_col_map c)
    (_ge_resume_pivot c) (_input_blocks c) (_input_allocated c)
    (_recovery_blocks c) v.

(** ** What [Wirehair.cpp] takes from its headers

    [Wirehair.hpp] and [memxor.hpp] are not part of the sources.  The
    constants and switches they define, the column iterator, the
    generator class and the allocator are gathered in one interface. *)
Class Header := {
  CAT_REF_LIST_MAX : Z;
  CAT_MAX_EXTRA_ROWS : Z;
  LIST_TERM : Z;
  (** whether [CAT_COPY_FIRST_N] is defined *)
  CAT_COPY_FIRST_N : bool;
  (** [IterateNextColumn(x, b, p, a)]: the new value of [x] *)
  IterateNextColumn : Z -> Z -> Z -> Z -> Z;
  Generator : CatsChoice;
  (** [operator new]: given the requests made so far and an element
      count, whether the allocation succeeds *)
  new_ok : list Z -> Z -> bool;
  (** the contents of a fresh array, which C++ leaves indeterminate:
      given the requests made so far and the element count, the value
      found in the scalar cell [k] of the array *)
  new_cell : list Z -> Z -> Z -> Z
}.

(** The members that no step after setup assigns, apart from the feed
    operations themselves: block size and count, the final block
    lengths, the row counter, the input blocks, the peel seed, and the
    number of added columns with the primes that go with the counts. *)
Definition same_setup (c c' : Codec) : Prop :=
  _block_bytes c' = _block_bytes c /\
  _block_count c' = _block_count c /\
  _input_final_bytes c' = _input_final_bytes c /\
  _used_count c' = _used_count c /\
  _input_blocks c' = _input_blocks c /\
  _block_next_prime c' = _block_next_prime c /\
  _p_seed c' = _p_seed c /\
  _added_count c' = _added_count c /\
  _added_next_prime c' = _added_next_prime c /\
  _extra_count c' = _extra_count c /\
  _output_final_bytes c' = _output_final_bytes c.

(** The compression steps that follow [AllocateMatrix] in [SolveMatrix]
    ([SetDeferredColumns] to [AddInvertibleGF2Matrix]) and the
    substitution phase [GenerateRecoveryBlocks].  Their text depends on
    compile-time switches of the header and on the generator; the facade
    is parametric in them.  In the source they only read the members of
    [same_setup]. *)
Class Phases := {
  Compress : Codec -> Codec;
  GenerateRecoveryBlocks : Codec -> Codec;
  Compress_setup : forall c, same_setup c (Compress c);
  GenerateRecoveryBlocks_setup : forall c, same_setup c (GenerateRecoveryBlocks c)
}.

(** ** Byte ranges *)

Definition load (mem : list Z) (off n : Z) : list Z :=
  map (fun k => sel 0 mem (off + k)) (seqZ 0 n).

Fixpoint store (mem : list Z) (off : Z) (bytes : list Z) : list Z :=
  match bytes with
  | [] => mem
  | b :: rest => store (upd mem off b) (off + 1) rest
  end.

Definition xor_bytes (a b : list Z) : list Z := zip_with Z.lxor a b.

(** Memory owned by the caller ([block_out], [message_out]) is a finite
    map from offsets to bytes, so that every stored offset is visible.
    [bload] and [bstore] read and write a range of it. *)
Definition bload (m : gmap Z Z) (off n : Z) : list Z :=
  map (fun k => default 0 (m !! (off + k))) (seqZ 0 n).

Fixpoint bstore (m : gmap Z Z) (off : Z) (bytes : list Z) : gmap Z Z :=
  match bytes with
  | [] => m
  | b :: rest => bstore (<[off := b]> m) (off + 1) rest
  end.

(** Modelled from the spec: the block XOR primitives of [memxor.hpp],
    which is not part of the sources.  [memxor(dst, src, n)] is
    dst := dst xor src, [memxor_set(dst, a, b, n)] is dst := a xor b and
    [memxor_add(dst, a, b, n)] is dst := dst xor a xor b, on [n] bytes.
    Sources are given as the bytes read. *)
Definition memxor (mem : list Z) (dst : Z) (src : list Z) (n : Z) : list Z :=
  store mem dst (xor_bytes (load mem dst n) src).
Definition memxor_set (mem : list Z) (dst : Z) (a b : list Z) : list Z :=
  store mem dst (xor_bytes a b).
Definition memxor_add (mem : list Z) (dst : Z) (a b : list Z) (n : Z) : list Z :=
  store mem dst (xor_bytes (load mem dst n) (xor_bytes a b)).

Definition bmemxor (m : gmap Z Z) (dst : Z) (src : list Z) (n : Z) : gmap Z Z :=
  bstore m dst (xor_bytes (bload m dst n) src).
Definition bmemxor_set (m : gmap Z Z) (dst : Z) (a b : list Z) : gmap Z Z :=
  bstore m dst (xor_bytes a b).
Definition bmemxor_add (m : gmap Z Z) (dst : Z) (a b : list Z) (n : Z) : gmap Z Z :=
  bstore m dst (xor_bytes (bload m dst n) (xor_bytes a b)).

(** ** (1) Peeling *)

Section Peeling.
Context {H : Header}.

Definition get_row (c : Codec) (i : Z) : PeelRow.t :=
  sel PeelRow.zero (_peel_rows c) i.
Definition modify_row (f : PeelRow.t -> PeelRow.t) (i : Z) (c : Codec) : Codec :=
  set_peel_rows (upd (_peel_rows c) i (f (get_row c i))) c.

Definition get_col (c : Codec) (i : Z) : PeelColumn.t :=
  sel PeelColumn.zero (_peel_cols c) i.
Definition modify_col (f : PeelColumn.t -> PeelColumn.t) (i : Z) (c : Codec) : Codec :=
  set_peel_cols (upd (_peel_cols c) i (f (get_col c i))) c.

Definition get_refs (c : Codec) (i : Z) : PeelRefs.t :=
  sel PeelRefs.zero (_peel_col_refs c) i.
Definition put_refs (i : Z) (r : PeelRefs.t) (c : Codec) : Codec :=
  set_peel_col_refs (upd (_peel_col_refs c) i r) c.

Definition is_todo (c : Codec) (column_i : Z) : bool :=
  MarkTypes_eqb (PeelColumn.mark (get_col c column_i)) MARK_TODO.

(** Trip count of [for (;;) { ...; if (--weight <= 0) break; ... }]
    on a 16-bit [weight]: a zero weight wraps around. *)
Definition walk_count (weight : Z) : nat :=
  Z.to_nat (if weight =? 0 then 2^16 else weight).

(** [++] on a 16-bit cell of a column. *)
Definition incr_w2_refs (c : PeelColumn.t) : PeelColumn.t :=
  PeelColumn.set_w2_refs (u16 (PeelColumn.w2_refs c + 1)) c.

(** [row->next = _defer_head_rows; _defer_head_rows = row_i;] *)
Definition link_deferred_row (row_i : Z) (c : Codec) : Codec :=
  let c := modify_row (PeelRow.set_next (_defer_head_rows c)) row_i c in
  set_defer_head_rows row_i c.

(** The column loop of [OpportunisticPeeling].  [n] is the number of
    iterations left, [uc] and [um] are the locals [unmarked_count] and
    [unmarked].  The result is [None] when the loop leaves through
    [return false]; the codec is returned as the loop left it. *)
Fixpoint AddRowReferences (n : nat) (row_i column_i a uc : Z) (um : Z * Z)
    (c : Codec) : option (Z * (Z * Z)) * Codec :=
  match n with
  | O => (Some (uc, um), c)
  | S n' =>
      let refs := get_refs c column_i in
      if CAT_REF_LIST_MAX <=? PeelRefs.row_count refs then (None, c)
      else
        let refs' :=
          PeelRefs.mk (u16 (PeelRefs.row_count refs + 1))
            (upd (PeelRefs.rows refs) (PeelRefs.row_count refs) (u16 row_i)) in
        let todo := is_todo c column_i in
        let c := put_refs column_i refs' c in
        let um :=
          if todo then
            if Z.land uc 1 =? 0 then (column_i, snd um) else (fst um, column_i)
          else um in
        let uc := if todo then u16 (uc + 1) else uc in
        match n' with
        | O => (Some (uc, um), c)
        | S _ =>
            AddRowReferences n' row_i
              (IterateNextColumn column_i (_block_count c) (_block_next_prime c) a)
              a uc um c
        end
  end.

(** The regeneration loop of [PeelAvalanche] for a row whose count
    dropped to two; the result carries the local [unmarked_count]. *)
Fixpoint RescanRow (n : nat) (ref_row_i ref_column_i ref_a uc : Z)
    (c : Codec) : Z * Codec :=
  match n with
  | O => (uc, c)
  | S n' =>
      let todo := is_todo c ref_column_i in
      let c :=
        if todo then
          let c := modify_row (PeelRow.set_unmarked uc ref_column_i) ref_row_i c in
          modify_col incr_w2_refs ref_column_i c
        else c in
      let uc := if todo then u16 (uc + 1) else uc in
      match n' with
      | O => (uc, c)
      | S _ =>
          RescanRow n' ref_row_i
            (IterateNextColumn ref_column_i (_block_count c) (_block_next_prime c) ref_a)
            ref_a uc c
      end
  end.

(** One iteration of the [while (ref_row_count--)] loop of
    [PeelAvalanche]; [peel] is the call to [Peel]. *)
Definition PeelAvalanche_row (peel : Z -> Z -> Codec -> option Codec)
    (column_i ref_row_i : Z) (c : Codec) : option Codec :=
  let unmarked_count := u16 (PeelRow.unmarked_count (get_row c ref_row_i) - 1) in
  let c := modify_row (PeelRow.set_unmarked_count unmarked_count) ref_row_i c in
  let ref_row := get_row c ref_row_i in
  if unmarked_count =? 1 then
    let new_column_i :=
      if PeelRow.unmarked0 ref_row =? column_i then PeelRow.unmarked1 ref_row
      else PeelRow.unmarked0 ref_row in
    if is_todo c new_column_i then peel ref_row_i new_column_i c
    else Some (link_deferred_row ref_row_i c)
  else if unmarked_count =? 2 then
    let '(uc, c) :=
      RescanRow (walk_count (PeelRow.peel_weight ref_row)) ref_row_i
        (PeelRow.peel_x0 ref_row) (PeelRow.peel_a ref_row) 0 c in
    if uc <=? 1 then
      let c := modify_row (PeelRow.set_unmarked_count 0) ref_row_i c in
      if uc =? 1 then peel ref_row_i (PeelRow.unmarked0 (get_row c ref_row_i)) c
      else Some (link_deferred_row ref_row_i c)
    else Some c
  else Some c.

Fixpoint PeelAvalanche_rows (peel : Z -> Z -> Codec -> option Codec)
    (column_i : Z) (ref_rows : list Z) (c : Codec) : option Codec :=
  match ref_rows with
  | [] => Some c
  | ref_row_i :: rest =>
      match PeelAvalanche_row peel column_i ref_row_i c with
      | Some c' => PeelAvalanche_rows peel column_i rest c'
      | None => None
      end
  end.

(** The reference list of a column is not written during an
    avalanche, so its [row_count] entries are read up front. *)
Definition PeelAvalanche (peel : Z -> Z -> Codec -> option Codec)
    (column_i : Z) (c : Codec) : option Codec :=
  let refs := get_refs c column_i in
  PeelAvalanche_rows peel column_i
    (map (sel 0 (PeelRefs.rows refs)) (seqZ 0 (PeelRefs.row_count refs))) c.

(** [Peel(row_i, row, column_i)], where [row] is the index of the row
    the pointer refers to.  [Peel] and [PeelAvalanche] call each
    other; [fuel] bounds the depth of the nesting. *)
Fixpoint Peel (fuel : nat) (row_i row column_i : Z) (c : Codec)
    : option Codec :=
  match fuel with
  | O => None
  | S fuel' =>
      let c := modify_col (PeelColumn.set_mark MARK_PEEL) column_i c in
      let c := modify_row (PeelRow.set_peel_column column_i) row c in
      let c :=
        match _peel_tail_rows c with
        | Some tail => modify_row (PeelRow.set_next row_i) tail c
        | None => set_peel_head_rows row_i c
        end in
      let c := modify_row (PeelRow.set_next LIST_TERM) row c in
      let c := set_peel_tail_rows (Some row) c in
      let c := modify_row (PeelRow.set_is_copied 0) row c in
      match PeelAvalanche (fun r => Peel fuel' r r) column_i c with
      | Some c => Some (modify_col (PeelColumn.set_peel_row row_i) column_i c)
      | None => None
      end
  end.

(** [OpportunisticPeeling(row_i, id)]; [None] when [fuel] runs out. *)
Definition OpportunisticPeeling (fuel : nat) (row_i id : Z) (c : Codec)
    : option (bool * Codec) :=
  let shape :=
    GeneratePeelRow Generator id (_p_seed c) (_block_count c) (_added_count c) in
  let c := modify_row (PeelRow.set_id (u32 id)) row_i c in
  let c := modify_row (PeelRow.set_shape shape) row_i c in
  match AddRowReferences (walk_count (RowShape.peel_weight shape)) row_i
          (RowShape.peel_x0 shape) (RowShape.peel_a shape) 0 (0, 0) c with
  | (None, c) => Some (false, c)
  | (Some (unmarked_count, unmarked), c) =>
      let c := modify_row (PeelRow.set_unmarked_count unmarked_count) row_i c in
      if unmarked_count =? 0 then Some (true, link_deferred_row row_i c)
      else if unmarked_count =? 1 then
        match Peel fuel (u16 row_i) row_i (fst unmarked) c with
        | Some c => Some (true, c)
        | None => None
        end
      else if unmarked_count =? 2 then
        let c := modify_row (PeelRow.set_unmarked0 (fst unmarked)) row_i c in
        let c := modify_row (PeelRow.set_unmarked1 (snd unmarked)) row_i c in
        let c := modify_col incr_w2_refs (fst unmarked) c in
        let c := modify_col incr_w2_refs (snd unmarked) c in
        Some (true, c)
      else Some (true, c)
  end.

(** The column scan of [GreedyPeeling]: the locals [best_column_i],
    [best_w2_refs] and [best_row_count] after columns
    [column_i .. column_i + n) have been looked at. *)
Fixpoint GreedyBest (n : nat) (column_i : Z) (best : Z * Z * Z) (c : Codec)
    : Z * Z * Z :=
  match n with
  | O => best
  | S n' =>
      let '(best_column_i, best_w2_refs, best_row_count) := best in
      let column := get_col c column_i in
      let best :=
        if MarkTypes_eqb (PeelColumn.mark column) MARK_TODO then
          let w2_refs := PeelColumn.w2_refs column in
          if best_w2_refs <=? w2_refs then
            let row_count := PeelRefs.row_count (get_refs c column_i) in
            if (best_w2_refs <? w2_refs) || (best_row_count <=? row_count)
            then (column_i, w2_refs, row_count)
            else best
          else best
        else best in
      GreedyBest n' (column_i + 1) best c
  end.

(** The [for (;;)] loop of [GreedyPeeling]. *)
Fixpoint GreedyPeeling_loop (fuel : nat) (c : Codec) : option Codec :=
  match fuel with
  | O => None
  | S fuel' =>
      let '(best_column_i, _, _) :=
        GreedyBest (Z.to_nat (_block_count c)) 0 (LIST_TERM, 0, 0) c in
      if best_column_i =? LIST_TERM then Some c
      else
        let c := modify_col (PeelColumn.set_mark MARK_DEFER) best_column_i c in
        let c := set_defer_count (_defer_count c + 1) c in
        let c :=
          modify_col (PeelColumn.set_next (_defer_head_columns c)) best_column_i c in
        let c := set_defer_head_columns best_column_i c in
        match PeelAvalanche (fun r => Peel fuel' r r) best_column_i c with
        | Some c => GreedyPeeling_loop fuel' c
        | None => None
        end
  end.

Definition GreedyPeeling (fuel : nat) (c : Codec) : option Codec :=
  let c := set_defer_head_columns LIST_TERM c in
  let c := set_defer_count 0 c in
  GreedyPeeling_loop fuel c.
End Peeling.

(** ** (3) Gaussian elimination *)

(** [for (...; ii < limit; ++ii) dst[ii] ^= src[ii];] inside one word
    array, [n] iterations from [ii]. *)
Fixpoint xor_words (n : nat) (ii dst src : Z) (m : list Z) : list Z :=
  match n with
  | O => m
  | S n' =>
      xor_words n' (ii + 1) dst src
        (upd m (dst + ii) (Z.lxor (sel 0 m (dst + ii)) (sel 0 m (src + ii))))
  end.

(** The same loop with the source row in another array. *)
Fixpoint xor_words_from (n : nat) (ii dst : Z) (from : list Z) (src : Z)
    (m : list Z) : list Z :=
  match n with
  | O => m
  | S n' =>
      xor_words_from n' (ii + 1) dst from src
        (upd m (dst + ii) (Z.lxor (sel 0 m (dst + ii)) (sel 0 from (src + ii))))
  end.

(** [row[column >> 6] ^= (u64)1 << (column & 63);] for the row that
    starts at word [row]. *)
Definition flip_bit (row column : Z) (m : list Z) : list Z :=
  let w := row + Z.shiftr column 6 in
  upd m w (Z.lxor (sel 0 m w) (Z.shiftl 1 (Z.land column 63))).

(** [bit & mask] as a condition. *)
Definition masked (word ge_mask : Z) : bool := negb (Z.land word ge_mask =? 0).

(** The masked first word [row0] of a pivot row, from the word that
    holds the pivot bit: the bits below the pivot bit are removed by
    [& ~(ge_mask - 1)] and the pivot bit itself by [^ ge_mask]. *)
Definition masked_first_word (word ge_mask : Z) : Z :=
  Z.lxor (Z.land word (not64 (ge_mask - 1))) ge_mask.


(** The pivot search: the first [pivot_j] of [n] consecutive pivots,
    starting at [pivot_j], whose row has the bit of the column. *)
Fixpoint pivot_search (n : nat) (pivot_j word_offset ge_mask : Z) (c : Codec)
    : option Z :=
  match n with
  | O => None
  | S n' =>
      let ge_row_j := sel 0 (_ge_pivots c) pivot_j in
      let ge_row := word_offset + _ge_pitch c * ge_row_j in
      if masked (sel 0 (_ge_matrix c) ge_row) ge_mask then Some pivot_j
      else pivot_search n' (u16 (pivot_j + 1)) word_offset ge_mask c
  end.

(** The loop over the remaining rows: the row at word [ge_row] is
    added to each of [n] rows from [pivot_k] on that has the bit. *)
Fixpoint pivot_eliminate (n : nat) (pivot_k word_offset ge_mask row0 ge_row : Z)
    (c : Codec) : Codec :=
  match n with
  | O => c
  | S n' =>
      let ge_row_k := sel 0 (_ge_pivots c) pivot_k in
      let rem_row := word_offset + _ge_pitch c * ge_row_k in
      let m := _ge_matrix c in
      let c :=
        if masked (sel 0 m rem_row) ge_mask then
          let m := upd m rem_row (Z.lxor (sel 0 m rem_row) row0) in
          set_ge_matrix
            (xor_words (Z.to_nat (_ge_pitch c - word_offset - 1)) 1 rem_row ge_row m) c
        else c in
      pivot_eliminate n' (u16 (pivot_k + 1)) word_offset ge_mask row0 ge_row c
  end.

(** One pivot column: search among the pivots [pivot_i .. row_limit),
    swap, eliminate below.  [None] when no pivot is found. *)
Definition pivot_column (row_limit pivot_i ge_mask : Z) (c : Codec)
    : option Codec :=
  let word_offset := Z.shiftr pivot_i 6 in
  match pivot_search (Z.to_nat (row_limit - pivot_i)) pivot_i word_offset ge_mask c with
  | None => None
  | Some pivot_j =>
      let ge_row_j := sel 0 (_ge_pivots c) pivot_j in
      let ge_row := word_offset + _ge_pitch c * ge_row_j in
      let temp := sel 0 (_ge_pivots c) pivot_i in
      let pivots := upd (_ge_pivots c) pivot_i (sel 0 (_ge_pivots c) pivot_j) in
      let pivots := upd pivots pivot_j temp in
      let c := set_ge_pivots pivots c in
      let row0 := masked_first_word (sel 0 (_ge_matrix c) ge_row) ge_mask in
      Some (pivot_eliminate (Z.to_nat (row_limit - (pivot_j + 1)))
              (u16 (pivot_j + 1)) word_offset ge_mask row0 ge_row c)
  end.

(** The loop over the pivots to determine, [n] of them from [pivot_i]
    on; on failure [_ge_resume_pivot] is set. *)
Fixpoint pivot_loop (n : nat) (row_limit pivot_i ge_mask : Z) (c : Codec)
    : bool * Codec :=
  match n with
  | O => (true, c)
  | S n' =>
      match pivot_column row_limit pivot_i ge_mask c with
      | None => (false, set_ge_resume_pivot pivot_i c)
      | Some c =>
          pivot_loop n' row_limit (u16 (pivot_i + 1)) (CAT_ROL64 ge_mask 1) c
      end
  end.

(** [_ge_pivots[pivot_i] = pivot_i] for the first [n] pivots. *)
Fixpoint init_pivots (n : nat) (pivot_i : Z) (pivots : list Z) : list Z :=
  match n with
  | O => pivots
  | S n' => init_pivots n' (u16 (pivot_i + 1)) (upd pivots pivot_i pivot_i)
  end.

Definition Triangle (c : Codec) : bool * Codec :=
  let pivot_count := u16 (_defer_count c + _added_count c) in
  let c := set_ge_pivots (init_pivots (Z.to_nat pivot_count) 0 (_ge_pivots c)) c in
  pivot_loop (Z.to_nat pivot_count) pivot_count 0 1 c.


(** [AddSubdiagonalValues]: for each pivot, the recovery blocks of the
    earlier pivots whose bit is set in the pivot's GE row are added to
    the pivot's recovery block. *)
Fixpoint AddSubdiagonalValues_row (n : nat) (ge_column_i ge_mask ge_row buffer_dest : Z)
    (c : Codec) : Codec :=
  match n with
  | O => c
  | S n' =>
      let c :=
        if masked (sel 0 (_ge_matrix c) (ge_row + Z.shiftr ge_column_i 6)) ge_mask then
          let column_i := sel 0 (_ge_col_map c) ge_column_i in
          let peel_src :=
            load (_recovery_blocks c) (_block_bytes c * column_i) (_block_bytes c) in
          set_recovery_blocks
            (memxor (_recovery_blocks c) buffer_dest peel_src (_block_bytes c)) c
        else c in
      AddSubdiagonalValues_row n' (u16 (ge_column_i + 1)) (CAT_ROL64 ge_mask 1)
        ge_row buffer_dest c
  end.

Fixpoint AddSubdiagonalValues_loop (n : nat) (pivot_i : Z) (c : Codec) : Codec :=
  match n with
  | O => c
  | S n' =>
      let pivot_column_i := sel 0 (_ge_col_map c) pivot_i in
      let ge_row_i := sel 0 (_ge_pivots c) pivot_i in
      let buffer_dest := _block_bytes c * pivot_column_i in
      let ge_row := _ge_pitch c * ge_row_i in
      let c := AddSubdiagonalValues_row (Z.to_nat pivot_i) 0 1 ge_row buffer_dest c in
      AddSubdiagonalValues_loop n' (u16 (pivot_i + 1)) c
  end.

Definition AddSubdiagonalValues (c : Codec) : Codec :=
  let ge_rows := u16 (_defer_count c + _added_count c) in
  AddSubdiagonalValues_loop (Z.to_nat ge_rows) 0 c.

(** ** Resuming the elimination with one more row *)

Section Resume.
Context {H : Header}.

(** The search for a non-check row to reuse: the value of [ge_row_i]
    when the loop ends ([ge_row_i] is its value before the loop). *)
Fixpoint reuse_search (n : nat) (pivot_i ge_row_i : Z) (c : Codec) : Z :=
  match n with
  | O => ge_row_i
  | S n' =>
      let ge_row_i := sel 0 (_ge_pivots c) pivot_i in
      if _added_count c <=? ge_row_i then ge_row_i
      else reuse_search n' (u16 (pivot_i + 1)) ge_row_i c
  end.

(** The choice of the slots [(row_i, ge_row_i)].  The local [ge_row_i]
    has no initial value in the source; it is 0 here. *)
Definition Resume_slot (c : Codec) : Z * Z * Codec :=
  if _block_count c + _extra_count c <=? _used_count c then
    let ge_row_i :=
      reuse_search (Z.to_nat (_ge_rows c - _ge_resume_pivot c))
        (_ge_resume_pivot c) 0 c in
    (u16 (sel 0 (_ge_row_map c) ge_row_i), ge_row_i, c)
  else
    let ge_row_i := u16 (_ge_rows c) in
    let row_i := u16 (_used_count c) in
    let c := set_ge_rows (_ge_rows c + 1) c in
    let c := set_used_count (_used_count c + 1) c in
    let c := set_ge_row_map (upd (_ge_row_map c) ge_row_i row_i) c in
    (row_i, ge_row_i, c).

(** The three mixing bits of a row, flipped in the GE row that starts
    at word [ge_new_row]. *)
Definition flip_mix_bits (c : Codec) (mix_x mix_a ge_new_row : Z) (m : list Z)
    : list Z :=
  let m := flip_bit ge_new_row (u16 (mix_x + _defer_count c)) m in
  let mix_x := IterateNextColumn mix_x (_added_count c) (_added_next_prime c) mix_a in
  let m := flip_bit ge_new_row (u16 (mix_x + _defer_count c)) m in
  let mix_x := IterateNextColumn mix_x (_added_count c) (_added_next_prime c) mix_a in
  flip_bit ge_new_row (u16 (mix_x + _defer_count c)) m.

(** The loop over the peel columns of the new row. *)
Fixpoint add_peel_columns (n : nat) (c : Codec) (peel_x peel_a ge_new_row : Z)
    (m : list Z) : list Z :=
  match n with
  | O => m
  | S n' =>
      let ref_col := sel PeelColumn.zero (_peel_cols c) peel_x in
      let m :=
        if MarkTypes_eqb (PeelColumn.mark ref_col) MARK_PEEL then
          let ge_src_row := _ge_pitch c * PeelColumn.peel_row ref_col in
          xor_words_from (Z.to_nat (_ge_pitch c)) 0 ge_new_row
            (_ge_compress_matrix c) ge_src_row m
        else flip_bit ge_new_row (PeelColumn.ge_column ref_col) m in
      match n' with
      | O => m
      | S _ =>
          add_peel_columns n' c
            (IterateNextColumn peel_x (_block_count c) (_block_next_prime c) peel_a)
            peel_a ge_new_row m
      end
  end.

(** The new GE row, built in place from a cleared row. *)
Definition Resume_new_row (c : Codec) (shape : RowShape.t) (ge_new_row : Z)
    : list Z :=
  let m := store (_ge_matrix c) ge_new_row (replicate (Z.to_nat (_ge_pitch c)) 0) in
  let m :=
    flip_mix_bits c (RowShape.mix_x0 shape) (RowShape.mix_a shape) ge_new_row m in
  add_peel_columns (walk_count (RowShape.peel_weight shape)) c
    (RowShape.peel_x0 shape) (RowShape.peel_a shape) ge_new_row m.

(** The replay of the pivots below the resume point on the new row;
    the result carries the mask of the next pivot. *)
Fixpoint Resume_replay (n : nat) (pivot_j ge_mask ge_new_row : Z) (c : Codec)
    (m : list Z) : Z * list Z :=
  match n with
  | O => (ge_mask, m)
  | S n' =>
      let word_offset := Z.shiftr pivot_j 6 in
      let rem_row := ge_new_row + word_offset in
      let m :=
        if masked (sel 0 m rem_row) ge_mask then
          let ge_pivot_j := sel 0 (_ge_pivots c) pivot_j in
          let ge_pivot_row := word_offset + _ge_pitch c * ge_pivot_j in
          let row0 := masked_first_word (sel 0 m ge_pivot_row) ge_mask in
          let m := upd m rem_row (Z.lxor (sel 0 m rem_row) row0) in
          xor_words (Z.to_nat (_ge_pitch c - word_offset - 1)) 1 rem_row ge_pivot_row m
        else m in
      Resume_replay n' (u16 (pivot_j + 1)) (CAT_ROL64 ge_mask 1) ge_new_row c m
  end.

Definition ResumeSolveMatrix (id : Z) (block : list Z) (c : Codec)
    : bool * Codec :=
  let '(row_i, ge_row_i, c) := Resume_slot c in
  let c :=
    set_peel_rows
      (upd (_peel_rows c) row_i
         (PeelRow.set_id (u32 id) (sel PeelRow.zero (_peel_rows c) row_i))) c in
  let c :=
    set_input_blocks
      (store (_input_blocks c) (_block_bytes c * row_i)
         (load block 0 (_block_bytes c))) c in
  let ge_new_row := _ge_pitch c * ge_row_i in
  let shape :=
    GeneratePeelRow Generator id (_p_seed c) (_block_count c) (_added_count c) in
  let c :=
    set_peel_rows
      (upd (_peel_rows c) row_i
         (PeelRow.set_shape shape (sel PeelRow.zero (_peel_rows c) row_i))) c in
  let m := Resume_new_row c shape ge_new_row in
  let pivot_i := u16 (_ge_resume_pivot c) in
  let '(ge_mask, m) := Resume_replay (Z.to_nat pivot_i) 0 1 ge_new_row c m in
  let c := set_ge_matrix m c in
  if negb (masked (sel 0 m (ge_new_row + Z.shiftr pivot_i 6)) ge_mask) then
    (false, set_ge_pivots (upd (_ge_pivots c) ge_row_i ge_row_i) c)
  else
    let pivots := upd (_ge_pivots c) ge_row_i (sel 0 (_ge_pivots c) pivot_i) in
    let pivots := upd pivots pivot_i ge_row_i in
    let c := set_ge_pivots pivots c in
    let pivot_count := u16 (_defer_count c + _added_count c) in
    pivot_loop (Z.to_nat (pivot_count - u16 (pivot_i + 1))) (_ge_rows c)
      (u16 (pivot_i + 1)) (CAT_ROL64 ge_mask 1) c.
End Resume.

(** ** Memory management *)

Section Memory.
Context {H : Header}.

(** [new T[n]]: the array (null, the empty list, on failure), whether
    it is non-null, and the codec with the request recorded.  The
    contents of a fresh array are indeterminate in C++: element [k] is
    [fresh k], which the caller builds from the cells [new_cell] of the
    allocation. *)
Definition operator_new {A} (fresh : Z -> A) (n : Z) (c : Codec)
    : list A * bool * Codec :=
  if new_ok (heap c) n then
    (map fresh (seqZ 0 n), true, set_heap (n :: heap c) c)
  else ([], false, c).

(** Element [k] of a fresh array of [n] bytes, 16-bit or 64-bit
    words, requested from the codec [c]. *)
Definition fresh_u8 (c : Codec) (n k : Z) : Z := u8 (new_cell (heap c) n k).
Definition fresh_u16 (c : Codec) (n k : Z) : Z := u16 (new_cell (heap c) n k).
Definition fresh_u64 (c : Codec) (n k : Z) : Z := u64 (new_cell (heap c) n k).

(** The mark found in a cell that was never written.  The source
    reads the mark of a column only after the loop of
    [AllocateWorkspace] has stored [MARK_TODO] in it. *)
Definition fresh_mark (v : Z) : MarkTypes :=
  if v =? 1 then MARK_PEEL else if v =? 2 then MARK_DEFER else MARK_TODO.

(** Element [k] of a fresh array of [n] rows, columns or reference
    lists: every member holds what its cell held.  A reference list
    has [CAT_REF_LIST_MAX] cells for rows. *)
Definition fresh_row (c : Codec) (n k : Z) : PeelRow.t :=
  let cell j := new_cell (heap c) n (10 * k + j) in
  PeelRow.mk (u16 (cell 0)) (u32 (cell 1)) (u16 (cell 2)) (u16 (cell 3))
    (u16 (cell 4)) (u16 (cell 5)) (u16 (cell 6)) (u16 (cell 7))
    (u16 (cell 8)) (u16 (cell 9)).

Definition fresh_column (c : Codec) (n k : Z) : PeelColumn.t :=
  let cell j := new_cell (heap c) n (3 * k + j) in
  PeelColumn.mk (u16 (cell 0)) (u16 (cell 1)) (fresh_mark (cell 2)).

Definition fresh_refs (c : Codec) (n k : Z) : PeelRefs.t :=
  let cell j := new_cell (heap c) n ((1 + CAT_REF_LIST_MAX) * k + j) in
  PeelRefs.mk (u16 (cell 0))
    (map (fun j => u16 (cell (1 + j))) (seqZ 0 CAT_REF_LIST_MAX)).

Definition SetInput (message_in : list Z) (c : Codec) : Codec :=
  (* FreeInput() *)
  let c := if _input_allocated c then set_input_blocks [] c else c in
  let c := set_input_blocks message_in c in
  set_input_allocated false c.

Definition AllocateInput (c : Codec) : bool * Codec :=
  (* FreeInput() *)
  let c := if _input_allocated c then set_input_blocks [] c else c in
  let c := set_input_allocated true c in
  let input_size := (_block_count c + _extra_count c) * _block_bytes c in
  let '(a, ok, c) := operator_new (fresh_u8 c input_size) input_size c in
  (ok, set_input_blocks a c).

(** [_ge_row_map] and [_ge_col_map] point into the allocation of
    [_ge_pivots], behind the [pivot_count] pivots. *)
Definition AllocateMatrix (c : Codec) : bool * Codec :=
  (* FreeMatrix() *)
  let c := set_ge_matrix [] c in
  let c := set_ge_compress_matrix [] c in
  let c := set_ge_pivots [] c in
  let ge_cols := _defer_count c + _added_count c in
  let ge_rows := ge_cols + _extra_count c + 1 in
  let ge_pitch := Z.quot (ge_cols + 63) 64 in
  let ge_matrix_words := ge_rows * ge_pitch in
  let '(a, ok, c) := operator_new (fresh_u64 c ge_matrix_words) ge_matrix_words c in
  let c := set_ge_matrix a c in
  if negb ok then (false, c)
  else
    let c := set_ge_pitch ge_pitch c in
    let c := set_ge_rows ge_cols c in
    let c :=
      set_ge_matrix
        (store (_ge_matrix c) 0 (replicate (Z.to_nat (ge_cols * ge_pitch)) 0)) c in
    let ge_compress_matrix_words := _block_count c * ge_pitch in
    let '(a, ok, c) :=
      operator_new (fresh_u64 c ge_compress_matrix_words)
        ge_compress_matrix_words c in
    let c := set_ge_compress_matrix a c in
    if negb ok then (false, c)
    else
      let c :=
        set_ge_compress_matrix
          (store (_ge_compress_matrix c) 0
             (replicate (Z.to_nat ge_compress_matrix_words) 0)) c in
      let pivot_count := ge_cols + _extra_count c in
      let pivot_words := pivot_count * 2 + ge_cols in
      let '(a, ok, c) := operator_new (fresh_u16 c pivot_words) pivot_words c in
      if negb ok then (false, c)
      else
        let c := set_ge_pivots (take (Z.to_nat pivot_count) a) c in
        let c :=
          set_ge_row_map
            (take (Z.to_nat pivot_count) (drop (Z.to_nat pivot_count) a)) c in
        let c :=
          set_ge_col_map
            (take (Z.to_nat ge_cols) (drop (Z.to_nat (pivot_count * 2)) a)) c in
        (true, c).

(** The loop [// Initialize columns] of [AllocateWorkspace]: [n]
    columns from [ii] on. *)
Fixpoint init_columns (n : nat) (ii : Z) (c : Codec) : Codec :=
  match n with
  | O => c
  | S n' =>
      let refs := get_refs c ii in
      let c := put_refs ii (PeelRefs.mk 0 (PeelRefs.rows refs)) c in
      let c := modify_col (PeelColumn.set_w2_refs 0) ii c in
      let c := modify_col (PeelColumn.set_mark MARK_TODO) ii c in
      init_columns n' (ii + 1) c
  end.

Definition AllocateWorkspace (c : Codec) : bool * Codec :=
  (* FreeWorkspace() *)
  let c := set_recovery_blocks [] c in
  let c := set_peel_rows [] c in
  let c := set_peel_cols [] c in
  let c := set_peel_col_refs [] c in
  let check_size := (_block_count c + _added_count c + 1) * _block_bytes c in
  let '(a, ok, c) := operator_new (fresh_u8 c check_size) check_size c in
  let c := set_recovery_blocks a c in
  if negb ok then (false, c)
  else
    let row_count := _block_count c + _extra_count c in
    let '(a, ok, c) := operator_new (fresh_row c row_count) row_count c in
    let c := set_peel_rows a c in
    if negb ok then (false, c)
    else
      let '(a, ok, c) :=
        operator_new (fresh_column c (_block_count c)) (_block_count c) c in
      let c := set_peel_cols a c in
      if negb ok then (false, c)
      else
        let '(a, ok, c) :=
          operator_new (fresh_refs c (_block_count c)) (_block_count c) c in
        let c := set_peel_col_refs a c in
        if negb ok then (false, c)
        else (true, init_columns (Z.to_nat (_block_count c)) 0 c).
End Memory.

(** Sequencing of steps that may run out of fuel. *)
Notation "'do' x <- e ; k" :=
  (match e with Some x => k | None => None end)
  (at level 10, x pattern, e at level 100, k at level 200, only parsing).

(** ** Main driver and facade *)

Section Facade.
Context {H : Header} {P : Phases}.

(** The block count is computed with [int] operands and stored in the
    16-bit member [_block_count]; the table is searched for the stored
    value. *)
Definition ChooseMatrix (g : Globals) (message_bytes block_bytes : Z) (c : Codec)
    : option (Result * Codec) :=
  let c := set_block_bytes block_bytes c in
  let c :=
    set_block_count
      (u16 (Z.quot (message_bytes + _block_bytes c - 1) (_block_bytes c))) c in
  do n <- NextPrime16 (u16 (_block_count c));
  let c := set_block_next_prime n c in
  let '(found, mp) :=
    GenerateMatrixParameters g (_block_count c)
      {| mp_p_seed := _p_seed c; mp_c_seed := _c_seed c;
         mp_light_count := _light_count c; mp_dense_count := _dense_count c |} in
  let c := set_p_seed (mp_p_seed mp) c in
  let c := set_c_seed (mp_c_seed mp) c in
  let c := set_light_count (mp_light_count mp) c in
  let c := set_dense_count (mp_dense_count mp) c in
  if negb found then Some (R_BAD_INPUT, c)
  else
    do n <- NextPrime16 (u16 (_light_count c));
    let c := set_light_next_prime n c in
    let c := set_added_count (_light_count c + _dense_count c) c in
    do n <- NextPrime16 (u16 (_added_count c));
    let c := set_added_next_prime n c in
    let c := set_peel_head_rows LIST_TERM c in
    let c := set_peel_tail_rows None c in
    let c := set_defer_head_rows LIST_TERM c in
    Some (R_WIN, c).

(** [message_bytes % _block_bytes], then the block size when zero. *)
Definition partial_final_bytes (message_bytes : Z) (c : Codec) : Z :=
  let p := u32 (Z.rem message_bytes (_block_bytes c)) in
  if p <=? 0 then u32 (_block_bytes c) else p.

Definition InitializeEncoder (g : Globals) (message_bytes block_bytes : Z)
    (c : Codec) : option (Result * Codec) :=
  do (r, c) <- ChooseMatrix g message_bytes block_bytes c;
  match r with
  | R_WIN =>
      let c := set_input_final_bytes (partial_final_bytes message_bytes c) c in
      let c := set_extra_count 0 c in
      let '(ok, c) := AllocateWorkspace c in
      if negb ok then Some (R_OUT_OF_MEMORY, c) else Some (r, c)
  | _ => Some (r, c)
  end.

Definition InitializeDecoder (g : Globals) (message_bytes block_bytes : Z)
    (c : Codec) : option (Result * Codec) :=
  do (r, c) <- ChooseMatrix g message_bytes block_bytes c;
  match r with
  | R_WIN =>
      let c := set_used_count 0 c in
      let c := set_output_final_bytes (partial_final_bytes message_bytes c) c in
      let c := set_input_final_bytes (_block_bytes c) c in
      let c := set_extra_count CAT_MAX_EXTRA_ROWS c in
      let '(ok, c) := AllocateInput c in
      if negb ok then Some (R_OUT_OF_MEMORY, c)
      else
        let '(ok, c) := AllocateWorkspace c in
        if negb ok then Some (R_OUT_OF_MEMORY, c) else Some (r, c)
  | _ => Some (r, c)
  end.

(** Fuel for the peeling calls: one more than the number of columns. *)
Definition peel_fuel (c : Codec) : nat := S (length (_peel_cols c)).

Definition SolveMatrix (c : Codec) : option (Result * Codec) :=
  do c <- GreedyPeeling (peel_fuel c) c;
  let '(ok, c) := AllocateMatrix c in
  if negb ok then Some (R_OUT_OF_MEMORY, c)
  else
    let c := Compress c in
    let '(ok, c) := Triangle c in
    if negb ok then Some (R_MORE_BLOCKS, c) else Some (R_WIN, c).

Definition DecodeFeed (id : Z) (block_in : list Z) (c : Codec)
    : option (Result * Codec) :=
  let row_i := u16 (_used_count c) in
  if row_i <? _block_count c then
    do (ok, c) <- OpportunisticPeeling (peel_fuel c) row_i id c;
    if ok then
      let c :=
        set_input_blocks
          (store (_input_blocks c) (_block_bytes c * row_i)
             (load block_in 0 (_block_bytes c))) c in
      let c := set_used_count (_used_count c + 1) c in
      if _used_count c =? _block_count c then
        do (r, c) <- SolveMatrix c;
        match r with
        | R_WIN => Some (r, GenerateRecoveryBlocks c)
        | _ => Some (r, c)
        end
      else Some (R_MORE_BLOCKS, c)
    else Some (R_MORE_BLOCKS, c)
  else
    let '(ok, c) := ResumeSolveMatrix id block_in c in
    if negb ok then Some (R_MORE_BLOCKS, c)
    else Some (R_WIN, GenerateRecoveryBlocks c).

(** The row loop of [EncodeFeed]: [n] rows from [id] on; the flag is
    [false] when a call of [OpportunisticPeeling] returned [false]. *)
Fixpoint EncodeFeed_rows (n : nat) (id : Z) (c : Codec) : option (bool * Codec) :=
  match n with
  | O => Some (true, c)
  | S n' =>
      do (ok, c) <- OpportunisticPeeling (peel_fuel c) id id c;
      if ok then EncodeFeed_rows n' (u16 (id + 1)) c else Some (false, c)
  end.

Definition EncodeFeed (message_in : list Z) (c : Codec) : option (Result * Codec) :=
  let c := SetInput message_in c in
  do (ok, c) <- EncodeFeed_rows (Z.to_nat (_block_count c)) 0 c;
  if negb ok then Some (R_BAD_INPUT, c)
  else
    do (r, c) <- SolveMatrix c;
    match r with
    | R_WIN => Some (r, GenerateRecoveryBlocks c)
    | _ => Some (r, c)
    end.
End Facade.

(** ** Encoder output and decoder reconstruction *)

Section Output.
Context {H : Header}.

(** The block of the recovery buffer for column [column_i]. *)
Definition recovery_block (c : Codec) (column_i : Z) : list Z :=
  load (_recovery_blocks c) (_block_bytes c * column_i) (_block_bytes c).

(** [while (--peel_weight > 0) { IterateNextColumn(peel_x, ...);
    memxor(dest, recovery block of peel_x, _block_bytes); }], [n]
    iterations. *)
Fixpoint mix_peel_columns (n : nat) (c : Codec) (peel_x peel_a dest : Z)
    (out : gmap Z Z) : Z * gmap Z Z :=
  match n with
  | O => (peel_x, out)
  | S n' =>
      let peel_x :=
        IterateNextColumn peel_x (_block_count c) (_block_next_prime c) peel_a in
      mix_peel_columns n' c peel_x peel_a dest
        (bmemxor out dest (recovery_block c peel_x) (_block_bytes c))
  end.

(** The peel columns and the first mixing column of a regenerated
    row, written at [dest]. *)
Definition regenerate_peel (c : Codec) (shape : RowShape.t) (dest : Z)
    (out : gmap Z Z) : gmap Z Z :=
  let peel_x := RowShape.peel_x0 shape in
  let first := recovery_block c peel_x in
  let mix := recovery_block c (_block_count c + RowShape.mix_x0 shape) in
  if 1 <? RowShape.peel_weight shape then
    let peel_weight := u16 (RowShape.peel_weight shape - 1) in
    let peel_x :=
      IterateNextColumn peel_x (_block_count c) (_block_next_prime c)
        (RowShape.peel_a shape) in
    let out := bmemxor_set out dest first (recovery_block c peel_x) in
    let '(_, out) :=
      mix_peel_columns (Z.to_nat (peel_weight - 1)) c peel_x
        (RowShape.peel_a shape) dest out in
    bmemxor out dest mix (_block_bytes c)
  else bmemxor_set out dest first mix.

Definition Encode (id : Z) (block : gmap Z Z) (c : Codec) : gmap Z Z :=
  if CAT_COPY_FIRST_N && (id <? _block_count c) then
    let src := _block_bytes c * id in
    if negb (id =? _block_count c - 1) then
      bstore block 0 (load (_input_blocks c) src (_block_bytes c))
    else
      let block :=
        bstore block 0 (load (_input_blocks c) src (_input_final_bytes c)) in
      bstore block (_input_final_bytes c)
        (replicate (Z.to_nat (_block_bytes c - _input_final_bytes c)) 0)
  else
    let shape :=
      GeneratePeelRow Generator id (_p_seed c) (_block_count c) (_added_count c) in
    let block := regenerate_peel c shape 0 block in
    let mix_x :=
      IterateNextColumn (RowShape.mix_x0 shape) (_added_count c)
        (_added_next_prime c) (RowShape.mix_a shape) in
    let block :=
      bmemxor block 0 (recovery_block c (_block_count c + mix_x)) (_block_bytes c) in
    let mix_x :=
      IterateNextColumn mix_x (_added_count c) (_added_next_prime c)
        (RowShape.mix_a shape) in
    bmemxor block 0 (recovery_block c (_block_count c + mix_x)) (_block_bytes c).

(** The first loop of [ReconstructOutput]: received rows of the
    original message are copied out.  [copied_rows] overlays the
    storage of [_peel_cols], whose contents are lost; it is a list of
    its own here. *)
Fixpoint copy_received_rows (n : nat) (row_i : Z) (c : Codec)
    (copied_rows : list Z) (out : gmap Z Z) : list Z * gmap Z Z :=
  match n with
  | O => (copied_rows, out)
  | S n' =>
      let id := PeelRow.id (sel PeelRow.zero (_peel_rows c) row_i) in
      let src := _block_bytes c * row_i in
      let '(copied_rows, out) :=
        if id <? _block_count c then
          let dest := _block_bytes c * id in
          let len :=
            if negb (id =? _block_count c - 1) then _block_bytes c
            else _output_final_bytes c in
          (upd copied_rows id 1, bstore out dest (load (_input_blocks c) src len))
        else (copied_rows, out) in
      copy_received_rows n' (u16 (row_i + 1)) c copied_rows out
  end.

(** The second loop: every row not copied is regenerated in place. *)
Fixpoint regenerate_rows (n : nat) (row_i : Z) (c : Codec)
    (copied_rows : list Z) (out : gmap Z Z) : gmap Z Z :=
  match n with
  | O => out
  | S n' =>
      let dest := _block_bytes c * row_i in
      let out :=
        if CAT_COPY_FIRST_N && negb (sel 0 copied_rows row_i =? 0) then out
        else
          let shape :=
            GeneratePeelRow Generator row_i (_p_seed c) (_block_count c)
              (_added_count c) in
          let out := regenerate_peel c shape dest out in
          let mix_x :=
            IterateNextColumn (RowShape.mix_x0 shape) (_added_count c)
              (_added_next_prime c) (RowShape.mix_a shape) in
          let mix0_src := recovery_block c (_block_count c + mix_x) in
          let mix_x :=
            IterateNextColumn mix_x (_added_count c) (_added_next_prime c)
              (RowShape.mix_a shape) in
          let mix1_src := recovery_block c (_block_count c + mix_x) in
          bmemxor_add out dest mix0_src mix1_src (_block_bytes c) in
      regenerate_rows n' (u16 (row_i + 1)) c copied_rows out
  end.

Definition ReconstructOutput (message_out : gmap Z Z) (c : Codec) : gmap Z Z :=
  let '(copied_rows, out) :=
    if CAT_COPY_FIRST_N then
      copy_received_rows (Z.to_nat (_used_count c)) 0 c
        (replicate (Z.to_nat (_block_count c)) 0) message_out
    else ([], message_out) in
  regenerate_rows (Z.to_nat (_block_count c)) 0 c copied_rows out.
End Output.

(** ** Instances for running the model *)

(** Modelled from the spec: the column iterator [IterateNextColumn] of
    the header, which is not part of the sources.  The spec gives it as
    x := x + a; if x >= m then x := x - m; and while x >= m,
    x := (x + a) mod p.  The repetition is bounded by [p] rounds. *)
Fixpoint iterate_until_below (fuel : nat) (x m p a : Z) : Z :=
  match fuel with
  | O => x
  | S fuel' => if m <=? x then iterate_until_below fuel' ((x + a) mod p) m p a else x
  end.

Definition IterateNextColumn_spec (x m p a : Z) : Z :=
  let x := x + a in
  let x := if m <=? x then x - m else x in
  iterate_until_below (Z.to_nat p) x m p a.

(** A generator that replays a script of words chosen from the two
    seeds; the stream continues with zeros. *)
Definition scripted (script : Z -> Z -> list Z) : CatsChoice :=
  {| prng := list Z;
     Initialize := script;
     Next := fun l => (hd 0 l, tl l) |}.

(** The three words that make [GeneratePeelRow] produce a given second
    and third draw: a first draw [r1], then stride and start of the
    peel walk, then stride and start of the mix walk. *)
Definition shape_words (r1 a x0 ma mx0 : Z) : list Z :=
  [ r1; Z.lor (Z.shiftl x0 16) (a - 1); Z.lor (Z.shiftl mx0 16) (ma - 1) ].

(** A header for examples: a reference cap of [cap] rows, four extra
    rows, the list terminator 0xffff, the given switch and script, and
    an allocator that never fails. *)
Definition example_header (cap : Z) (copy_first_n : bool)
    (script : Z -> Z -> list Z) : Header :=
  {| CAT_REF_LIST_MAX := cap;
     CAT_MAX_EXTRA_ROWS := 4;
     LIST_TERM := 0xffff;
     CAT_COPY_FIRST_N := copy_first_n;
     IterateNextColumn := IterateNextColumn_spec;
     Generator := scripted script;
     new_ok := fun _ _ => true;
     new_cell := fun _ _ _ => 0 |}.

(** Phases that leave the codec as it is. *)
Definition idle_phases : Phases :=
  {| Compress := fun c => c;
     GenerateRecoveryBlocks := fun c => c;
     Compress_setup := fun c =>
       conj eq_refl (conj eq_refl (conj eq_refl (conj eq_refl (conj eq_refl
         (conj eq_refl (conj eq_refl (conj eq_refl (conj eq_refl (conj eq_refl
            eq_refl)))))))));
     GenerateRecoveryBlocks_setup := fun c =>
       conj eq_refl (conj eq_refl (conj eq_refl (conj eq_refl (conj eq_refl
         (conj eq_refl (conj eq_refl (conj eq_refl (conj eq_refl (conj eq_refl
            eq_refl))))))))) |}.

(** The state of a codec after its constructor. *)
Definition new_codec : Codec :=
  mkCodec 0 0 0 0 0 0 0 0 0 0 0 0 0 0
    [] [] [] 0 None 0 0 0
    [] [] 0 0 [] [] [] 0
    [] false [] [].

(** [P x] for the [n] integers from [x] on. *)
Fixpoint forall_from (n : nat) (x : Z) (P : Z -> bool) : bool :=
  match n with
  | O => true
  | S n' => P x && forall_from n' (x + 1) P
  end.

(** ** Auxiliary definitions for the statements *)

(** The test of C10 on one input. *)
Definition SquareRoot16_check (x : Z) : bool :=
  let r := SquareRoot16 x in
  (0 <=? r) && (r * r <=? x) && (x <? (r + 1) * (r + 1)).

(** The test of termination of [NextPrime16] on one argument above 7:
    an argument the sieve table accepts as it is, or moves past 16 bits,
    must make the function return; any other argument is moved by the
    table to one that the table accepts, with the same offset. *)
Definition NextPrime16_check (n : Z) : bool :=
  if n <=? 7 then true
  else
    let next := sel 0 SIEVE_TABLE (n mod SIEVE_TABLE_SIZE) in
    if (next =? 0) || (2^16 <=? n + next) then
      match NextPrime16 n with Some _ => true | None => false end
    else
      (sel 0 SIEVE_TABLE ((n + next) mod SIEVE_TABLE_SIZE) =? 0) &&
      ((n + next) mod SIEVE_TABLE_SIZE =? n mod SIEVE_TABLE_SIZE + next).

(** The workspace and input pointers of a codec. *)
Definition workspace (c : Codec) :=
  (_recovery_blocks c, _peel_rows c, _peel_cols c, _peel_col_refs c, _input_blocks c).

(** The row shape a codec generates for [id], as the feed and output
    operations call [GeneratePeelRow]. *)
Definition row_shape_of `{H : Header} (c : Codec) (id : Z) : RowShape.t :=
  GeneratePeelRow Generator id (_p_seed c) (_block_count c) (_added_count c).

(** The number of columns still marked [MARK_TODO]. *)
Fixpoint count_todo (cols : list PeelColumn.t) : nat :=
  match cols with
  | [] => O
  | col :: rest =>
      ((if MarkTypes_eqb (PeelColumn.mark col) MARK_TODO then 1 else 0)
       + count_todo rest)%nat
  end.

(** What every step of the solver keeps: the members of [same_setup]
    and the sizes of the row and column arrays. *)
Definition keeps (c c' : Codec) : Prop :=
  same_setup c c' /\
  length (_peel_rows c') = length (_peel_rows c) /\
  length (_peel_cols c') = length (_peel_cols c) /\
  length (_peel_col_refs c') = length (_peel_col_refs c).

(** What the peeling steps after the reference loop keep in addition:
    the reference lists, and no column goes back to [MARK_TODO]. *)
Definition settles (c c' : Codec) : Prop :=
  keeps c c' /\
  _peel_col_refs c' = _peel_col_refs c /\
  (count_todo (_peel_cols c') <= count_todo (_peel_cols c))%nat.

(** Every reference count is non-negative and every entry that
    [PeelAvalanche] reads from a reference list is the index of an
    allocated row. *)
Definition refs_valid (c : Codec) : Prop :=
  forall column_i,
    0 <= PeelRefs.row_count (get_refs c column_i) /\
    forall k,
      0 <= k < PeelRefs.row_count (get_refs c column_i) ->
      0 <= sel 0 (PeelRefs.rows (get_refs c column_i)) k
        < Z.of_nat (length (_peel_rows c)).

(** The shape the peeling functions rely on: as many reference lists as
    columns at most, and valid entries in them. *)
Definition peel_ready (c : Codec) : Prop :=
  (length (_peel_col_refs c) <= length (_peel_cols c))%nat /\
  refs_valid c.

(** What a call of [Peel] on a column still to do delivers when fewer
    than [bound] columns are still to do. *)
Definition peel_spec `{H : Header} (bound : nat)
    (peel : Z -> Z -> Codec -> option Codec) : Prop :=
  forall r col c,
    peel_ready c -> (count_todo (_peel_cols c) < bound)%nat ->
    is_todo c col = true ->
    exists c', peel r col c = Some c' /\ settles c c'.

(** The columns visited by a walk of [n] steps from [x]. *)
Fixpoint column_walk `{H : Header} (n : nat) (x b p a : Z) : list Z :=
  match n with
  | O => []
  | S n' => x :: column_walk n' (IterateNextColumn x b p a) b p a
  end.

(** The peel columns referenced by a row of the given shape. *)
Definition peel_columns `{H : Header} (c : Codec) (shape : RowShape.t) : list Z :=
  column_walk (walk_count (RowShape.peel_weight shape)) (RowShape.peel_x0 shape)
    (_block_count c) (_block_next_prime c) (RowShape.peel_a shape).

(** Appending the row with this id to the reference list of one of its
    columns would exceed the cap. *)
Definition row_overflows `{H : Header} (c : Codec) (id : Z) : Prop :=
  Exists (fun column_i =>
            CAT_REF_LIST_MAX <= PeelRefs.row_count (get_refs c column_i))
    (peel_columns c (row_shape_of c id)).

(** Bit [column] of the GE row [ge_row], as the matrix is packed: word
    [column >> 6] of the row, bit [column & 63]. *)
Definition ge_bit (c : Codec) (ge_row column : Z) : bool :=
  Z.testbit
    (sel 0 (_ge_matrix c) (Z.shiftr column 6 + _ge_pitch c * ge_row))
    (Z.land column 63).

(** Some remaining row, among the pivots [pivot_i .. row_limit), has the
    bit of column [pivot_i]. *)
Definition has_pivot (c : Codec) (row_limit pivot_i : Z) : Prop :=
  exists pivot_j,
    pivot_i <= pivot_j < row_limit /\
    ge_bit c (sel 0 (_ge_pivots c) pivot_j) pivot_i = true.

(** The mask of a pivot column: [1] rotated left [pivot_i] times. *)
Definition pivot_mask (pivot_i : Z) : Z := 2 ^ Z.land pivot_i 63.

(** The codec after the first [k] pivot columns from [pivot_i] on have
    been given their pivots; [None] when one of them has none. *)
Fixpoint pivot_steps (k : nat) (row_limit pivot_i : Z) (c : Codec) : option Codec :=
  match k with
  | O => Some c
  | S k' =>
      match pivot_column row_limit pivot_i (pivot_mask pivot_i) c with
      | Some c' => pivot_steps k' row_limit (pivot_i + 1) c'
      | None => None
      end
  end.

(** The codec on which [Triangle] starts its scan: the pivot array holds
    the identity. *)
Definition Triangle_start (c : Codec) : Codec :=
  set_ge_pivots
    (init_pivots (Z.to_nat (u16 (_defer_count c + _added_count c))) 0 (_ge_pivots c)) c.

(** [c'] differs from [c] in the GE matrix, the pivot array and the
    resume pivot at most. *)
Definition ge_only (c c' : Codec) : Prop :=
  exists m p r, c' = set_ge_resume_pivot r (set_ge_pivots p (set_ge_matrix m c)).

(** The number of pivot columns of the elimination. *)
Definition ge_pivot_count (c : Codec) : Z := u16 (_defer_count c + _added_count c).

(** Upper-triangular under the pivoted row permutation: below the
    diagonal every bit is clear, on it every bit is set. *)
Definition upper_triangular (c : Codec) : Prop :=
  forall i j, 0 <= i -> i < j -> j < ge_pivot_count c ->
    ge_bit c (sel 0 (_ge_pivots c) j) i = false /\
    ge_bit c (sel 0 (_ge_pivots c) i) i = true.

(** A two-column elimination: rows [1 0] and [1 1] (bit 0 first), one
    word per row. *)
Definition two_row_matrix : Codec :=
  set_ge_pivots [0; 0]
    (set_ge_matrix [1; 3] (set_ge_pitch 1 (set_added_count 2 new_codec))).

(** Whatever a call of [peel] returns has the setup of its argument. *)
Definition peel_framed (peel : Z -> Z -> Codec -> option Codec) : Prop :=
  forall r col c c', peel r col c = Some c' -> same_setup c c'.

(** The decoder of a 16-byte message in blocks of one byte, and the
    decoder after rows [0 .. n) have been fed with zero blocks. *)
Definition fed_decoder `{H : Header} `{P : Phases} (n : nat) : option Codec :=
  do (r, c) <- InitializeDecoder {| g_p_seed := 1; g_c_seed := 1 |} 16 1 new_codec;
  fold_left
    (fun oc id => do c <- oc; do (r, c) <- DecodeFeed id [0] c; Some c)
    (seqZ 0 (Z.of_nat n)) (Some c).

(** A header whose generator gives row [id] the weight one and the peel
    column [id mod 16]. *)
Definition diagonal_header : Header :=
  example_header 32 true (fun id seed => shape_words 0 1 (id mod 16) 1 0).

(** A header with a reference cap of one row whose generator sends
    every row to column 0 with weight one. *)
Definition crowded_header : Header :=
  example_header 1 true (fun id seed => shape_words 0 1 0 1 0).

(** The well-formed peeling state of a codec with its workspace: room
    for the N rows and the N columns, fewer than 2^16 of them, and the
    rows' walks visit no column twice. *)
Definition feed_ready `{H : Header} (c : Codec) : Prop :=
  peel_ready c /\
  _block_count c <= Z.of_nat (length (_peel_rows c)) /\
  _block_count c <= Z.of_nat (length (_peel_cols c)) /\
  _block_count c <= 2^16 /\
  forall id, NoDup (peel_columns c (row_shape_of c id)).

(** [refs_valid] as a check on the reference lists a codec holds. *)
Definition refs_valid_check (c : Codec) : bool :=
  forallb
    (fun refs =>
       (0 <=? PeelRefs.row_count refs) &&
       forallb
         (fun k =>
            (0 <=? sel 0 (PeelRefs.rows refs) k) &&
            (sel 0 (PeelRefs.rows refs) k <? Z.of_nat (length (_peel_rows c))))
         (seqZ 0 (PeelRefs.row_count refs)))
    (_peel_col_refs c).

(** The GE matrix with the unit rows: row [i] has bit [i] alone. *)
Definition unit_matrix (ge_pitch ge_rows : Z) : list Z :=
  flat_map
    (fun i =>
       map (fun w => if w =? Z.shiftr i 6 then 2 ^ Z.land i 63 else 0)
         (seqZ 0 ge_pitch))
    (seqZ 0 ge_rows).

(** Phases for examples in which the elimination succeeds: the
    compression leaves the unit rows in the GE matrix. *)
Definition unit_phases : Phases :=
  {| Compress := fun c =>
       set_ge_matrix (unit_matrix (_ge_pitch c) (_ge_rows c)) c;
     GenerateRecoveryBlocks := fun c => c;
     Compress_setup := fun c =>
       conj eq_refl (conj eq_refl (conj eq_refl (conj eq_refl (conj eq_refl
         (conj eq_refl (conj eq_refl (conj eq_refl (conj eq_refl (conj eq_refl
            eq_refl)))))))));
     GenerateRecoveryBlocks_setup := fun c =>
       conj eq_refl (conj eq_refl (conj eq_refl (conj eq_refl (conj eq_refl
         (conj eq_refl (conj eq_refl (conj eq_refl (conj eq_refl (conj eq_refl
            eq_refl))))))))) |}.

(** A message of 31 bytes: 100, 101, ... *)
Definition example_message : list Z := seqZ 100 31.

(** The encoder of [example_message] in blocks of two bytes. *)
Definition example_encoder `{H : Header} : option (Result * Codec) :=
  InitializeEncoder {| g_p_seed := 1; g_c_seed := 1 |} 31 2 new_codec.

(** Bit [b] of row [row_i] of the compression matrix. *)
Definition compress_bit (c : Codec) (row_i b : Z) : bool :=
  Z.testbit
    (sel 0 (_ge_compress_matrix c) (_ge_pitch c * row_i + Z.shiftr b 6))
    (Z.land b 63).

(** What a peel column contributes to column [b] of a new GE row: the
    bit of the compression row of the row that solves the column when
    the column is peeled, that of the column's own GE column when it
    is not. *)
Definition peel_column_bit (c : Codec) (peel_x b : Z) : bool :=
  let ref_col := sel PeelColumn.zero (_peel_cols c) peel_x in
  if MarkTypes_eqb (PeelColumn.mark ref_col) MARK_PEEL
  then compress_bit c (PeelColumn.peel_row ref_col) b
  else b =? PeelColumn.ge_column ref_col.

(** The GE columns of the three mixing columns of a row. *)
Definition mix_columns `{H : Header} (c : Codec) (shape : RowShape.t) : list Z :=
  let x0 := RowShape.mix_x0 shape in
  let x1 :=
    IterateNextColumn x0 (_added_count c) (_added_next_prime c) (RowShape.mix_a shape) in
  let x2 :=
    IterateNextColumn x1 (_added_count c) (_added_next_prime c) (RowShape.mix_a shape) in
  [u16 (x0 + _defer_count c); u16 (x1 + _defer_count c); u16 (x2 + _defer_count c)].

(** The sum over GF(2) of the contributions to column [b]. *)
Definition new_row_bit `{H : Header} (c : Codec) (shape : RowShape.t) (b : Z) : bool :=
  xorb
    (fold_right xorb false (map (Z.eqb b) (mix_columns c shape)))
    (fold_right xorb false
       (map (fun peel_x => peel_column_bit c peel_x b) (peel_columns c shape))).

(** The row of [pitch] words at word [row] of [m] has the bits [f]. *)
Definition row_is (pitch row : Z) (m : list Z) (f : Z -> bool) : Prop :=
  forall b, 0 <= b < 64 * pitch ->
    Z.testbit (sel 0 m (row + Z.shiftr b 6)) (Z.land b 63) = f b.

(** The columns a new row touches lie in the row: the three mixing
    columns, and the GE column of every peel column that is not
    peeled. *)
Definition columns_in_row `{H : Header} (c : Codec) (shape : RowShape.t) : Prop :=
  Forall (fun column => column < 64 * _ge_pitch c) (mix_columns c shape) /\
  Forall
    (fun peel_x =>
       let ref_col := sel PeelColumn.zero (_peel_cols c) peel_x in
       MarkTypes_eqb (PeelColumn.mark ref_col) MARK_PEEL = false ->
       0 <= PeelColumn.ge_column ref_col < 64 * _ge_pitch c)
    (peel_columns c shape).

(** The bits of a new row after the eliminations of the columns
    [pivot_j .. pivot_j + n) have been replayed on it: when the row has
    the bit of a column, the bits after that column of the column's
    pivot row are added. *)
Fixpoint replay_bits (n : nat) (pivot_j : Z) (pivot_row : Z -> Z -> bool)
    (f : Z -> bool) : Z -> bool :=
  match n with
  | O => f
  | S n' =>
      replay_bits n' (pivot_j + 1) pivot_row
        (fun b =>
           if f pivot_j && (pivot_j <? b) then xorb (f b) (pivot_row pivot_j b)
           else f b)
  end.

(** The slot of the new row and the codec with the row's data stored,
    as [ResumeSolveMatrix] has them when it builds the GE row: the row
    and GE row indices, then the codec. *)
Definition Resume_prepared `{H : Header} (id : Z) (block : list Z) (c : Codec)
    : Z * Z * Codec :=
  let '(row_i, ge_row_i, c) := Resume_slot c in
  let c :=
    set_peel_rows
      (upd (_peel_rows c) row_i
         (PeelRow.set_id (u32 id) (sel PeelRow.zero (_peel_rows c) row_i))) c in
  let c :=
    set_input_blocks
      (store (_input_blocks c) (_block_bytes c * row_i)
         (load block 0 (_block_bytes c))) c in
  let shape := row_shape_of c id in
  let c :=
    set_peel_rows
      (upd (_peel_rows c) row_i
         (PeelRow.set_shape shape (sel PeelRow.zero (_peel_rows c) row_i))) c in
  (row_i, ge_row_i, c).

(** The reading of "setting a bit":
    [row[column >> 6] |= (u64)1 << (column & 63)]. *)
Definition set_bit (row column : Z) (m : list Z) : list Z :=
  let w := row + Z.shiftr column 6 in
  upd m w (Z.lor (sel 0 m w) (Z.shiftl 1 (Z.land column 63))).

(** The new GE row built as the words of the claim read: the three
    mixing bits are set, then for each peel column the compression row
    is added when the column is peeled and the bit of the column is
    set when it is not. *)
Fixpoint add_peel_columns_as_claimed `{H : Header} (n : nat) (c : Codec)
    (peel_x peel_a ge_new_row : Z) (m : list Z) : list Z :=
  match n with
  | O => m
  | S n' =>
      let ref_col := sel PeelColumn.zero (_peel_cols c) peel_x in
      let m :=
        if MarkTypes_eqb (PeelColumn.mark ref_col) MARK_PEEL then
          xor_words_from (Z.to_nat (_ge_pitch c)) 0 ge_new_row
            (_ge_compress_matrix c) (_ge_pitch c * PeelColumn.peel_row ref_col) m
        else set_bit ge_new_row (PeelColumn.ge_column ref_col) m in
      add_peel_columns_as_claimed n' c
        (IterateNextColumn peel_x (_block_count c) (_block_next_prime c) peel_a)
        peel_a ge_new_row m
  end.

Definition Resume_new_row_as_claimed `{H : Header} (c : Codec) (shape : RowShape.t)
    (ge_new_row : Z) : list Z :=
  let m := store (_ge_matrix c) ge_new_row (replicate (Z.to_nat (_ge_pitch c)) 0) in
  let m := fold_left (fun m column => set_bit ge_new_row column m) (mix_columns c shape) m in
  add_peel_columns_as_claimed (walk_count (RowShape.peel_weight shape)) c
    (RowShape.peel_x0 shape) (RowShape.peel_a shape) ge_new_row m.

(** A header whose generator gives every row the weight two, the peel
    columns 0 and 1 and the mixing columns 0, 1 and 2. *)
Definition pair_header : Header :=
  example_header 32 true (fun id seed => shape_words 600000 1 0 1 0).

(** A decoder of three blocks that holds three rows and waits at
    resume pivot 0.  Column 0 is peeled and solved by row 0, whose
    compression row has the bit of GE column 0; column 1 is deferred
    and is GE column 0; the mixing columns are the GE columns 1, 2
    and 3, and the rows of the GE matrix have the bits of these. *)
Definition waiting_decoder : Codec :=
  set_block_bytes 1 (set_block_count 3 (set_block_next_prime 3
  (set_extra_count 4 (set_added_count 3 (set_added_next_prime 3
  (set_used_count 3 (set_defer_count 1
  (set_peel_rows (replicate 7 PeelRow.zero)
  (set_peel_cols
     [ PeelColumn.set_peel_row 0 (PeelColumn.set_mark MARK_PEEL PeelColumn.zero);
       PeelColumn.set_ge_column 0 (PeelColumn.set_mark MARK_DEFER PeelColumn.zero);
       PeelColumn.set_peel_row 1 (PeelColumn.set_mark MARK_PEEL PeelColumn.zero) ]
  (set_ge_pitch 1 (set_ge_rows 4
  (set_ge_matrix [2; 4; 8; 0; 0; 0; 0; 0; 0]
  (set_ge_compress_matrix [1; 0; 0]
  (set_ge_pivots [0; 1; 2; 3; 0; 0; 0; 0]
  (set_ge_row_map (replicate 8 0)
  (set_ge_resume_pivot 0
  (set_input_blocks (replicate 7 0) new_codec))))))))))))))))).

(** The decoder of a 31-byte message in blocks of two bytes (16
    blocks, the final one of one byte) after the rows 0 to 14 and then
    the row 16 have been fed: the last original block is never
    received.  The result is that of the last feed. *)
Definition decoder_without_last_block `{H : Header} `{P : Phases}
    : option (Result * Codec) :=
  do (r, c) <- InitializeDecoder {| g_p_seed := 1; g_c_seed := 1 |} 31 2 new_codec;
  do c <- fold_left
            (fun oc id => do c <- oc; do (r, c) <- DecodeFeed id [0; 0] c; Some c)
            (seqZ 0 15) (Some c);
  DecodeFeed 16 [0; 0] c.

(** No row among the [_used_count] rows held is the last block of the
    message. *)
Definition last_block_missing (c : Codec) : bool :=
  forallb
    (fun row_i =>
       negb (PeelRow.id (sel PeelRow.zero (_peel_rows c) row_i) =? _block_count c - 1))
    (seqZ 0 (_used_count c)).

(** ** Utility: deck shuffling

    [ShuffleDeck16(prng, deck, count)].  One assignment pair
    [jj = r % ii; deck[ii] = deck[jj]; deck[jj] = ii;] with the operand
    [r] of the remainder ([(u8)rv], [(u8)(rv >> 8)], ...); [deck] is an
    array of [u16]. *)
Definition shuffle_step (r ii : Z) (deck : list Z) : list Z :=
  let jj := Z.rem r ii in
  let deck := upd deck ii (sel 0 deck jj) in
  upd deck jj (u16 ii).

(** The loop of the branch [count <= 256]: a word is drawn at the top
    of every iteration, the one that returns included; the cases 3, 2
    and 1 fall through.  [None] when [fuel] iterations do not reach a
    [return]. *)
Fixpoint ShuffleDeck16_bytes (fuel : nat) (G : CatsChoice) (g : prng G)
    (ii count : Z) (deck : list Z) : option (prng G * list Z) :=
  match fuel with
  | O => None
  | S fuel' =>
      let '(rv, g) := Next G g in
      let rv := u32 rv in
      let left := u32 (count - ii) in
      if left =? 0 then Some (g, deck)
      else if left =? 1 then
        Some (g, shuffle_step (u8 (Z.shiftr rv 16)) ii deck)
      else if left =? 2 then
        let deck := shuffle_step (u8 (Z.shiftr rv 8)) ii deck in
        let ii := u32 (ii + 1) in
        Some (g, shuffle_step (u8 (Z.shiftr rv 16)) ii deck)
      else if left =? 3 then
        let deck := shuffle_step (u8 rv) ii deck in
        let ii := u32 (ii + 1) in
        let deck := shuffle_step (u8 (Z.shiftr rv 8)) ii deck in
        let ii := u32 (ii + 1) in
        Some (g, shuffle_step (u8 (Z.shiftr rv 16)) ii deck)
      else
        let deck := shuffle_step (u8 rv) ii deck in
        let ii := u32 (ii + 1) in
        let deck := shuffle_step (u8 (Z.shiftr rv 8)) ii deck in
        let ii := u32 (ii + 1) in
        let deck := shuffle_step (u8 (Z.shiftr rv 16)) ii deck in
        let ii := u32 (ii + 1) in
        let deck := shuffle_step (u8 (Z.shiftr rv 24)) ii deck in
        let ii := u32 (ii + 1) in
        ShuffleDeck16_bytes fuel' G g ii count deck
  end.

(** The loop of the other branch, two entries for each word drawn. *)
Fixpoint ShuffleDeck16_halves (fuel : nat) (G : CatsChoice) (g : prng G)
    (ii count : Z) (deck : list Z) : option (prng G * list Z) :=
  match fuel with
  | O => None
  | S fuel' =>
      let '(rv, g) := Next G g in
      let rv := u32 rv in
      let left := u32 (count - ii) in
      if left =? 0 then Some (g, deck)
      else if left =? 1 then Some (g, shuffle_step (u16 rv) ii deck)
      else
        let deck := shuffle_step (u16 rv) ii deck in
        let ii := u32 (ii + 1) in
        let deck := shuffle_step (u16 (Z.shiftr rv 16)) ii deck in
        let ii := u32 (ii + 1) in
        ShuffleDeck16_halves fuel' G g ii count deck
  end.

Definition ShuffleDeck16 (fuel : nat) (G : CatsChoice) (g : prng G)
    (deck : list Z) (count : Z) : option (prng G * list Z) :=
  let deck := upd deck 0 0 in
  if count <=? 256 then ShuffleDeck16_bytes fuel G g 1 count deck
  else ShuffleDeck16_halves fuel G g 1 count deck.

(** The deck holds a permutation of [0 .. ii) in its first [ii]
    entries. *)
Definition shuffled (ii : Z) (deck : list Z) : Prop :=
  take (Z.to_nat ii) deck ≡ₚ seqZ 0 ii.


(** ** The value of a regenerated row *)

(** The columns of the recovery buffer that [Encode] and
    [ReconstructOutput] combine for a row of the given shape: the peel
    columns walked from [peel_x0] (one column unless the weight exceeds
    1) and the three mixing columns, which follow the [_block_count]
    peel columns. *)
Definition row_columns `{H : Header} (c : Codec) (shape : RowShape.t) : list Z :=
  let mix_x0 := RowShape.mix_x0 shape in
  let mix_x1 :=
    IterateNextColumn mix_x0 (_added_count c) (_added_next_prime c)
      (RowShape.mix_a shape) in
  let mix_x2 :=
    IterateNextColumn mix_x1 (_added_count c) (_added_next_prime c)
      (RowShape.mix_a shape) in
  (if 1 <? RowShape.peel_weight shape then
     column_walk (Z.to_nat (RowShape.peel_weight shape)) (RowShape.peel_x0 shape)
       (_block_count c) (_block_next_prime c) (RowShape.peel_a shape)
   else [RowShape.peel_x0 shape])
  ++ [_block_count c + mix_x0; _block_count c + mix_x1; _block_count c + mix_x2].

(** Byte [k] of the recovery block of a column. *)
Definition recovery_byte (c : Codec) (k column_i : Z) : Z :=
  sel 0 (_recovery_blocks c) (_block_bytes c * column_i + k).

(** Byte [k] of the sum over GF(256) of the recovery blocks of the
    row's columns. *)
Definition row_byte `{H : Header} (c : Codec) (shape : RowShape.t) (k : Z) : Z :=
  fold_right Z.lxor 0 (map (recovery_byte c k) (row_columns c shape)).

(** The number of bytes [ReconstructOutput] copies for a received row
    of the message: a whole block, or [_output_final_bytes] for the
    last block. *)
Definition copy_length (c : Codec) (id : Z) : Z :=
  if negb (id =? _block_count c - 1) then _block_bytes c else _output_final_bytes c.

(** A decoder of a five-byte message in three blocks of two bytes that
    holds the rows 1, 4 and 5, with six recovery blocks. *)
Definition reconstructing_codec : Codec :=
  set_block_bytes 2 (set_block_count 3 (set_block_next_prime 3
  (set_added_count 3 (set_added_next_prime 3
  (set_output_final_bytes 1 (set_used_count 3
  (set_peel_rows
     [ PeelRow.set_id 1 PeelRow.zero; PeelRow.set_id 4 PeelRow.zero;
       PeelRow.set_id 5 PeelRow.zero ]
  (set_input_blocks [21; 22; 41; 42; 51; 52]
  (set_recovery_blocks [1; 2; 3; 4; 5; 6; 7; 8; 9; 10; 11; 12] new_codec))))))))).


(** ** Invariants of the columns under peeling *)

(** The codec has [n] columns and [Q] holds of each of them, with its
    index. *)
Definition columns_all (Q : Z -> PeelColumn.t -> Prop) (n : nat)
    (c : Codec) : Prop :=
  length (_peel_cols c) = n /\
  forall i, 0 <= i < Z.of_nat n -> Q i (get_col c i).

(** [Q] survives the four writes that peeling makes to a column: a
    mark other than [MARK_TODO], [++w2_refs], [next], and [peel_row],
    which shares the cell of [w2_refs] and is written to a column that
    has a mark. *)
Definition column_stable (Q : Z -> PeelColumn.t -> Prop) : Prop :=
  (forall i m x, m <> MARK_TODO -> Q i x -> Q i (PeelColumn.set_mark m x)) /\
  (forall i x, Q i x -> Q i (incr_w2_refs x)) /\
  (forall i v x,
     PeelColumn.mark x <> MARK_TODO -> Q i x -> Q i (PeelColumn.set_peel_row v x)) /\
  (forall i v x, Q i x -> Q i (PeelColumn.set_next v x)).

(** The weight-2 counter of a column still to do is a 16-bit value. *)
Definition w2_refs_u16 (i : Z) (x : PeelColumn.t) : Prop :=
  PeelColumn.mark x = MARK_TODO -> 0 <= PeelColumn.w2_refs x < 2^16.

(** The column with index [j] is not [MARK_TODO]. *)
Definition marked_at (j i : Z) (x : PeelColumn.t) : Prop :=
  i = j -> PeelColumn.mark x <> MARK_TODO.

(** Every call of [peel] that returns keeps [Q] on all columns. *)
Definition peel_keeps_columns (Q : Z -> PeelColumn.t -> Prop)
    (n : nat) (peel : Z -> Z -> Codec -> option Codec) : Prop :=
  forall r col c c',
    peel r col c = Some c' -> columns_all Q n c -> columns_all Q n c'.


(** ** Checks of the tables of [NextPrime16] *)

(** [x] has none of the factors 2, 3, 5 and 7 of [SIEVE_TABLE_SIZE]. *)
Definition wheel_free (x : Z) : bool :=
  negb (x mod 2 =? 0) && negb (x mod 3 =? 0) &&
  negb (x mod 5 =? 0) && negb (x mod 7 =? 0).

(** The entry of [SIEVE_TABLE] for the residue [r] is the distance, at
    most 10, from [r] to the next residue free of the four factors, and
    this residue is below [SIEVE_TABLE_SIZE]. *)
Definition SIEVE_TABLE_check (r : Z) : bool :=
  let s := sel 0 SIEVE_TABLE r in
  (0 <=? s) && (s <=? 10) && (r + s <? SIEVE_TABLE_SIZE) && wheel_free (r + s) &&
  forallb (fun d => negb (wheel_free (r + d))) (seqZ 0 s).

(** [d] is a multiple of 2, 3, 5, 7 or of an entry of
    [PRIMES_UNDER_256]. *)
Definition small_factor_check (d : Z) : bool :=
  (d <? 2) || existsb (fun p => d mod p =? 0) ([2; 3; 5; 7] ++ PRIMES_UNDER_256).

(** No entry of [PRIMES_UNDER_256] up to [p_max] divides [n]. *)
Definition undivided (p_max n : Z) : Prop :=
  Forall (fun p => p <= p_max -> n mod p <> 0) PRIMES_UNDER_256.


(** [p] is the least prime from [n] on. *)
Definition least_prime_from (n p : Z) : Prop :=
  n <= p /\ Z.prime p /\ forall m, n <= m < p -> ~ Z.prime m.


(** [waiting_decoder] with no room left: it holds
    [_block_count + _extra_count] rows, and the first row that is not a
    check row, GE row 3, stands at pivot 0. *)
Definition full_decoder : Codec :=
  set_used_count 7 (set_ge_pivots [3; 1; 2; 0; 0; 0; 0; 0] waiting_decoder).


(** ** Forward substitution *)

(** [c'] is [c] with other recovery blocks. *)
Definition recovery_only (c c' : Codec) : Prop :=
  exists blocks, c' = set_recovery_blocks blocks c.

(** The sum of byte [k] of the recovery blocks of the columns solved
    by the pivots before [pivot_i] whose bit is set in the GE row of
    the pivot [pivot_i]; the blocks are read in [c'], the matrix in
    [c]. *)
Definition subdiagonal_sum (c c' : Codec) (pivot_i k : Z) : Z :=
  fold_right Z.lxor 0
    (map (fun pivot_j =>
            if ge_bit c (sel 0 (_ge_pivots c) pivot_i) pivot_j
            then recovery_byte c' k (sel 0 (_ge_col_map c) pivot_j)
            else 0)
       (seqZ 0 pivot_i)).


(** A codec with three pivots that solve the columns 2, 0 and 1, blocks
    of two bytes, and GE rows with the bits 0; 0; and 0, 1 and 2. *)
Definition substituting_codec : Codec :=
  set_block_bytes 2 (set_defer_count 1 (set_added_count 2 (set_ge_pitch 1
  (set_ge_matrix [1; 1; 7] (set_ge_pivots [0; 1; 2] (set_ge_col_map [2; 0; 1]
  (set_recovery_blocks [10; 11; 20; 21; 30; 31] new_codec))))))).


(** ** Utility: GF(2) invertible matrix generator *)

Definition INVERTIBLE_MATRIX_SEEDS : list Z :=
  [ 0; 0; 2; 2; 10; 5; 6; 1; 2; 0; 0; 3; 5; 0; 0; 1; 0; 0; 0; 3; 0; 1; 2; 3; 0; 1; 6; 6; 1; 6; 0; 0;
    0; 4; 2; 7; 0; 2; 4; 2; 1; 1; 0; 0; 2; 12; 11; 3; 3; 3; 2; 1; 1; 4; 4; 1; 13; 2; 2; 1; 3; 2; 1; 1;
    3; 1; 0; 0; 1; 0; 0; 10; 8; 6; 0; 7; 3; 0; 1; 1; 0; 2; 6; 3; 2; 2; 1; 0; 5; 2; 5; 1; 1; 2; 4; 1;
    2; 1; 0; 0; 0; 2; 0; 5; 9; 17; 5; 1; 2; 2; 5; 4; 4; 4; 4; 4; 1; 2; 2; 2; 1; 0; 1; 0; 3; 2; 2; 0;
    1; 4; 1; 3; 1; 17; 3; 0; 0; 0; 0; 2; 2; 0; 0; 0; 1; 11; 4; 2; 4; 2; 1; 8; 2; 1; 1; 2; 6; 3; 0; 4;
    3; 10; 5; 3; 3; 1; 0; 1; 2; 6; 10; 10; 6; 0; 0; 0; 0; 0; 0; 1; 4; 2; 1; 2; 2; 12; 2; 2; 4; 0; 0; 2;
    0; 7; 12; 1; 1; 1; 0; 6; 8; 0; 0; 0; 0; 2; 1; 8; 6; 2; 0; 5; 4; 2; 7; 2; 10; 4; 2; 6; 4; 6; 6; 1;
    0; 0; 0; 0; 3; 1; 0; 4; 2; 6; 1; 1; 4; 2; 5; 1; 4; 1; 0; 0; 1; 8; 0; 0; 6; 0; 17; 4; 9; 8; 4; 4;
    3; 0; 0; 3; 1; 4; 3; 3; 0; 0; 3; 0; 0; 0; 3; 4; 4; 4; 3; 0; 0; 12; 1; 1; 2; 5; 8; 4; 8; 6; 2; 2;
    0; 0; 0; 13; 0; 3; 4; 2; 2; 1; 6; 13; 3; 12; 0; 0; 3; 7; 8; 2; 2; 2; 0; 0; 4; 0; 0; 0; 2; 0; 3; 6;
    7; 1; 0; 2; 2; 4; 4; 3; 6; 3; 6; 4; 4; 1; 3; 7; 1; 0; 0; 0; 1; 3; 0; 5; 4; 4; 4; 3; 1; 1; 7; 13;
    4; 6; 1; 1; 2; 2; 2; 5; 7; 1; 0; 0; 2; 2; 1; 2; 1; 6; 6; 6; 2; 2; 2; 5; 3; 2; 0; 0; 0; 0; 0; 0;
    0; 0; 2; 3; 2; 2; 0; 4; 0; 0; 4; 2; 0; 0; 0; 2; 4; 1; 2; 3; 1; 1; 1; 1; 1; 1; 1; 1; 4; 0; 0; 0;
    1; 1; 0; 0; 0; 0; 0; 4; 3; 0; 0; 0; 0; 4; 0; 0; 4; 5; 2; 0; 1; 0; 0; 1; 7; 1; 0; 0; 0; 0; 1; 1;
    1; 6; 3; 0; 0; 1; 3; 2; 0; 3; 0; 2; 1; 1; 1; 0; 0; 0; 0; 0; 0; 8; 0; 0; 6; 4; 1; 3; 5; 3; 0; 1;
    1; 6; 3; 3; 5; 2; 2; 9; 5; 1; 2; 2; 1; 1; 1; 1; 1; 1; 2; 2; 1; 3; 1; 0; 0; 4; 1; 7; 0; 0; 0; 0 ].

(** [u64 word = ((u64)rv2 << 32) | rv1;] from the next two draws of
    the generator. *)
Definition next_word (G : CatsChoice) (g : prng G) : Z * prng G :=
  let '(rv1, g) := Next G g in
  let rv1 := u32 rv1 in
  let '(rv2, g) := Next G g in
  let rv2 := u32 rv2 in
  (Z.lor (Z.shiftl rv2 32) rv1, g).

(** The word loop of a row when [shift > 0]: [n] words from [ii] on;
    every word is added split over two words of the row.  The last
    word drawn is returned as [prev]. *)
Fixpoint add_shifted_words (G : CatsChoice) (n : nat) (ii row shift prev : Z)
    (g : prng G) (m : list Z) : Z * prng G * list Z :=
  match n with
  | O => (prev, g, m)
  | S n' =>
      let '(word, g) := next_word G g in
      let m :=
        upd m (row + ii)
          (Z.lxor (sel 0 m (row + ii))
             (Z.lor (Z.shiftr prev (64 - shift)) (u64 (Z.shiftl word shift)))) in
      add_shifted_words G n' (ii + 1) row shift word g m
  end.

(** The row loop when [shift > 0]: [rows] rows, the current one at
    word [row]. *)
Fixpoint add_shifted_rows (G : CatsChoice) (rows : nat) (row pitch n shift : Z)
    (g : prng G) (m : list Z) : list Z :=
  match rows with
  | O => m
  | S rows' =>
      let add_pitch := Z.quot (n + 63) 64 in
      let '(prev, g, m) :=
        add_shifted_words G (Z.to_nat add_pitch) 0 row shift 0 g m in
      let last_bit := Z.quot (u32 (shift + n + 63)) 64 in
      let m :=
        if add_pitch <? last_bit then
          upd m (row + add_pitch)
            (Z.lxor (sel 0 m (row + add_pitch)) (Z.shiftr prev (64 - shift)))
        else m in
      add_shifted_rows G rows' (row + pitch) pitch n shift g m
  end.

(** The word loop of a row in the aligned case. *)
Fixpoint add_aligned_words (G : CatsChoice) (n : nat) (ii row : Z)
    (g : prng G) (m : list Z) : prng G * list Z :=
  match n with
  | O => (g, m)
  | S n' =>
      let '(word, g) := next_word G g in
      let m := upd m (row + ii) (Z.lxor (sel 0 m (row + ii)) word) in
      add_aligned_words G n' (ii + 1) row g m
  end.

(** The row loop of the aligned case. *)
Fixpoint add_aligned_rows (G : CatsChoice) (rows : nat) (row pitch n : Z)
    (g : prng G) (m : list Z) : list Z :=
  match rows with
  | O => m
  | S rows' =>
      let '(g, m) :=
        add_aligned_words G (Z.to_nat (Z.quot (n + 63) 64)) 0 row g m in
      add_aligned_rows G rows' (row + pitch) pitch n g m
  end.

(** The loop for [n >= 512]: the diagonal bit of [n] rows from [ii]
    on is flipped. *)
Fixpoint add_diagonal (n : nat) (ii row offset pitch : Z) (m : list Z) : list Z :=
  match n with
  | O => m
  | S n' =>
      let column_i := offset + ii in
      add_diagonal n' (ii + 1) (row + pitch) offset pitch (flip_bit row column_i m)
  end.

(** [AddInvertibleGF2Matrix(matrix, offset, pitch, n)].  The generator
    is seeded with the one-argument [Initialize] of its class, which
    the header declares; it is the parameter [Initialize1]. *)
Definition AddInvertibleGF2Matrix (G : CatsChoice) (Initialize1 : Z -> prng G)
    (matrix : list Z) (offset pitch n : Z) : bool * list Z :=
  if n <=? 0 then (false, matrix)
  else if n <? 512 then
    let g := Initialize1 (sel 0 INVERTIBLE_MATRIX_SEEDS n) in
    let shift := Z.land offset 63 in
    let row := Z.shiftr offset 6 in
    if 0 <? shift then
      (true, add_shifted_rows G (Z.to_nat n) row pitch n shift g matrix)
    else
      (true, add_aligned_rows G (Z.to_nat n) row pitch n g matrix)
  else
    (true, add_diagonal (Z.to_nat n) 0 0 offset pitch matrix).

(** Bit [column] of row [row] of a packed matrix of [pitch] words a
    row. *)
Definition matrix_bit (m : list Z) (pitch row column : Z) : bool :=
  Z.testbit (sel 0 m (pitch * row + Z.shiftr column 6)) (Z.land column 63).

(** [m] is [m0] with the words of [z] added: the three have the same
    length, and every word of [m] is the sum of the two. *)
Definition added_to (m0 m z : list Z) : Prop :=
  length m = length m0 /\ length z = length m0 /\
  forall w, sel 0 m w = Z.lxor (sel 0 m0 w) (sel 0 z w).


(** ** The list of deferred columns *)

(** The list that starts at column [head] and follows [next] holds the
    columns [l], in this order, and ends with [LIST_TERM]. *)
Fixpoint column_chain `{H : Header} (cols : list PeelColumn.t) (head : Z)
    (l : list Z) : Prop :=
  match l with
  | [] => head = LIST_TERM
  | x :: l' =>
      head = x /\ x <> LIST_TERM /\
      column_chain cols (PeelColumn.next (sel PeelColumn.zero cols x)) l'
  end.

(** The list at [_defer_head_columns] holds [l]; these are
    [_defer_count] different columns, and they are the columns marked
    [MARK_DEFER]. *)
Definition deferred_columns `{H : Header} (c : Codec) (l : list Z) : Prop :=
  column_chain (_peel_cols c) (_defer_head_columns c) l /\
  Z.of_nat (length l) = _defer_count c /\
  NoDup l /\
  forall i,
    i ∈ l <->
    0 <= i < _block_count c /\ PeelColumn.mark (get_col c i) = MARK_DEFER.

(** What [Peel] and [PeelAvalanche] keep of the columns: the sizes, the
    reference lists, the head and the count of the deferred columns,
    every column that has a mark, and no column becomes
    [MARK_DEFER]. *)
Definition keeps_marked (c c' : Codec) : Prop :=
  _peel_col_refs c' = _peel_col_refs c /\
  length (_peel_rows c') = length (_peel_rows c) /\
  length (_peel_cols c') = length (_peel_cols c) /\
  _block_count c' = _block_count c /\
  _defer_head_columns c' = _defer_head_columns c /\
  _defer_count c' = _defer_count c /\
  (forall i, is_todo c i = false -> get_col c' i = get_col c i) /\
  (forall i,
     PeelColumn.mark (get_col c' i) = MARK_DEFER ->
     PeelColumn.mark (get_col c i) = MARK_DEFER).

(** A call of [peel] on a column still to do keeps the marked
    columns. *)
Definition peel_keeps_marked (peel : Z -> Z -> Codec -> option Codec) : Prop :=
  forall r col c c',
    peel r col c = Some c' -> peel_ready c -> is_todo c col = true ->
    keeps_marked c c'.


(** ** (2) Compression: the deferred columns *)

Section Compression.
Context {H : Header}.

(** The [while (count--)] loop of [SetDeferredColumns]: [ge_mask] is
    set in word [offset] of the compress-matrix row of every row in
    [rows]. *)
Fixpoint set_column_bits (rows : list Z) (offset ge_mask pitch : Z)
    (m : list Z) : list Z :=
  match rows with
  | [] => m
  | row_i :: rest =>
      let w := offset + pitch * row_i in
      set_column_bits rest offset ge_mask pitch
        (upd m w (Z.lor (sel 0 m w) ge_mask))
  end.

(** The first loop of [SetDeferredColumns], over the list of deferred
    columns; [ge_column_i] and [defer_i] are the 16-bit loop
    variables.  [None] when [fuel] runs out. *)
Fixpoint SetDeferredColumns_loop (fuel : nat) (ge_column_i defer_i : Z)
    (c : Codec) : option Codec :=
  match fuel with
  | O => None
  | S fuel' =>
      if defer_i =? LIST_TERM then Some c
      else
        let refs := get_refs c defer_i in
        let count := u16 (PeelRefs.row_count refs) in
        let rows :=
          map (fun k => u16 (sel 0 (PeelRefs.rows refs) k)) (seqZ 0 count) in
        let m :=
          set_column_bits rows (Z.shiftr ge_column_i 6)
            (Z.shiftl 1 (Z.land ge_column_i 63)) (_ge_pitch c)
            (_ge_compress_matrix c) in
        let c := set_ge_compress_matrix m c in
        let c := set_ge_col_map (upd (_ge_col_map c) ge_column_i defer_i) c in
        let c := modify_col (PeelColumn.set_ge_column ge_column_i) defer_i c in
        SetDeferredColumns_loop fuel' (u16 (ge_column_i + 1))
          (u16 (PeelColumn.next (get_col c defer_i))) c
  end.

(** The second loop of [SetDeferredColumns]: [n] mix columns from
    [added_i] on. *)
Fixpoint set_mix_columns (n : nat) (added_i : Z) (c : Codec) : Codec :=
  match n with
  | O => c
  | S n' =>
      let ge_column_i := u16 (_defer_count c + added_i) in
      let column_i := u16 (_block_count c + added_i) in
      let c := set_ge_col_map (upd (_ge_col_map c) ge_column_i column_i) c in
      set_mix_columns n' (u16 (added_i + 1)) c
  end.

(** [SetDeferredColumns()].  The 16-bit counter of the second loop
    stays below an [_added_count] of 2^16 or more, and the loop does
    not end. *)
Definition SetDeferredColumns (fuel : nat) (c : Codec) : option Codec :=
  match SetDeferredColumns_loop fuel 0 (u16 (_defer_head_columns c)) c with
  | Some c =>
      if 2^16 <=? _added_count c then None
      else Some (set_mix_columns (Z.to_nat (_added_count c)) 0 c)
  | None => None
  end.

End Compression.

(** [c'] is [c] with other columns, column map and compress matrix. *)
Definition columns_mapped (c c' : Codec) : Prop :=
  exists cols map m,
    c' = set_ge_compress_matrix m (set_ge_col_map map (set_peel_cols cols c)).

(** The rows that [SetDeferredColumns] reads from the reference list
    of column [x]. *)
Definition column_refs (c : Codec) (x : Z) : list Z :=
  let refs := get_refs c x in
  map (fun k => u16 (sel 0 (PeelRefs.rows refs) k))
    (seqZ 0 (u16 (PeelRefs.row_count refs))).

(** A codec with three columns: column 0 is peeled, and the list of
    deferred columns holds column 2, then column 1.  Row 0 refers to
    column 1, rows 0 and 1 refer to column 2. *)
Definition deferred_codec : Codec :=
  set_ge_col_map [0; 0; 0; 0]
    (set_ge_compress_matrix [0; 0]
       (set_ge_pitch 1
          (set_added_count 2
             (set_defer_count 2
                (set_defer_head_columns 2
                   (set_peel_col_refs
                      [ PeelRefs.mk 0 []; PeelRefs.mk 1 [0]; PeelRefs.mk 2 [0; 1] ]
                      (set_peel_cols
                         [ PeelColumn.mk 0 0 MARK_PEEL;
                           PeelColumn.mk 0xffff 0 MARK_DEFER;
                           PeelColumn.mk 1 0 MARK_DEFER ]
                         (set_block_count 3 new_codec)))))))).

(** What the loop [// Initialize columns] leaves in a column and its
    reference list. *)
Definition column_cleared `{H : Header} (c : Codec) (i : Z) : Prop :=
  PeelRefs.row_count (get_refs c i) = 0 /\
  PeelColumn.mark (get_col c i) = MARK_TODO /\
  PeelColumn.w2_refs (get_col c i) = 0.

(** * Properties *)

(** ** Reading a member after an assignment *)

Ltac codec_simpl :=
  cbn [
    _block_bytes _block_count _block_next_prime _extra_count _p_seed
    _c_seed _light_count _dense_count _light_next_prime _added_count
    _added_next_prime _input_final_bytes _output_final_bytes _used_count
    _peel_rows _peel_cols _peel_col_refs _peel_head_rows _peel_tail_rows
    _defer_head_rows _defer_head_columns _defer_count _ge_matrix
    _ge_compress_matrix _ge_pitch _ge_rows _ge_pivots _ge_row_map
    _ge_col_map _ge_resume_pivot _input_blocks _input_allocated
    _recovery_blocks heap set_block_bytes set_block_count
    set_block_next_prime set_extra_count set_p_seed set_c_seed
    set_light_count set_dense_count set_light_next_prime set_added_count
    set_added_next_prime set_input_final_bytes set_output_final_bytes
    set_used_count set_peel_rows set_peel_cols set_peel_col_refs
    set_peel_head_rows set_peel_tail_rows set_defer_head_rows
    set_defer_head_columns set_defer_count set_ge_matrix
    set_ge_compress_matrix set_ge_pitch set_ge_rows set_ge_pivots
    set_ge_row_map set_ge_col_map set_ge_resume_pivot set_input_blocks
    set_input_allocated set_recovery_blocks set_heap ].

Tactic Notation "codec_simpl" "in" hyp(H) :=
  cbn [
    _block_bytes _block_count _block_next_prime _extra_count _p_seed
    _c_seed _light_count _dense_count _light_next_prime _added_count
    _added_next_prime _input_final_bytes _output_final_bytes _used_count
    _peel_rows _peel_cols _peel_col_refs _peel_head_rows _peel_tail_rows
    _defer_head_rows _defer_head_columns _defer_count _ge_matrix
    _ge_compress_matrix _ge_pitch _ge_rows _ge_pivots _ge_row_map
    _ge_col_map _ge_resume_pivot _input_blocks _input_allocated
    _recovery_blocks heap set_block_bytes set_block_count
    set_block_next_prime set_extra_count set_p_seed set_c_seed
    set_light_count set_dense_count set_light_next_prime set_added_count
    set_added_next_prime set_input_final_bytes set_output_final_bytes
    set_used_count set_peel_rows set_peel_cols set_peel_col_refs
    set_peel_head_rows set_peel_tail_rows set_defer_head_rows
    set_defer_head_columns set_defer_count set_ge_matrix
    set_ge_compress_matrix set_ge_pitch set_ge_rows set_ge_pivots
    set_ge_row_map set_ge_col_map set_ge_resume_pivot set_input_blocks
    set_input_allocated set_recovery_blocks set_heap ] in H.

(** ** Square root *)

Lemma forall_from_spec (n : nat) (x : Z) (P : Z -> bool) :
  forall_from n x P = true ->
  forall y, x <= y < x + Z.of_nat n -> P y = true.
Proof.
  revert x. induction n as [|n IH]; intros x Hall y Hy.
  - lia.
  - cbn [forall_from] in Hall. apply andb_prop in Hall as [Hx Hrest].
    destruct (Z.eq_dec y x) as [->|Hne]; [exact Hx|].
    apply (IH (x + 1) Hrest). lia.
Qed.

Lemma SquareRoot16_checked :
  forall_from (Z.to_nat 65536) 0 SquareRoot16_check = true.
Proof. vm_compute. reflexivity. Qed.

(** C10.  For every 16-bit input [x], [SquareRoot16 x] is the integer
    square root of [x]: it is the one [r >= 0] with
    [r * r <= x < (r + 1) * (r + 1)], that is [Z.sqrt x]. *)
Theorem SquareRoot16_exact (x : Z) :
  0 <= x < 2^16 ->
  let r := SquareRoot16 x in
  0 <= r /\ r * r <= x < (r + 1) * (r + 1) /\ r = Z.sqrt x /\
  (forall r', 0 <= r' -> r' * r' <= x < (r' + 1) * (r' + 1) -> r' = r).
Proof.
  intros Hx r.
  assert (Hc : SquareRoot16_check x = true).
  { apply (forall_from_spec _ _ _ SquareRoot16_checked). lia. }
  unfold SquareRoot16_check in Hc. fold r in Hc.
  apply andb_prop in Hc as [Hc H3]. apply andb_prop in Hc as [H1 H2].
  apply Z.leb_le in H1, H2. apply Z.ltb_lt in H3.
  repeat split; try lia.
  - symmetry. apply Z.sqrt_unique. lia.
  - intros r' Hr' [Hlo Hhi]. nia.
Qed.

Lemma SquareRoot16_exact_witness :
  0 <= 50000 < 2^16 /\ SquareRoot16 50000 = Z.sqrt 50000.
Proof.
  split; [lia|].
  destruct (SquareRoot16_exact 50000) as (_ & _ & E & _); [lia|exact E].
Defined.

(** ** Peel row weight *)

Lemma weight_scan_spec (tbl : list Z) (ii rv : Z) :
  let i := weight_scan tbl ii rv in
  ii <= i <= ii + Z.of_nat (length tbl) /\
  (forall j, ii <= j < i -> sel 0 tbl (j - ii) <= rv) /\
  (i < ii + Z.of_nat (length tbl) -> rv < sel 0 tbl (i - ii)).
Proof.
  revert ii. induction tbl as [|d tbl IH]; intros ii; cbn [weight_scan length].
  - repeat split; intros; lia.
  - destruct (d <=? rv) eqn:Hd.
    + apply Z.leb_le in Hd. specialize (IH (ii + 1)). cbv zeta in IH.
      destruct IH as (Hr & Hb & Ha).
      assert (Hsel : forall k, 0 < k -> sel 0 (d :: tbl) k = sel 0 tbl (k - 1)).
      { intros k Hk. unfold sel.
        destruct (k <? 0) eqn:E1; [apply Z.ltb_lt in E1; lia|].
        destruct (k - 1 <? 0) eqn:E2; [apply Z.ltb_lt in E2; lia|].
        replace (Z.to_nat k) with (S (Z.to_nat (k - 1))) by lia. reflexivity. }
      repeat split; try lia.
      * intros j Hj. destruct (Z.eq_dec j ii) as [->|Hne].
        -- rewrite Z.sub_diag. exact Hd.
        -- rewrite Hsel by lia. replace (j - ii - 1) with (j - (ii + 1)) by lia.
           apply Hb. lia.
      * intros Hlt. rewrite Hsel by lia.
        replace (weight_scan tbl (ii + 1) rv - ii - 1)
          with (weight_scan tbl (ii + 1) rv - (ii + 1)) by lia.
        apply Ha. lia.
    + apply Z.leb_gt in Hd. repeat split; try lia.
      intros _. rewrite Z.sub_diag. exact Hd.
Qed.

Lemma sel_drop1 (l : list Z) (k : Z) :
  0 <= k -> sel 0 (drop 1 l) k = sel 0 l (k + 1).
Proof.
  intros Hk. unfold sel.
  destruct (k <? 0) eqn:E1; [apply Z.ltb_lt in E1; lia|].
  destruct (k + 1 <? 0) eqn:E2; [apply Z.ltb_lt in E2; lia|].
  rewrite lookup_drop. replace (1 + Z.to_nat k)%nat with (Z.to_nat (k + 1)) by lia.
  reflexivity.
Qed.

Lemma land_20_range (r : Z) : 0 <= Z.land r 0xfffff < 2^20.
Proof.
  split.
  - apply Z.land_nonneg. right. lia.
  - change 0xfffff with (Z.ones 20). rewrite Z.land_ones by lia.
    apply Z.mod_pos_bound. lia.
Qed.

Lemma GeneratePeelRowWeight_least (r1 max_weight : Z) :
  let rv := Z.land r1 0xfffff in
  exists i, 1 <= i < 31 /\ rv < sel 0 WEIGHT_DIST i /\
    (forall j, 1 <= j < i -> sel 0 WEIGHT_DIST j <= rv) /\
    GeneratePeelRowWeight r1 max_weight = if max_weight <? i then max_weight else i.
Proof.
  intros rv. unfold GeneratePeelRowWeight. fold rv.
  pose proof (weight_scan_spec (drop 1 WEIGHT_DIST) 1 rv) as Hs. cbv zeta in Hs.
  set (i := weight_scan (drop 1 WEIGHT_DIST) 1 rv) in *.
  destruct Hs as (Hr & Hb & Ha).
  change (Z.of_nat (length (drop 1 WEIGHT_DIST))) with 30 in *.
  pose proof (land_20_range r1) as Hrv. fold rv in Hrv.
  assert (Hi : i < 31).
  { destruct (Z.eq_dec i 31) as [E|]; [|lia].
    specialize (Hb 30 ltac:(lia)). rewrite sel_drop1 in Hb by lia.
    change (sel 0 WEIGHT_DIST (30 - 1 + 1)) with 1048576 in Hb. lia. }
  exists i. repeat split; try lia.
  - specialize (Ha ltac:(lia)). rewrite sel_drop1 in Ha by lia.
    replace (i - 1 + 1) with i in Ha by lia. exact Ha.
  - intros j Hj. specialize (Hb j ltac:(lia)). rewrite sel_drop1 in Hb by lia.
    replace (j - 1 + 1) with j in Hb by lia. exact Hb.
Qed.

Lemma GeneratePeelRow_peel_weight (G : CatsChoice) (id p_seed n h : Z) :
  RowShape.peel_weight (GeneratePeelRow G id p_seed n h) =
  GeneratePeelRowWeight (first_draw G id p_seed) (u16 (n - 1)).
Proof.
  unfold GeneratePeelRow, first_draw.
  destruct (Next G (Initialize G id p_seed)) as [r1 g1].
  destruct (Next G g1) as [r2 g2]. destruct (Next G g2) as [r3 g3].
  reflexivity.
Qed.

(** C8.  For every draw [r1] of the generator and every block count
    [N >= 2] (a 16-bit value), the peel weight generated for a row is
    the least index [i >= 1] with [(r1 & 0xFFFFF) < WEIGHT_DIST[i]],
    clamped to [N - 1]; the index lies inside the table and
    [1 <= w <= N - 1]. *)
Theorem GeneratePeelRow_weight (G : CatsChoice) (id p_seed N added : Z) :
  2 <= N < 2^16 ->
  let rv := Z.land (first_draw G id p_seed) 0xFFFFF in
  let w := RowShape.peel_weight (GeneratePeelRow G id p_seed N added) in
  exists i, 1 <= i < 31 /\ rv < sel 0 WEIGHT_DIST i /\
    (forall j, 1 <= j < i -> sel 0 WEIGHT_DIST j <= rv) /\
    w = Z.min i (N - 1) /\ 1 <= w <= N - 1.
Proof.
  intros HN rv w. unfold w. rewrite GeneratePeelRow_peel_weight.
  destruct (GeneratePeelRowWeight_least (first_draw G id p_seed) (u16 (N - 1)))
    as (i & Hi & Hlt & Hleast & Hw).
  assert (Hu : u16 (N - 1) = N - 1).
  { unfold u16. apply Z.mod_small. lia. }
  rewrite Hu in Hw |- *. exists i. repeat split; try assumption; try lia.
  - rewrite Hw. destruct (N - 1 <? i) eqn:E.
    + apply Z.ltb_lt in E. lia.
    + apply Z.ltb_ge in E. lia.
  - rewrite Hw. destruct (N - 1 <? i); lia.
  - rewrite Hw. destruct (N - 1 <? i) eqn:E; [lia|]. apply Z.ltb_ge in E. lia.
Qed.

Lemma GeneratePeelRow_weight_witness :
  2 <= 16 < 2^16 /\
  1 <= RowShape.peel_weight
         (GeneratePeelRow (scripted (fun _ _ => shape_words 600000 1 0 1 0)) 7 1 16 8)
    <= 16 - 1.
Proof.
  split; [lia|].
  destruct (GeneratePeelRow_weight
              (scripted (fun _ _ => shape_words 600000 1 0 1 0)) 7 1 16 8)
    as (i & _ & _ & _ & _ & Hw); [lia|exact Hw].
Defined.

(** ** Setup *)

Lemma NextPrime16_checked :
  forall_from (Z.to_nat 65536) 0 NextPrime16_check = true.
Proof. vm_compute. reflexivity. Qed.

Lemma forallb_forall_nonneg (l : list Z) :
  forallb (fun x => 0 <=? x) l = true -> Forall (fun x => 0 <= x) l.
Proof.
  induction l as [|x l IH]; cbn [forallb]; intros Hl; constructor.
  - apply andb_prop in Hl as [Hx _]. apply Z.leb_le. exact Hx.
  - apply IH. apply andb_prop in Hl as [_ Hl]. exact Hl.
Qed.

Lemma sel_nonneg (l : list Z) (k : Z) :
  Forall (fun x => 0 <= x) l -> 0 <= sel 0 l k.
Proof.
  intros Hl. unfold sel. destruct (k <? 0); [lia|].
  destruct (l !! Z.to_nat k) as [x|] eqn:E; cbn [default]; [|lia].
  rewrite Forall_forall in Hl. apply Hl.
  apply (list_elem_of_lookup_2 l (Z.to_nat k)). exact E.
Qed.

(** An argument that the sieve table moves forward gives the same call
    of the loop as the argument it is moved to. *)
Lemma NextPrime16_skip (n : Z) :
  7 < n ->
  let next := sel 0 SIEVE_TABLE (n mod SIEVE_TABLE_SIZE) in
  n + next < 2^16 ->
  sel 0 SIEVE_TABLE ((n + next) mod SIEVE_TABLE_SIZE) = 0 ->
  (n + next) mod SIEVE_TABLE_SIZE = n mod SIEVE_TABLE_SIZE + next ->
  0 <= next ->
  NextPrime16 n = NextPrime16 (n + next).
Proof.
  intros Hn next Hlt Hz Hoff Hnext. unfold NextPrime16.
  repeat match goal with
         | |- context [?a <=? ?b] =>
             destruct (Z.leb_spec a b); [lia|]
         | |- context [?a =? ?b] =>
             lazymatch b with
             | 2 => destruct (Z.eqb_spec a b); [lia|]
             | 3 => destruct (Z.eqb_spec a b); [lia|]
             end
         end.
  fold next. rewrite Hz, Hoff. rewrite !Z.add_0_r.
  replace (n mod SIEVE_TABLE_SIZE + next + (0 + 1))
    with (n mod SIEVE_TABLE_SIZE + (next + 1)) by lia.
  reflexivity.
Qed.

(** [NextPrime16] returns on every 16-bit argument. *)
Lemma NextPrime16_total (n : Z) : exists p, NextPrime16 (u16 n) = Some p.
Proof.
  assert (Hr : 0 <= u16 n < 2^16) by (apply Z.mod_pos_bound; lia).
  set (m := u16 n) in *.
  assert (Hcheck : forall y, 0 <= y < 2^16 -> NextPrime16_check y = true).
  { intros y Hy. apply (forall_from_spec _ _ _ NextPrime16_checked y). lia. }
  destruct (Z.le_gt_cases m 7) as [Hsmall|Hbig].
  - unfold NextPrime16.
    repeat match goal with
           | |- context [if ?b then _ else _] => destruct b eqn:?; [eauto|]
           end.
    exfalso.
    repeat match goal with
           | E : (_ <=? _) = false |- _ => apply Z.leb_gt in E
           | E : (_ =? _) = false |- _ => apply Z.eqb_neq in E
           end.
    lia.
  - assert (Hdirect : forall y, 7 < y < 2^16 ->
              (let next := sel 0 SIEVE_TABLE (y mod SIEVE_TABLE_SIZE) in
               (next =? 0) || (2^16 <=? y + next) = true) ->
              exists p, NextPrime16 y = Some p).
    { intros y Hy Hz. pose proof (Hcheck y ltac:(lia)) as Hc.
      unfold NextPrime16_check in Hc. cbv zeta in Hz, Hc.
      destruct (Z.leb_spec y 7); [lia|]. rewrite Hz in Hc.
      destruct (NextPrime16 y) as [p|]; [eauto|discriminate]. }
    destruct ((sel 0 SIEVE_TABLE (m mod SIEVE_TABLE_SIZE) =? 0)
              || (2^16 <=? m + sel 0 SIEVE_TABLE (m mod SIEVE_TABLE_SIZE))) eqn:Ez.
    + apply Hdirect; [lia|exact Ez].
    + pose proof (Hcheck m Hr) as Hc. unfold NextPrime16_check in Hc. cbv zeta in Hc.
      destruct (Z.leb_spec m 7); [lia|]. rewrite Ez in Hc.
      apply orb_false_elim in Ez as [Ez1 Ez2].
      apply Z.leb_gt in Ez2.
      apply andb_prop in Hc as [H2 H3]. apply Z.eqb_eq in H2, H3.
      assert (Hnext : 0 <= sel 0 SIEVE_TABLE (m mod SIEVE_TABLE_SIZE)).
      { apply sel_nonneg. apply forallb_forall_nonneg. vm_compute. reflexivity. }
      rewrite (NextPrime16_skip m Hbig Ez2 H2 H3 Hnext).
      apply Hdirect; [lia|]. cbv zeta. rewrite H2. reflexivity.
Qed.

Lemma switch_block_count_None (cases : list (Z * (Z * Z))) (n : Z) :
  switch_block_count cases n = None <-> ~ In n (map fst cases).
Proof.
  induction cases as [|[k ld] cases IH]; cbn [switch_block_count map fst In].
  - tauto.
  - destruct (n =? k) eqn:E.
    + apply Z.eqb_eq in E. subst. split; [discriminate|]. intros Hn. exfalso. auto.
    + apply Z.eqb_neq in E. rewrite IH. split.
      * intros Hn [Hk|Hin]; [congruence|auto].
      * intros Hn Hin. apply Hn. right. exact Hin.
Qed.

Lemma switch_block_count_tabulated (n : Z) :
  tabulated n -> exists l d, switch_block_count matrix_parameter_table n = Some (l, d).
Proof.
  intros Ht. destruct (switch_block_count matrix_parameter_table n) as [[l d]|] eqn:E.
  - eauto.
  - apply switch_block_count_None in E. contradiction.
Qed.

Lemma tabulated_range (n : Z) : tabulated n -> 16 <= n <= 64000.
Proof.
  unfold tabulated. cbn [map fst matrix_parameter_table In].
  intros Hin. repeat (destruct Hin as [<-|Hin]; [lia|]). contradiction.
Qed.

(** [ChooseMatrix] decides on the block count it has stored, which is
    the quotient reduced to 16 bits. *)
Lemma ChooseMatrix_result `{H : Header} (g : Globals) (message_bytes block_bytes : Z)
    (c : Codec) :
  let N := u16 (Z.quot (message_bytes + block_bytes - 1) block_bytes) in
  (~ tabulated N ->
     exists c', ChooseMatrix g message_bytes block_bytes c = Some (R_BAD_INPUT, c') /\
       heap c' = heap c /\ workspace c' = workspace c) /\
  (forall l d, switch_block_count matrix_parameter_table N = Some (l, d) ->
     exists c', ChooseMatrix g message_bytes block_bytes c = Some (R_WIN, c') /\
       heap c' = heap c /\ workspace c' = workspace c /\
       _block_bytes c' = block_bytes /\ _block_count c' = N /\
       _light_count c' = l /\ _dense_count c' = d /\ _added_count c' = l + d /\
       _p_seed c' = u32 (g_p_seed g) /\ _c_seed c' = u32 (g_c_seed g)).
Proof.
  intros N. unfold ChooseMatrix. codec_simpl. fold N.
  destruct (NextPrime16_total N) as [p Hp]. rewrite Hp.
  unfold GenerateMatrixParameters. split.
  - intros Hn. apply switch_block_count_None in Hn. rewrite Hn.
    cbn [negb]. eexists. split; [reflexivity|]. split; reflexivity.
  - intros l d Hld. rewrite Hld.
    cbn [negb mp_p_seed mp_c_seed mp_light_count mp_dense_count]. codec_simpl.
    destruct (NextPrime16_total l) as [pl Hpl]. rewrite Hpl.
    destruct (NextPrime16_total (l + d)) as [pa Hpa]. rewrite Hpa.
    eexists. split; [reflexivity|]. repeat split; reflexivity.
Qed.

(** The loop of [AllocateWorkspace] writes columns and reference
    lists only. *)
Lemma init_columns_arrays `{H : Header} (n : nat) (ii : Z) (c : Codec) :
  exists cols refs,
    init_columns n ii c = set_peel_col_refs refs (set_peel_cols cols c).
Proof.
  revert ii c. induction n as [|n IH]; intros ii c.
  - exists (_peel_cols c), (_peel_col_refs c). destruct c; reflexivity.
  - cbn [init_columns].
    destruct (IH (ii + 1)
      (modify_col (PeelColumn.set_mark MARK_TODO) ii
         (modify_col (PeelColumn.set_w2_refs 0) ii
            (put_refs ii (PeelRefs.mk 0 (PeelRefs.rows (get_refs c ii))) c))))
      as (cols & refs & ->).
    exists cols, refs. destruct c; reflexivity.
Qed.

Lemma init_columns_counts `{H : Header} (n : nat) (ii : Z) (c : Codec) :
  _light_count (init_columns n ii c) = _light_count c /\
  _dense_count (init_columns n ii c) = _dense_count c /\
  _block_count (init_columns n ii c) = _block_count c.
Proof.
  revert ii c. induction n as [|n IH]; intros ii c; [repeat split|].
  cbn [init_columns]. destruct (IH (ii + 1)
    (modify_col (PeelColumn.set_mark MARK_TODO) ii
       (modify_col (PeelColumn.set_w2_refs 0) ii
          (put_refs ii (PeelRefs.mk 0 (PeelRefs.rows (get_refs c ii))) c))))
    as (E1 & E2 & E3).
  rewrite E1, E2, E3. repeat split.
Qed.

Lemma AllocateWorkspace_counts `{H : Header} (c : Codec) :
  _light_count (snd (AllocateWorkspace c)) = _light_count c /\
  _dense_count (snd (AllocateWorkspace c)) = _dense_count c /\
  _block_count (snd (AllocateWorkspace c)) = _block_count c.
Proof.
  unfold AllocateWorkspace, operator_new. cbv zeta. codec_simpl.
  repeat (destruct (new_ok _ _); cbn [negb snd]; codec_simpl);
    try (repeat split; fail).
  match goal with
  | |- context [init_columns ?n ?i ?x] =>
      destruct (init_columns_counts n i x) as (E1 & E2 & E3)
  end.
  rewrite E1, E2, E3. repeat split.
Qed.

Lemma AllocateInput_counts `{H : Header} (c : Codec) :
  _light_count (snd (AllocateInput c)) = _light_count c /\
  _dense_count (snd (AllocateInput c)) = _dense_count c /\
  _block_count (snd (AllocateInput c)) = _block_count c.
Proof.
  unfold AllocateInput, operator_new. cbv zeta. codec_simpl.
  destruct (_input_allocated c); codec_simpl;
    destruct (new_ok _ _); repeat split.
Qed.

(** What setup does for every message length and block size: it
    returns [R_BAD_INPUT], with no request to the allocator and the
    workspace pointers untouched, exactly when the block count it has
    stored, the quotient reduced to 16 bits, is not in the parameter
    table; otherwise it goes past the lookup with the tabulated light
    and dense counts. *)
Lemma Initialize_stored_count_lookup `{H : Header} (g : Globals)
    (message_bytes block_bytes : Z) (c : Codec) :
  let N := u16 (Z.quot (message_bytes + block_bytes - 1) block_bytes) in
  (~ tabulated N ->
     (exists c', InitializeEncoder g message_bytes block_bytes c = Some (R_BAD_INPUT, c') /\
        heap c' = heap c /\ workspace c' = workspace c) /\
     (exists c', InitializeDecoder g message_bytes block_bytes c = Some (R_BAD_INPUT, c') /\
        heap c' = heap c /\ workspace c' = workspace c)) /\
  (tabulated N ->
     (exists r c', InitializeEncoder g message_bytes block_bytes c = Some (r, c') /\
        (r = R_WIN \/ r = R_OUT_OF_MEMORY) /\ _block_count c' = N /\
        switch_block_count matrix_parameter_table N =
          Some (_light_count c', _dense_count c')) /\
     (exists r c', InitializeDecoder g message_bytes block_bytes c = Some (r, c') /\
        (r = R_WIN \/ r = R_OUT_OF_MEMORY) /\ _block_count c' = N /\
        switch_block_count matrix_parameter_table N =
          Some (_light_count c', _dense_count c'))).
Proof.
  intros N.
  destruct (ChooseMatrix_result g message_bytes block_bytes c) as [Hbad Hok].
  fold N in Hbad, Hok. split.
  - intros Hn. destruct (Hbad Hn) as (c' & Hc & Hh & Hw).
    unfold InitializeEncoder, InitializeDecoder. rewrite Hc. split; eauto.
  - intros Ht. destruct (switch_block_count_tabulated N Ht) as (l & d & Hld).
    destruct (Hok l d Hld) as (c' & Hc & _ & _ & _ & Hn & Hl & Hd & _).
    unfold InitializeEncoder, InitializeDecoder. rewrite Hc. split.
    + match goal with
      | |- context [AllocateWorkspace ?x] =>
          pose proof (AllocateWorkspace_counts x) as (E1 & E2 & E3);
          destruct (AllocateWorkspace x) as [ok c2]
      end.
      cbn [snd] in E1, E2, E3. revert E1 E2 E3. codec_simpl. intros E1 E2 E3.
      exists (if negb ok then R_OUT_OF_MEMORY else R_WIN), c2.
      rewrite E1, E2, E3, Hl, Hd, Hn. destruct ok; cbn [negb]; auto.
    + match goal with
      | |- context [AllocateInput ?x] =>
          pose proof (AllocateInput_counts x) as (F1 & F2 & F3);
          destruct (AllocateInput x) as [ok1 c1]
      end.
      cbn [snd] in F1, F2, F3. revert F1 F2 F3. codec_simpl. intros F1 F2 F3.
      destruct ok1; cbn [negb].
      * pose proof (AllocateWorkspace_counts c1) as (E1 & E2 & E3).
        destruct (AllocateWorkspace c1) as [ok c2]. cbn [snd] in E1, E2, E3.
        exists (if negb ok then R_OUT_OF_MEMORY else R_WIN), c2.
        rewrite E1, E2, E3, F1, F2, F3, Hl, Hd, Hn. destruct ok; cbn [negb]; auto.
      * exists R_OUT_OF_MEMORY, c1. rewrite F1, F2, F3, Hl, Hd, Hn. auto.
Qed.

(** C6 fails on the code at block counts of 2^16 and more.  A message
    of 65552 bytes in blocks of one byte has 65552 blocks, which is
    not a tabulated count; [ChooseMatrix] computes the count as an
    [int] and stores it in the 16-bit [_block_count] before the
    lookup, so that [GenerateMatrixParameters] receives 16 and finds
    it: [InitializeEncoder] and [InitializeDecoder] return [R_WIN]
    for a codec of 16 blocks, and the allocator has received their
    requests. *)
Theorem Initialize_accepts_wrapped_count :
  let H := example_header 32 true (fun _ _ => []) in
  let g := {| g_p_seed := 1; g_c_seed := 2 |} in
  Z.quot (65552 + 1 - 1) 1 = 65552 /\ ~ tabulated 65552 /\
  (exists c',
     InitializeEncoder g 65552 1 new_codec = Some (R_WIN, c') /\
     _block_count c' = 16 /\ heap c' = [16; 16; 16; 25]) /\
  (exists c',
     InitializeDecoder g 65552 1 new_codec = Some (R_WIN, c') /\
     _block_count c' = 16 /\ heap c' = [16; 16; 20; 25; 20]).
Proof.
  intros H g. split; [reflexivity|]. split.
  - intros Ht. apply tabulated_range in Ht. lia.
  - split; eexists; (split; [vm_compute; reflexivity|]); split; reflexivity.
Qed.

(** ** Row shapes and seeds *)

Lemma classic_tabulated (n : Z) : tabulated n \/ ~ tabulated n.
Proof.
  unfold tabulated. destruct (in_dec Z.eq_dec n (map fst matrix_parameter_table)); auto.
Qed.

Lemma ChooseMatrix_win `{H : Header} (g : Globals) (message_bytes block_bytes : Z)
    (c c' : Codec) :
  ChooseMatrix g message_bytes block_bytes c = Some (R_WIN, c') ->
  let N := u16 (Z.quot (message_bytes + block_bytes - 1) block_bytes) in
  exists l d, switch_block_count matrix_parameter_table N = Some (l, d) /\
    _block_bytes c' = block_bytes /\ _block_count c' = N /\
    _light_count c' = l /\ _dense_count c' = d /\ _added_count c' = l + d /\
    _p_seed c' = u32 (g_p_seed g) /\ _c_seed c' = u32 (g_c_seed g).
Proof.
  intros Hc N.
  destruct (ChooseMatrix_result g message_bytes block_bytes c) as [Hbad Hok].
  fold N in Hbad, Hok.
  destruct (switch_block_count matrix_parameter_table N) as [[l d]|] eqn:E.
  - destruct (Hok l d eq_refl) as (c2 & Hc2 & _ & _ & Hrest).
    rewrite Hc in Hc2. inversion Hc2; subst c2. exists l, d. split; [reflexivity|exact Hrest].
  - apply switch_block_count_None in E. destruct (Hbad E) as (c2 & Hc2 & _).
    rewrite Hc in Hc2. discriminate Hc2.
Qed.

(** C3, as stated, fails: two codecs set up with the same message length
    and block size (16 blocks of one byte) while the process-wide seeds
    hold different values store different [_p_seed] and [_c_seed], and
    hand different seeds to the generator; with a generator that lets
    its seed through, the shapes of row 0 differ. *)
Lemma row_shape_depends_on_globals :
  let H := example_header 32 true (fun id seed => shape_words 0 1 seed 1 0) in
  exists c1 c2,
    ChooseMatrix {| g_p_seed := 1; g_c_seed := 1 |} 16 1 new_codec = Some (R_WIN, c1) /\
    ChooseMatrix {| g_p_seed := 2; g_c_seed := 2 |} 16 1 new_codec = Some (R_WIN, c2) /\
    _block_count c1 = _block_count c2 /\
    _p_seed c1 <> _p_seed c2 /\ _c_seed c1 <> _c_seed c2 /\
    row_shape_of c1 0 <> row_shape_of c2 0.
Proof.
  intros H. eexists _, _.
  split; [vm_compute; reflexivity|]. split; [vm_compute; reflexivity|].
  repeat split; vm_compute; discriminate.
Qed.

(** C3, amended.  For every tabulated block count and every id, the row
    shape is a fixed function of the id, the block count and the value of
    the process-wide seed [g_p_seed] at setup: the lookup fixes the light
    and dense counts from the block count and copies both seeds from the
    globals.  Two codecs set up with the same message length and block
    size while [g_p_seed] holds the same value generate the same shape
    for every id. *)
Theorem row_shape_fixed_by_seed `{H : Header} (g1 g2 : Globals)
    (message_bytes block_bytes : Z) (c01 c02 c1 c2 : Codec) (id : Z) :
  let N := Z.quot (message_bytes + block_bytes - 1) block_bytes in
  tabulated N ->
  u32 (g_p_seed g1) = u32 (g_p_seed g2) ->
  ChooseMatrix g1 message_bytes block_bytes c01 = Some (R_WIN, c1) ->
  ChooseMatrix g2 message_bytes block_bytes c02 = Some (R_WIN, c2) ->
  exists l d, switch_block_count matrix_parameter_table N = Some (l, d) /\
    _p_seed c1 = u32 (g_p_seed g1) /\ _c_seed c1 = u32 (g_c_seed g1) /\
    row_shape_of c1 id = GeneratePeelRow Generator id (u32 (g_p_seed g1)) N (l + d) /\
    row_shape_of c2 id = row_shape_of c1 id.
Proof.
  intros N Htab Hseed H1 H2.
  assert (HN : u16 N = N).
  { unfold u16. apply Z.mod_small. pose proof (tabulated_range N Htab). lia. }
  destruct (ChooseMatrix_win g1 _ _ _ _ H1) as (l & d & Hld & _ & Hn1 & _ & _ & Ha1 & Hp1 & Hc1).
  destruct (ChooseMatrix_win g2 _ _ _ _ H2) as (l2 & d2 & Hld2 & _ & Hn2 & _ & _ & Ha2 & Hp2 & _).
  fold N in Hld, Hld2, Hn1, Hn2. rewrite HN in Hld, Hld2, Hn1, Hn2.
  rewrite Hld in Hld2. inversion Hld2; subst l2 d2.
  exists l, d. unfold row_shape_of.
  rewrite Hp1, Hp2, Hn1, Hn2, Ha1, Ha2, <- Hseed. auto.
Qed.

Lemma row_shape_fixed_by_seed_witness :
  let H := example_header 32 true (fun id seed => shape_words 0 1 seed 1 0) in
  let g := {| g_p_seed := 1; g_c_seed := 1 |} in
  let c1 := snd (default (R_WIN, new_codec) (ChooseMatrix g 16 1 new_codec)) in
  tabulated (Z.quot (16 + 1 - 1) 1) /\
  exists l d,
    switch_block_count matrix_parameter_table (Z.quot (16 + 1 - 1) 1) = Some (l, d) /\
    row_shape_of c1 0 = GeneratePeelRow Generator 0 (u32 (g_p_seed g)) 16 (l + d).
Proof.
  intros H g c1.
  assert (Htab : tabulated (Z.quot (16 + 1 - 1) 1)) by (left; reflexivity).
  split; [exact Htab|].
  destruct (row_shape_fixed_by_seed (H := H) g g 16 1 new_codec new_codec c1 c1 0
              Htab eq_refl)
    as (l & d & Hld & _ & _ & Hshape & _);
    [vm_compute; reflexivity|vm_compute; reflexivity|].
  exists l, d. split; [exact Hld|exact Hshape].
Defined.

(** ** Arrays *)

Lemma length_upd {A} (l : list A) (i : Z) (v : A) : length (upd l i v) = length l.
Proof. unfold upd. destruct (i <? 0); [reflexivity|apply length_insert]. Qed.

Lemma sel_upd_eq {A} (d : A) (l : list A) (i : Z) (v : A) :
  0 <= i < Z.of_nat (length l) -> sel d (upd l i v) i = v.
Proof.
  intros Hi. unfold sel, upd. destruct (Z.ltb_spec i 0); [lia|].
  rewrite list_lookup_insert_eq by lia. reflexivity.
Qed.

Lemma sel_upd_ne {A} (d : A) (l : list A) (i j : Z) (v : A) :
  i <> j -> sel d (upd l i v) j = sel d l j.
Proof.
  intros Hij. unfold sel, upd. destruct (Z.ltb_spec j 0); [reflexivity|].
  destruct (Z.ltb_spec i 0); [reflexivity|].
  rewrite list_lookup_insert_ne by lia. reflexivity.
Qed.

Lemma upd_out_of_range {A} (l : list A) (i : Z) (v : A) :
  Z.of_nat (length l) <= i -> upd l i v = l.
Proof.
  intros Hi. unfold upd. destruct (Z.ltb_spec i 0); [reflexivity|].
  apply list_insert_ge. lia.
Qed.

Lemma sel_out_of_range {A} (d : A) (l : list A) (i : Z) :
  Z.of_nat (length l) <= i -> sel d l i = d.
Proof.
  intros Hi. unfold sel. destruct (Z.ltb_spec i 0); [reflexivity|].
  rewrite lookup_ge_None_2 by lia. reflexivity.
Qed.

(** ** What the solver steps keep *)

Lemma same_setup_refl (c : Codec) : same_setup c c.
Proof. repeat split. Qed.

Lemma same_setup_trans (c1 c2 c3 : Codec) :
  same_setup c1 c2 -> same_setup c2 c3 -> same_setup c1 c3.
Proof.
  unfold same_setup. intros A B.
  repeat match goal with E : _ /\ _ |- _ => destruct E end.
  repeat split; congruence.
Qed.

Lemma keeps_refl (c : Codec) : keeps c c.
Proof. repeat split. Qed.

Lemma keeps_trans (c1 c2 c3 : Codec) : keeps c1 c2 -> keeps c2 c3 -> keeps c1 c3.
Proof.
  intros (A & A0 & A1 & A2) (B & B0 & B1 & B2).
  split; [eapply same_setup_trans; eauto|].
  repeat split; congruence.
Qed.

Lemma settles_refl (c : Codec) : settles c c.
Proof. split; [apply keeps_refl|]. split; [reflexivity|lia]. Qed.

Lemma settles_trans (c1 c2 c3 : Codec) :
  settles c1 c2 -> settles c2 c3 -> settles c1 c3.
Proof.
  intros (A & A1 & A2) (B & B1 & B2). split; [eapply keeps_trans; eauto|].
  split; [congruence|lia].
Qed.

Lemma count_todo_upd (cols : list PeelColumn.t) (i : Z) (x : PeelColumn.t) :
  0 <= i < Z.of_nat (length cols) ->
  (count_todo (upd cols i x)
   + (if MarkTypes_eqb (PeelColumn.mark (sel PeelColumn.zero cols i)) MARK_TODO
      then 1 else 0)
   = count_todo cols
     + (if MarkTypes_eqb (PeelColumn.mark x) MARK_TODO then 1 else 0))%nat.
Proof.
  unfold upd, sel. destruct (Z.ltb_spec i 0); [lia|]. intros Hi.
  assert (Hn : (Z.to_nat i < length cols)%nat) by lia. clear Hi H.
  generalize dependent (Z.to_nat i). clear i.
  induction cols as [|y cols IH]; intros n Hn; cbn [length] in Hn; [lia|].
  destruct n as [|n]; simpl.
  - lia.
  - specialize (IH n ltac:(lia)). simpl in IH. lia.
Qed.

Section PeelingKeeps.
Context {H : Header}.

Lemma settles_modify_row (f : PeelRow.t -> PeelRow.t) (i : Z) (c : Codec) :
  settles c (modify_row f i c).
Proof.
  unfold modify_row, settles, keeps, same_setup. codec_simpl.
  rewrite length_upd. repeat split; lia.
Qed.

Lemma settles_modify_col (f : PeelColumn.t -> PeelColumn.t) (i : Z) (c : Codec) :
  (forall x, PeelColumn.mark (f x) = MARK_TODO -> PeelColumn.mark x = MARK_TODO) ->
  settles c (modify_col f i c).
Proof.
  intros Hf. unfold modify_col, settles, keeps, same_setup. codec_simpl.
  rewrite length_upd. repeat split; try lia.
  destruct (Z.ltb_spec i 0) as [Hneg|Hpos].
  { unfold upd. destruct (Z.ltb_spec i 0); [lia|lia]. }
  destruct (Z.ltb_spec i (Z.of_nat (length (_peel_cols c)))) as [Hin|Hout].
  - pose proof (count_todo_upd (_peel_cols c) i (f (get_col c i)) ltac:(lia)) as Hc.
    fold (get_col c i) in Hc.
    destruct (MarkTypes_eqb (PeelColumn.mark (f (get_col c i))) MARK_TODO) eqn:E1;
      destruct (MarkTypes_eqb (PeelColumn.mark (get_col c i)) MARK_TODO) eqn:E2;
      try lia.
    exfalso. assert (PeelColumn.mark (f (get_col c i)) = MARK_TODO) as Hm.
    { destruct (PeelColumn.mark (f (get_col c i))); [reflexivity|discriminate..]. }
    apply Hf in Hm. rewrite Hm in E2. discriminate.
  - rewrite upd_out_of_range by lia. lia.
Qed.

Lemma count_todo_mark (m : MarkTypes) (i : Z) (c : Codec) :
  m <> MARK_TODO -> is_todo c i = true ->
  0 <= i < Z.of_nat (length (_peel_cols c)) ->
  S (count_todo (_peel_cols (modify_col (PeelColumn.set_mark m) i c)))
  = count_todo (_peel_cols c).
Proof.
  intros Hm Ht Hi. unfold modify_col. codec_simpl.
  pose proof (count_todo_upd (_peel_cols c) i
                (PeelColumn.set_mark m (get_col c i)) Hi) as Hc.
  unfold is_todo in Ht. fold (get_col c i) in Hc. rewrite Ht in Hc.
  cbn [PeelColumn.set_mark PeelColumn.mark] in Hc.
  destruct m; [contradiction|cbn in Hc; lia..].
Qed.

Lemma settles_same_arrays (c c' : Codec) :
  same_setup c c' ->
  _peel_rows c' = _peel_rows c -> _peel_cols c' = _peel_cols c ->
  _peel_col_refs c' = _peel_col_refs c ->
  settles c c'.
Proof.
  intros Hs Hr Hc Hf. unfold settles, keeps. rewrite Hr, Hc, Hf.
  split; [split; [exact Hs|]|]; repeat split; lia.
Qed.

Lemma settles_link_deferred_row (row_i : Z) (c : Codec) :
  settles c (link_deferred_row row_i c).
Proof.
  unfold link_deferred_row.
  eapply settles_trans.
  { apply (settles_modify_row (PeelRow.set_next (_defer_head_rows c)) row_i c). }
  apply settles_same_arrays; repeat split.
Qed.

Lemma is_todo_same_cols (c c' : Codec) (i : Z) :
  _peel_cols c' = _peel_cols c -> is_todo c' i = is_todo c i.
Proof. intros E. unfold is_todo, get_col. rewrite E. reflexivity. Qed.

Lemma is_todo_modify_col (f : PeelColumn.t -> PeelColumn.t) (i j : Z) (c : Codec) :
  (forall x, PeelColumn.mark (f x) = PeelColumn.mark x) ->
  is_todo (modify_col f i c) j = is_todo c j.
Proof.
  intros Hf. unfold is_todo, modify_col, get_col. codec_simpl.
  destruct (Z.eq_dec i j) as [->|Hne].
  - destruct (Z.ltb_spec j 0) as [Hneg|Hpos].
    { unfold upd. destruct (Z.ltb_spec j 0); [reflexivity|lia]. }
    destruct (Z.ltb_spec j (Z.of_nat (length (_peel_cols c)))) as [Hin|Hout].
    + rewrite sel_upd_eq by lia. rewrite Hf. reflexivity.
    + rewrite upd_out_of_range by lia. reflexivity.
  - rewrite sel_upd_ne by exact Hne. reflexivity.
Qed.

Lemma get_row_modify_row (f : PeelRow.t -> PeelRow.t) (i : Z) (c : Codec) :
  0 <= i < Z.of_nat (length (_peel_rows c)) ->
  get_row (modify_row f i c) i = f (get_row c i).
Proof.
  intros Hi. unfold get_row, modify_row. codec_simpl. apply sel_upd_eq. exact Hi.
Qed.

End PeelingKeeps.

Section PeelingTotal.
Context {H : Header}.

Lemma peel_ready_settles (c c' : Codec) :
  settles c c' -> peel_ready c -> peel_ready c'.
Proof.
  intros ((_ & Hr & Hc & Hf) & Hrefs & _) (Hlen & Hv). split; [lia|].
  unfold refs_valid, get_refs in *. rewrite Hrefs, Hr. exact Hv.
Qed.

Lemma RescanRow_step (n : nat) (r col a uc : Z) (c : Codec) :
  RescanRow (S n) r col a uc c =
  let todo := is_todo c col in
  let c1 :=
    if todo then
      modify_col incr_w2_refs col (modify_row (PeelRow.set_unmarked uc col) r c)
    else c in
  let uc1 := if todo then u16 (uc + 1) else uc in
  RescanRow n r (IterateNextColumn col (_block_count c1) (_block_next_prime c1) a)
    a uc1 c1.
Proof. cbn [RescanRow]. destruct n; reflexivity. Qed.

Lemma incr_w2_refs_mark (x : PeelColumn.t) :
  PeelColumn.mark (incr_w2_refs x) = PeelColumn.mark x.
Proof. reflexivity. Qed.

Lemma RescanRow_settles (n : nat) (r col a uc : Z) (c : Codec) :
  settles c (snd (RescanRow n r col a uc c)) /\
  (0 <= r < Z.of_nat (length (_peel_rows c)) ->
   uc = 0 \/ is_todo c (PeelRow.unmarked0 (get_row c r)) = true ->
   fst (RescanRow n r col a uc c) = 0 \/
   is_todo (snd (RescanRow n r col a uc c))
     (PeelRow.unmarked0 (get_row (snd (RescanRow n r col a uc c)) r)) = true).
Proof.
  revert col uc c. induction n as [|n IH]; intros col uc c.
  - cbn [RescanRow fst snd]. split; [apply settles_refl|auto].
  - rewrite RescanRow_step. cbv zeta.
    destruct (is_todo c col) eqn:Ht.
    + set (c1 := modify_col incr_w2_refs col
                   (modify_row (PeelRow.set_unmarked uc col) r c)).
      assert (Hs1 : settles c c1).
      { eapply settles_trans; [apply settles_modify_row|].
        apply settles_modify_col. intros x Hx. exact Hx. }
      destruct (IH (IterateNextColumn col (_block_count c1) (_block_next_prime c1) a)
                  (u16 (uc + 1)) c1) as [Hs Hj].
      split; [eapply settles_trans; eauto|].
      intros Hr Huc. apply Hj.
      * destruct Hs1 as ((_ & Hlen & _) & _). lia.
      * right. unfold c1. rewrite is_todo_modify_col by apply incr_w2_refs_mark.
        assert (Hrow : get_row (modify_col incr_w2_refs col
                         (modify_row (PeelRow.set_unmarked uc col) r c)) r
                       = PeelRow.set_unmarked uc col (get_row c r)).
        { transitivity (get_row (modify_row (PeelRow.set_unmarked uc col) r c) r);
            [reflexivity|]. apply get_row_modify_row. exact Hr. }
        rewrite Hrow.
        rewrite (is_todo_same_cols c) by reflexivity.
        unfold PeelRow.set_unmarked.
        destruct (Z.eqb_spec uc 0) as [->|Hne]; [exact Ht|].
        destruct Huc as [?|Huc]; [contradiction|].
        destruct (uc =? 1); exact Huc.
    + apply IH.
Qed.

Lemma PeelAvalanche_row_total (bound : nat) (peel : Z -> Z -> Codec -> option Codec)
    (column_i r : Z) (c : Codec) :
  peel_spec bound peel -> peel_ready c ->
  (count_todo (_peel_cols c) < bound)%nat ->
  0 <= r < Z.of_nat (length (_peel_rows c)) ->
  exists c', PeelAvalanche_row peel column_i r c = Some c' /\ settles c c'.
Proof.
  intros Hpeel Hready Hcount Hr. unfold PeelAvalanche_row.
  set (c1 := modify_row _ r c).
  assert (Hs1 : settles c c1) by apply settles_modify_row.
  assert (Hready1 : peel_ready c1) by (eapply peel_ready_settles; eauto).
  assert (Hcount1 : (count_todo (_peel_cols c1) < bound)%nat).
  { destruct Hs1 as (_ & _ & Hle). lia. }
  destruct (_ =? 1).
  - match goal with |- context [is_todo c1 ?x] => destruct (is_todo c1 x) eqn:Ht end.
    + destruct (Hpeel r _ c1 Hready1 Hcount1 Ht) as (c' & Hc' & Hs').
      exists c'. split; [exact Hc'|eapply settles_trans; eauto].
    + eexists. split; [reflexivity|].
      eapply settles_trans; [exact Hs1|apply settles_link_deferred_row].
  - destruct (_ =? 2).
    + match goal with
      | |- context [RescanRow ?n ?a ?b ?d ?e ?f] =>
          pose proof (RescanRow_settles n a b d e f) as [Hs2 Hj];
          destruct (RescanRow n a b d e f) as [uc c2]
      end.
      cbn [fst snd] in Hs2, Hj.
      assert (Hr1 : 0 <= r < Z.of_nat (length (_peel_rows c1))).
      { destruct Hs1 as ((_ & Hlen & _) & _). lia. }
      specialize (Hj Hr1 (or_introl eq_refl)).
      destruct (Z.leb_spec uc 1) as [Hle|Hgt].
      * set (c3 := modify_row (PeelRow.set_unmarked_count 0) r c2).
        assert (Hs3 : settles c2 c3) by apply settles_modify_row.
        assert (Hs03 : settles c c3).
        { eapply settles_trans; [exact Hs1|]. eapply settles_trans; eauto. }
        destruct (Z.eqb_spec uc 1) as [Huc|Huc].
        -- assert (Ht : is_todo c3 (PeelRow.unmarked0 (get_row c3 r)) = true).
           { destruct Hj as [Hj|Hj]; [lia|].
             unfold c3. rewrite (is_todo_same_cols c2) by reflexivity.
             rewrite get_row_modify_row.
             - exact Hj.
             - destruct Hs2 as ((_ & Hlen & _) & _). lia. }
           destruct (Hpeel r (PeelRow.unmarked0 (get_row c3 r)) c3)
             as (c' & Hc' & Hs'); [| |exact Ht|].
           ++ eapply peel_ready_settles; eauto.
           ++ destruct Hs03 as (_ & _ & Hle'). lia.
           ++ exists c'. split; [exact Hc'|eapply settles_trans; eauto].
        -- eexists. split; [reflexivity|].
           eapply settles_trans; [exact Hs03|apply settles_link_deferred_row].
      * eexists. split; [reflexivity|]. eapply settles_trans; eauto.
    + eexists. split; [reflexivity|exact Hs1].
Qed.

Lemma PeelAvalanche_rows_total (bound : nat) (peel : Z -> Z -> Codec -> option Codec)
    (column_i : Z) (rows : list Z) (c : Codec) :
  peel_spec bound peel -> peel_ready c ->
  (count_todo (_peel_cols c) < bound)%nat ->
  Forall (fun r => 0 <= r < Z.of_nat (length (_peel_rows c))) rows ->
  exists c', PeelAvalanche_rows peel column_i rows c = Some c' /\ settles c c'.
Proof.
  intros Hpeel. revert c. induction rows as [|r rows IH]; intros c Hready Hcount Hrows.
  - exists c. split; [reflexivity|apply settles_refl].
  - cbn [PeelAvalanche_rows]. inversion Hrows as [|? ? Hr Hrest]; subst.
    destruct (PeelAvalanche_row_total bound peel column_i r c Hpeel Hready Hcount Hr)
      as (c1 & Hc1 & Hs1).
    rewrite Hc1.
    destruct (IH c1) as (c2 & Hc2 & Hs2).
    + eapply peel_ready_settles; eauto.
    + destruct Hs1 as (_ & _ & Hle). lia.
    + destruct Hs1 as ((_ & Hlen & _) & _). rewrite Hlen. exact Hrest.
    + exists c2. split; [exact Hc2|eapply settles_trans; eauto].
Qed.

Lemma refs_valid_read (c : Codec) (column_i : Z) :
  refs_valid c ->
  Forall (fun r => 0 <= r < Z.of_nat (length (_peel_rows c)))
    (map (sel 0 (PeelRefs.rows (get_refs c column_i)))
       (seqZ 0 (PeelRefs.row_count (get_refs c column_i)))).
Proof.
  intros Hv. apply Forall_forall. intros r Hin.
  apply list_elem_of_fmap in Hin as (k & -> & Hk).
  apply elem_of_seqZ in Hk. apply (Hv column_i). lia.
Qed.

Lemma PeelAvalanche_total (bound : nat) (peel : Z -> Z -> Codec -> option Codec)
    (column_i : Z) (c : Codec) :
  peel_spec bound peel -> peel_ready c ->
  (count_todo (_peel_cols c) < bound)%nat ->
  exists c', PeelAvalanche peel column_i c = Some c' /\ settles c c'.
Proof.
  intros Hpeel Hready Hcount. unfold PeelAvalanche.
  apply PeelAvalanche_rows_total with (bound := bound); try assumption.
  apply refs_valid_read. apply Hready.
Qed.

End PeelingTotal.

Section PeelTotal.
Context {H : Header}.

Lemma get_refs_outside (c : Codec) (column_i : Z) :
  (length (_peel_col_refs c) <= length (_peel_cols c))%nat ->
  ~ (0 <= column_i < Z.of_nat (length (_peel_cols c))) ->
  get_refs c column_i = PeelRefs.zero.
Proof.
  intros Hlen Hout. unfold get_refs, sel.
  destruct (Z.ltb_spec column_i 0); [reflexivity|].
  rewrite lookup_ge_None_2 by lia. reflexivity.
Qed.

(** [Peel] returns when its fuel exceeds the number of columns still to
    do. *)
Lemma Peel_total (fuel : nat) (row_i row column_i : Z) (c : Codec) :
  peel_ready c -> (count_todo (_peel_cols c) < fuel)%nat ->
  is_todo c column_i = true ->
  exists c', Peel fuel row_i row column_i c = Some c' /\ settles c c'.
Proof.
  revert row_i row column_i c.
  induction fuel as [|fuel IH]; intros row_i row column_i c Hready Hcount Ht; [lia|].
  cbn [Peel].
  set (c1 := modify_col (PeelColumn.set_mark MARK_PEEL) column_i c).
  set (c2 := modify_row (PeelRow.set_peel_column column_i) row c1).
  set (c3 := match _peel_tail_rows c2 with
             | Some tail => modify_row (PeelRow.set_next row_i) tail c2
             | None => set_peel_head_rows row_i c2
             end).
  set (c4 := modify_row (PeelRow.set_next LIST_TERM) row c3).
  set (c5 := set_peel_tail_rows (Some row) c4).
  set (c6 := modify_row (PeelRow.set_is_copied 0) row c5).
  assert (Hs1 : settles c c1).
  { apply settles_modify_col. cbn. discriminate. }
  assert (Hs12 : settles c1 c2) by (unfold c2; apply settles_modify_row).
  assert (Hs23 : settles c2 c3).
  { unfold c3. destruct (_peel_tail_rows c2).
    - apply settles_modify_row.
    - apply settles_same_arrays; repeat split. }
  assert (Hs34 : settles c3 c4) by (unfold c4; apply settles_modify_row).
  assert (Hs45 : settles c4 c5).
  { unfold c5. apply settles_same_arrays; repeat split. }
  assert (Hs56 : settles c5 c6) by (unfold c6; apply settles_modify_row).
  assert (Hs16 : settles c1 c6).
  { eapply settles_trans; [exact Hs12|]. eapply settles_trans; [exact Hs23|].
    eapply settles_trans; [exact Hs34|].
    eapply settles_trans; [exact Hs45|exact Hs56]. }
  assert (Hs6 : settles c c6) by (eapply settles_trans; [exact Hs1|exact Hs16]).
  assert (Hav : exists c7,
             PeelAvalanche (fun r => Peel fuel r r) column_i c6 = Some c7 /\
             settles c6 c7).
  { destruct (Z.ltb_spec column_i 0) as [Hneg|Hpos];
      [|destruct (Z.ltb_spec column_i (Z.of_nat (length (_peel_cols c)))) as [Hin|Hout]].
    - unfold PeelAvalanche. rewrite get_refs_outside.
      + exists c6. split; [reflexivity|apply settles_refl].
      + apply (peel_ready_settles c c6 Hs6 Hready).
      + lia.
    - apply PeelAvalanche_total with (bound := fuel).
      + intros r col c0. apply IH.
      + eapply peel_ready_settles; eauto.
      + pose proof (count_todo_mark MARK_PEEL column_i c ltac:(discriminate) Ht
                      ltac:(lia)) as Hdec.
        fold c1 in Hdec. destruct Hs16 as (_ & _ & Hle). lia.
    - unfold PeelAvalanche. rewrite get_refs_outside.
      + exists c6. split; [reflexivity|apply settles_refl].
      + apply (peel_ready_settles c c6 Hs6 Hready).
      + destruct Hs6 as ((_ & _ & Hlc & _) & _). lia. }
  destruct Hav as (c7 & Hc7 & Hs7). rewrite Hc7.
  eexists. split; [reflexivity|].
  eapply settles_trans; [exact Hs6|]. eapply settles_trans; [exact Hs7|].
  apply settles_modify_col. intros x Hx. exact Hx.
Qed.

End PeelTotal.

(** ** The reference loop of [OpportunisticPeeling] *)

Section References.
Context {H : Header}.

Lemma AddRowReferences_step (n : nat) (row_i column_i a uc : Z) (um : Z * Z)
    (c : Codec) :
  AddRowReferences (S n) row_i column_i a uc um c =
  let refs := get_refs c column_i in
  if CAT_REF_LIST_MAX <=? PeelRefs.row_count refs then (None, c)
  else
    let refs' :=
      PeelRefs.mk (u16 (PeelRefs.row_count refs + 1))
        (upd (PeelRefs.rows refs) (PeelRefs.row_count refs) (u16 row_i)) in
    let todo := is_todo c column_i in
    let c1 := put_refs column_i refs' c in
    let um1 :=
      if todo then
        if Z.land uc 1 =? 0 then (column_i, snd um) else (fst um, column_i)
      else um in
    let uc1 := if todo then u16 (uc + 1) else uc in
    AddRowReferences n row_i
      (IterateNextColumn column_i (_block_count c1) (_block_next_prime c1) a)
      a uc1 um1 c1.
Proof.
  cbn [AddRowReferences]. cbv zeta.
  destruct (CAT_REF_LIST_MAX <=? PeelRefs.row_count (get_refs c column_i));
    [reflexivity|].
  destruct n; reflexivity.
Qed.

Lemma put_refs_keeps (i : Z) (r : PeelRefs.t) (c : Codec) :
  keeps c (put_refs i r c) /\
  _peel_cols (put_refs i r c) = _peel_cols c /\
  _peel_rows (put_refs i r c) = _peel_rows c /\
  _block_count (put_refs i r c) = _block_count c /\
  _block_next_prime (put_refs i r c) = _block_next_prime c.
Proof.
  unfold put_refs, keeps, same_setup. codec_simpl. rewrite length_upd.
  repeat split.
Qed.

Lemma get_refs_put_refs_ne (i j : Z) (r : PeelRefs.t) (c : Codec) :
  i <> j -> get_refs (put_refs i r c) j = get_refs c j.
Proof.
  intros Hij. unfold get_refs, put_refs. codec_simpl. apply sel_upd_ne. exact Hij.
Qed.

(** The loop keeps the setup, the rows and the columns; it leaves
    through [return false] exactly when one of the columns of the walk
    has a full reference list, provided the walk does not repeat a
    column. *)
Lemma AddRowReferences_spec (n : nat) (row_i column_i a uc : Z) (um : Z * Z)
    (c : Codec) :
  let res := AddRowReferences n row_i column_i a uc um c in
  keeps c (snd res) /\
  _peel_cols (snd res) = _peel_cols c /\
  _peel_rows (snd res) = _peel_rows c /\
  (uc = 0 \/ is_todo c (fst um) = true ->
   forall uc' um', fst res = Some (uc', um') ->
     uc' = 0 \/ is_todo c (fst um') = true) /\
  (NoDup (column_walk n column_i (_block_count c) (_block_next_prime c) a) ->
   (fst res = None <->
    Exists (fun col => CAT_REF_LIST_MAX <= PeelRefs.row_count (get_refs c col))
      (column_walk n column_i (_block_count c) (_block_next_prime c) a))).
Proof.
  revert column_i uc um c. induction n as [|n IH]; intros column_i uc um c res.
  - subst res. cbn [AddRowReferences fst snd column_walk].
    split; [apply keeps_refl|]. split; [reflexivity|]. split; [reflexivity|].
    split.
    + intros Hj uc' um' E. inversion E; subst. exact Hj.
    + intros _. split; [discriminate|]. intros Hex. inversion Hex.
  - subst res. rewrite AddRowReferences_step. cbv zeta. cbn [column_walk].
    destruct (Z.leb_spec CAT_REF_LIST_MAX (PeelRefs.row_count (get_refs c column_i)))
      as [Hfull|Hroom].
    + cbn [fst snd]. split; [apply keeps_refl|]. split; [reflexivity|].
      split; [reflexivity|]. split; [discriminate|].
      intros _. split; [|reflexivity]. intros _. apply Exists_cons_hd. exact Hfull.
    + set (refs' := PeelRefs.mk _ _).
      destruct (put_refs_keeps column_i refs' c) as (Hk & Hcols & Hrows & Hbc & Hbp).
      set (c1 := put_refs column_i refs' c) in *.
      set (um1 := if is_todo c column_i then _ else um).
      set (uc1 := if is_todo c column_i then u16 (uc + 1) else uc).
      rewrite Hbc, Hbp.
      destruct (IH (IterateNextColumn column_i (_block_count c) (_block_next_prime c) a)
                  uc1 um1 c1) as (IHk & IHc & IHr & IHj & IHn).
      split; [eapply keeps_trans; eauto|].
      split; [congruence|]. split; [congruence|]. split.
      * intros Hj uc' um' E.
        rewrite <- (is_todo_same_cols c c1) by exact Hcols.
        apply (IHj) with (uc' := uc'); [|exact E].
        rewrite (is_todo_same_cols c c1) by exact Hcols.
        unfold uc1, um1. destruct (is_todo c column_i) eqn:Ht; [|exact Hj].
        right. destruct (Z.land uc 1 =? 0) eqn:Eb; cbn [fst]; [exact Ht|].
        destruct Hj as [->|Hj]; [discriminate Eb|exact Hj].
      * intros Hnd. apply NoDup_cons in Hnd as [Hnotin Hnd].
        rewrite Hbc, Hbp in IHn. rewrite IHn by exact Hnd.
        rewrite Exists_cons. split.
        -- intros Hex. right. apply Exists_exists in Hex as (col & Hin & Hcol).
           apply Exists_exists. exists col. split; [exact Hin|].
           unfold c1 in Hcol.
           rewrite get_refs_put_refs_ne in Hcol; [exact Hcol|].
           intros ->. contradiction.
        -- intros [Hhd|Hex]; [lia|].
           apply Exists_exists in Hex as (col & Hin & Hcol).
           apply Exists_exists. exists col. split; [exact Hin|].
           unfold c1. rewrite get_refs_put_refs_ne; [exact Hcol|].
           intros ->. contradiction.
Qed.

End References.

Section ReferencesValid.
Context {H : Header}.

Lemma get_refs_put_refs (i j : Z) (r : PeelRefs.t) (c : Codec) :
  get_refs (put_refs i r c) j = r \/ get_refs (put_refs i r c) j = get_refs c j.
Proof.
  destruct (Z.eq_dec i j) as [->|Hne]; [|right; apply get_refs_put_refs_ne; exact Hne].
  unfold get_refs, put_refs. codec_simpl.
  destruct (Z.ltb_spec j 0) as [Hneg|Hpos].
  { right. unfold upd. destruct (Z.ltb_spec j 0); [reflexivity|lia]. }
  destruct (Z.ltb_spec j (Z.of_nat (length (_peel_col_refs c)))) as [Hin|Hout].
  - left. apply sel_upd_eq. lia.
  - right. rewrite upd_out_of_range by lia. reflexivity.
Qed.

Lemma u16_range (x : Z) : 0 <= u16 x < 2^16.
Proof. unfold u16. apply Z.mod_pos_bound. lia. Qed.

Lemma u16_small (x : Z) : 0 <= x < 2^16 -> u16 x = x.
Proof. intros Hx. unfold u16. apply Z.mod_small. exact Hx. Qed.

Lemma u16_succ_le (x : Z) : 0 <= x -> u16 (x + 1) <= x + 1.
Proof. intros Hx. unfold u16. apply Z.mod_le; lia. Qed.

Lemma refs_valid_append (row_i column_i : Z) (c : Codec) :
  refs_valid c ->
  0 <= u16 row_i < Z.of_nat (length (_peel_rows c)) ->
  refs_valid
    (put_refs column_i
       (PeelRefs.mk (u16 (PeelRefs.row_count (get_refs c column_i) + 1))
          (upd (PeelRefs.rows (get_refs c column_i))
             (PeelRefs.row_count (get_refs c column_i)) (u16 row_i))) c).
Proof.
  intros Hv Hrow j.
  set (old := get_refs c column_i).
  change (_peel_rows (put_refs column_i _ c)) with (_peel_rows c).
  destruct (get_refs_put_refs column_i j
              (PeelRefs.mk (u16 (PeelRefs.row_count old + 1))
                 (upd (PeelRefs.rows old) (PeelRefs.row_count old) (u16 row_i))) c)
    as [E|E]; rewrite E; [|apply Hv].
  cbn [PeelRefs.row_count PeelRefs.rows].
  destruct (Hv column_i) as [Hrc Hent]. fold old in Hrc, Hent.
  split; [apply u16_range|].
  intros k Hk. pose proof (u16_succ_le _ Hrc) as Hle.
  destruct (Z.eq_dec k (PeelRefs.row_count old)) as [->|Hne].
  - destruct (Z.ltb_spec (PeelRefs.row_count old)
                (Z.of_nat (length (PeelRefs.rows old)))) as [Hin|Hout].
    + rewrite sel_upd_eq by lia. exact Hrow.
    + rewrite upd_out_of_range by lia. rewrite sel_out_of_range by lia. lia.
  - rewrite sel_upd_ne by congruence. apply Hent. lia.
Qed.

Lemma AddRowReferences_valid (n : nat) (row_i column_i a uc : Z) (um : Z * Z)
    (c : Codec) :
  refs_valid c ->
  0 <= u16 row_i < Z.of_nat (length (_peel_rows c)) ->
  refs_valid (snd (AddRowReferences n row_i column_i a uc um c)).
Proof.
  revert column_i uc um c. induction n as [|n IH]; intros column_i uc um c Hv Hrow.
  - exact Hv.
  - rewrite AddRowReferences_step. cbv zeta.
    destruct (CAT_REF_LIST_MAX <=? PeelRefs.row_count (get_refs c column_i));
      [exact Hv|].
    apply IH; [apply refs_valid_append; assumption|exact Hrow].
Qed.

End ReferencesValid.

Section OpportunisticTotal.
Context {H : Header}.

Lemma count_todo_le_length (cols : list PeelColumn.t) :
  (count_todo cols <= length cols)%nat.
Proof.
  induction cols as [|x cols IH]; cbn [count_todo length]; [lia|].
  destruct (MarkTypes_eqb _ _); lia.
Qed.

Lemma settles_keeps (c c' : Codec) : settles c c' -> keeps c c'.
Proof. intros [Hk _]. exact Hk. Qed.

(** [OpportunisticPeeling] returns when its fuel exceeds the number of
    columns still to do, keeps the setup, and returns [false] exactly
    when the row overflows a reference list. *)
Lemma OpportunisticPeeling_spec (fuel : nat) (row_i id : Z) (c : Codec) :
  peel_ready c ->
  0 <= row_i < Z.of_nat (length (_peel_rows c)) -> row_i < 2^16 ->
  (count_todo (_peel_cols c) < fuel)%nat ->
  NoDup (peel_columns c (row_shape_of c id)) ->
  exists ok c',
    OpportunisticPeeling fuel row_i id c = Some (ok, c') /\
    keeps c c' /\ peel_ready c' /\
    (count_todo (_peel_cols c') <= count_todo (_peel_cols c))%nat /\
    (ok = false <-> row_overflows c id).
Proof.
  intros Hready Hrow Hrow16 Hcount Hnd. unfold OpportunisticPeeling.
  set (shape := GeneratePeelRow _ _ _ _ _).
  set (c1 := modify_row (PeelRow.set_id (u32 id)) row_i c).
  set (c2 := modify_row (PeelRow.set_shape shape) row_i c1).
  assert (Hs2 : settles c c2).
  { eapply settles_trans; [apply (settles_modify_row (PeelRow.set_id (u32 id)) row_i c)|].
    unfold c2. apply settles_modify_row. }
  assert (Hcols2 : _peel_cols c2 = _peel_cols c) by reflexivity.
  assert (Hrefs2 : _peel_col_refs c2 = _peel_col_refs c) by reflexivity.
  assert (Hready2 : peel_ready c2) by (eapply peel_ready_settles; eauto).
  assert (Hlen2 : length (_peel_rows c2) = length (_peel_rows c)).
  { destruct Hs2 as ((_ & Hl & _) & _). exact Hl. }
  pose proof (AddRowReferences_spec (walk_count (RowShape.peel_weight shape)) row_i
                (RowShape.peel_x0 shape) (RowShape.peel_a shape) 0 (0, 0) c2)
    as (Hk3 & Hcols3 & Hrows3 & Hj & Hnone).
  pose proof (AddRowReferences_valid (walk_count (RowShape.peel_weight shape)) row_i
                (RowShape.peel_x0 shape) (RowShape.peel_a shape) 0 (0, 0) c2
                (proj2 Hready2)) as Hv3.
  rewrite u16_small in Hv3 by lia. specialize (Hv3 ltac:(lia)).
  change (_block_count c2) with (_block_count c) in Hnone.
  change (_block_next_prime c2) with (_block_next_prime c) in Hnone.
  specialize (Hnone Hnd).
  assert (Hover : fst (AddRowReferences (walk_count (RowShape.peel_weight shape)) row_i
                         (RowShape.peel_x0 shape) (RowShape.peel_a shape) 0 (0, 0) c2)
                  = None <-> row_overflows c id).
  { rewrite Hnone. unfold row_overflows, peel_columns, row_shape_of. fold shape.
    unfold get_refs. rewrite Hrefs2. reflexivity. }
  clear Hnone.
  destruct (AddRowReferences _ _ _ _ _ _ c2) as [[[uc um]|] c3]; cbn [fst snd] in *.
  2:{ exists false, c3. split; [reflexivity|].
      split; [eapply keeps_trans; [apply settles_keeps; exact Hs2|exact Hk3]|].
      split.
      { split; [|exact Hv3]. destruct Hk3 as (_ & _ & Hlc & Hlr).
        destruct Hready2 as [Hle _]. lia. }
      split; [rewrite Hcols3, Hcols2; lia|].
      split; [intros _; apply Hover; reflexivity|reflexivity]. }
  assert (Hnot : ~ row_overflows c id).
  { intros Ho. apply Hover in Ho. discriminate Ho. }
  assert (Hready3 : peel_ready c3).
  { split; [|exact Hv3]. destruct Hk3 as (_ & _ & Hlc & Hlr).
    destruct Hready2 as [Hle _]. lia. }
  assert (Hk03 : keeps c c3).
  { eapply keeps_trans; [apply settles_keeps; exact Hs2|exact Hk3]. }
  set (c4 := modify_row (PeelRow.set_unmarked_count uc) row_i c3).
  assert (Hs4 : settles c3 c4) by apply settles_modify_row.
  assert (Hready4 : peel_ready c4) by (eapply peel_ready_settles; eauto).
  assert (Hcols4 : _peel_cols c4 = _peel_cols c).
  { change (_peel_cols c4) with (_peel_cols c3). congruence. }
  assert (Hfin : forall c5, settles c4 c5 ->
            keeps c c5 /\ peel_ready c5 /\
            (count_todo (_peel_cols c5) <= count_todo (_peel_cols c))%nat /\
            (true = false <-> row_overflows c id)).
  { intros c5 Hs5. split.
    { eapply keeps_trans; [exact Hk03|].
      eapply keeps_trans; apply settles_keeps; eauto. }
    split; [eapply peel_ready_settles; eauto|].
    split; [destruct Hs5 as (_ & _ & Hle); rewrite Hcols4 in Hle; exact Hle|].
    split; [discriminate|contradiction]. }
  destruct (uc =? 0).
  { eexists true, _. split; [reflexivity|]. apply Hfin.
    apply settles_link_deferred_row. }
  destruct (Z.eqb_spec uc 1) as [Huc|Huc].
  { destruct (Peel_total fuel (u16 row_i) row_i (fst um) c4) as (c5 & Hc5 & Hs5).
    - exact Hready4.
    - rewrite Hcols4. exact Hcount.
    - rewrite (is_todo_same_cols c2 c4) by congruence.
      destruct (Hj (or_introl eq_refl) uc um eq_refl) as [E|E]; [lia|exact E].
    - rewrite Hc5. exists true, c5. split; [reflexivity|]. apply Hfin. exact Hs5. }
  destruct (uc =? 2).
  { eexists true, _. split; [reflexivity|]. apply Hfin.
    eapply settles_trans; [apply (settles_modify_row (PeelRow.set_unmarked0 (fst um)) row_i c4)|].
    eapply settles_trans; [apply (settles_modify_row (PeelRow.set_unmarked1 (snd um)) row_i)|].
    eapply settles_trans;
      [apply (settles_modify_col incr_w2_refs (fst um)); intros x Hx; exact Hx|].
    apply settles_modify_col. intros x Hx. exact Hx. }
  exists true, c4. split; [reflexivity|]. apply Hfin. apply settles_refl.
Qed.

End OpportunisticTotal.

Section GreedyTotal.
Context {H : Header}.

Lemma GreedyBest_spec (n : nat) (start : Z) (best : Z * Z * Z) (c : Codec) :
  let b := fst (fst (GreedyBest n start best c)) in
  b = fst (fst best) \/
  (start <= b < start + Z.of_nat n /\ is_todo c b = true).
Proof.
  revert start best. induction n as [|n IH]; intros start best.
  - left. reflexivity.
  - cbn [GreedyBest]. destruct best as [[b0 w0] r0].
    set (best1 := if MarkTypes_eqb _ _ then _ else _).
    assert (Hb1 : fst (fst best1) = b0 \/
                  (fst (fst best1) = start /\ is_todo c start = true)).
    { unfold best1, is_todo.
      destruct (MarkTypes_eqb (PeelColumn.mark (get_col c start)) MARK_TODO);
        [|left; reflexivity].
      destruct (_ <=? _); [|left; reflexivity].
      destruct (_ || _); [right; split; reflexivity|left; reflexivity]. }
    specialize (IH (start + 1) best1). cbv zeta in IH |- *. cbn [fst].
    destruct IH as [IH|[IH1 IH2]].
    + rewrite IH. destruct Hb1 as [->|[-> Ht]]; [left; reflexivity|].
      right. split; [lia|exact Ht].
    + right. split; [lia|exact IH2].
Qed.

Lemma settles_le (c c' : Codec) :
  settles c c' ->
  (count_todo (_peel_cols c') <= count_todo (_peel_cols c))%nat /\
  _block_count c' = _block_count c /\
  length (_peel_cols c') = length (_peel_cols c).
Proof.
  intros (((_ & Hb & _) & _ & Hl & _) & _ & Hle). auto.
Qed.

(** [GreedyPeeling] returns when its fuel exceeds the number of columns
    still to do. *)
Lemma GreedyPeeling_loop_total (fuel : nat) (c : Codec) :
  peel_ready c ->
  _block_count c <= Z.of_nat (length (_peel_cols c)) ->
  (count_todo (_peel_cols c) < fuel)%nat ->
  exists c', GreedyPeeling_loop fuel c = Some c' /\ settles c c'.
Proof.
  revert c. induction fuel as [|fuel IH]; intros c Hready Hbc Hcount; [lia|].
  cbn [GreedyPeeling_loop].
  pose proof (GreedyBest_spec (Z.to_nat (_block_count c)) 0 (LIST_TERM, 0, 0) c) as Hbest.
  cbv zeta in Hbest.
  destruct (GreedyBest (Z.to_nat (_block_count c)) 0 (LIST_TERM, 0, 0) c)
    as [[b w] r]. cbn [fst] in Hbest.
  destruct (Z.eqb_spec b LIST_TERM) as [Hb|Hb].
  { exists c. split; [reflexivity|apply settles_refl]. }
  destruct Hbest as [Hbest|[Hrange Ht]]; [contradiction|].
  set (c1 := modify_col (PeelColumn.set_mark MARK_DEFER) b c).
  set (c2 := set_defer_count (_defer_count c1 + 1) c1).
  set (c3 := modify_col (PeelColumn.set_next (_defer_head_columns c2)) b c2).
  set (c4 := set_defer_head_columns b c3).
  assert (Hs1 : settles c c1).
  { apply settles_modify_col. cbn. discriminate. }
  assert (Hdec : S (count_todo (_peel_cols c1)) = count_todo (_peel_cols c)).
  { apply count_todo_mark; [discriminate|exact Ht|lia]. }
  assert (Hs14 : settles c1 c4).
  { eapply settles_trans with (c2 := c2);
      [apply settles_same_arrays; repeat split|].
    eapply settles_trans with (c2 := c3).
    - unfold c3. apply settles_modify_col. intros x Hx. exact Hx.
    - apply settles_same_arrays; repeat split. }
  assert (Hs4 : settles c c4) by (eapply settles_trans; [exact Hs1|exact Hs14]).
  destruct (settles_le _ _ Hs14) as (Hle14 & _ & _).
  destruct (PeelAvalanche_total fuel (fun r => Peel fuel r r) b c4)
    as (c5 & Hc5 & Hs5).
  - intros r0 col c0. apply Peel_total.
  - eapply peel_ready_settles; eauto.
  - lia.
  - rewrite Hc5.
    assert (Hs05 : settles c c5) by (eapply settles_trans; [exact Hs4|exact Hs5]).
    destruct (settles_le _ _ Hs5) as (Hle5 & _ & _).
    destruct (settles_le _ _ Hs05) as (_ & Hbc5 & Hlen5).
    destruct (IH c5) as (c6 & Hc6 & Hs6).
    + eapply peel_ready_settles; eauto.
    + rewrite Hbc5, Hlen5. exact Hbc.
    + lia.
    + exists c6. split; [exact Hc6|].
      eapply settles_trans; [exact Hs05|exact Hs6].
Qed.

Lemma GreedyPeeling_total (c : Codec) :
  peel_ready c ->
  _block_count c <= Z.of_nat (length (_peel_cols c)) ->
  exists c', GreedyPeeling (S (length (_peel_cols c))) c = Some c' /\ settles c c'.
Proof.
  intros Hready Hbc. unfold GreedyPeeling.
  set (c1 := set_defer_head_columns LIST_TERM c).
  set (c2 := set_defer_count 0 c1).
  assert (Hs : settles c c2) by (apply settles_same_arrays; repeat split).
  destruct (GreedyPeeling_loop_total (S (length (_peel_cols c))) c2)
    as (c3 & Hc3 & Hs3).
  - eapply peel_ready_settles; eauto.
  - exact Hbc.
  - change (_peel_cols c2) with (_peel_cols c).
    pose proof (count_todo_le_length (_peel_cols c)). lia.
  - exists c3. split; [exact Hc3|eapply settles_trans; [exact Hs|exact Hs3]].
Qed.

End GreedyTotal.

(** ** Masks and bits *)

Lemma land_pow2 (w s : Z) :
  0 <= s -> Z.land w (2 ^ s) = if Z.testbit w s then 2 ^ s else 0.
Proof.
  intros Hs. apply Z.bits_inj'. intros n Hn.
  rewrite Z.land_spec, Z.pow2_bits_eqb by lia.
  destruct (Z.eqb_spec s n) as [->|Hne].
  - destruct (Z.testbit w n); cbn [andb].
    + rewrite Z.pow2_bits_eqb by lia. rewrite Z.eqb_refl. reflexivity.
    + rewrite Z.bits_0. reflexivity.
  - rewrite andb_false_r. destruct (Z.testbit w s).
    + rewrite Z.pow2_bits_eqb by lia. symmetry. apply Z.eqb_neq. exact Hne.
    + rewrite Z.bits_0. reflexivity.
Qed.

Lemma masked_pow2 (w s : Z) : 0 <= s -> masked w (2 ^ s) = Z.testbit w s.
Proof.
  intros Hs. unfold masked. rewrite land_pow2 by exact Hs.
  destruct (Z.testbit w s); [|reflexivity].
  assert (0 < 2 ^ s) by (apply Z.pow_pos_nonneg; lia).
  destruct (Z.eqb_spec (2 ^ s) 0); [lia|reflexivity].
Qed.

Lemma land_63_range (x : Z) : 0 <= Z.land x 63 < 64.
Proof.
  change 63 with (Z.ones 6). rewrite Z.land_ones by lia.
  apply Z.mod_pos_bound. lia.
Qed.

Lemma masked_pivot_mask (c : Codec) (ge_row pivot_i : Z) :
  masked (sel 0 (_ge_matrix c) (Z.shiftr pivot_i 6 + _ge_pitch c * ge_row))
    (pivot_mask pivot_i)
  = ge_bit c ge_row pivot_i.
Proof.
  unfold pivot_mask, ge_bit. apply masked_pow2. apply land_63_range.
Qed.

Lemma CAT_ROL64_pow2_checked :
  forall_from 64 0
    (fun s => CAT_ROL64 (2 ^ s) 1 =? 2 ^ Z.land (s + 1) 63) = true.
Proof. vm_compute. reflexivity. Qed.

Lemma pivot_mask_next (pivot_i : Z) :
  CAT_ROL64 (pivot_mask pivot_i) 1 = pivot_mask (pivot_i + 1).
Proof.
  unfold pivot_mask.
  pose proof (land_63_range pivot_i) as Hr.
  assert (Hr' : 0 <= Z.land pivot_i 63 < 0 + Z.of_nat 64).
  { change (Z.of_nat 64) with 64. lia. }
  pose proof (forall_from_spec _ _ _ CAT_ROL64_pow2_checked (Z.land pivot_i 63) Hr')
    as Hc.
  cbv beta in Hc. apply Z.eqb_eq in Hc. rewrite Hc. f_equal.
  change 63 with (Z.ones 6). rewrite !Z.land_ones by lia.
  rewrite Z.add_mod_idemp_l by lia. reflexivity.
Qed.

Lemma pivot_mask_0 : pivot_mask 0 = 1.
Proof. reflexivity. Qed.

(** ** The pivot search *)

Lemma pivot_search_spec (n : nat) (start pivot_i : Z) (c : Codec) :
  0 <= start -> start + Z.of_nat n <= 2^16 ->
  match pivot_search n start (Z.shiftr pivot_i 6) (pivot_mask pivot_i) c with
  | Some pivot_j =>
      start <= pivot_j < start + Z.of_nat n /\
      ge_bit c (sel 0 (_ge_pivots c) pivot_j) pivot_i = true /\
      forall j, start <= j < pivot_j ->
        ge_bit c (sel 0 (_ge_pivots c) j) pivot_i = false
  | None =>
      forall j, start <= j < start + Z.of_nat n ->
        ge_bit c (sel 0 (_ge_pivots c) j) pivot_i = false
  end.
Proof.
  revert start. induction n as [|n IH]; intros start Hs Hn.
  - cbn [pivot_search]. intros j Hj. lia.
  - cbn [pivot_search]. rewrite masked_pivot_mask.
    destruct (ge_bit c (sel 0 (_ge_pivots c) start) pivot_i) eqn:Hb.
    + split; [lia|]. split; [exact Hb|]. intros j Hj. lia.
    + destruct n as [|n].
      * cbn [pivot_search]. intros j Hj. replace j with start by lia. exact Hb.
      * rewrite u16_small by lia. specialize (IH (start + 1) ltac:(lia) ltac:(lia)).
        destruct (pivot_search (S n) (start + 1) _ _ c) as [pivot_j|].
        -- destruct IH as (Hr & Hbit & Hbefore). split; [lia|]. split; [exact Hbit|].
           intros j Hj. destruct (Z.eq_dec j start) as [->|Hne]; [exact Hb|].
           apply Hbefore. lia.
        -- intros j Hj. destruct (Z.eq_dec j start) as [->|Hne]; [exact Hb|].
           apply IH. lia.
Qed.

(** A pivot column has no pivot exactly when no remaining row has its
    bit set. *)
Lemma pivot_column_None (row_limit pivot_i : Z) (c : Codec) :
  0 <= pivot_i < 2^16 -> row_limit <= 2^16 ->
  (pivot_column row_limit pivot_i (pivot_mask pivot_i) c = None <->
   ~ has_pivot c row_limit pivot_i).
Proof.
  intros [Hp Hp'] Hl. unfold pivot_column.
  pose proof (pivot_search_spec (Z.to_nat (row_limit - pivot_i)) pivot_i pivot_i c Hp
                ltac:(lia)) as Hs.
  destruct (pivot_search _ _ _ _ c) as [pivot_j|].
  - destruct Hs as (Hr & Hbit & _). split; [discriminate|].
    intros Hno. exfalso. apply Hno. exists pivot_j. split; [lia|exact Hbit].
  - split; [|reflexivity]. intros _ (j & Hj & Hbit).
    rewrite Hs in Hbit by lia. discriminate.
Qed.

Lemma pivot_column_Some (row_limit pivot_i : Z) (c c' : Codec) :
  0 <= pivot_i < 2^16 -> row_limit <= 2^16 ->
  pivot_column row_limit pivot_i (pivot_mask pivot_i) c = Some c' ->
  has_pivot c row_limit pivot_i.
Proof.
  intros [Hp Hp'] Hl. unfold pivot_column.
  pose proof (pivot_search_spec (Z.to_nat (row_limit - pivot_i)) pivot_i pivot_i c Hp
                ltac:(lia)) as Hs.
  destruct (pivot_search _ _ _ _ c) as [pivot_j|]; [|discriminate].
  intros _. destruct Hs as (Hr & Hbit & _). exists pivot_j. split; [lia|exact Hbit].
Qed.

(** The loop over the pivot columns goes through the columns one after
    the other and stops at the first one without a pivot, where it sets
    [_ge_resume_pivot]. *)
Lemma pivot_loop_steps (n : nat) (row_limit pivot_i : Z) (c : Codec) :
  0 <= pivot_i -> pivot_i + Z.of_nat n < 2^16 -> row_limit <= 2^16 ->
  exists (k : nat) (ck : Codec),
    (k <= n)%nat /\
    pivot_steps k row_limit pivot_i c = Some ck /\
    (forall i : nat, (i < k)%nat ->
       exists ci, pivot_steps i row_limit pivot_i c = Some ci /\
                  has_pivot ci row_limit (pivot_i + Z.of_nat i)) /\
    ((k = n /\ pivot_loop n row_limit pivot_i (pivot_mask pivot_i) c = (true, ck)) \/
     ((k < n)%nat /\ ~ has_pivot ck row_limit (pivot_i + Z.of_nat k) /\
      pivot_loop n row_limit pivot_i (pivot_mask pivot_i) c
      = (false, set_ge_resume_pivot (pivot_i + Z.of_nat k) ck))).
Proof.
  revert pivot_i c. induction n as [|n IH]; intros pivot_i c Hp Hn Hl.
  - exists O, c. split; [lia|]. split; [reflexivity|]. split; [intros i Hi; lia|].
    left. split; reflexivity.
  - cbn [pivot_loop].
    destruct (pivot_column row_limit pivot_i (pivot_mask pivot_i) c) as [c1|] eqn:Ecol.
    + rewrite pivot_mask_next. rewrite u16_small by lia.
      destruct (IH (pivot_i + 1) c1 ltac:(lia) ltac:(lia) Hl)
        as (k & ck & Hk & Hsteps & Hpre & Hend).
      exists (S k), ck. split; [lia|]. split.
      { cbn [pivot_steps]. rewrite Ecol. exact Hsteps. }
      split.
      { intros [|i] Hi.
        - exists c. split; [reflexivity|]. rewrite Z.add_0_r.
          apply (pivot_column_Some row_limit pivot_i c c1); [lia|exact Hl|exact Ecol].
        - destruct (Hpre i ltac:(lia)) as (ci & Hci & Hhas).
          exists ci. split; [cbn [pivot_steps]; rewrite Ecol; exact Hci|].
          replace (pivot_i + Z.of_nat (S i)) with (pivot_i + 1 + Z.of_nat i) by lia.
          exact Hhas. }
      replace (pivot_i + Z.of_nat (S k)) with (pivot_i + 1 + Z.of_nat k) by lia.
      destruct Hend as [[-> Hloop]|(Hlt & Hno & Hloop)].
      * left. split; [reflexivity|exact Hloop].
      * right. split; [lia|]. split; [exact Hno|exact Hloop].
    + exists O, c. split; [lia|]. split; [reflexivity|].
      split; [intros i Hi; lia|]. right. split; [lia|]. rewrite Z.add_0_r.
      split; [|reflexivity].
      apply pivot_column_None; [lia|exact Hl|exact Ecol].
Qed.

Lemma pivot_steps_prefix (k i : nat) (row_limit pivot_i : Z) (c ck : Codec) :
  (i <= k)%nat -> pivot_steps k row_limit pivot_i c = Some ck ->
  exists ci, pivot_steps i row_limit pivot_i c = Some ci.
Proof.
  revert i pivot_i c. induction k as [|k IH]; intros i pivot_i c Hi Hk.
  - replace i with O by lia. exists c. reflexivity.
  - destruct i as [|i]; [exists c; reflexivity|].
    cbn [pivot_steps] in Hk |- *.
    destruct (pivot_column row_limit pivot_i (pivot_mask pivot_i) c) as [c1|];
      [|discriminate].
    apply (IH i (pivot_i + 1) c1); [lia|exact Hk].
Qed.


(** ** What the elimination leaves alone *)

Lemma ge_only_refl (c : Codec) : ge_only c c.
Proof.
  exists (_ge_matrix c), (_ge_pivots c), (_ge_resume_pivot c). destruct c. reflexivity.
Qed.

Lemma ge_only_trans (c1 c2 c3 : Codec) : ge_only c1 c2 -> ge_only c2 c3 -> ge_only c1 c3.
Proof.
  intros (m & p & r & ->) (m' & p' & r' & ->). exists m', p', r'. reflexivity.
Qed.

Lemma ge_only_set_ge_matrix (m : list Z) (c : Codec) : ge_only c (set_ge_matrix m c).
Proof.
  exists m, (_ge_pivots c), (_ge_resume_pivot c). destruct c. reflexivity.
Qed.

Lemma ge_only_set_ge_pivots (p : list Z) (c : Codec) : ge_only c (set_ge_pivots p c).
Proof.
  exists (_ge_matrix c), p, (_ge_resume_pivot c). destruct c. reflexivity.
Qed.

Lemma ge_only_set_ge_resume_pivot (r : Z) (c : Codec) :
  ge_only c (set_ge_resume_pivot r c).
Proof.
  exists (_ge_matrix c), (_ge_pivots c), r. destruct c. reflexivity.
Qed.

Lemma ge_only_same_setup (c c' : Codec) : ge_only c c' -> same_setup c c'.
Proof. intros (m & p & r & ->). repeat split. Qed.

Lemma ge_only_fields (c c' : Codec) :
  ge_only c c' ->
  _ge_pitch c' = _ge_pitch c /\ _ge_rows c' = _ge_rows c /\
  _defer_count c' = _defer_count c /\ _added_count c' = _added_count c /\
  _block_count c' = _block_count c /\ _extra_count c' = _extra_count c /\
  _peel_cols c' = _peel_cols c /\ _ge_compress_matrix c' = _ge_compress_matrix c.
Proof. intros (m & p & r & ->). repeat split. Qed.

Lemma pivot_eliminate_ge_only (n : nat) (pivot_k word_offset ge_mask row0 ge_row : Z)
    (c : Codec) :
  ge_only c (pivot_eliminate n pivot_k word_offset ge_mask row0 ge_row c) /\
  _ge_pivots (pivot_eliminate n pivot_k word_offset ge_mask row0 ge_row c)
  = _ge_pivots c.
Proof.
  revert pivot_k c. induction n as [|n IH]; intros pivot_k c.
  - split; [apply ge_only_refl|reflexivity].
  - cbn [pivot_eliminate]. cbv zeta.
    destruct (masked _ ge_mask).
    + match goal with
      | |- context [pivot_eliminate n ?k _ _ _ _ (set_ge_matrix ?m c)] =>
          destruct (IH k (set_ge_matrix m c)) as [Hg Hp]
      end.
      split; [|rewrite Hp; reflexivity].
      eapply ge_only_trans; [apply ge_only_set_ge_matrix|exact Hg].
    + apply IH.
Qed.

Lemma pivot_column_ge_only (row_limit pivot_i ge_mask : Z) (c c' : Codec) :
  pivot_column row_limit pivot_i ge_mask c = Some c' -> ge_only c c'.
Proof.
  unfold pivot_column. destruct (pivot_search _ _ _ _ c) as [pivot_j|]; [|discriminate].
  intros E. inversion E; subst c'. clear E.
  eapply ge_only_trans; [|apply pivot_eliminate_ge_only].
  apply ge_only_set_ge_pivots.
Qed.

Lemma pivot_loop_ge_only (n : nat) (row_limit pivot_i ge_mask : Z) (c : Codec) :
  ge_only c (snd (pivot_loop n row_limit pivot_i ge_mask c)).
Proof.
  revert pivot_i ge_mask c. induction n as [|n IH]; intros pivot_i ge_mask c.
  - apply ge_only_refl.
  - cbn [pivot_loop].
    destruct (pivot_column row_limit pivot_i ge_mask c) as [c1|] eqn:E.
    + eapply ge_only_trans; [eapply pivot_column_ge_only; exact E|apply IH].
    + apply ge_only_set_ge_resume_pivot.
Qed.

Lemma Triangle_ge_only (c : Codec) : ge_only c (snd (Triangle c)).
Proof.
  unfold Triangle.
  eapply ge_only_trans; [apply ge_only_set_ge_pivots|apply pivot_loop_ge_only].
Qed.

(** ** Bits at and below the pivot column *)

Lemma xor_words_other (n : nat) (ii dst src : Z) (m : list Z) (w : Z) :
  w < dst + ii \/ dst + ii + Z.of_nat n <= w ->
  sel 0 (xor_words n ii dst src m) w = sel 0 m w.
Proof.
  revert ii m. induction n as [|n IH]; intros ii m Hw; [reflexivity|].
  cbn [xor_words]. rewrite IH by lia. apply sel_upd_ne. lia.
Qed.

Lemma length_xor_words (n : nat) (ii dst src : Z) (m : list Z) :
  length (xor_words n ii dst src m) = length m.
Proof.
  revert ii m. induction n as [|n IH]; intros ii m; [reflexivity|].
  cbn [xor_words]. rewrite IH. apply length_upd.
Qed.

Lemma not64_ones_bit (s b : Z) :
  0 <= s < 64 -> 0 <= b < 64 ->
  Z.testbit (not64 (2 ^ s - 1)) b = negb (b <? s).
Proof.
  intros Hs Hb. unfold not64. rewrite Z.lxor_spec.
  replace (2 ^ s - 1) with (Z.ones s) by (rewrite Z.ones_equiv; lia).
  replace (2 ^ 64 - 1) with (Z.ones 64) by reflexivity.
  rewrite (Z.ones_spec_low 64 b) by lia.
  destruct (Z.ltb_spec b s).
  - rewrite Z.ones_spec_low by lia. reflexivity.
  - rewrite Z.ones_spec_high by lia. reflexivity.
Qed.

Lemma masked_first_word_low (word s b : Z) :
  0 <= s < 64 -> 0 <= b <= s -> Z.testbit word s = true ->
  Z.testbit (masked_first_word word (2 ^ s)) b = false.
Proof.
  intros Hs Hb Hw. unfold masked_first_word.
  rewrite Z.lxor_spec, Z.land_spec, not64_ones_bit by lia.
  rewrite Z.pow2_bits_eqb by lia.
  destruct (Z.eq_dec b s) as [->|Hne].
  - rewrite Hw, Z.ltb_irrefl, Z.eqb_refl. reflexivity.
  - destruct (Z.ltb_spec b s); [|lia]. rewrite andb_false_r.
    destruct (Z.eqb_spec s b); [lia|reflexivity].
Qed.

Lemma shiftr_6_mono (q i : Z) : 0 <= q <= i -> 0 <= Z.shiftr q 6 <= Z.shiftr i 6.
Proof.
  intros Hq. rewrite !Z.shiftr_div_pow2 by lia. split.
  - apply Z.div_pos; lia.
  - apply Z.div_le_mono; lia.
Qed.

Lemma land_63_mono (q i : Z) :
  0 <= q <= i -> Z.shiftr q 6 = Z.shiftr i 6 -> Z.land q 63 <= Z.land i 63.
Proof.
  intros Hq Hw. rewrite !Z.shiftr_div_pow2 in Hw by lia.
  change 63 with (Z.ones 6). rewrite !Z.land_ones by lia.
  pose proof (Z.div_mod q (2 ^ 6) ltac:(lia)).
  pose proof (Z.div_mod i (2 ^ 6) ltac:(lia)). lia.
Qed.

Lemma same_word_same_row (pitch a wo t r rm : Z) :
  0 <= a <= wo -> 0 <= t -> wo + t < pitch ->
  a + pitch * r = wo + pitch * rm + t -> a = wo /\ t = 0 /\ r = rm.
Proof. intros Ha Ht Hp E. assert (r = rm) by nia. subst. lia. Qed.

(** The elimination loop leaves every bit at or below the pivot column
    as it is, in every row. *)
Lemma pivot_eliminate_low_bits (n : nat) (pivot_k pivot_i row0 ge_row : Z) (c : Codec) :
  0 <= pivot_i -> Z.shiftr pivot_i 6 < _ge_pitch c ->
  (forall b, 0 <= b <= Z.land pivot_i 63 -> Z.testbit row0 b = false) ->
  forall r q, 0 <= q <= pivot_i ->
    ge_bit (pivot_eliminate n pivot_k (Z.shiftr pivot_i 6) (pivot_mask pivot_i)
              row0 ge_row c) r q
    = ge_bit c r q.
Proof.
  intros Hi Hwo Hrow0. revert pivot_k c Hwo.
  induction n as [|n IH]; intros pivot_k c Hwo r q Hq; [reflexivity|].
  cbn [pivot_eliminate]. cbv zeta.
  destruct (masked _ (pivot_mask pivot_i)); [|apply IH; assumption].
  rewrite IH by (try assumption; exact Hwo).
  unfold ge_bit. codec_simpl.
  set (wo := Z.shiftr pivot_i 6) in *.
  set (rem_row := wo + _ge_pitch c * sel 0 (_ge_pivots c) pivot_k).
  set (W := Z.shiftr q 6 + _ge_pitch c * r).
  pose proof (shiftr_6_mono q pivot_i Hq) as Ha. fold wo in Ha.
  destruct (Z.eq_dec W rem_row) as [E|Hne].
  - rewrite xor_words_other by lia. rewrite E.
    destruct (same_word_same_row (_ge_pitch c) (Z.shiftr q 6) wo 0 r
                (sel 0 (_ge_pivots c) pivot_k)) as (Hw & _ & _);
      [lia|lia|lia|unfold W, rem_row in E; lia|].
    destruct (Z.ltb_spec rem_row 0) as [Hneg|Hpos].
    { unfold upd. destruct (Z.ltb_spec rem_row 0); [reflexivity|lia]. }
    destruct (Z.ltb_spec rem_row (Z.of_nat (length (_ge_matrix c)))) as [Hin|Hout].
    + rewrite sel_upd_eq by lia. rewrite Z.lxor_spec, Hrow0; [apply xorb_false_r|].
      split; [apply land_63_range|]. apply land_63_mono; [exact Hq|exact Hw].
    + rewrite upd_out_of_range by lia. reflexivity.
  - rewrite xor_words_other.
    + f_equal. apply sel_upd_ne. congruence.
    + destruct (Z.lt_ge_cases W (rem_row + 1)) as [Hlt|Hge]; [left; lia|right].
      destruct (Z.lt_ge_cases W (rem_row + 1 + Z.of_nat (Z.to_nat (_ge_pitch c - wo - 1))))
        as [Hlt2|Hge2]; [|lia].
      exfalso.
      destruct (same_word_same_row (_ge_pitch c) (Z.shiftr q 6) wo (W - rem_row) r
                  (sel 0 (_ge_pivots c) pivot_k)) as (_ & Ht & _);
        [lia|lia|lia|unfold W, rem_row; lia|lia].
Qed.

(** One pivot column: the pivot found is the first remaining row with
    the bit; the pivot array has the two entries exchanged; no bit at or
    below the pivot column changes. *)
Lemma pivot_column_inv (row_limit pivot_i : Z) (c c' : Codec) :
  0 <= pivot_i < 2^16 -> row_limit <= 2^16 ->
  Z.shiftr pivot_i 6 < _ge_pitch c ->
  pivot_column row_limit pivot_i (pivot_mask pivot_i) c = Some c' ->
  exists pivot_j,
    pivot_i <= pivot_j < row_limit /\
    ge_bit c (sel 0 (_ge_pivots c) pivot_j) pivot_i = true /\
    (forall m, pivot_i <= m < pivot_j ->
       ge_bit c (sel 0 (_ge_pivots c) m) pivot_i = false) /\
    _ge_pivots c'
    = upd (upd (_ge_pivots c) pivot_i (sel 0 (_ge_pivots c) pivot_j)) pivot_j
        (sel 0 (_ge_pivots c) pivot_i) /\
    _ge_pitch c' = _ge_pitch c /\
    (forall r q, 0 <= q <= pivot_i -> ge_bit c' r q = ge_bit c r q).
Proof.
  intros [Hp Hp'] Hl Hwo Hcol.
  pose proof (pivot_column_ge_only _ _ _ _ _ Hcol) as Hge.
  apply ge_only_fields in Hge. destruct Hge as (Hpitch & _).
  revert Hcol. unfold pivot_column.
  pose proof (pivot_search_spec (Z.to_nat (row_limit - pivot_i)) pivot_i pivot_i c Hp
                ltac:(lia)) as Hs.
  destruct (pivot_search _ _ _ _ c) as [pivot_j|]; [|discriminate].
  destruct Hs as (Hr & Hbit & Hfirst). cbv zeta.
  intros E. inversion E as [E']. clear E.
  exists pivot_j. split; [lia|]. split; [exact Hbit|]. split; [exact Hfirst|].
  split; [|split; [rewrite E'; exact Hpitch|]].
  - rewrite (proj2 (pivot_eliminate_ge_only _ _ _ _ _ _ _)). reflexivity.
  - intros r q Hq. rewrite pivot_eliminate_low_bits; [reflexivity|lia|exact Hwo| |exact Hq].
    intros b Hb. codec_simpl. unfold pivot_mask.
    apply masked_first_word_low; [apply land_63_range|exact Hb|exact Hbit].
Qed.

Lemma shiftr_6_lt (i pitch : Z) : 0 <= i < 64 * pitch -> Z.shiftr i 6 < pitch.
Proof.
  intros Hi. rewrite Z.shiftr_div_pow2 by lia.
  apply Z.div_lt_upper_bound; [lia|]. change (2 ^ 6) with 64. lia.
Qed.

(** The pivot entries before the pivot column stay; the entry of the
    pivot column is the row found. *)
Lemma swap_before {A} (d : A) (l : list A) (i j m : Z) (x y : A) :
  m < i <= j -> sel d (upd (upd l i x) j y) m = sel d l m.
Proof. intros Hm. rewrite !sel_upd_ne by lia. reflexivity. Qed.

Lemma swap_at (l : list Z) (i j : Z) :
  0 <= i < Z.of_nat (length l) -> i <= j ->
  sel 0 (upd (upd l i (sel 0 l j)) j (sel 0 l i)) i = sel 0 l j.
Proof.
  intros Hi Hj. destruct (Z.eq_dec i j) as [<-|Hne].
  - rewrite sel_upd_eq by (rewrite length_upd; lia). reflexivity.
  - rewrite sel_upd_ne by lia. apply sel_upd_eq. lia.
Qed.

Lemma pivot_steps_app (a b : nat) (row_limit pivot_i : Z) (c : Codec) :
  pivot_steps (a + b) row_limit pivot_i c
  = match pivot_steps a row_limit pivot_i c with
    | Some ca => pivot_steps b row_limit (pivot_i + Z.of_nat a) ca
    | None => None
    end.
Proof.
  revert pivot_i c. induction a as [|a IH]; intros pivot_i c.
  - cbn [pivot_steps Nat.add]. f_equal. cbn. lia.
  - cbn [pivot_steps Nat.add].
    destruct (pivot_column row_limit pivot_i (pivot_mask pivot_i) c) as [c1|];
      [|reflexivity].
    rewrite IH. destruct (pivot_steps a row_limit (pivot_i + 1) c1); [|reflexivity].
    f_equal. lia.
Qed.

(** After [k] pivot columns from [pivot_i] on: bits at or below column
    [pivot_i] are as before, in every row; the diagonal is set as far as
    the scan went. *)
Lemma pivot_steps_inv (k : nat) (row_limit pivot_i : Z) (c ck : Codec) :
  0 <= pivot_i -> pivot_i + Z.of_nat k < 2^16 -> row_limit <= 2^16 ->
  pivot_i + Z.of_nat k <= 64 * _ge_pitch c ->
  pivot_i + Z.of_nat k <= Z.of_nat (length (_ge_pivots c)) ->
  pivot_steps k row_limit pivot_i c = Some ck ->
  _ge_pitch ck = _ge_pitch c /\
  length (_ge_pivots ck) = length (_ge_pivots c) /\
  (forall r q, 0 <= q <= pivot_i -> ge_bit ck r q = ge_bit c r q) /\
  (forall m, 0 <= m < pivot_i -> sel 0 (_ge_pivots ck) m = sel 0 (_ge_pivots c) m) /\
  ((forall m, 0 <= m < pivot_i -> ge_bit c (sel 0 (_ge_pivots c) m) m = true) ->
   forall m, 0 <= m < pivot_i + Z.of_nat k ->
     ge_bit ck (sel 0 (_ge_pivots ck) m) m = true).
Proof.
  revert pivot_i c. induction k as [|k IH]; intros pivot_i c Hp Hk Hl Hpitch Hlen Hsteps.
  - cbn [pivot_steps] in Hsteps. inversion Hsteps; subst ck.
    repeat split; try reflexivity. intros Hd m Hm. apply Hd. lia.
  - cbn [pivot_steps] in Hsteps.
    destruct (pivot_column row_limit pivot_i (pivot_mask pivot_i) c) as [c1|] eqn:Hcol;
      [|discriminate].
    destruct (pivot_column_inv row_limit pivot_i c c1) as
      (pivot_j & Hj & Hbit & _ & Hpiv & Hpitch1 & Hlow); [lia|lia| |exact Hcol|].
    { apply shiftr_6_lt. lia. }
    assert (Hlen1 : length (_ge_pivots c1) = length (_ge_pivots c)).
    { rewrite Hpiv, !length_upd. reflexivity. }
    destruct (IH (pivot_i + 1) c1) as (Hpk & Hlk & Hlowk & Hpivk & Hdiag);
      [lia|lia|lia|rewrite Hpitch1; lia|rewrite Hlen1; lia|exact Hsteps|].
    split; [congruence|]. split; [congruence|]. split; [|split].
    + intros r q Hq. rewrite Hlowk by lia. apply Hlow. lia.
    + intros m Hm. rewrite Hpivk by lia. rewrite Hpiv. apply swap_before. lia.
    + intros Hd m Hm. apply Hdiag; [|lia]. clear m Hm. intros m Hm.
      rewrite Hlow by lia. rewrite Hpiv.
      destruct (Z.eq_dec m pivot_i) as [->|Hne].
      * rewrite swap_at by lia. exact Hbit.
      * rewrite swap_before by lia. apply Hd. lia.
Qed.

Lemma length_init_pivots (n : nat) (pivot_i : Z) (pivots : list Z) :
  length (init_pivots n pivot_i pivots) = length pivots.
Proof.
  revert pivot_i pivots. induction n as [|n IH]; intros pivot_i pivots; [reflexivity|].
  cbn [init_pivots]. rewrite IH. apply length_upd.
Qed.

Lemma Triangle_true_steps (c c' : Codec) :
  Triangle c = (true, c') ->
  pivot_steps (Z.to_nat (ge_pivot_count c)) (ge_pivot_count c) 0 (Triangle_start c)
  = Some c'.
Proof.
  intros HT. pose proof (u16_range (_defer_count c + _added_count c)) as Hpc.
  fold (ge_pivot_count c) in Hpc.
  destruct (pivot_loop_steps (Z.to_nat (ge_pivot_count c)) (ge_pivot_count c) 0
              (Triangle_start c))
    as (k & ck & Hk & Hsteps & _ & Hend); [lia|lia|lia|].
  change (Triangle c) with
    (pivot_loop (Z.to_nat (ge_pivot_count c)) (ge_pivot_count c) 0 (pivot_mask 0)
       (Triangle_start c)) in HT.
  destruct Hend as [[-> Hloop]|(_ & _ & Hloop)]; rewrite Hloop in HT.
  - inversion HT; subst ck. exact Hsteps.
  - discriminate.
Qed.

(** C9, as stated, fails: on the rows [1 0] and [1 1] [Triangle] returns
    [true], and the second pivot row still has the bit of the first
    column: the first word of the pivot row is masked before it is
    added, so bits at and before the pivot column are kept. *)
Lemma Triangle_not_upper_triangular :
  exists c c', Triangle c = (true, c') /\ ~ upper_triangular c'.
Proof.
  exists two_row_matrix. eexists. split; [vm_compute; reflexivity|].
  intros Hup. destruct (Hup 0 1) as (Hclear & _); [lia|lia|vm_compute; reflexivity|].
  vm_compute in Hclear. discriminate.
Qed.

(** C9, amended.  After [Triangle] returns [true], every pivot row has
    its diagonal bit set: row [_ge_pivots[i]] has bit [i] set; and the
    bits below the diagonal are not cleared: in every row the bit of
    column [i] is the one the row had when column [i] was about to get
    its pivot.  (The matrix has room for the pivot columns and the
    pivot array for the pivots.) *)
Theorem Triangle_diagonal (c c' : Codec) :
  ge_pivot_count c <= 64 * _ge_pitch c ->
  ge_pivot_count c <= Z.of_nat (length (_ge_pivots c)) ->
  Triangle c = (true, c') ->
  (forall i, 0 <= i < ge_pivot_count c ->
     ge_bit c' (sel 0 (_ge_pivots c') i) i = true) /\
  (forall i, 0 <= i < ge_pivot_count c ->
     exists ci,
       pivot_steps (Z.to_nat i) (ge_pivot_count c) 0 (Triangle_start c) = Some ci /\
       forall ge_row, ge_bit c' ge_row i = ge_bit ci ge_row i).
Proof.
  intros Hpitch Hlen HT. apply Triangle_true_steps in HT.
  pose proof (u16_range (_defer_count c + _added_count c)) as Hpc.
  fold (ge_pivot_count c) in Hpc.
  assert (Hlen0 : length (_ge_pivots (Triangle_start c)) = length (_ge_pivots c)).
  { unfold Triangle_start. codec_simpl. apply length_init_pivots. }
  split.
  - destruct (pivot_steps_inv (Z.to_nat (ge_pivot_count c)) (ge_pivot_count c) 0
                (Triangle_start c) c') as (_ & _ & _ & _ & Hd);
      [lia|lia|lia| | |exact HT|].
    + change (_ge_pitch (Triangle_start c)) with (_ge_pitch c). lia.
    + rewrite Hlen0. lia.
    + intros i Hi. apply Hd; [intros m Hm; lia|lia].
  - intros i Hi.
    replace (Z.to_nat (ge_pivot_count c))
      with (Z.to_nat i + Z.to_nat (ge_pivot_count c - i))%nat in HT by lia.
    rewrite pivot_steps_app in HT.
    destruct (pivot_steps (Z.to_nat i) (ge_pivot_count c) 0 (Triangle_start c))
      as [ci|] eqn:Hci; [|discriminate].
    exists ci. split; [reflexivity|]. intros ge_row.
    destruct (pivot_steps_inv (Z.to_nat i) (ge_pivot_count c) 0 (Triangle_start c) ci) as (Hp1 & Hl1 & _);
      [lia|lia|lia| | |exact Hci|].
    + change (_ge_pitch (Triangle_start c)) with (_ge_pitch c). lia.
    + rewrite Hlen0. lia.
    + change (_ge_pitch (Triangle_start c)) with (_ge_pitch c) in Hp1.
      destruct (pivot_steps_inv (Z.to_nat (ge_pivot_count c - i)) (ge_pivot_count c)
                  (0 + Z.of_nat (Z.to_nat i)) ci c')
        as (_ & _ & Hlow & _); [lia|lia|lia|rewrite Hp1; lia|rewrite Hl1, Hlen0; lia
                               |exact HT|].
      apply Hlow. lia.
Qed.

Lemma Triangle_diagonal_witness :
  ge_bit (snd (Triangle two_row_matrix))
    (sel 0 (_ge_pivots (snd (Triangle two_row_matrix))) 1) 1 = true.
Proof.
  refine (proj1 (Triangle_diagonal two_row_matrix (snd (Triangle two_row_matrix))
                   _ _ _) 1 _).
  - vm_compute. discriminate.
  - vm_compute. discriminate.
  - vm_compute. reflexivity.
  - vm_compute. split; [discriminate|reflexivity].
Defined.

(** ** The members no peeling step assigns *)

Section PeelingFrame.
Context {H : Header}.

Lemma same_setup_modify_row (f : PeelRow.t -> PeelRow.t) (i : Z) (c : Codec) :
  same_setup c (modify_row f i c).
Proof. repeat split. Qed.

Lemma same_setup_modify_col (f : PeelColumn.t -> PeelColumn.t) (i : Z) (c : Codec) :
  same_setup c (modify_col f i c).
Proof. repeat split. Qed.

Lemma same_setup_link_deferred_row (row_i : Z) (c : Codec) :
  same_setup c (link_deferred_row row_i c).
Proof. repeat split. Qed.

Lemma PeelAvalanche_row_setup (peel : Z -> Z -> Codec -> option Codec)
    (column_i r : Z) (c c' : Codec) :
  peel_framed peel ->
  PeelAvalanche_row peel column_i r c = Some c' -> same_setup c c'.
Proof.
  intros Hpeel. unfold PeelAvalanche_row.
  set (c1 := modify_row _ r c).
  assert (Hs1 : same_setup c c1) by apply same_setup_modify_row.
  destruct (_ =? 1).
  - match goal with |- context [is_todo c1 ?x] => destruct (is_todo c1 x) end.
    + intros E. apply Hpeel in E. eapply same_setup_trans; [exact Hs1|exact E].
    + intros E. inversion E. repeat split.
  - destruct (_ =? 2).
    + match goal with
      | |- context [RescanRow ?n ?a ?b ?d ?e ?f] =>
          pose proof (RescanRow_settles n a b d e f) as [Hs2 _];
          destruct (RescanRow n a b d e f) as [uc c2]
      end.
      cbn [snd] in Hs2. destruct Hs2 as ((Hs2 & _) & _).
      assert (Hs02 : same_setup c c2) by (eapply same_setup_trans; [exact Hs1|exact Hs2]).
      destruct (uc <=? 1).
      * destruct (uc =? 1).
        -- intros E. apply Hpeel in E.
           eapply same_setup_trans; [exact Hs02|].
           eapply same_setup_trans; [|exact E]. apply same_setup_modify_row.
        -- intros E. inversion E.
           eapply same_setup_trans; [exact Hs02|]. repeat split.
      * intros E. inversion E; subst c'. exact Hs02.
    + intros E. inversion E; subst c'. exact Hs1.
Qed.

Lemma PeelAvalanche_rows_setup (peel : Z -> Z -> Codec -> option Codec)
    (column_i : Z) (rows : list Z) (c c' : Codec) :
  peel_framed peel ->
  PeelAvalanche_rows peel column_i rows c = Some c' -> same_setup c c'.
Proof.
  intros Hpeel. revert c. induction rows as [|r rows IH]; intros c.
  - intros E. inversion E. apply same_setup_refl.
  - cbn [PeelAvalanche_rows].
    destruct (PeelAvalanche_row peel column_i r c) as [c1|] eqn:E1; [|discriminate].
    intros E. eapply same_setup_trans.
    + eapply PeelAvalanche_row_setup; [exact Hpeel|exact E1].
    + apply IH. exact E.
Qed.

Lemma Peel_setup (fuel : nat) : forall row_i, peel_framed (Peel fuel row_i).
Proof.
  induction fuel as [|fuel IH]; intros row_i row column_i c c'; [discriminate|].
  cbn [Peel]. cbv zeta.
  match goal with
  | |- match PeelAvalanche ?p ?col ?c0 with _ => _ end = _ -> _ =>
      set (c6 := c0); destruct (PeelAvalanche p col c6) as [c7|] eqn:E7; [|discriminate]
  end.
  intros E. inversion E.
  assert (Hs6 : same_setup c c6).
  { unfold c6. destruct (_peel_tail_rows _); repeat split. }
  unfold PeelAvalanche in E7. apply PeelAvalanche_rows_setup in E7.
  - eapply same_setup_trans; [exact Hs6|].
    eapply same_setup_trans; [exact E7|]. apply same_setup_modify_col.
  - intros r col x x' Hx. apply (IH r r col x x' Hx).
Qed.

Lemma OpportunisticPeeling_setup (fuel : nat) (row_i id : Z) (c c' : Codec) (ok : bool) :
  OpportunisticPeeling fuel row_i id c = Some (ok, c') -> same_setup c c'.
Proof.
  unfold OpportunisticPeeling.
  set (shape := GeneratePeelRow _ _ _ _ _).
  set (c2 := modify_row (PeelRow.set_shape shape) row_i _).
  assert (Hs2 : same_setup c c2) by (repeat split).
  pose proof (AddRowReferences_spec (walk_count (RowShape.peel_weight shape)) row_i
                (RowShape.peel_x0 shape) (RowShape.peel_a shape) 0 (0, 0) c2)
    as ((Hk3 & _) & _).
  destruct (AddRowReferences _ _ _ _ _ _ c2) as [[[uc um]|] c3]; cbn [fst snd] in *.
  2:{ intros E. inversion E; subst. eapply same_setup_trans; [exact Hs2|exact Hk3]. }
  assert (Hs3 : same_setup c c3) by (eapply same_setup_trans; [exact Hs2|exact Hk3]).
  destruct (uc =? 0).
  { intros E. inversion E. eapply same_setup_trans; [exact Hs3|]. repeat split. }
  destruct (uc =? 1).
  { destruct (Peel _ _ _ _ _) as [c5|] eqn:E5; [|discriminate].
    intros E. inversion E; subst. apply Peel_setup in E5.
    eapply same_setup_trans; [exact Hs3|].
    eapply same_setup_trans; [|exact E5]. apply same_setup_modify_row. }
  destruct (uc =? 2); intros E; inversion E;
    (eapply same_setup_trans; [exact Hs3|]); repeat split.
Qed.

Lemma GreedyPeeling_loop_setup (fuel : nat) (c c' : Codec) :
  GreedyPeeling_loop fuel c = Some c' -> same_setup c c'.
Proof.
  revert c. induction fuel as [|fuel IH]; intros c; [discriminate|].
  cbn [GreedyPeeling_loop].
  destruct (GreedyBest _ _ _ c) as [[best_column_i ?] ?].
  destruct (best_column_i =? LIST_TERM).
  - intros E. inversion E. apply same_setup_refl.
  - cbv zeta.
    match goal with
    | |- match PeelAvalanche ?p ?col ?c0 with _ => _ end = _ -> _ =>
        set (c4 := c0); destruct (PeelAvalanche p col c4) as [c5|] eqn:E5; [|discriminate]
    end.
    intros E. apply IH in E.
    unfold PeelAvalanche in E5. apply PeelAvalanche_rows_setup in E5.
    + eapply same_setup_trans; [|exact E].
      eapply same_setup_trans; [|exact E5]. repeat split.
    + intros r col x x' Hx. apply (Peel_setup fuel r r col x x' Hx).
Qed.

Lemma GreedyPeeling_setup (fuel : nat) (c c' : Codec) :
  GreedyPeeling fuel c = Some c' -> same_setup c c'.
Proof.
  unfold GreedyPeeling. intros E. apply GreedyPeeling_loop_setup in E.
  eapply same_setup_trans; [|exact E]. repeat split.
Qed.

Lemma operator_new_setup {A} (fresh : Z -> A) (n : Z) (c : Codec) :
  same_setup c (snd (operator_new fresh n c)).
Proof. unfold operator_new. destruct (new_ok _ _); repeat split. Qed.

Lemma AllocateMatrix_setup (c : Codec) : same_setup c (snd (AllocateMatrix c)).
Proof.
  unfold AllocateMatrix, operator_new. cbv zeta. codec_simpl.
  repeat (destruct (new_ok _ _); cbn [negb]; codec_simpl); repeat split.
Qed.

End PeelingFrame.

(** ** The solver and the first N rows *)

Section Solver.
Context {H : Header} {P : Phases}.

(** The ways through [SolveMatrix]. *)
Lemma SolveMatrix_cases (c c' : Codec) (r : Result) :
  SolveMatrix c = Some (r, c') ->
  exists c1,
    GreedyPeeling (peel_fuel c) c = Some c1 /\
    ((fst (AllocateMatrix c1) = false /\ r = R_OUT_OF_MEMORY /\
      c' = snd (AllocateMatrix c1)) \/
     (fst (AllocateMatrix c1) = true /\
      c' = snd (Triangle (Compress (snd (AllocateMatrix c1)))) /\
      r = if fst (Triangle (Compress (snd (AllocateMatrix c1))))
          then R_WIN else R_MORE_BLOCKS)).
Proof.
  unfold SolveMatrix.
  destruct (GreedyPeeling (peel_fuel c) c) as [c1|]; [|discriminate].
  intros E. exists c1. split; [reflexivity|].
  destruct (AllocateMatrix c1) as [[|] c2]; cbn [negb fst snd] in *.
  - right. split; [reflexivity|].
    destruct (Triangle (Compress c2)) as [[|] c3]; cbn [negb fst snd] in *;
      inversion E; split; reflexivity.
  - left. inversion E. repeat split.
Qed.

Lemma SolveMatrix_setup (c c' : Codec) (r : Result) :
  SolveMatrix c = Some (r, c') -> same_setup c c'.
Proof.
  intros E. apply SolveMatrix_cases in E.
  destruct E as (c1 & Hg & [(_ & _ & ->)|(_ & -> & _)]);
    apply GreedyPeeling_setup in Hg;
    (eapply same_setup_trans; [exact Hg|]).
  - apply AllocateMatrix_setup.
  - eapply same_setup_trans; [apply AllocateMatrix_setup|].
    eapply same_setup_trans; [apply Compress_setup|].
    apply ge_only_same_setup. apply Triangle_ge_only.
Qed.

Lemma SolveMatrix_total (c : Codec) :
  peel_ready c -> _block_count c <= Z.of_nat (length (_peel_cols c)) ->
  exists r c', SolveMatrix c = Some (r, c').
Proof.
  intros Hready Hlen. unfold SolveMatrix, peel_fuel.
  destruct (GreedyPeeling_total c Hready Hlen) as (c1 & -> & _).
  destruct (AllocateMatrix c1) as [[|] c2]; cbn [negb].
  - destruct (Triangle (Compress c2)) as [[|] c3]; cbn [negb]; eauto.
  - eauto.
Qed.


(** Once N rows are held, a feed goes to [ResumeSolveMatrix]. *)
Lemma DecodeFeed_resumes (id : Z) (block : list Z) (c : Codec) :
  _block_count c <= u16 (_used_count c) ->
  DecodeFeed id block c =
  (let '(ok, c') := ResumeSolveMatrix id block c in
   if negb ok then Some (R_MORE_BLOCKS, c')
   else Some (R_WIN, GenerateRecoveryBlocks c')).
Proof.
  intros Hfull. unfold DecodeFeed.
  destruct (Z.ltb_spec (u16 (_used_count c)) (_block_count c)); [lia|reflexivity].
Qed.

End Solver.



(** ** Feeding rows *)

Section Feeding.
Context {H : Header} {P : Phases}.

Lemma peel_columns_setup (c c' : Codec) (id : Z) :
  same_setup c c' ->
  peel_columns c' (row_shape_of c' id) = peel_columns c (row_shape_of c id).
Proof.
  intros (_ & Hbc & _ & _ & _ & Hbp & Hps & Hac & _).
  unfold peel_columns, row_shape_of. rewrite Hbc, Hbp, Hps, Hac. reflexivity.
Qed.

Lemma row_overflows_setup (c c' : Codec) (id : Z) :
  same_setup c c' -> _peel_col_refs c' = _peel_col_refs c ->
  row_overflows c' id <-> row_overflows c id.
Proof.
  intros Hs Hr. unfold row_overflows. rewrite (peel_columns_setup c c' id Hs).
  unfold get_refs. rewrite Hr. reflexivity.
Qed.

Lemma feed_ready_keeps (c c' : Codec) :
  feed_ready c -> keeps c c' -> peel_ready c' -> feed_ready c'.
Proof.
  intros (_ & Hr & Hc & Hbc & Hnd) (Hs & Hlr & Hlc & _) Hready.
  pose proof Hs as (_ & Hb & _).
  split; [exact Hready|]. rewrite Hb, Hlr, Hlc. repeat (split; [assumption|]).
  intros id. rewrite (peel_columns_setup c c' id Hs). apply Hnd.
Qed.

Lemma SolveMatrix_not_bad_input (c c' : Codec) (r : Result) :
  SolveMatrix c = Some (r, c') -> r <> R_BAD_INPUT.
Proof.
  intros E. apply SolveMatrix_cases in E.
  destruct E as (c1 & _ & [(_ & -> & _)|(_ & _ & ->)]); [discriminate|].
  destruct (fst (Triangle _)); discriminate.
Qed.

(** [DecodeFeed] never reports [R_BAD_INPUT]. *)
Lemma DecodeFeed_not_bad_input (id : Z) (block : list Z) (c c' : Codec) (r : Result) :
  DecodeFeed id block c = Some (r, c') -> r <> R_BAD_INPUT.
Proof.
  unfold DecodeFeed. destruct (_ <? _).
  - destruct (OpportunisticPeeling _ _ _ c) as [[[|] ca]|]; [| |discriminate].
    + cbv zeta. destruct (_ =? _).
      * destruct (SolveMatrix _) as [[r1 cs]|] eqn:Hs; [|discriminate].
        apply SolveMatrix_not_bad_input in Hs.
        destruct r1; intros E; inversion E; subst; try discriminate; congruence.
      * intros E; inversion E; discriminate.
    + intros E; inversion E; discriminate.
  - destruct (ResumeSolveMatrix id block c) as [[|] cr]; cbn [negb];
      intros E; inversion E; discriminate.
Qed.

(** One of the first N rows through [DecodeFeed]. *)
Lemma DecodeFeed_row_spec (id : Z) (block : list Z) (c : Codec) :
  feed_ready c -> 0 <= _used_count c < _block_count c ->
  exists r c',
    DecodeFeed id block c = Some (r, c') /\
    (row_overflows c id ->
     r = R_MORE_BLOCKS /\ _used_count c' = _used_count c /\
     _input_blocks c' = _input_blocks c) /\
    (~ row_overflows c id ->
     _used_count c' = _used_count c + 1 /\
     _input_blocks c'
     = store (_input_blocks c) (_block_bytes c * _used_count c)
         (load block 0 (_block_bytes c))).
Proof.
  intros (Hready & Hrows & Hcols & Hbc & Hnd) Hu. unfold DecodeFeed.
  rewrite (u16_small (_used_count c)) by lia.
  destruct (Z.ltb_spec (_used_count c) (_block_count c)) as [_|]; [|lia].
  destruct (OpportunisticPeeling_spec (peel_fuel c) (_used_count c) id c)
    as (ok & ca & Ho & Hk & Hready_a & _ & Hover);
    [exact Hready|lia|lia| |apply Hnd|].
  { unfold peel_fuel. pose proof (count_todo_le_length (_peel_cols c)). lia. }
  rewrite Ho. pose proof Hk as ((Hbb & Hbca & _ & Huc & Hin & _) & Hlr & Hlc & _).
  destruct ok.
  - assert (Hno : ~ row_overflows c id).
    { intros Hov. apply Hover in Hov. discriminate. }
    cbv zeta. codec_simpl.
    set (cb := set_used_count _ _).
    assert (Hfin : forall r c', same_setup cb c' ->
              exists r0 c0, Some (r, c') = Some (r0, c0) /\
                (row_overflows c id ->
                 r0 = R_MORE_BLOCKS /\ _used_count c0 = _used_count c /\
                 _input_blocks c0 = _input_blocks c) /\
                (~ row_overflows c id ->
                 _used_count c0 = _used_count c + 1 /\
                 _input_blocks c0
                 = store (_input_blocks c) (_block_bytes c * _used_count c)
                     (load block 0 (_block_bytes c)))).
    { intros r c' (_ & _ & _ & Hu' & Hi' & _). exists r, c'.
      split; [reflexivity|]. split; [intros Hov; contradiction|]. intros _.
      rewrite Hu', Hi'. unfold cb. codec_simpl. rewrite Huc, Hin, Hbb. auto. }
    destruct (_ =? _).
    + destruct (SolveMatrix_total cb) as (r & cs & Hs).
      { exact Hready_a. }
      { change (_block_count cb) with (_block_count ca).
        change (_peel_cols cb) with (_peel_cols ca). lia. }
      rewrite Hs. pose proof (SolveMatrix_setup _ _ _ Hs) as Hss.
      destruct r; apply Hfin; try exact Hss.
      eapply same_setup_trans; [exact Hss|apply GenerateRecoveryBlocks_setup].
    + apply Hfin. apply same_setup_refl.
  - exists R_MORE_BLOCKS, ca. split; [reflexivity|].
    split; [intros _; auto|]. intros Hno. exfalso. apply Hno. apply Hover. reflexivity.
Qed.

End Feeding.

Section FeedingEncoder.
Context {H : Header} {P : Phases}.

Lemma feed_ready_SetInput (message_in : list Z) (c : Codec) :
  feed_ready c -> feed_ready (SetInput message_in c).
Proof.
  intros Hf. unfold SetInput. destruct (_input_allocated c); exact Hf.
Qed.

(** The row loop of [EncodeFeed] stops with the flag down at the first
    row that overflows a reference list in the state the rows before it
    left. *)
Lemma EncodeFeed_rows_spec (n : nat) (id : Z) (c : Codec) :
  feed_ready c -> 0 <= id -> id + Z.of_nat n <= _block_count c ->
  exists ok c',
    EncodeFeed_rows n id c = Some (ok, c') /\
    keeps c c' /\ peel_ready c' /\
    (ok = false <->
     exists (k : nat) (ck : Codec),
       (k < n)%nat /\ EncodeFeed_rows k id c = Some (true, ck) /\
       row_overflows ck (id + Z.of_nat k)).
Proof.
  revert id c. induction n as [|n IH]; intros id c Hf Hid Hn.
  - exists true, c. split; [reflexivity|]. split; [apply keeps_refl|].
    split; [apply Hf|]. split; [discriminate|]. intros (k & _ & Hk & _). lia.
  - pose proof Hf as (Hready & Hrows & Hcols & Hbc & Hnd).
    cbn [EncodeFeed_rows].
    destruct (OpportunisticPeeling_spec (peel_fuel c) id id c)
      as (ok1 & c1 & Ho & Hk1 & Hready1 & _ & Hover);
      [exact Hready|lia|lia| |apply Hnd|].
    { unfold peel_fuel. pose proof (count_todo_le_length (_peel_cols c)). lia. }
    rewrite Ho.
    assert (Hzero : EncodeFeed_rows 0 id c = Some (true, c)) by reflexivity.
    destruct ok1.
    + assert (Hno : ~ row_overflows c id).
      { intros Hov. apply Hover in Hov. discriminate. }
      pose proof (feed_ready_keeps c c1 Hf Hk1 Hready1) as Hf1.
      pose proof Hk1 as ((_ & Hb1 & _) & _).
      destruct n as [|n].
      * exists true, c1. split; [reflexivity|]. split; [exact Hk1|].
        split; [exact Hready1|]. split; [discriminate|].
        intros (k & ck & Hk & Hrun & Hov). assert (k = O) by lia. subst k.
        rewrite Hzero in Hrun. inversion Hrun; subst ck.
        rewrite Z.add_0_r in Hov. contradiction.
      * rewrite (u16_small (id + 1)) by lia.
        destruct (IH (id + 1) c1 Hf1) as (ok & c' & Hrun & Hk & Hready' & Hiff);
          [lia|rewrite Hb1; lia|].
        exists ok, c'. split; [exact Hrun|].
        split; [eapply keeps_trans; [exact Hk1|exact Hk]|].
        split; [exact Hready'|]. rewrite Hiff. split.
        -- intros (k & ck & Hlt & Hrunk & Hov). exists (S k), ck.
           split; [lia|]. split.
           ++ cbn [EncodeFeed_rows]. rewrite Ho.
              destruct k as [|k]; [exact Hrunk|].
              rewrite (u16_small (id + 1)) by lia. exact Hrunk.
           ++ replace (id + Z.of_nat (S k)) with (id + 1 + Z.of_nat k) by lia.
              exact Hov.
        -- intros (k & ck & Hlt & Hrunk & Hov). destruct k as [|k].
           { rewrite Hzero in Hrunk. inversion Hrunk; subst ck.
             rewrite Z.add_0_r in Hov. contradiction. }
           exists k, ck. split; [lia|]. split.
           ++ cbn [EncodeFeed_rows] in Hrunk. rewrite Ho in Hrunk.
              destruct k as [|k]; [exact Hrunk|].
              rewrite (u16_small (id + 1)) in Hrunk by lia. exact Hrunk.
           ++ replace (id + 1 + Z.of_nat k) with (id + Z.of_nat (S k)) by lia.
              exact Hov.
    + exists false, c1. split; [reflexivity|]. split; [exact Hk1|].
      split; [exact Hready1|]. split; [|reflexivity]. intros _.
      exists O, c. split; [lia|]. split; [exact Hzero|].
      rewrite Z.add_0_r. apply Hover. reflexivity.
Qed.

End FeedingEncoder.

Lemma refs_valid_check_sound (c : Codec) :
  refs_valid_check c = true -> refs_valid c.
Proof.
  intros Hc column_i. unfold get_refs, sel.
  destruct (column_i <? 0); [cbn; split; [lia|intros k Hk; lia]|].
  destruct (_peel_col_refs c !! Z.to_nat column_i) as [refs|] eqn:E;
    [|cbn; split; [lia|intros k Hk; lia]].
  change (default PeelRefs.zero (Some refs)) with refs.
  apply list_elem_of_lookup_2 in E. apply list_elem_of_In in E.
  unfold refs_valid_check in Hc. rewrite forallb_forall in Hc.
  specialize (Hc refs E). apply andb_prop in Hc as [H0 Hall].
  apply Z.leb_le in H0. split; [exact H0|]. intros k Hk. rewrite forallb_forall in Hall.
  assert (Hin : In k (seqZ 0 (PeelRefs.row_count refs))).
  { apply list_elem_of_In. apply elem_of_seqZ. lia. }
  specialize (Hall k Hin). unfold sel in Hall.
  apply andb_prop in Hall as [H1 H2].
  apply Z.leb_le in H1. apply Z.ltb_lt in H2. split; assumption.
Qed.

(** C7, as stated, fails for the decoder: with a cap of one row per
    column and two rows that reference column 0, the second
    [DecodeFeed] meets a full reference list and reports
    [R_MORE_BLOCKS], not [R_BAD_INPUT]. *)
Lemma DecodeFeed_overflow_reports_more_blocks :
  let c := default new_codec (fed_decoder (H := crowded_header) (P := idle_phases) 1) in
  row_overflows (H := crowded_header) c 1 /\
  exists c',
    DecodeFeed (H := crowded_header) (P := idle_phases) 1 [0] c
    = Some (R_MORE_BLOCKS, c').
Proof.
  intros c. split.
  - unfold row_overflows. vm_compute. apply Exists_cons_hd. discriminate.
  - eexists. vm_compute. reflexivity.
Qed.

(** C7, amended.  [EncodeFeed] reports [R_BAD_INPUT] exactly when one
    of the N rows, in the state the rows before it left, would exceed
    the cap [CAT_REF_LIST_MAX] on the reference list of one of its
    columns.  [DecodeFeed] never reports [R_BAD_INPUT]: for one of the
    first N rows that would exceed the cap it reports [R_MORE_BLOCKS]
    and neither counts the row nor stores its block; a row that does
    not exceed the cap is counted and its block is stored. *)
Theorem feed_reference_cap `{H : Header} `{P : Phases} :
  (forall message_in c,
     feed_ready c -> 0 <= _block_count c ->
     exists r c',
       EncodeFeed message_in c = Some (r, c') /\
       (r = R_BAD_INPUT <->
        exists (k : nat) (ck : Codec),
          (k < Z.to_nat (_block_count c))%nat /\
          EncodeFeed_rows k 0 (SetInput message_in c) = Some (true, ck) /\
          row_overflows ck (Z.of_nat k))) /\
  (forall id block c,
     feed_ready c -> 0 <= _used_count c < _block_count c ->
     exists r c',
       DecodeFeed id block c = Some (r, c') /\
       (row_overflows c id ->
        r = R_MORE_BLOCKS /\ _used_count c' = _used_count c /\
        _input_blocks c' = _input_blocks c) /\
       (~ row_overflows c id ->
        _used_count c' = _used_count c + 1 /\
        _input_blocks c'
        = store (_input_blocks c) (_block_bytes c * _used_count c)
            (load block 0 (_block_bytes c)))) /\
  (forall id block c r c',
     DecodeFeed id block c = Some (r, c') -> r <> R_BAD_INPUT).
Proof.
  split; [|split].
  - intros message_in c Hf Hbc. unfold EncodeFeed. cbv zeta.
    assert (Hb0 : _block_count (SetInput message_in c) = _block_count c).
    { unfold SetInput. destruct (_input_allocated c); reflexivity. }
    rewrite Hb0.
    destruct (EncodeFeed_rows_spec (Z.to_nat (_block_count c)) 0
                (SetInput message_in c))
      as (ok & c1 & Hrun & Hk & Hready & Hiff);
      [apply feed_ready_SetInput; exact Hf|lia|rewrite Hb0; lia|].
    rewrite Hrun. destruct ok; cbn [negb].
    + destruct (SolveMatrix_total c1) as (r & cs & Hs).
      { exact Hready. }
      { destruct Hk as ((_ & Hb1 & _) & _ & Hlc & _). rewrite Hb1, Hlc, Hb0.
        unfold SetInput. destruct (_input_allocated c); apply Hf. }
      rewrite Hs. pose proof (SolveMatrix_not_bad_input _ _ _ Hs) as Hnb.
      assert (Hno : ~ exists (k : nat) (ck : Codec),
                (k < Z.to_nat (_block_count c))%nat /\
                EncodeFeed_rows k 0 (SetInput message_in c) = Some (true, ck) /\
                row_overflows ck (Z.of_nat k)).
      { intros Hex. apply Hiff in Hex. discriminate. }
      destruct r; eexists _, _; (split; [reflexivity|]);
        (split; [intros E; try discriminate E; contradiction|]);
        intros Hex; contradiction.
    + exists R_BAD_INPUT, c1. split; [reflexivity|].
      split; [intros _; apply Hiff; reflexivity|reflexivity].
  - intros id block c Hf Hu. apply DecodeFeed_row_spec; assumption.
  - intros id block c r c'. apply DecodeFeed_not_bad_input.
Qed.

Lemma feed_reference_cap_witness :
  let c := default new_codec (fed_decoder (H := crowded_header) (P := idle_phases) 1) in
  exists r c',
    DecodeFeed (H := crowded_header) (P := idle_phases) 1 [0] c = Some (r, c') /\
    (row_overflows (H := crowded_header) c 1 ->
     r = R_MORE_BLOCKS /\ _used_count c' = _used_count c /\
     _input_blocks c' = _input_blocks c) /\
    (~ row_overflows (H := crowded_header) c 1 ->
     _used_count c' = _used_count c + 1 /\
     _input_blocks c'
     = store (_input_blocks c) (_block_bytes c * _used_count c)
         (load [0] 0 (_block_bytes c))).
Proof.
  intros c.
  refine (proj1 (proj2 (feed_reference_cap (H := crowded_header) (P := idle_phases)))
            1 [0] c _ _).
  - split; [split|].
    + vm_compute. lia.
    + apply refs_valid_check_sound. vm_compute. reflexivity.
    + split; [vm_compute; discriminate|]. split; [vm_compute; discriminate|].
      split; [vm_compute; discriminate|].
      intros id. vm_compute. apply NoDup_cons. split; [|apply NoDup_nil; exact I].
      intros Hin. inversion Hin.
  - vm_compute. split; [discriminate|reflexivity].
Defined.

(** ** Byte ranges *)

Lemma length_load (mem : list Z) (off n : Z) :
  length (load mem off n) = Z.to_nat n.
Proof. unfold load. rewrite length_map. apply length_seqZ. Qed.

Lemma sel_load (mem : list Z) (off n i : Z) :
  0 <= i < n -> sel 0 (load mem off n) i = sel 0 mem (off + i).
Proof.
  intros Hi. unfold load. unfold sel at 1. destruct (Z.ltb_spec i 0); [lia|].
  change (map ?f ?l) with (f <$> l).
  rewrite list_lookup_fmap, lookup_seqZ_lt by lia. cbn. f_equal. lia.
Qed.

Lemma sel_replicate (n : nat) (x i : Z) : sel 0 (replicate n 0) i = 0.
Proof.
  unfold sel. destruct (i <? 0); [reflexivity|].
  destruct (replicate n 0 !! Z.to_nat i) as [y|] eqn:E; [|reflexivity].
  apply lookup_replicate in E as [-> _]. reflexivity.
Qed.

Lemma bstore_lookup_out (bytes : list Z) (m : gmap Z Z) (off k : Z) :
  k < off \/ off + Z.of_nat (length bytes) <= k ->
  bstore m off bytes !! k = m !! k.
Proof.
  revert m off. induction bytes as [|b rest IH]; intros m off Hk; [reflexivity|].
  cbn [bstore]. cbn [length] in Hk. rewrite IH by lia.
  apply lookup_insert_ne. lia.
Qed.

Lemma bstore_lookup_in (bytes : list Z) (m : gmap Z Z) (off k : Z) :
  off <= k < off + Z.of_nat (length bytes) ->
  bstore m off bytes !! k = Some (sel 0 bytes (k - off)).
Proof.
  revert m off. induction bytes as [|b rest IH]; intros m off Hk; cbn [length] in Hk;
    [lia|].
  cbn [bstore]. destruct (Z.eq_dec k off) as [->|Hne].
  - rewrite bstore_lookup_out by lia. rewrite lookup_insert_eq.
    rewrite Z.sub_diag. reflexivity.
  - rewrite IH by lia. f_equal. unfold sel.
    destruct (Z.ltb_spec (k - (off + 1)) 0); [lia|].
    destruct (Z.ltb_spec (k - off) 0); [lia|].
    replace (Z.to_nat (k - off)) with (S (Z.to_nat (k - (off + 1)))) by lia.
    reflexivity.
Qed.

(** ** The encoder's input *)

Section Systematic.
Context {H : Header} {P : Phases}.

Lemma AllocateWorkspace_setup (c : Codec) :
  same_setup c (snd (AllocateWorkspace c)).
Proof.
  unfold AllocateWorkspace, operator_new. cbv zeta. codec_simpl.
  repeat (destruct (new_ok _ _); cbn [negb snd]; codec_simpl);
    try (repeat split; fail).
  match goal with
  | |- context [init_columns ?n ?i ?x] =>
      destruct (init_columns_arrays n i x) as (cols & refs & ->)
  end.
  repeat split.
Qed.

Lemma InitializeEncoder_fields (g : Globals) (message_bytes block_bytes : Z)
    (c0 c : Codec) :
  InitializeEncoder g message_bytes block_bytes c0 = Some (R_WIN, c) ->
  _block_bytes c = block_bytes /\
  _block_count c = u16 (Z.quot (message_bytes + block_bytes - 1) block_bytes) /\
  _input_final_bytes c
  = (let p := u32 (Z.rem message_bytes block_bytes) in
     if p <=? 0 then u32 block_bytes else p).
Proof.
  unfold InitializeEncoder.
  destruct (ChooseMatrix g message_bytes block_bytes c0) as [[r c1]|] eqn:Hc;
    [|discriminate].
  destruct r; try (intros E; discriminate E).
  destruct (ChooseMatrix_win g _ _ _ _ Hc) as (l & d & _ & Hbb & Hbc & _).
  match goal with
  | |- (let '(ok, c) := AllocateWorkspace ?x in _) = _ -> _ =>
      pose proof (AllocateWorkspace_setup x) as (Ebb & Ebc & Eif & _);
      destruct (AllocateWorkspace x) as [[|] c2]
  end; cbn [negb snd] in *; intros E; inversion E; subst c2.
  rewrite Ebb, Ebc, Eif. codec_simpl. unfold partial_final_bytes.
  rewrite Hbb, Hbc. repeat split.
Qed.

Lemma EncodeFeed_rows_setup (n : nat) (id : Z) (c c' : Codec) (ok : bool) :
  EncodeFeed_rows n id c = Some (ok, c') -> same_setup c c'.
Proof.
  revert id c. induction n as [|n IH]; intros id c.
  - intros E. inversion E. apply same_setup_refl.
  - cbn [EncodeFeed_rows].
    destruct (OpportunisticPeeling _ _ _ c) as [[[|] c1]|] eqn:Ho; [| |discriminate].
    + apply OpportunisticPeeling_setup in Ho. intros E. apply IH in E.
      eapply same_setup_trans; [exact Ho|exact E].
    + apply OpportunisticPeeling_setup in Ho. intros E. inversion E; subst. exact Ho.
Qed.

(** [EncodeFeed] keeps the setup and holds the message as the input
    blocks. *)
Lemma EncodeFeed_setup (message_in : list Z) (c c' : Codec) (r : Result) :
  EncodeFeed message_in c = Some (r, c') ->
  _block_bytes c' = _block_bytes c /\ _block_count c' = _block_count c /\
  _input_final_bytes c' = _input_final_bytes c /\ _input_blocks c' = message_in.
Proof.
  unfold EncodeFeed. cbv zeta.
  assert (Hs0 : _block_bytes (SetInput message_in c) = _block_bytes c /\
                _block_count (SetInput message_in c) = _block_count c /\
                _input_final_bytes (SetInput message_in c) = _input_final_bytes c /\
                _input_blocks (SetInput message_in c) = message_in).
  { unfold SetInput. destruct (_input_allocated c); repeat split. }
  destruct Hs0 as (A1 & A2 & A3 & A4).
  destruct (EncodeFeed_rows _ 0 (SetInput message_in c)) as [[ok c1]|] eqn:Hrun;
    [|discriminate].
  apply EncodeFeed_rows_setup in Hrun. destruct Hrun as (B1 & B2 & B3 & _ & B4 & _).
  assert (Hfin : forall c2, same_setup c1 c2 ->
            _block_bytes c2 = _block_bytes c /\ _block_count c2 = _block_count c /\
            _input_final_bytes c2 = _input_final_bytes c /\
            _input_blocks c2 = message_in).
  { intros c2 (C1 & C2 & C3 & _ & C4 & _). repeat split; congruence. }
  destruct ok; cbn [negb].
  - destruct (SolveMatrix c1) as [[r1 cs]|] eqn:Hs; [|discriminate].
    apply SolveMatrix_setup in Hs.
    destruct r1; intros E; inversion E; subst; apply Hfin; try exact Hs.
    eapply same_setup_trans; [exact Hs|apply GenerateRecoveryBlocks_setup].
  - intros E. inversion E; subst. apply Hfin. apply same_setup_refl.
Qed.

End Systematic.

(** The block count and the length of the final block. *)
Lemma final_block_length (T M : Z) :
  0 < T -> 0 < M ->
  let N := Z.quot (T + M - 1) M in
  let F := T - M * (N - 1) in
  0 < F <= M /\
  (if Z.rem T M <=? 0 then M else Z.rem T M) = F.
Proof.
  intros HT HM N F. subst F N.
  rewrite Z.quot_div_nonneg by lia. rewrite Z.rem_mod_nonneg by lia.
  pose proof (Z.div_mod T M ltac:(lia)) as Hdm.
  pose proof (Z.mod_pos_bound T M HM) as Hr.
  destruct (Z.leb_spec (T mod M) 0) as [Hz|Hnz].
  - assert (E : (T + M - 1) / M = T / M).
    { symmetry. apply (Z.div_unique_pos _ _ _ (M - 1)); lia. }
    rewrite E. lia.
  - assert (E : (T + M - 1) / M = T / M + 1).
    { symmetry. apply (Z.div_unique_pos _ _ _ (T mod M - 1)); lia. }
    rewrite E. lia.
Qed.

(** C2.  With [CAT_COPY_FIRST_N] defined: for an encoder set up for a
    message of T bytes in blocks of M bytes, N blocks with N below
    2^16, whose [EncodeFeed] returned [R_WIN], and every id below the
    block count N, [Encode] stores at the offsets [0 .. M) of the
    output block the id-th block of the message: the M bytes at
    [M * id] when id < N - 1, and for id = N - 1 the
    F = T - M * (N - 1) bytes of the final block followed by zeros; no
    other offset of the output block is written. *)
Theorem Encode_systematic `{H : Header} `{P : Phases} (g : Globals) (T M : Z)
    (c0 c c' : Codec) (message_in : list Z) (id : Z) (block : gmap Z Z) :
  CAT_COPY_FIRST_N = true ->
  0 < T -> 0 < M -> T + M - 1 < 2^31 ->
  InitializeEncoder g T M c0 = Some (R_WIN, c) ->
  EncodeFeed message_in c = Some (R_WIN, c') ->
  let N := Z.quot (T + M - 1) M in
  let F := T - M * (N - 1) in
  N < 2^16 ->
  0 <= id < N ->
  0 < F <= M /\
  (forall k, 0 <= k < M ->
     Encode id block c' !! k
     = Some (if (id <? N - 1) || (k <? F) then sel 0 message_in (M * id + k) else 0)) /\
  (forall k, k < 0 \/ M <= k -> Encode id block c' !! k = block !! k).
Proof.
  intros Hcopy HT HM Hint Hinit Hfeed N F HN Hid.
  destruct (final_block_length T M HT HM) as [HF HFeq]. fold N F in HF, HFeq.
  destruct (InitializeEncoder_fields _ _ _ _ _ Hinit) as (Hbb & Hbc & Hif).
  destruct (EncodeFeed_setup _ _ _ _ Hfeed) as (Ebb & Ebc & Eif & Ein).
  rewrite Hbb in Ebb. rewrite Hbc in Ebc. fold N in Ebc.
  rewrite (u16_small N) in Ebc by lia. rewrite Hif in Eif.
  assert (Hrem : 0 <= Z.rem T M < M) by (apply Z.rem_bound_pos; lia).
  cbv zeta in Eif. unfold u32 in Eif.
  rewrite (Z.mod_small (Z.rem T M)), (Z.mod_small M) in Eif by lia.
  rewrite HFeq in Eif.
  split; [exact HF|].
  unfold Encode. rewrite Hcopy, Ebb, Ebc, Eif, Ein. cbn [andb].
  destruct (Z.ltb_spec id N) as [_|]; [|lia].
  destruct (Z.eqb_spec id (N - 1)) as [Hlast|Hmid]; cbn [negb].
  - split.
    + intros k Hk. destruct (Z.ltb_spec id (N - 1)) as [|_]; [lia|]. cbn [orb].
      destruct (Z.ltb_spec k F) as [Hlt|Hge].
      * rewrite bstore_lookup_out by lia.
        rewrite bstore_lookup_in by (rewrite length_load; lia).
        rewrite Z.sub_0_r, sel_load by lia. reflexivity.
      * rewrite bstore_lookup_in by (rewrite length_replicate; lia).
        rewrite sel_replicate; [reflexivity|exact 0].
    + intros k Hk.
      rewrite bstore_lookup_out by (rewrite length_replicate; lia).
      apply bstore_lookup_out. rewrite length_load. lia.
  - split.
    + intros k Hk. destruct (Z.ltb_spec id (N - 1)) as [_|]; [|lia]. cbn [orb].
      rewrite bstore_lookup_in by (rewrite length_load; lia).
      rewrite Z.sub_0_r, sel_load by lia. reflexivity.
    + intros k Hk. apply bstore_lookup_out. rewrite length_load. lia.
Qed.

Lemma Encode_systematic_witness :
  let H := diagonal_header in
  let c := snd (default (R_WIN, new_codec) (example_encoder (H := H))) in
  let c' :=
    snd (default (R_WIN, new_codec)
           (EncodeFeed (H := H) (P := unit_phases) example_message c)) in
  Encode (H := H) 15 ∅ c' !! 0 = Some 130 /\
  Encode (H := H) 15 ∅ c' !! 1 = Some 0.
Proof.
  intros H c c'.
  destruct (Encode_systematic (H := H) (P := unit_phases)
              {| g_p_seed := 1; g_c_seed := 1 |} 31 2 new_codec c c'
              example_message 15 ∅) as (_ & Hin & _).
  - reflexivity.
  - lia.
  - lia.
  - lia.
  - vm_compute. reflexivity.
  - vm_compute. reflexivity.
  - vm_compute. reflexivity.
  - vm_compute. split; [discriminate|reflexivity].
  - split; [rewrite (Hin 0) by lia|rewrite (Hin 1) by lia]; reflexivity.
Defined.

(** ** Words and bits of a GE row *)

Lemma length_store (bytes mem : list Z) (off : Z) :
  length (store mem off bytes) = length mem.
Proof.
  revert mem off. induction bytes as [|x rest IH]; intros mem off; [reflexivity|].
  cbn [store]. rewrite IH. apply length_upd.
Qed.

Lemma sel_store_out (bytes mem : list Z) (off k : Z) :
  k < off \/ off + Z.of_nat (length bytes) <= k ->
  sel 0 (store mem off bytes) k = sel 0 mem k.
Proof.
  revert mem off. induction bytes as [|x rest IH]; intros mem off Hk; [reflexivity|].
  cbn [store]. cbn [length] in Hk. rewrite IH by lia. apply sel_upd_ne. lia.
Qed.

Lemma sel_store_in (bytes mem : list Z) (off k : Z) :
  0 <= off -> off + Z.of_nat (length bytes) <= Z.of_nat (length mem) ->
  off <= k < off + Z.of_nat (length bytes) ->
  sel 0 (store mem off bytes) k = sel 0 bytes (k - off).
Proof.
  revert mem off. induction bytes as [|x rest IH]; intros mem off Hoff Hlen Hk;
    cbn [length] in *; [lia|].
  cbn [store]. destruct (Z.eq_dec k off) as [->|Hne].
  - rewrite sel_store_out by lia. rewrite sel_upd_eq by lia.
    rewrite Z.sub_diag. reflexivity.
  - rewrite IH by (rewrite ?length_upd; lia). unfold sel.
    destruct (Z.ltb_spec (k - (off + 1)) 0); [lia|].
    destruct (Z.ltb_spec (k - off) 0); [lia|].
    replace (Z.to_nat (k - off)) with (S (Z.to_nat (k - (off + 1)))) by lia.
    reflexivity.
Qed.

Lemma length_flip_bit (row column : Z) (m : list Z) :
  length (flip_bit row column m) = length m.
Proof. apply length_upd. Qed.

Lemma length_xor_words_from (n : nat) (ii dst : Z) (from : list Z) (src : Z)
    (m : list Z) :
  length (xor_words_from n ii dst from src m) = length m.
Proof.
  revert ii m. induction n as [|n IH]; intros ii m; [reflexivity|].
  cbn [xor_words_from]. rewrite IH. apply length_upd.
Qed.

Lemma xor_words_from_out (n : nat) (ii dst : Z) (from : list Z) (src : Z)
    (m : list Z) (w : Z) :
  w < dst + ii \/ dst + ii + Z.of_nat n <= w ->
  sel 0 (xor_words_from n ii dst from src m) w = sel 0 m w.
Proof.
  revert ii m. induction n as [|n IH]; intros ii m Hw; [reflexivity|].
  cbn [xor_words_from]. rewrite IH by lia. apply sel_upd_ne. lia.
Qed.

Lemma xor_words_from_in (n : nat) (ii dst : Z) (from : list Z) (src : Z)
    (m : list Z) (w : Z) :
  0 <= dst + ii -> dst + ii + Z.of_nat n <= Z.of_nat (length m) ->
  dst + ii <= w < dst + ii + Z.of_nat n ->
  sel 0 (xor_words_from n ii dst from src m) w
  = Z.lxor (sel 0 m w) (sel 0 from (src + (w - dst))).
Proof.
  revert ii m. induction n as [|n IH]; intros ii m Hd Hlen Hw; [lia|].
  cbn [xor_words_from]. destruct (Z.eq_dec w (dst + ii)) as [->|Hne].
  - rewrite xor_words_from_out by lia. rewrite sel_upd_eq by lia.
    f_equal. f_equal. lia.
  - rewrite IH by (rewrite ?length_upd; lia). rewrite sel_upd_ne by lia. reflexivity.
Qed.

(** A column is its word and its bit in the word. *)
Lemma column_word_bit (b col : Z) :
  0 <= b -> 0 <= col ->
  (Z.shiftr b 6 =? Z.shiftr col 6) && (Z.land b 63 =? Z.land col 63) = (b =? col).
Proof.
  intros Hb Hc. rewrite !Z.shiftr_div_pow2 by lia.
  change 63 with (Z.ones 6). rewrite !Z.land_ones by lia.
  pose proof (Z.div_mod b (2 ^ 6) ltac:(lia)).
  pose proof (Z.div_mod col (2 ^ 6) ltac:(lia)).
  destruct (Z.eqb_spec (b / 2 ^ 6) (col / 2 ^ 6));
    destruct (Z.eqb_spec (b mod 2 ^ 6) (col mod 2 ^ 6));
    destruct (Z.eqb_spec b col); cbn [andb]; try reflexivity; try lia;
    subst b; contradiction.
Qed.

Lemma shiftr_6_range (b pitch : Z) :
  0 <= b < 64 * pitch -> 0 <= Z.shiftr b 6 < pitch.
Proof.
  intros Hb. split; [|apply shiftr_6_lt; exact Hb].
  rewrite Z.shiftr_div_pow2 by lia. apply Z.div_pos; lia.
Qed.

Lemma row_is_flip_bit (pitch row column : Z) (m : list Z) (f : Z -> bool) :
  0 <= row -> row + pitch <= Z.of_nat (length m) ->
  0 <= column < 64 * pitch ->
  row_is pitch row m f ->
  row_is pitch row (flip_bit row column m) (fun b => xorb (f b) (b =? column)).
Proof.
  intros Hrow Hlen Hcol Hm b Hb. unfold flip_bit.
  pose proof (shiftr_6_range b pitch Hb) as Hwb.
  pose proof (shiftr_6_range column pitch Hcol) as Hwc.
  rewrite <- (column_word_bit b column) by lia.
  destruct (Z.eqb_spec (Z.shiftr b 6) (Z.shiftr column 6)) as [E|Hne]; cbn [andb].
  - rewrite E. rewrite sel_upd_eq by lia.
    rewrite Z.lxor_spec, Z.shiftl_1_l, Z.pow2_bits_eqb by apply land_63_range.
    rewrite <- E, (Hm b Hb). f_equal. apply Z.eqb_sym.
  - rewrite sel_upd_ne by lia. rewrite (Hm b Hb). symmetry. apply xorb_false_r.
Qed.

Lemma row_is_xor_words_from (pitch row src : Z) (from m : list Z) (f : Z -> bool) :
  0 <= row -> row + pitch <= Z.of_nat (length m) ->
  row_is pitch row m f ->
  row_is pitch row (xor_words_from (Z.to_nat pitch) 0 row from src m)
    (fun b => xorb (f b)
                (Z.testbit (sel 0 from (src + Z.shiftr b 6)) (Z.land b 63))).
Proof.
  intros Hrow Hlen Hm b Hb.
  pose proof (shiftr_6_range b pitch Hb) as Hwb.
  rewrite xor_words_from_in by lia.
  rewrite Z.lxor_spec, (Hm b Hb). f_equal. f_equal. f_equal. lia.
Qed.

Lemma row_is_ext (pitch row : Z) (m : list Z) (f g : Z -> bool) :
  (forall b, 0 <= b < 64 * pitch -> f b = g b) ->
  row_is pitch row m f -> row_is pitch row m g.
Proof. intros Hfg Hm b Hb. rewrite <- Hfg by exact Hb. apply Hm. exact Hb. Qed.

Lemma row_is_cleared (pitch row : Z) (m : list Z) :
  0 <= row -> row + pitch <= Z.of_nat (length m) ->
  row_is pitch row (store m row (replicate (Z.to_nat pitch) 0)) (fun _ => false).
Proof.
  intros Hrow Hlen b Hb. pose proof (shiftr_6_range b pitch Hb) as Hwb.
  rewrite sel_store_in by (rewrite ?length_replicate; lia).
  rewrite sel_replicate; [apply Z.testbit_0_l|exact 0].
Qed.

(** ** The new GE row of a resumed decoder *)

Section NewRow.
Context {H : Header}.

Lemma add_peel_columns_step (n : nat) (c : Codec) (peel_x peel_a ge_new_row : Z)
    (m : list Z) :
  add_peel_columns (S n) c peel_x peel_a ge_new_row m
  = let ref_col := sel PeelColumn.zero (_peel_cols c) peel_x in
    let m1 :=
      if MarkTypes_eqb (PeelColumn.mark ref_col) MARK_PEEL then
        xor_words_from (Z.to_nat (_ge_pitch c)) 0 ge_new_row (_ge_compress_matrix c)
          (_ge_pitch c * PeelColumn.peel_row ref_col) m
      else flip_bit ge_new_row (PeelColumn.ge_column ref_col) m in
    add_peel_columns n c
      (IterateNextColumn peel_x (_block_count c) (_block_next_prime c) peel_a)
      peel_a ge_new_row m1.
Proof. cbn [add_peel_columns]. destruct n; reflexivity. Qed.

Lemma row_is_add_peel_columns (n : nat) (c : Codec) (peel_x peel_a row : Z)
    (m : list Z) (f : Z -> bool) :
  0 <= row -> row + _ge_pitch c <= Z.of_nat (length m) ->
  Forall
    (fun peel_x =>
       let ref_col := sel PeelColumn.zero (_peel_cols c) peel_x in
       MarkTypes_eqb (PeelColumn.mark ref_col) MARK_PEEL = false ->
       0 <= PeelColumn.ge_column ref_col < 64 * _ge_pitch c)
    (column_walk n peel_x (_block_count c) (_block_next_prime c) peel_a) ->
  row_is (_ge_pitch c) row m f ->
  row_is (_ge_pitch c) row (add_peel_columns n c peel_x peel_a row m)
    (fun b =>
       xorb (f b)
         (fold_right xorb false
            (map (fun x => peel_column_bit c x b)
               (column_walk n peel_x (_block_count c) (_block_next_prime c) peel_a)))).
Proof.
  intros Hrow. revert peel_x m f.
  induction n as [|n IH]; intros peel_x m f Hlen Hcols Hm.
  - cbn [add_peel_columns column_walk map fold_right].
    eapply row_is_ext; [|exact Hm]. intros b _. symmetry. apply xorb_false_r.
  - rewrite add_peel_columns_step. cbv zeta.
    cbn [column_walk map fold_right] in *.
    inversion Hcols as [|? ? Hcol Hrest]; subst.
    set (ref_col := sel PeelColumn.zero (_peel_cols c) peel_x) in *.
    match goal with
    | |- row_is _ _ (add_peel_columns n c ?x _ _ ?m1) _ =>
        assert (Hm1 : row_is (_ge_pitch c) row m1
                        (fun b => xorb (f b) (peel_column_bit c peel_x b)) /\
                      length m1 = length m)
    end.
    { unfold peel_column_bit. fold ref_col.
      destruct (MarkTypes_eqb (PeelColumn.mark ref_col) MARK_PEEL) eqn:E.
      - split; [|apply length_xor_words_from].
        apply row_is_xor_words_from; assumption.
      - split; [|apply length_flip_bit].
        apply row_is_flip_bit; try assumption. apply Hcol. reflexivity. }
    destruct Hm1 as [Hm1 Hl1].
    eapply row_is_ext; [|apply IH; [rewrite Hl1; exact Hlen|exact Hrest|exact Hm1]].
    intros b _. cbv beta. apply xorb_assoc.
Qed.

(** Every bit of the new row is the sum over GF(2) of the
    contributions of the three mixing columns and of the peel columns
    of the row. *)
Lemma Resume_new_row_bits (c : Codec) (shape : RowShape.t) (row : Z) :
  0 <= row -> row + _ge_pitch c <= Z.of_nat (length (_ge_matrix c)) ->
  columns_in_row c shape ->
  row_is (_ge_pitch c) row (Resume_new_row c shape row) (new_row_bit c shape).
Proof.
  intros Hrow Hlen [Hmix Hpeel]. unfold Resume_new_row, flip_mix_bits. cbv zeta.
  unfold mix_columns in Hmix. cbv zeta in Hmix.
  inversion Hmix as [|? ? H0 Hmix1]; subst.
  inversion Hmix1 as [|? ? H1 Hmix2]; subst.
  inversion Hmix2 as [|? ? H2 _]; subst.
  pose proof (row_is_cleared (_ge_pitch c) row (_ge_matrix c) Hrow Hlen) as Hm0.
  set (m0 := store (_ge_matrix c) row (replicate (Z.to_nat (_ge_pitch c)) 0)) in *.
  assert (Hl0 : length m0 = length (_ge_matrix c)) by apply length_store.
  match goal with
  | |- row_is _ _ (add_peel_columns _ _ _ _ _
                     (flip_bit _ ?x2 (flip_bit _ ?x1 (flip_bit _ ?x0 _)))) _ =>
      set (g0 := x0) in *; set (g1 := x1) in *; set (g2 := x2) in *
  end.
  pose proof (u16_range (RowShape.mix_x0 shape + _defer_count c)) as R0.
  assert (Hm1 := row_is_flip_bit (_ge_pitch c) row g0 m0 _ Hrow ltac:(lia)
                   ltac:(unfold g0; lia) Hm0).
  assert (Hm2 := row_is_flip_bit (_ge_pitch c) row g1 (flip_bit row g0 m0) _ Hrow
                   ltac:(rewrite length_flip_bit; lia)
                   ltac:(unfold g1; split; [apply u16_range|exact H1]) Hm1).
  assert (Hm3 := row_is_flip_bit (_ge_pitch c) row g2
                   (flip_bit row g1 (flip_bit row g0 m0)) _ Hrow
                   ltac:(rewrite !length_flip_bit; lia)
                   ltac:(unfold g2; split; [apply u16_range|exact H2]) Hm2).
  eapply row_is_ext;
    [|apply row_is_add_peel_columns;
      [exact Hrow|rewrite !length_flip_bit; lia|exact Hpeel|exact Hm3]].
  intros b _. cbv beta. unfold new_row_bit, mix_columns. cbv zeta.
  fold g0 g1 g2. cbn [map fold_right]. fold (peel_columns c shape).
  destruct (b =? g0), (b =? g1), (b =? g2); reflexivity.
Qed.

End NewRow.

(** ** The replay of the chosen pivots on the new row *)

Lemma xor_words_in (n : nat) (ii dst src : Z) (m : list Z) (w : Z) :
  0 <= dst + ii -> dst + ii + Z.of_nat n <= Z.of_nat (length m) ->
  src + ii + Z.of_nat n <= dst + ii \/ dst + ii + Z.of_nat n <= src + ii ->
  dst + ii <= w < dst + ii + Z.of_nat n ->
  sel 0 (xor_words n ii dst src m) w
  = Z.lxor (sel 0 m w) (sel 0 m (src + (w - dst))).
Proof.
  revert ii m. induction n as [|n IH]; intros ii m Hd Hlen Hdis Hw; [lia|].
  cbn [xor_words]. destruct (Z.eq_dec w (dst + ii)) as [->|Hne].
  - rewrite xor_words_other by lia. rewrite sel_upd_eq by lia.
    f_equal. f_equal. lia.
  - rewrite IH by (rewrite ?length_upd; lia).
    rewrite !sel_upd_ne by lia. reflexivity.
Qed.

Lemma masked_first_word_high (word s b : Z) :
  0 <= s -> s < b < 64 ->
  Z.testbit (masked_first_word word (2 ^ s)) b = Z.testbit word b.
Proof.
  intros Hs Hb. unfold masked_first_word.
  rewrite Z.lxor_spec, Z.land_spec, not64_ones_bit by lia.
  rewrite Z.pow2_bits_eqb by lia.
  destruct (Z.ltb_spec b s); [lia|]. destruct (Z.eqb_spec s b); [lia|].
  cbn [negb]. rewrite andb_true_r. apply xorb_false_r.
Qed.

Lemma land_63_lt (j b : Z) :
  0 <= j -> 0 <= b -> Z.shiftr b 6 = Z.shiftr j 6 ->
  (Z.land j 63 <? Z.land b 63) = (j <? b).
Proof.
  intros Hj Hb Hw. rewrite !Z.shiftr_div_pow2 in Hw by lia.
  change 63 with (Z.ones 6). rewrite !Z.land_ones by lia.
  pose proof (Z.div_mod b (2 ^ 6) ltac:(lia)).
  pose proof (Z.div_mod j (2 ^ 6) ltac:(lia)).
  destruct (Z.ltb_spec (j mod 2 ^ 6) (b mod 2 ^ 6)); destruct (Z.ltb_spec j b);
    try reflexivity; lia.
Qed.

Lemma shiftr_6_lt_word (j b : Z) :
  0 <= j -> 0 <= b -> Z.shiftr b 6 < Z.shiftr j 6 -> b < j.
Proof.
  intros Hj Hb. rewrite !Z.shiftr_div_pow2 by lia. intros Hw.
  pose proof (Z.div_mod b (2 ^ 6) ltac:(lia)).
  pose proof (Z.div_mod j (2 ^ 6) ltac:(lia)).
  pose proof (Z.mod_pos_bound b (2 ^ 6) ltac:(lia)).
  pose proof (Z.mod_pos_bound j (2 ^ 6) ltac:(lia)). lia.
Qed.

(** One step of the replay, for column [pivot_j] with pivot row
    [ge_pivot_j]: the words outside the new row stay, and the new row
    gets the bits after the column of the pivot row when it has the
    bit of the column. *)
Lemma Resume_replay_step (pitch pivot_j ge_pivot_j ge_row_i : Z) (m : list Z)
    (f g : Z -> bool) :
  let ge_new_row := pitch * ge_row_i in
  let word_offset := Z.shiftr pivot_j 6 in
  let rem_row := ge_new_row + word_offset in
  let ge_pivot_row := word_offset + pitch * ge_pivot_j in
  let row0 := masked_first_word (sel 0 m ge_pivot_row) (pivot_mask pivot_j) in
  let m' :=
    if masked (sel 0 m rem_row) (pivot_mask pivot_j) then
      xor_words (Z.to_nat (pitch - word_offset - 1)) 1 rem_row ge_pivot_row
        (upd m rem_row (Z.lxor (sel 0 m rem_row) row0))
    else m in
  0 <= ge_new_row -> ge_new_row + pitch <= Z.of_nat (length m) ->
  0 <= pivot_j < 64 * pitch -> ge_pivot_j <> ge_row_i ->
  row_is pitch ge_new_row m f ->
  row_is pitch (pitch * ge_pivot_j) m g -> g pivot_j = true ->
  length m' = length m /\
  (forall w, w < ge_new_row \/ ge_new_row + pitch <= w -> sel 0 m' w = sel 0 m w) /\
  row_is pitch ge_new_row m'
    (fun b => if f pivot_j && (pivot_j <? b) then xorb (f b) (g b) else f b).
Proof.
  intros ge_new_row word_offset rem_row ge_pivot_row row0 m' Hrow Hlen Hj Hne Hf Hg Hgj.
  pose proof (shiftr_6_range pivot_j pitch Hj) as Hwo. fold word_offset in Hwo.
  assert (Htest : masked (sel 0 m rem_row) (pivot_mask pivot_j) = f pivot_j).
  { unfold pivot_mask. rewrite masked_pow2 by apply land_63_range.
    apply (Hf pivot_j Hj). }
  assert (Hdis : forall w w', 0 <= w < pitch -> 0 <= w' < pitch ->
            ge_new_row + w <> pitch * ge_pivot_j + w').
  { intros w w' Hw Hw' E. apply Hne. unfold ge_new_row in E. nia. }
  subst m'. rewrite Htest. destruct (f pivot_j) eqn:Efj; cbn [andb].
  2:{ split; [reflexivity|]. split; [reflexivity|exact Hf]. }
  split; [rewrite length_xor_words, length_upd; reflexivity|]. split.
  - intros w Hw. rewrite xor_words_other by (unfold rem_row; lia).
    apply sel_upd_ne. unfold rem_row. lia.
  - intros b Hb. pose proof (shiftr_6_range b pitch Hb) as Hwb.
    destruct (Z.lt_trichotomy (Z.shiftr b 6) word_offset) as [Hlt|[Heq|Hgt]].
    + rewrite xor_words_other by (unfold rem_row; lia).
      rewrite sel_upd_ne by (unfold rem_row; lia).
      pose proof (shiftr_6_lt_word pivot_j b ltac:(lia) ltac:(lia) Hlt).
      destruct (Z.ltb_spec pivot_j b); [lia|]. apply Hf. exact Hb.
    + rewrite xor_words_other by (unfold rem_row; lia).
      rewrite Heq. fold rem_row. rewrite sel_upd_eq by (unfold rem_row; lia).
      rewrite Z.lxor_spec. unfold rem_row. rewrite <- Heq, (Hf b Hb).
      rewrite <- (land_63_lt pivot_j b) by (try lia; exact Heq).
      assert (Hpw : Z.testbit (sel 0 m ge_pivot_row) (Z.land pivot_j 63) = true).
      { unfold ge_pivot_row. rewrite Z.add_comm. rewrite <- Hgj. apply Hg. exact Hj. }
      pose proof (land_63_range pivot_j) as Rj. pose proof (land_63_range b) as Rb.
      unfold row0, pivot_mask.
      destruct (Z.ltb_spec (Z.land pivot_j 63) (Z.land b 63)) as [Hhi|Hlo].
      * rewrite masked_first_word_high by lia. f_equal.
        unfold ge_pivot_row. rewrite <- Heq, Z.add_comm. apply Hg. exact Hb.
      * rewrite masked_first_word_low by (try lia; exact Hpw). apply xorb_false_r.
    + rewrite xor_words_in;
        [|unfold rem_row; lia|rewrite length_upd; unfold rem_row; lia
         | |unfold rem_row; lia].
      2:{ unfold rem_row, ge_pivot_row.
          destruct (Z.lt_ge_cases ge_pivot_j ge_row_i); [left|right];
            unfold ge_new_row; nia. }
      rewrite !sel_upd_ne.
      * rewrite Z.lxor_spec, (Hf b Hb).
        pose proof (shiftr_6_lt_word b pivot_j ltac:(lia) ltac:(lia) Hgt).
        destruct (Z.ltb_spec pivot_j b); [|lia]. f_equal.
        replace (ge_pivot_row + (ge_new_row + Z.shiftr b 6 - rem_row))
          with (pitch * ge_pivot_j + Z.shiftr b 6)
          by (unfold ge_pivot_row, rem_row; lia).
        apply Hg. exact Hb.
      * unfold rem_row, ge_pivot_row. intros E.
        apply (Hdis word_offset (Z.shiftr b 6)); lia.
      * unfold rem_row. lia.
Qed.

Lemma replay_bits_ext (bound : Z) (n : nat) (pivot_j : Z)
    (pivot_row pivot_row' : Z -> Z -> bool) (f f' : Z -> bool) :
  0 <= pivot_j -> pivot_j + Z.of_nat n <= bound ->
  (forall k b, pivot_j <= k < pivot_j + Z.of_nat n -> 0 <= b < bound ->
     pivot_row k b = pivot_row' k b) ->
  (forall b, 0 <= b < bound -> f b = f' b) ->
  forall b, 0 <= b < bound ->
    replay_bits n pivot_j pivot_row f b = replay_bits n pivot_j pivot_row' f' b.
Proof.
  revert pivot_j f f'. induction n as [|n IH]; intros pivot_j f f' Hj Hn Hrow Hf b Hb.
  - apply Hf. exact Hb.
  - cbn [replay_bits]. apply IH; try lia; try exact Hb.
    + intros k b' Hk Hb'. apply Hrow; lia.
    + intros b' Hb'. rewrite (Hf pivot_j) by lia. rewrite (Hf b') by exact Hb'.
      rewrite (Hrow pivot_j b') by lia. reflexivity.
Qed.

(** The replay loop: the mask that comes out is that of the column
    after the last one replayed, only the new row is written, and its
    bits are those of [replay_bits] over the pivot rows. *)
Lemma Resume_replay_bits (n : nat) (pivot_j ge_row_i : Z) (c : Codec) (m : list Z)
    (f : Z -> bool) :
  let pitch := _ge_pitch c in
  let ge_new_row := pitch * ge_row_i in
  let pivot_row (m : list Z) (k b : Z) :=
    Z.testbit (sel 0 m (pitch * sel 0 (_ge_pivots c) k + Z.shiftr b 6)) (Z.land b 63) in
  let res := Resume_replay n pivot_j (pivot_mask pivot_j) ge_new_row c m in
  0 <= ge_new_row -> ge_new_row + pitch <= Z.of_nat (length m) ->
  0 <= pivot_j -> pivot_j + Z.of_nat n <= 64 * pitch -> pivot_j + Z.of_nat n <= 2^16 ->
  (forall k, pivot_j <= k < pivot_j + Z.of_nat n ->
     sel 0 (_ge_pivots c) k <> ge_row_i /\ pivot_row m k k = true) ->
  row_is pitch ge_new_row m f ->
  fst res = pivot_mask (pivot_j + Z.of_nat n) /\
  length (snd res) = length m /\
  (forall w, w < ge_new_row \/ ge_new_row + pitch <= w ->
     sel 0 (snd res) w = sel 0 m w) /\
  row_is pitch ge_new_row (snd res) (replay_bits n pivot_j (pivot_row m) f).
Proof.
  intros pitch ge_new_row pivot_row. revert pivot_j m f.
  induction n as [|n IH]; intros pivot_j m f res Hrow Hlen Hj Hn H16 Hpiv Hf.
  - subst res. cbn [Resume_replay fst snd replay_bits]. rewrite Z.add_0_r.
    repeat split; try reflexivity. exact Hf.
  - subst res. cbn [Resume_replay]. cbv zeta.
    destruct (Hpiv pivot_j ltac:(lia)) as [Hne Hdiag].
    pose proof (Resume_replay_step pitch pivot_j (sel 0 (_ge_pivots c) pivot_j)
                  ge_row_i m f (pivot_row m pivot_j) Hrow Hlen ltac:(lia) Hne Hf
                  ltac:(intros b Hb; reflexivity) Hdiag) as (Hl1 & Hfr1 & Hrow1).
    fold pitch ge_new_row in Hl1, Hfr1, Hrow1 |- *.
    match goal with
    | |- context [Resume_replay n _ _ ge_new_row c ?x] => set (m1 := x) in *
    end.
    rewrite pivot_mask_next.
    assert (Hpr : forall k b, k <> pivot_j -> pivot_j <= k < pivot_j + Z.of_nat (S n) ->
              0 <= b < 64 * pitch -> pivot_row m1 k b = pivot_row m k b).
    { intros k b _ Hk Hb. unfold pivot_row. f_equal. apply Hfr1.
      destruct (Hpiv k Hk) as [Hnk _].
      pose proof (shiftr_6_range b pitch Hb).
      destruct (Z.lt_ge_cases (sel 0 (_ge_pivots c) k) ge_row_i); [left|right];
        unfold ge_new_row; nia. }
    cbn [replay_bits].
    destruct n as [|n].
    + cbn [Resume_replay fst snd replay_bits].
      split; [f_equal; lia|]. split; [exact Hl1|]. split; [exact Hfr1|exact Hrow1].
    + rewrite (u16_small (pivot_j + 1)) by lia.
      assert (Hpiv1 : forall k, pivot_j + 1 <= k < pivot_j + 1 + Z.of_nat (S n) ->
                sel 0 (_ge_pivots c) k <> ge_row_i /\ pivot_row m1 k k = true).
      { intros k Hk. destruct (Hpiv k ltac:(lia)) as [Hnk Hdk]. split; [exact Hnk|].
        rewrite Hpr by lia. exact Hdk. }
      destruct (IH (pivot_j + 1) m1 _ Hrow ltac:(lia) ltac:(lia) ltac:(lia) ltac:(lia)
                  Hpiv1 Hrow1) as (Hmask & Hl2 & Hfr2 & Hrow2).
      split; [rewrite Hmask; f_equal; lia|]. split; [congruence|].
      split; [intros w Hw; rewrite Hfr2 by exact Hw; apply Hfr1; exact Hw|].
      eapply row_is_ext; [|exact Hrow2]. intros b Hb.
      apply (replay_bits_ext (64 * pitch)); try lia.
      * intros k b' Hk Hb'. apply Hpr; lia.
      * intros b' _. reflexivity.
Qed.

Lemma Resume_replay_mask (n : nat) (pivot_j i ge_new_row : Z) (c : Codec)
    (m : list Z) :
  fst (Resume_replay n pivot_j (pivot_mask i) ge_new_row c m)
  = pivot_mask (i + Z.of_nat n).
Proof.
  revert pivot_j i m. induction n as [|n IH]; intros pivot_j i m.
  - cbn [Resume_replay fst]. f_equal. lia.
  - cbn [Resume_replay]. cbv zeta. rewrite pivot_mask_next, IH. f_equal. lia.
Qed.

Section NewRowFrame.
Context {H : Header}.

Lemma add_peel_columns_frame (n : nat) (c : Codec) (peel_x peel_a row : Z)
    (m : list Z) :
  0 <= row -> 
  Forall
    (fun peel_x =>
       let ref_col := sel PeelColumn.zero (_peel_cols c) peel_x in
       MarkTypes_eqb (PeelColumn.mark ref_col) MARK_PEEL = false ->
       0 <= PeelColumn.ge_column ref_col < 64 * _ge_pitch c)
    (column_walk n peel_x (_block_count c) (_block_next_prime c) peel_a) ->
  length (add_peel_columns n c peel_x peel_a row m) = length m /\
  forall w, w < row \/ row + _ge_pitch c <= w ->
    sel 0 (add_peel_columns n c peel_x peel_a row m) w = sel 0 m w.
Proof.
  intros Hrow. revert peel_x m. induction n as [|n IH]; intros peel_x m Hcols.
  - split; reflexivity.
  - rewrite add_peel_columns_step. cbv zeta. cbn [column_walk] in Hcols.
    inversion Hcols as [|? ? Hcol Hrest]; subst.
    match goal with
    | |- context [add_peel_columns n c ?x _ _ ?m1] =>
        destruct (IH x m1 Hrest) as [Hl Hfr]; rewrite Hl; split
    end.
    + destruct (MarkTypes_eqb _ MARK_PEEL);
        [apply length_xor_words_from|apply length_flip_bit].
    + intros w Hw. rewrite Hfr by exact Hw.
      destruct (MarkTypes_eqb _ MARK_PEEL) eqn:E.
      * apply xor_words_from_out. lia.
      * unfold flip_bit. apply sel_upd_ne.
        pose proof (shiftr_6_range _ _ (Hcol eq_refl)). lia.
Qed.

(** Outside the new row the matrix is as it was. *)
Lemma Resume_new_row_frame (c : Codec) (shape : RowShape.t) (row : Z) :
  0 <= row -> columns_in_row c shape ->
  length (Resume_new_row c shape row) = length (_ge_matrix c) /\
  forall w, w < row \/ row + _ge_pitch c <= w ->
    sel 0 (Resume_new_row c shape row) w = sel 0 (_ge_matrix c) w.
Proof.
  intros Hrow [Hmix Hpeel]. unfold Resume_new_row, flip_mix_bits. cbv zeta.
  unfold mix_columns in Hmix. cbv zeta in Hmix.
  inversion Hmix as [|? ? H0 Hmix1]; subst.
  inversion Hmix1 as [|? ? H1 Hmix2]; subst.
  inversion Hmix2 as [|? ? H2 _]; subst.
  match goal with
  | |- context [add_peel_columns ?n c ?x ?a row ?m] =>
      destruct (add_peel_columns_frame n c x a row m Hrow Hpeel) as [Hl Hfr]
  end.
  rewrite Hl. split.
  - rewrite !length_flip_bit. apply length_store.
  - intros w Hw. rewrite Hfr by exact Hw. unfold flip_bit.
    rewrite !sel_upd_ne.
    + apply sel_store_out. rewrite length_replicate. lia.
    + pose proof (shiftr_6_range _ _ (conj (proj1 (u16_range _)) H0)). lia.
    + pose proof (shiftr_6_range _ _ (conj (proj1 (u16_range _)) H1)). lia.
    + pose proof (shiftr_6_range _ _ (conj (proj1 (u16_range _)) H2)). lia.
Qed.

End NewRowFrame.

Section ResumeOutcome.
Context {H : Header} {P : Phases}.

(** What the choice of the slot and the storing of the row data leave
    alone, and what they store. *)
Lemma Resume_prepared_fields (id : Z) (block : list Z) (c : Codec) :
  let prep := Resume_prepared id block c in
  let row_i := fst (fst prep) in
  let ge_row_i := snd (fst prep) in
  let c1 := snd prep in
  (_ge_pitch c1 = _ge_pitch c /\ _ge_matrix c1 = _ge_matrix c /\
   _ge_pivots c1 = _ge_pivots c /\ _ge_compress_matrix c1 = _ge_compress_matrix c /\
   _peel_cols c1 = _peel_cols c /\ _defer_count c1 = _defer_count c /\
   _added_count c1 = _added_count c /\ _added_next_prime c1 = _added_next_prime c /\
   _block_count c1 = _block_count c /\ _block_next_prime c1 = _block_next_prime c /\
   _ge_resume_pivot c1 = _ge_resume_pivot c) /\
  _input_blocks c1
  = store (_input_blocks c) (_block_bytes c * row_i) (load block 0 (_block_bytes c)) /\
  (_used_count c < _block_count c + _extra_count c ->
   row_i = u16 (_used_count c) /\ ge_row_i = u16 (_ge_rows c) /\
   _used_count c1 = _used_count c + 1 /\ _ge_rows c1 = _ge_rows c + 1) /\
  (_block_count c + _extra_count c <= _used_count c ->
   _used_count c1 = _used_count c /\ _ge_rows c1 = _ge_rows c).
Proof.
  unfold Resume_prepared, Resume_slot.
  destruct (Z.leb_spec (_block_count c + _extra_count c) (_used_count c));
    cbv zeta; codec_simpl; cbn [fst snd];
    (split; [repeat split|]); (split; [reflexivity|]); split; intros; try lia;
    repeat split.
Qed.

(** [ResumeSolveMatrix] in terms of the row it builds and replays. *)
Lemma ResumeSolveMatrix_outcome (id : Z) (block : list Z) (c : Codec) :
  let prep := Resume_prepared id block c in
  let ge_row_i := snd (fst prep) in
  let c1 := snd prep in
  let p := u16 (_ge_resume_pivot c) in
  let ge_new_row := _ge_pitch c * ge_row_i in
  let replayed :=
    snd (Resume_replay (Z.to_nat p) 0 1 ge_new_row c1
           (Resume_new_row c1 (row_shape_of c id) ge_new_row)) in
  let c2 := set_ge_matrix replayed c1 in
  ResumeSolveMatrix id block c =
  if ge_bit c2 ge_row_i p then
    pivot_loop (Z.to_nat (ge_pivot_count c - u16 (p + 1))) (_ge_rows c1)
      (u16 (p + 1)) (pivot_mask (p + 1))
      (set_ge_pivots
         (upd (upd (_ge_pivots c) ge_row_i (sel 0 (_ge_pivots c) p)) p ge_row_i) c2)
  else (false, set_ge_pivots (upd (_ge_pivots c) ge_row_i ge_row_i) c2).
Proof.
  pose proof (u16_range (_ge_resume_pivot c)) as Hp.
  unfold ResumeSolveMatrix, Resume_prepared, Resume_slot, row_shape_of, ge_pivot_count.
  destruct (Z.leb_spec (_block_count c + _extra_count c) (_used_count c));
    cbv zeta; codec_simpl; cbn [fst snd];
    match goal with
    | |- context [Resume_replay ?n 0 1 ?r ?cc ?m] =>
        pose proof (Resume_replay_mask n 0 0 r cc m) as Hmask;
        destruct (Resume_replay n 0 1 r cc m) as [ge_mask m'] eqn:E
    end;
    change (pivot_mask 0) with 1 in Hmask; rewrite E in Hmask;
    cbn [fst snd] in Hmask |- *; subst ge_mask;
    rewrite Z2Nat.id, Z.add_0_l by lia; codec_simpl;
    rewrite pivot_mask_next;
    unfold pivot_mask at 1; rewrite masked_pow2 by apply land_63_range;
    unfold ge_bit; codec_simpl; rewrite (Z.add_comm (Z.shiftr _ 6));
    match goal with |- context [if negb ?b then _ else _] => destruct b end;
    reflexivity.
Qed.

End ResumeOutcome.

Lemma rows_disjoint (pitch r r' w : Z) :
  r <> r' -> 0 <= w < pitch ->
  pitch * r + w < pitch * r' \/ pitch * r' + pitch <= pitch * r + w.
Proof.
  intros Hne Hw. destruct (Z.lt_ge_cases r r'); [left|right]; nia.
Qed.

Section ResumeRow.
Context {H : Header} {P : Phases}.

(** The bits of the row a resumed decoder builds and replays, from
    the state it starts in. *)
Lemma Resume_row_bits (id : Z) (block : list Z) (c : Codec) :
  let prep := Resume_prepared id block c in
  let ge_row_i := snd (fst prep) in
  let c1 := snd prep in
  let shape := row_shape_of c id in
  let pitch := _ge_pitch c in
  let ge_new_row := pitch * ge_row_i in
  let p := u16 (_ge_resume_pivot c) in
  let built := Resume_new_row c1 shape ge_new_row in
  let replayed := snd (Resume_replay (Z.to_nat p) 0 1 ge_new_row c1 built) in
  0 <= ge_new_row -> ge_new_row + pitch <= Z.of_nat (length (_ge_matrix c)) ->
  columns_in_row c shape ->
  row_is pitch ge_new_row built (new_row_bit c shape) /\
  (p <= 64 * pitch ->
   (forall k, 0 <= k < p ->
      sel 0 (_ge_pivots c) k <> ge_row_i /\
      ge_bit c (sel 0 (_ge_pivots c) k) k = true) ->
   (forall w, w < ge_new_row \/ ge_new_row + pitch <= w ->
      sel 0 replayed w = sel 0 (_ge_matrix c) w) /\
   row_is pitch ge_new_row replayed
     (replay_bits (Z.to_nat p) 0
        (fun k b => ge_bit c (sel 0 (_ge_pivots c) k) b) (new_row_bit c shape))).
Proof.
  intros prep ge_row_i c1 shape pitch ge_new_row p built replayed Hrow Hlen Hcols.
  destruct (Resume_prepared_fields id block c)
    as ((Epitch & Em & Epiv & Ecm & Ecols & Edc & Eac & Eap & Ebc & Ebp & _) & _).
  fold prep c1 in Epitch, Em, Epiv, Ecm, Ecols, Edc, Eac, Eap, Ebc, Ebp.
  assert (Hcols1 : columns_in_row c1 shape).
  { unfold columns_in_row, mix_columns, peel_columns in *.
    rewrite Epitch, Ecols, Edc, Eac, Eap, Ebc, Ebp. exact Hcols. }
  assert (Hbit : forall b, new_row_bit c1 shape b = new_row_bit c shape b).
  { intros b. unfold new_row_bit, mix_columns, peel_columns, peel_column_bit,
      compress_bit. rewrite Epitch, Ecols, Edc, Eac, Eap, Ebc, Ebp, Ecm. reflexivity. }
  pose proof (Resume_new_row_bits c1 shape ge_new_row Hrow) as Hbuilt.
  rewrite Epitch, Em in Hbuilt. specialize (Hbuilt Hlen Hcols1). fold pitch built in Hbuilt.
  pose proof (Resume_new_row_frame c1 shape ge_new_row Hrow Hcols1) as [Hlb Hfb].
  rewrite Em in Hlb, Hfb. rewrite Epitch in Hfb. fold pitch built in Hlb, Hfb.
  assert (Hbuilt' : row_is pitch ge_new_row built (new_row_bit c shape)).
  { eapply row_is_ext; [|exact Hbuilt]. intros b _. apply Hbit. }
  split; [exact Hbuilt'|]. intros Hp Hpiv.
  pose proof (u16_range (_ge_resume_pivot c)) as Rp. fold p in Rp.
  assert (Hrowbit : forall k b, 0 <= k < p -> 0 <= b < 64 * pitch ->
            Z.testbit
              (sel 0 built (pitch * sel 0 (_ge_pivots c) k + Z.shiftr b 6))
              (Z.land b 63)
            = ge_bit c (sel 0 (_ge_pivots c) k) b).
  { intros k b Hk Hb. unfold ge_bit. fold pitch. f_equal.
    rewrite Hfb; [f_equal; lia|].
    apply rows_disjoint; [apply Hpiv; exact Hk|apply shiftr_6_range; exact Hb]. }
  pose proof (Resume_replay_bits (Z.to_nat p) 0 ge_row_i c1 built (new_row_bit c shape))
    as Hrep.
  cbv zeta in Hrep. rewrite Epitch, Epiv in Hrep. fold pitch ge_new_row in Hrep.
  change (pivot_mask 0) with 1 in Hrep.
  destruct Hrep as (_ & _ & Hfr & Hbits); try lia; try exact Hbuilt'.
  { intros k Hk. split; [apply Hpiv; lia|].
    rewrite Hrowbit by lia. apply Hpiv. lia. }
  fold replayed in Hfr, Hbits. split.
  - intros w Hw. rewrite Hfr by exact Hw. apply Hfb. exact Hw.
  - eapply row_is_ext; [|exact Hbits]. intros b Hb.
    apply (replay_bits_ext (64 * pitch)); try lia.
    + intros k b' Hk Hb'. apply Hrowbit; lia.
    + intros b' _. reflexivity.
Qed.

End ResumeRow.

(** C4, as stated, fails where it says that the bit of a deferred
    column is set: the code flips it.  In [waiting_decoder] the new
    row references the peeled column 0, whose compression row has the
    bit of GE column 0, and the deferred column 1, which is GE column
    0.  Built as the claim reads, the row has the bit of the resume
    pivot 0 and the triangulation restarted from column 1 completes;
    the row the code builds has the bit flipped twice, hence clear,
    and [DecodeFeed] reports [R_MORE_BLOCKS]. *)
Lemma DecodeFeed_flips_deferred_bit :
  let H := pair_header in
  let c := waiting_decoder in
  let c1 := snd (Resume_prepared 7 [9] c) in
  let shape := row_shape_of c 7 in
  let claimed := Resume_new_row_as_claimed c1 shape 4 in
  let built := Resume_new_row c1 shape 4 in
  _block_count c <= u16 (_used_count c) /\
  snd (fst (Resume_prepared 7 [9] c)) = 4 /\
  Z.testbit (sel 0 claimed 4) 0 = true /\
  fst (pivot_loop 3 5 1 (pivot_mask 1)
         (set_ge_pivots [4; 1; 2; 3; 0; 0; 0; 0] (set_ge_matrix claimed c1))) = true /\
  Z.testbit (sel 0 built 4) 0 = false /\
  exists c',
    DecodeFeed (P := idle_phases) 7 [9] c = Some (R_MORE_BLOCKS, c').
Proof.
  intros H c c1 shape claimed built.
  split; [vm_compute; discriminate|]. split; [vm_compute; reflexivity|].
  split; [vm_compute; reflexivity|]. split; [vm_compute; reflexivity|].
  split; [vm_compute; reflexivity|]. eexists. vm_compute. reflexivity.
Qed.

(** C4, amended.  For a decoder that holds N rows, [DecodeFeed] admits
    one row: while there is room the row takes the next row and GE row
    and both counts go up by one, and its block is stored.  The new GE
    row is built in a cleared row by flipping (XOR) the bits of the
    three mixing columns and then, for each peel column of the row,
    adding the compression row of the row that solves the column when
    the column is peeled and flipping the bit of the column's GE
    column when it is not: every bit of the row is the sum over GF(2)
    of these contributions.  The eliminations chosen for the columns
    before the resume pivot are then replayed on the row, which leaves
    the other rows as they are.  [DecodeFeed] returns [R_WIN] exactly
    when the row so obtained has the bit of the resume pivot and the
    pivot loop restarted at the next column completes; otherwise it
    returns [R_MORE_BLOCKS], and when the bit is missing the GE matrix
    keeps the row in its slot and the row is its own pivot entry. *)
Theorem DecodeFeed_resume_row `{H : Header} `{P : Phases} (id : Z) (block : list Z)
    (c : Codec) :
  _block_count c <= u16 (_used_count c) ->
  let prep := Resume_prepared id block c in
  let row_i := fst (fst prep) in
  let ge_row_i := snd (fst prep) in
  let c1 := snd prep in
  let shape := row_shape_of c id in
  let pitch := _ge_pitch c in
  let ge_new_row := pitch * ge_row_i in
  let p := u16 (_ge_resume_pivot c) in
  let built := Resume_new_row c1 shape ge_new_row in
  let replayed := snd (Resume_replay (Z.to_nat p) 0 1 ge_new_row c1 built) in
  let c2 := set_ge_matrix replayed c1 in
  let rest :=
    pivot_loop (Z.to_nat (ge_pivot_count c - u16 (p + 1))) (_ge_rows c1)
      (u16 (p + 1)) (pivot_mask (p + 1))
      (set_ge_pivots
         (upd (upd (_ge_pivots c) ge_row_i (sel 0 (_ge_pivots c) p)) p ge_row_i) c2) in
  DecodeFeed id block c
  = (if ge_bit c2 ge_row_i p && fst rest
     then Some (R_WIN, GenerateRecoveryBlocks (snd rest))
     else Some (R_MORE_BLOCKS,
                if ge_bit c2 ge_row_i p then snd rest
                else set_ge_pivots (upd (_ge_pivots c) ge_row_i ge_row_i) c2)) /\
  (_used_count c < _block_count c + _extra_count c ->
   row_i = u16 (_used_count c) /\ ge_row_i = u16 (_ge_rows c) /\
   _used_count c1 = _used_count c + 1 /\ _ge_rows c1 = _ge_rows c + 1) /\
  _input_blocks c1
  = store (_input_blocks c) (_block_bytes c * row_i) (load block 0 (_block_bytes c)) /\
  (0 <= ge_new_row -> ge_new_row + pitch <= Z.of_nat (length (_ge_matrix c)) ->
   columns_in_row c shape ->
   row_is pitch ge_new_row built (new_row_bit c shape) /\
   (p <= 64 * pitch ->
    (forall k, 0 <= k < p ->
       sel 0 (_ge_pivots c) k <> ge_row_i /\
       ge_bit c (sel 0 (_ge_pivots c) k) k = true) ->
    (forall w, w < ge_new_row \/ ge_new_row + pitch <= w ->
       sel 0 replayed w = sel 0 (_ge_matrix c) w) /\
    row_is pitch ge_new_row replayed
      (replay_bits (Z.to_nat p) 0
         (fun k b => ge_bit c (sel 0 (_ge_pivots c) k) b) (new_row_bit c shape)))).
Proof.
  intros Hfull prep row_i ge_row_i c1 shape pitch ge_new_row p built replayed c2 rest.
  split; [|split; [|split]].
  - rewrite DecodeFeed_resumes by exact Hfull.
    rewrite ResumeSolveMatrix_outcome. cbv zeta.
    fold prep ge_row_i c1 shape pitch ge_new_row p built replayed c2 rest.
    destruct (ge_bit c2 ge_row_i p); cbn [andb negb].
    + destruct rest as [[|] c3]; reflexivity.
    + reflexivity.
  - apply (Resume_prepared_fields id block c).
  - apply (Resume_prepared_fields id block c).
  - apply (Resume_row_bits id block c).
Qed.

Lemma DecodeFeed_resume_row_witness :
  exists c',
    DecodeFeed (H := pair_header) (P := idle_phases) 7 [9] waiting_decoder
    = Some (R_MORE_BLOCKS, c').
Proof.
  eexists.
  rewrite (proj1 (DecodeFeed_resume_row (H := pair_header) (P := idle_phases)
                    7 [9] waiting_decoder ltac:(vm_compute; discriminate))).
  vm_compute. reflexivity.
Defined.

(** ** What [ReconstructOutput] writes *)

Lemma bstore_written (bytes : list Z) (m : gmap Z Z) (off k : Z) :
  off <= k < off + Z.of_nat (length bytes) -> is_Some (bstore m off bytes !! k).
Proof. intros Hk. rewrite bstore_lookup_in by exact Hk. eauto. Qed.

Lemma bstore_dom_mono (bytes : list Z) (m : gmap Z Z) (off k : Z) :
  is_Some (m !! k) -> is_Some (bstore m off bytes !! k).
Proof.
  intros Hm.
  destruct (Z.lt_ge_cases k off) as [Hlt|Hge];
    [rewrite bstore_lookup_out by lia; exact Hm|].
  destruct (Z.lt_ge_cases k (off + Z.of_nat (length bytes))) as [Hin|Hout].
  - apply bstore_written. lia.
  - rewrite bstore_lookup_out by lia. exact Hm.
Qed.

Lemma length_xor_bytes (a b : list Z) :
  length (xor_bytes a b) = Nat.min (length a) (length b).
Proof. unfold xor_bytes. apply length_zip_with. Qed.

Section Written.
Context {H : Header}.

Lemma length_recovery_block (c : Codec) (column_i : Z) :
  length (recovery_block c column_i) = Z.to_nat (_block_bytes c).
Proof. apply length_load. Qed.

Lemma mix_peel_columns_mono (n : nat) (c : Codec) (peel_x peel_a dest : Z)
    (out : gmap Z Z) (k : Z) :
  is_Some (out !! k) ->
  is_Some (snd (mix_peel_columns n c peel_x peel_a dest out) !! k).
Proof.
  revert peel_x out. induction n as [|n IH]; intros peel_x out Hk; [exact Hk|].
  cbn [mix_peel_columns]. apply IH. apply bstore_dom_mono. exact Hk.
Qed.

Lemma regenerate_peel_written (c : Codec) (shape : RowShape.t) (dest : Z)
    (out : gmap Z Z) (k : Z) :
  is_Some (out !! k) \/ dest <= k < dest + _block_bytes c ->
  is_Some (regenerate_peel c shape dest out !! k).
Proof.
  intros Hk. unfold regenerate_peel. cbv zeta.
  assert (Hset : forall a b,
            is_Some (bmemxor_set out dest (recovery_block c a) (recovery_block c b) !! k)).
  { intros a b. unfold bmemxor_set. destruct Hk as [Hk|Hk].
    - apply bstore_dom_mono. exact Hk.
    - apply bstore_written.
      rewrite length_xor_bytes, !length_recovery_block. lia. }
  destruct (1 <? RowShape.peel_weight shape); [|apply Hset].
  match goal with
  | |- context [mix_peel_columns ?n c ?x ?a dest ?o] =>
      pose proof (mix_peel_columns_mono n c x a dest o k (Hset _ _)) as Hm;
      destruct (mix_peel_columns n c x a dest o) as [x' out']
  end.
  cbn [snd] in Hm. unfold bmemxor. apply bstore_dom_mono. exact Hm.
Qed.

Lemma regenerate_rows_written (n : nat) (row_i : Z) (c : Codec)
    (copied_rows : list Z) (out : gmap Z Z) (r k : Z) :
  0 <= row_i -> row_i + Z.of_nat n <= 2^16 ->
  is_Some (out !! k) \/
  (row_i <= r < row_i + Z.of_nat n /\
   CAT_COPY_FIRST_N && negb (sel 0 copied_rows r =? 0) = false /\
   _block_bytes c * r <= k < _block_bytes c * r + _block_bytes c) ->
  is_Some (regenerate_rows n row_i c copied_rows out !! k).
Proof.
  revert row_i out. induction n as [|n IH]; intros row_i out Hrow Hn Hk.
  - destruct Hk as [Hk|(Hr & _)]; [exact Hk|lia].
  - cbn [regenerate_rows]. cbv zeta.
    set (skip := CAT_COPY_FIRST_N && negb (sel 0 copied_rows row_i =? 0)).
    match goal with
    | |- is_Some (regenerate_rows n _ c copied_rows ?o !! k) => set (out1 := o)
    end.
    assert (Hmono : is_Some (out !! k) -> is_Some (out1 !! k)).
    { intros Hs. unfold out1. destruct skip; [exact Hs|].
      unfold bmemxor_add. apply bstore_dom_mono.
      apply regenerate_peel_written. left. exact Hs. }
    assert (Hhere : skip = false ->
              _block_bytes c * row_i <= k < _block_bytes c * row_i + _block_bytes c ->
              is_Some (out1 !! k)).
    { intros Hskip Hr. unfold out1. rewrite Hskip.
      unfold bmemxor_add. apply bstore_dom_mono.
      apply regenerate_peel_written. right. exact Hr. }
    assert (H1 : is_Some (out1 !! k) \/
              (row_i + 1 <= r < row_i + 1 + Z.of_nat n /\
               CAT_COPY_FIRST_N && negb (sel 0 copied_rows r =? 0) = false /\
               _block_bytes c * r <= k < _block_bytes c * r + _block_bytes c)).
    { destruct Hk as [Hk|(Hr & Hcopied & Hk)]; [left; apply Hmono; exact Hk|].
      destruct (Z.eq_dec r row_i) as [->|Hne].
      - left. apply Hhere; assumption.
      - right. split; [lia|]. split; assumption. }
    clearbody out1. clear Hmono Hhere Hk.
    destruct n as [|n].
    + cbn [regenerate_rows]. destruct H1 as [H1|(Hr & _)]; [exact H1|lia].
    + rewrite (u16_small (row_i + 1)) by lia. apply IH; [lia|lia|exact H1].
Qed.

Lemma copy_received_rows_not_copied (n : nat) (row_i : Z) (c : Codec)
    (copied_rows : list Z) (out : gmap Z Z) (j : Z) :
  0 <= row_i -> row_i + Z.of_nat n <= 2^16 ->
  sel 0 copied_rows j = 0 ->
  (forall r, row_i <= r < row_i + Z.of_nat n ->
     PeelRow.id (sel PeelRow.zero (_peel_rows c) r) <> j) ->
  sel 0 (fst (copy_received_rows n row_i c copied_rows out)) j = 0.
Proof.
  revert row_i copied_rows out.
  induction n as [|n IH]; intros row_i copied_rows out Hrow Hn Hj Hids; [exact Hj|].
  cbn [copy_received_rows]. cbv zeta.
  match goal with
  | |- context [if ?b then (?a1, ?o1) else (?a2, ?o2)] =>
      assert (Hj1 : sel 0 (fst (if b then (a1, o1) else (a2, o2))) j = 0);
      [destruct b; cbn [fst]; [|exact Hj]|
       destruct (if b then (a1, o1) else (a2, o2)) as [copied1 out1]]
  end.
  { rewrite sel_upd_ne; [exact Hj|]. apply Hids. lia. }
  cbn [fst] in Hj1. destruct n as [|n]; [exact Hj1|].
  rewrite (u16_small (row_i + 1)) by lia. apply IH; try lia; try exact Hj1.
  intros r Hr. apply Hids. lia.
Qed.

End Written.

(** C1 does not hold of the code where it says that the final partial
    block is truncated to its true length.  When the last block of the
    message is regenerated ([CAT_COPY_FIRST_N] is not defined, or no
    row held is the last block), [ReconstructOutput] stores a whole
    block of [_block_bytes] bytes at the last block's offset: every
    offset from [_block_bytes * (_block_count - 1)] up to
    [_block_bytes * _block_count] is written, and so, when the final
    block is shorter than a block, is the first offset after the
    message, [_block_bytes * (_block_count - 1) + _output_final_bytes].
    (The path that copies a received last block stores
    [_output_final_bytes] bytes.) *)
Theorem ReconstructOutput_final_block_overrun `{H : Header} (message_out : gmap Z Z)
    (c : Codec) :
  0 < _block_count c < 2^16 -> 0 <= _used_count c <= 2^16 ->
  CAT_COPY_FIRST_N = false \/ last_block_missing c = true ->
  (forall k,
     _block_bytes c * (_block_count c - 1) <= k < _block_bytes c * _block_count c ->
     is_Some (ReconstructOutput message_out c !! k)) /\
  (0 <= _output_final_bytes c < _block_bytes c ->
   is_Some (ReconstructOutput message_out c
              !! (_block_bytes c * (_block_count c - 1) + _output_final_bytes c))).
Proof.
  intros Hbc Hu Hlast.
  assert (Hall : forall k,
            _block_bytes c * (_block_count c - 1) <= k < _block_bytes c * _block_count c ->
            is_Some (ReconstructOutput message_out c !! k)).
  { intros k Hk. unfold ReconstructOutput.
    destruct CAT_COPY_FIRST_N eqn:Hcopy.
    - destruct Hlast as [Hlast|Hlast]; [discriminate|].
      pose proof (copy_received_rows_not_copied (Z.to_nat (_used_count c)) 0 c
                    (replicate (Z.to_nat (_block_count c)) 0) message_out
                    (_block_count c - 1)) as Hnot.
      destruct (copy_received_rows _ 0 c _ message_out) as [copied_rows out].
      cbn [fst] in Hnot.
      apply regenerate_rows_written with (r := _block_count c - 1); [lia|lia|].
      right. split; [lia|]. split; [|lia].
      rewrite Hcopy, Hnot; [reflexivity|lia|lia| |].
      + apply sel_replicate. exact 0.
      + intros r Hr. unfold last_block_missing in Hlast.
        rewrite forallb_forall in Hlast.
        assert (Hin : In r (seqZ 0 (_used_count c))).
        { apply list_elem_of_In. apply elem_of_seqZ. lia. }
        specialize (Hlast r Hin). apply negb_true_iff in Hlast.
        apply Z.eqb_neq in Hlast. exact Hlast.
    - apply regenerate_rows_written with (r := _block_count c - 1); [lia|lia|].
      right. split; [lia|]. split; [|lia]. rewrite Hcopy. reflexivity. }
  split; [exact Hall|]. intros Hf. apply Hall. lia.
Qed.

Lemma ReconstructOutput_final_block_overrun_witness :
  let c :=
    snd (default (R_WIN, new_codec)
           (decoder_without_last_block (H := diagonal_header) (P := unit_phases))) in
  fst (default (R_BAD_INPUT, new_codec)
         (decoder_without_last_block (H := diagonal_header) (P := unit_phases)))
  = R_WIN /\
  _block_bytes c * (_block_count c - 1) + _output_final_bytes c = 31 /\
  is_Some (ReconstructOutput (H := diagonal_header) ∅ c !! 31).
Proof.
  intros c. split; [vm_compute; reflexivity|]. split; [vm_compute; reflexivity|].
  refine (proj2 (ReconstructOutput_final_block_overrun (H := diagonal_header) ∅ c
                   _ _ _) _).
  - vm_compute. split; reflexivity.
  - vm_compute. split; discriminate.
  - right. vm_compute. reflexivity.
  - vm_compute. split; [discriminate|reflexivity].
Defined.

(** * Further properties of the code *)

(** ** The row generator *)

(** X1.  For at least two peel columns and at least two mixing columns
    (both counts 16-bit), whatever the generator draws, the row that
    [GeneratePeelRow] produces has its strides and starts in range:
    [1 <= peel_a <= peel_column_count - 1], [0 <= peel_x0 <
    peel_column_count], [1 <= mix_a <= mix_column_count - 1] and
    [0 <= mix_x0 < mix_column_count]. *)
Theorem GeneratePeelRow_ranges (G : CatsChoice)
    (id p_seed peel_column_count mix_column_count : Z) :
  2 <= peel_column_count < 2^16 -> 2 <= mix_column_count < 2^16 ->
  let shape := GeneratePeelRow G id p_seed peel_column_count mix_column_count in
  1 <= RowShape.peel_a shape <= peel_column_count - 1 /\
  0 <= RowShape.peel_x0 shape < peel_column_count /\
  1 <= RowShape.mix_a shape <= mix_column_count - 1 /\
  0 <= RowShape.mix_x0 shape < mix_column_count.
Proof.
  intros Hp Hm. unfold GeneratePeelRow.
  destruct (Next G (Initialize G id p_seed)) as [r1 g1].
  destruct (Next G g1) as [rv2 g2]. destruct (Next G g2) as [rv3 g3].
  cbv zeta. cbn [RowShape.peel_a RowShape.peel_x0 RowShape.mix_a RowShape.mix_x0].
  assert (Hrem : forall x n, 0 < n < 2^16 -> 0 <= Z.rem (u16 x) n < n).
  { intros x n Hn. apply Z.rem_bound_pos; [apply u16_range|lia]. }
  pose proof (Hrem (u32 rv2) (peel_column_count - 1) ltac:(lia)).
  pose proof (Hrem (Z.shiftr (u32 rv2) 16) peel_column_count ltac:(lia)).
  pose proof (Hrem (u32 rv3) (mix_column_count - 1) ltac:(lia)).
  pose proof (Hrem (Z.shiftr (u32 rv3) 16) mix_column_count ltac:(lia)).
  rewrite (u16_small (Z.rem (u16 (u32 rv2)) (peel_column_count - 1) + 1)) by lia.
  rewrite (u16_small (Z.rem (u16 (Z.shiftr (u32 rv2) 16)) peel_column_count)) by lia.
  rewrite (u16_small (Z.rem (u16 (u32 rv3)) (mix_column_count - 1) + 1)) by lia.
  rewrite (u16_small (Z.rem (u16 (Z.shiftr (u32 rv3) 16)) mix_column_count)) by lia.
  lia.
Qed.

Lemma GeneratePeelRow_ranges_witness :
  0 <= RowShape.peel_x0
         (GeneratePeelRow (scripted (fun id seed => shape_words 0 70000 9 1 0)) 5 1 16 8)
    < 16.
Proof.
  refine (proj1 (proj2 (GeneratePeelRow_ranges
            (scripted (fun id seed => shape_words 0 70000 9 1 0)) 5 1 16 8 _ _)));
    lia.
Defined.

(** ** The matrix allocation *)

Lemma length_fresh {A} (fresh : Z -> A) (n : Z) :
  length (map fresh (seqZ 0 n)) = Z.to_nat n.
Proof. rewrite length_map. apply length_seqZ. Qed.

Lemma quot_64_room (n : Z) : 0 <= n -> n <= 64 * Z.quot (n + 63) 64 /\ 0 <= Z.quot (n + 63) 64.
Proof.
  intros Hn. rewrite Z.quot_div_nonneg by lia.
  pose proof (Z.div_mod (n + 63) 64 ltac:(lia)).
  pose proof (Z.mod_pos_bound (n + 63) 64 ltac:(lia)). lia.
Qed.

(** X2.  When [AllocateMatrix] succeeds, the GE matrix has one row for
    each of the [_defer_count + _added_count] columns, one for each
    extra row and one more, of [_ge_pitch = (columns + 63) / 64] words,
    which is room for every column; the rows of the columns are
    cleared, the compression matrix has [_block_count] cleared rows,
    and the pivot array has an entry for every column and extra row.
    When it fails there is no pivot array.  In both cases the setup is
    kept. *)
Theorem AllocateMatrix_room `{H : Header} (c : Codec) :
  0 <= _defer_count c -> 0 <= _added_count c -> 0 <= _extra_count c ->
  0 <= _block_count c ->
  let ge_cols := _defer_count c + _added_count c in
  let c' := snd (AllocateMatrix c) in
  same_setup c c' /\
  (fst (AllocateMatrix c) = false -> _ge_pivots c' = []) /\
  (fst (AllocateMatrix c) = true ->
   _ge_pitch c' = Z.quot (ge_cols + 63) 64 /\
   ge_cols <= 64 * _ge_pitch c' /\
   _ge_rows c' = ge_cols /\
   Z.of_nat (length (_ge_matrix c')) = (ge_cols + _extra_count c + 1) * _ge_pitch c' /\
   (forall w, 0 <= w < ge_cols * _ge_pitch c' -> sel 0 (_ge_matrix c') w = 0) /\
   Z.of_nat (length (_ge_compress_matrix c')) = _block_count c * _ge_pitch c' /\
   (forall w, sel 0 (_ge_compress_matrix c') w = 0) /\
   Z.of_nat (length (_ge_pivots c')) = ge_cols + _extra_count c /\
   Z.of_nat (length (_ge_row_map c')) = ge_cols + _extra_count c /\
   Z.of_nat (length (_ge_col_map c')) = ge_cols).
Proof.
  intros Hd Ha He Hb ge_cols c'.
  split; [apply AllocateMatrix_setup|].
  destruct (quot_64_room ge_cols ltac:(unfold ge_cols; lia)) as [Hroom Hpitch].
  subst c'. unfold AllocateMatrix, operator_new. cbv zeta. codec_simpl.
  fold ge_cols. set (pitch := Z.quot (ge_cols + 63) 64) in *.
  destruct (new_ok (heap c) _); cbn [negb]; codec_simpl;
    [|split; [reflexivity|discriminate]].
  destruct (new_ok _ _); cbn [negb]; codec_simpl;
    [|split; [reflexivity|discriminate]].
  destruct (new_ok _ _); cbn [negb fst snd]; codec_simpl;
    [|split; [reflexivity|discriminate]].
  split; [discriminate|]. intros _.
  split; [reflexivity|]. split; [exact Hroom|]. split; [reflexivity|].
  split; [rewrite length_store, length_fresh; nia|].
  split.
  { intros w Hw.
    rewrite sel_store_in by (rewrite ?length_replicate, ?length_fresh; nia).
    apply sel_replicate. exact 0. }
  split; [rewrite length_store, length_fresh; nia|].
  split.
  { intros w.
    destruct (Z.ltb_spec w 0) as [Hneg|Hpos];
      [unfold sel; destruct (Z.ltb_spec w 0); [reflexivity|lia]|].
    destruct (Z.ltb_spec w (_block_count c * pitch)) as [Hin|Hout].
    - rewrite sel_store_in by (rewrite ?length_replicate, ?length_fresh; nia).
      apply sel_replicate. exact 0.
    - apply sel_out_of_range. rewrite length_store, length_fresh. nia. }
  rewrite !length_take, !length_drop, length_fresh. repeat split; nia.
Qed.

Lemma AllocateMatrix_room_witness :
  let H := example_header 32 true (fun _ _ => []) in
  let c := set_added_count 8 (set_extra_count 4 (set_block_count 16 new_codec)) in
  8 <= 64 * _ge_pitch (snd (AllocateMatrix c)).
Proof.
  intros H c.
  destruct (AllocateMatrix_room (H := H) c) as (_ & _ & Hok);
    [vm_compute; discriminate..|].
  apply Hok. vm_compute. reflexivity.
Defined.

(** ** The state after setup *)

Lemma sel_replicate_cases {A} (d x : A) (n : nat) (i : Z) :
  sel d (replicate n x) i = x \/ sel d (replicate n x) i = d.
Proof.
  unfold sel. destruct (i <? 0); [right; reflexivity|].
  destruct (replicate n x !! Z.to_nat i) as [y|] eqn:E; [|right; reflexivity].
  apply lookup_replicate in E as [-> _]. left. reflexivity.
Qed.

Lemma ChooseMatrix_lists `{H : Header} (g : Globals) (message_bytes block_bytes : Z)
    (c c' : Codec) :
  ChooseMatrix g message_bytes block_bytes c = Some (R_WIN, c') ->
  _peel_head_rows c' = LIST_TERM /\ _peel_tail_rows c' = None /\
  _defer_head_rows c' = LIST_TERM /\
  NextPrime16 (u16 (_block_count c')) = Some (_block_next_prime c') /\
  NextPrime16 (u16 (_added_count c')) = Some (_added_next_prime c').
Proof.
  unfold ChooseMatrix. cbv zeta. codec_simpl.
  destruct (NextPrime16 (u16 _)) as [p1|] eqn:E1; [|discriminate].
  destruct (GenerateMatrixParameters _ _ _) as [found mp]. codec_simpl.
  destruct found; cbn [negb]; [|discriminate].
  destruct (NextPrime16 (u16 (mp_light_count mp))) as [p2|]; [|discriminate].
  codec_simpl.
  destruct (NextPrime16 (u16 (mp_light_count mp + mp_dense_count mp))) as [p3|] eqn:E3;
    [|discriminate].
  intros E. inversion E. codec_simpl. repeat split; assumption.
Qed.

Lemma FreeInput_if (b : bool) (c : Codec) :
  (if b then set_input_blocks [] c else c)
  = set_input_blocks (if b then [] else _input_blocks c) c.
Proof. destruct c, b; reflexivity. Qed.

Lemma sel_outside {A} (d : A) (l : list A) (i : Z) :
  i < 0 \/ Z.of_nat (length l) <= i -> sel d l i = d.
Proof.
  intros [Hi|Hi]; [|apply sel_out_of_range; exact Hi].
  unfold sel. destruct (Z.ltb_spec i 0); [reflexivity|lia].
Qed.

Lemma sel_upd_cases {A} (d : A) (l : list A) (i : Z) (v : A) :
  sel d (upd l i v) i = v \/ (sel d (upd l i v) i = d /\ sel d l i = d).
Proof.
  destruct (Z.ltb_spec i 0) as [Hneg|Hpos].
  { right. unfold upd. destruct (Z.ltb_spec i 0); [|lia].
    split; apply sel_outside; left; exact Hneg. }
  destruct (Z.ltb_spec i (Z.of_nat (length l))) as [Hin|Hout].
  - left. apply sel_upd_eq. lia.
  - right. rewrite upd_out_of_range by lia.
    split; apply sel_outside; right; exact Hout.
Qed.

Section FreshWorkspace.
Context {H : Header}.

Lemma init_columns_lengths (n : nat) (ii : Z) (c : Codec) :
  length (_peel_cols (init_columns n ii c)) = length (_peel_cols c) /\
  length (_peel_col_refs (init_columns n ii c)) = length (_peel_col_refs c).
Proof.
  revert ii c. induction n as [|n IH]; intros ii c; [split; reflexivity|].
  cbn [init_columns].
  match goal with
  | |- context [init_columns n (ii + 1) ?x] => destruct (IH (ii + 1) x) as [-> ->]
  end.
  unfold modify_col, put_refs. codec_simpl. rewrite !length_upd. split; reflexivity.
Qed.

Lemma init_columns_before (n : nat) (ii : Z) (c : Codec) (i : Z) :
  i < ii ->
  get_col (init_columns n ii c) i = get_col c i /\
  get_refs (init_columns n ii c) i = get_refs c i.
Proof.
  revert ii c. induction n as [|n IH]; intros ii c Hi; [split; reflexivity|].
  cbn [init_columns].
  match goal with
  | |- context [init_columns n (ii + 1) ?x] =>
      destruct (IH (ii + 1) x ltac:(lia)) as [-> ->]
  end.
  unfold modify_col, put_refs, get_col, get_refs. codec_simpl.
  rewrite !sel_upd_ne by lia. split; reflexivity.
Qed.

(** The loop clears the columns it visits. *)
Lemma init_columns_cleared (n : nat) (ii : Z) (c : Codec) (i : Z) :
  ii <= i < ii + Z.of_nat n -> column_cleared (init_columns n ii c) i.
Proof.
  revert ii c. induction n as [|n IH]; intros ii c Hi; [lia|].
  cbn [init_columns].
  destruct (Z.eq_dec i ii) as [->|Hne]; [|apply IH; lia].
  unfold column_cleared.
  match goal with
  | |- context [init_columns n (ii + 1) ?x] =>
      destruct (init_columns_before n (ii + 1) x ii ltac:(lia)) as [-> ->]
  end.
  unfold modify_col, put_refs, get_col, get_refs. codec_simpl.
  split; [|split].
  - destruct (sel_upd_cases PeelRefs.zero (_peel_col_refs c) ii
                (PeelRefs.mk 0 (PeelRefs.rows (sel PeelRefs.zero (_peel_col_refs c) ii))))
      as [-> | [-> _]]; reflexivity.
  - match goal with
    | |- PeelColumn.mark (sel _ (upd ?l ii ?v) ii) = _ =>
        destruct (sel_upd_cases PeelColumn.zero l ii v) as [-> | [-> _]]; reflexivity
    end.
  - match goal with
    | |- PeelColumn.w2_refs (sel _ (upd ?l ii ?v) ii) = _ =>
        destruct (sel_upd_cases PeelColumn.zero l ii v) as [E | [-> _]];
          [rewrite E|reflexivity]
    end.
    cbn [PeelColumn.set_mark PeelColumn.w2_refs].
    match goal with
    | |- PeelColumn.w2_refs (sel _ (upd ?l ii ?v) ii) = _ =>
        destruct (sel_upd_cases PeelColumn.zero l ii v) as [-> | [-> _]]; reflexivity
    end.
Qed.

(** After the loop over all the columns, every index finds a cleared
    column: the loop has written it, or it is outside the arrays. *)
Lemma init_columns_all (c : Codec) (i : Z) :
  length (_peel_col_refs c) = length (_peel_cols c) ->
  column_cleared (init_columns (length (_peel_cols c)) 0 c) i.
Proof.
  intros Hlen.
  destruct (Z.ltb_spec i 0) as [Hneg|Hpos];
    [|destruct (Z.ltb_spec i (Z.of_nat (length (_peel_cols c)))) as [Hin|Hout]].
  - unfold column_cleared, get_col, get_refs.
    rewrite !sel_outside by (left; exact Hneg). repeat split.
  - apply init_columns_cleared. lia.
  - destruct (init_columns_lengths (length (_peel_cols c)) 0 c) as [Hc Hr].
    unfold column_cleared, get_col, get_refs.
    rewrite !sel_outside by (right; lia). repeat split.
Qed.

(** X3.  When [InitializeDecoder] returns [R_WIN] for a message of T
    bytes in blocks of M bytes, with a block count N below 2^16, then
    N is tabulated, no row is counted, the final block has
    [T - M * (N - 1)] bytes, between 1 and M, and the workspace is
    ready: room for N rows and [CAT_MAX_EXTRA_ROWS] more and for their
    blocks, N columns all marked [MARK_TODO] with no weight-2
    reference, N reference lists with no row counted, and empty peeled
    and deferred row lists. *)
Theorem InitializeDecoder_workspace (g : Globals) (T M : Z) (c0 c : Codec) :
  0 < T -> 0 < M -> T + M - 1 < 2^31 -> 0 <= CAT_MAX_EXTRA_ROWS ->
  InitializeDecoder g T M c0 = Some (R_WIN, c) ->
  let N := Z.quot (T + M - 1) M in
  let F := T - M * (N - 1) in
  N < 2^16 ->
  tabulated N /\ _block_count c = N /\ _block_bytes c = M /\
  _used_count c = 0 /\ _extra_count c = CAT_MAX_EXTRA_ROWS /\
  _output_final_bytes c = F /\ 0 < F <= M /\ _input_final_bytes c = M /\
  Z.of_nat (length (_input_blocks c)) = (N + CAT_MAX_EXTRA_ROWS) * M /\
  Z.of_nat (length (_recovery_blocks c)) = (N + _added_count c + 1) * M /\
  Z.of_nat (length (_peel_rows c)) = N + CAT_MAX_EXTRA_ROWS /\
  Z.of_nat (length (_peel_cols c)) = N /\
  Z.of_nat (length (_peel_col_refs c)) = N /\
  (forall i, PeelRefs.row_count (get_refs c i) = 0) /\
  (forall i, is_todo c i = true /\ PeelColumn.w2_refs (get_col c i) = 0) /\
  peel_ready c /\
  _peel_head_rows c = LIST_TERM /\ _peel_tail_rows c = None /\
  _defer_head_rows c = LIST_TERM.
Proof.
  intros HT HM Hint Hextra Hinit N F HN16.
  destruct (final_block_length T M HT HM) as [HF HFeq]. fold N F in HF, HFeq.
  revert Hinit. unfold InitializeDecoder.
  destruct (ChooseMatrix g T M c0) as [[r c1]|] eqn:Hc; [|discriminate].
  destruct r; try (intros E; discriminate E).
  destruct (ChooseMatrix_win g _ _ _ _ Hc) as (l & d & Hld & Hbb & Hbc & _ & _ & Hac & _).
  fold N in Hld, Hbc.
  assert (HNpos : 0 <= N).
  { unfold N. rewrite Z.quot_div_nonneg by lia. apply Z.div_pos; lia. }
  rewrite (u16_small N) in Hld, Hbc by lia.
  destruct (ChooseMatrix_lists g _ _ _ _ Hc) as (Hph & Hpt & Hdh & _).
  assert (Htab : tabulated N).
  { destruct (classic_tabulated N) as [Ht|Hn]; [exact Ht|].
    apply switch_block_count_None in Hn. congruence. }
  pose proof (tabulated_range N Htab) as HN.
  assert (Hl : 0 <= l + d).
  { clear - Hld. unfold matrix_parameter_table in Hld. cbn [switch_block_count] in Hld.
    repeat match type of Hld with
           | (if ?b then _ else _) = _ =>
               destruct b; [inversion Hld; subst; lia|]
           end.
    discriminate. }
  unfold AllocateInput, AllocateWorkspace, operator_new. cbv zeta. codec_simpl.
  rewrite FreeInput_if. codec_simpl.
  repeat (destruct (new_ok _ _); cbn [negb]; codec_simpl; [|discriminate]).
  match goal with
  | |- context [init_columns ?n 0 ?x] =>
      set (cw := x);
      assert (Hcols : length (_peel_cols cw) = n)
        by (unfold cw; codec_simpl; rewrite length_fresh; reflexivity);
      assert (Hrefs : length (_peel_col_refs cw) = length (_peel_cols cw))
        by (unfold cw; codec_simpl; rewrite !length_fresh; reflexivity);
      rewrite <- Hcols;
      pose proof (fun i => init_columns_all cw i Hrefs) as Hclear;
      destruct (init_columns_lengths (length (_peel_cols cw)) 0 cw) as [Hlc Hlr];
      destruct (init_columns_arrays (length (_peel_cols cw)) 0 cw)
        as (cols & refs & Harr)
  end.
  intros E.
  assert (Ec : init_columns (length (_peel_cols cw)) 0 cw = c)
    by (injection E as E; exact E).
  clear E.
  assert (HlenN : Z.of_nat (length (_peel_cols cw)) = N).
  { rewrite Hcols. codec_simpl. rewrite Hbc. lia. }
  rewrite Ec in Hclear, Hlc, Hlr. rewrite Hrefs in Hlr.
  assert (Ec' : c = set_peel_col_refs refs (set_peel_cols cols cw)) by congruence.
  clear Ec Harr.
  assert (Hrem : 0 <= Z.rem T M < M) by (apply Z.rem_bound_pos; lia).
  assert (Hpf : partial_final_bytes T (set_used_count 0 c1) = F).
  { unfold partial_final_bytes. codec_simpl. rewrite Hbb. unfold u32.
    rewrite (Z.mod_small (Z.rem T M)), (Z.mod_small M) by lia. exact HFeq. }
  assert (Hfields :
            _block_count c = N /\ _block_bytes c = M /\ _used_count c = 0 /\
            _extra_count c = CAT_MAX_EXTRA_ROWS /\ _output_final_bytes c = F /\
            _input_final_bytes c = M /\ _added_count c = l + d /\
            Z.of_nat (length (_input_blocks c)) = (N + CAT_MAX_EXTRA_ROWS) * M /\
            Z.of_nat (length (_recovery_blocks c)) = (N + (l + d) + 1) * M /\
            Z.of_nat (length (_peel_rows c)) = N + CAT_MAX_EXTRA_ROWS /\
            _peel_head_rows c = LIST_TERM /\ _peel_tail_rows c = None /\
            _defer_head_rows c = LIST_TERM).
  { rewrite Ec'. unfold cw. codec_simpl. rewrite Hpf, Hbb, Hbc, Hac.
    rewrite !length_fresh. repeat split; try assumption; nia. }
  destruct Hfields as (F1 & F2 & F3 & F4 & F5 & F6 & F7 & F8 & F9 & F10 & F11 & F12 & F13).
  split; [exact Htab|]. split; [exact F1|]. split; [exact F2|]. split; [exact F3|].
  split; [exact F4|]. split; [exact F5|]. split; [exact HF|]. split; [exact F6|].
  split; [exact F8|]. split; [rewrite F7; exact F9|]. split; [exact F10|].
  split; [lia|]. split; [lia|].
  split; [intros i; apply (Hclear i)|].
  split.
  { intros i. unfold is_todo. destruct (Hclear i) as (_ & -> & ->).
    split; reflexivity. }
  split.
  { split; [lia|].
    intros i. destruct (Hclear i) as (-> & _). split; [lia|].
    intros k Hk. lia. }
  repeat split; assumption.
Qed.

End FreshWorkspace.

Lemma InitializeDecoder_workspace_witness :
  let H := example_header 32 true (fun _ _ => []) in
  let c :=
    snd (default (R_WIN, new_codec)
           (InitializeDecoder {| g_p_seed := 1; g_c_seed := 1 |} 31 2 new_codec)) in
  _output_final_bytes c = 1 /\ _block_count c = 16.
Proof.
  intros H c.
  destruct (InitializeDecoder_workspace (H := H) {| g_p_seed := 1; g_c_seed := 1 |}
              31 2 new_codec c) as (_ & Hn & _ & _ & _ & Hf & _);
    [lia|lia|lia|vm_compute; discriminate|vm_compute; reflexivity
    |vm_compute; reflexivity|].
  split; [exact Hf|exact Hn].
Defined.

(** ** The pivot array *)

Lemma lookup_sel {A} (d : A) (l : list A) (i : Z) :
  0 <= i < Z.of_nat (length l) -> l !! Z.to_nat i = Some (sel d l i).
Proof.
  intros Hi. unfold sel. destruct (Z.ltb_spec i 0); [lia|].
  destruct (l !! Z.to_nat i) as [x|] eqn:E; [reflexivity|].
  apply lookup_ge_None_1 in E. lia.
Qed.

Lemma swap_Permutation {A} (l : list A) (i j : nat) (x y : A) :
  l !! i = Some x -> l !! j = Some y -> <[j := x]> (<[i := y]> l) ≡ₚ l.
Proof.
  intros Hi Hj. apply Permutation_inj. split; [rewrite !length_insert; reflexivity|].
  assert (Hli : (i < length l)%nat) by (eapply lookup_lt_Some; exact Hi).
  assert (Hlj : (j < length l)%nat) by (eapply lookup_lt_Some; exact Hj).
  exists (fun k => if decide (k = i) then j else if decide (k = j) then i else k).
  split.
  - intros a b. repeat case_decide; intros E; subst; congruence.
  - intros k. destruct (decide (k = i)) as [->|Hki].
    + destruct (decide (i = j)) as [->|Hij].
      * rewrite list_lookup_insert_eq by (rewrite length_insert; exact Hlj). congruence.
      * rewrite list_lookup_insert_ne by congruence.
        rewrite list_lookup_insert_eq by exact Hli. congruence.
    + destruct (decide (k = j)) as [->|Hkj].
      * rewrite list_lookup_insert_eq by (rewrite length_insert; exact Hlj). congruence.
      * rewrite !list_lookup_insert_ne by congruence. reflexivity.
Qed.

(** Exchanging two of the first [n] entries permutes them. *)
Lemma swap_take_Permutation (l : list Z) (n : nat) (i j : Z) :
  0 <= i < Z.of_nat n -> 0 <= j < Z.of_nat n -> (n <= length l)%nat ->
  take n (upd (upd l i (sel 0 l j)) j (sel 0 l i)) ≡ₚ take n l.
Proof.
  intros Hi Hj Hn. unfold upd.
  destruct (Z.ltb_spec i 0); [lia|]. destruct (Z.ltb_spec j 0); [lia|].
  rewrite !take_insert_lt by lia.
  apply swap_Permutation.
  - rewrite lookup_take_lt by lia. apply lookup_sel. lia.
  - rewrite lookup_take_lt by lia. apply lookup_sel. lia.
Qed.

Lemma swap_drop (l : list Z) (n : nat) (i j x y : Z) :
  i < Z.of_nat n -> j < Z.of_nat n ->
  drop n (upd (upd l i x) j y) = drop n l.
Proof.
  intros Hi Hj. unfold upd.
  destruct (Z.ltb_spec i 0); destruct (Z.ltb_spec j 0);
    rewrite ?drop_insert_lt by lia; reflexivity.
Qed.

Ltac case_compare :=
  repeat match goal with
         | |- context [?a <=? ?b] => destruct (Z.leb_spec a b)
         | |- context [?a <? ?b] => destruct (Z.ltb_spec a b)
         end;
  cbn [andb orb negb].

Lemma init_pivots_sel (n : nat) (pivot_i : Z) (pivots : list Z) (k : Z) :
  0 <= pivot_i -> pivot_i + Z.of_nat n <= Z.of_nat (length pivots) ->
  pivot_i + Z.of_nat n <= 2^16 ->
  sel 0 (init_pivots n pivot_i pivots) k
  = if (pivot_i <=? k) && (k <? pivot_i + Z.of_nat n) then k else sel 0 pivots k.
Proof.
  revert pivot_i pivots. induction n as [|n IH]; intros pivot_i pivots Hp Hlen H16.
  - cbn [init_pivots]. case_compare; try reflexivity; lia.
  - cbn [init_pivots]. destruct n as [|n].
    + cbn [init_pivots]. destruct (Z.eq_dec k pivot_i) as [->|Hne].
      * rewrite sel_upd_eq by lia. case_compare; try reflexivity; lia.
      * rewrite sel_upd_ne by lia. case_compare; try reflexivity; lia.
    + rewrite (u16_small (pivot_i + 1)) by lia.
      rewrite IH by (rewrite ?length_upd; lia).
      destruct (Z.eq_dec k pivot_i) as [->|Hne].
      * rewrite sel_upd_eq by lia. case_compare; try reflexivity; lia.
      * rewrite sel_upd_ne by lia. case_compare; try reflexivity; lia.
Qed.

Lemma init_pivots_take (n : nat) (pivots : list Z) :
  (n <= length pivots)%nat -> Z.of_nat n <= 2^16 ->
  take n (init_pivots n 0 pivots) = seqZ 0 (Z.of_nat n) /\
  drop n (init_pivots n 0 pivots) = drop n pivots.
Proof.
  intros Hn H16. split; apply list_eq; intros k.
  - destruct (Nat.lt_ge_cases k n) as [Hlt|Hge].
    + rewrite lookup_take_lt by lia. rewrite lookup_seqZ_lt by lia.
      replace k with (Z.to_nat (Z.of_nat k)) at 1 by lia.
      rewrite (lookup_sel 0) by (rewrite length_init_pivots; lia).
      rewrite init_pivots_sel by lia. case_compare; try reflexivity; lia.
    + rewrite lookup_take_ge by lia. rewrite lookup_seqZ_ge by lia. reflexivity.
  - rewrite !lookup_drop.
    destruct (Nat.lt_ge_cases (n + k) (length pivots)) as [Hlt|Hge].
    + replace (n + k)%nat with (Z.to_nat (Z.of_nat (n + k))) by lia.
      rewrite !(lookup_sel 0) by (rewrite ?length_init_pivots; lia).
      rewrite init_pivots_sel by lia. case_compare; try reflexivity; lia.
    + rewrite !lookup_ge_None_2 by (rewrite ?length_init_pivots; lia). reflexivity.
Qed.

Lemma pivot_search_range (n : nat) (start word_offset ge_mask : Z) (c : Codec)
    (pivot_j : Z) :
  0 <= start -> start + Z.of_nat n <= 2^16 ->
  pivot_search n start word_offset ge_mask c = Some pivot_j ->
  start <= pivot_j < start + Z.of_nat n.
Proof.
  revert start. induction n as [|n IH]; intros start Hs Hn; [discriminate|].
  cbn [pivot_search]. cbv zeta. destruct (masked _ ge_mask).
  - intros E. inversion E. lia.
  - destruct n as [|n]; [discriminate|].
    rewrite (u16_small (start + 1)) by lia. intros E. apply IH in E; lia.
Qed.

Lemma pivot_column_pivots (row_limit pivot_i ge_mask : Z) (c c' : Codec) :
  0 <= pivot_i < 2^16 -> row_limit <= 2^16 ->
  pivot_column row_limit pivot_i ge_mask c = Some c' ->
  exists pivot_j,
    pivot_i <= pivot_j < row_limit /\
    _ge_pivots c'
    = upd (upd (_ge_pivots c) pivot_i (sel 0 (_ge_pivots c) pivot_j)) pivot_j
        (sel 0 (_ge_pivots c) pivot_i).
Proof.
  intros Hp Hl. unfold pivot_column.
  destruct (pivot_search _ pivot_i _ ge_mask c) as [pivot_j|] eqn:E; [|discriminate].
  apply pivot_search_range in E; [|lia|lia]. cbv zeta. intros E'. inversion E'.
  exists pivot_j. split; [lia|].
  rewrite (proj2 (pivot_eliminate_ge_only _ _ _ _ _ _ _)). reflexivity.
Qed.

(** The pivot loop permutes the entries below [row_limit] and leaves
    the others. *)
Lemma pivot_loop_pivots (n : nat) (row_limit pivot_i ge_mask : Z) (c : Codec) :
  0 <= pivot_i -> pivot_i + Z.of_nat n <= 2^16 -> 0 <= row_limit <= 2^16 ->
  row_limit <= Z.of_nat (length (_ge_pivots c)) ->
  let c' := snd (pivot_loop n row_limit pivot_i ge_mask c) in
  take (Z.to_nat row_limit) (_ge_pivots c') ≡ₚ take (Z.to_nat row_limit) (_ge_pivots c) /\
  drop (Z.to_nat row_limit) (_ge_pivots c') = drop (Z.to_nat row_limit) (_ge_pivots c) /\
  length (_ge_pivots c') = length (_ge_pivots c).
Proof.
  revert pivot_i ge_mask c.
  induction n as [|n IH]; intros pivot_i ge_mask c Hp Hn Hl Hlen; cbv zeta.
  - cbn [pivot_loop snd]. repeat split; reflexivity.
  - cbn [pivot_loop].
    destruct (pivot_column row_limit pivot_i ge_mask c) as [c1|] eqn:E;
      [|cbn [snd]; repeat split; reflexivity].
    destruct (pivot_column_pivots row_limit pivot_i ge_mask c c1
                ltac:(lia) ltac:(lia) E) as (pivot_j & Hj & Hpiv).
    assert (Hl1 : length (_ge_pivots c1) = length (_ge_pivots c)).
    { rewrite Hpiv, !length_upd. reflexivity. }
    assert (Hstep : take (Z.to_nat row_limit) (_ge_pivots c1)
                      ≡ₚ take (Z.to_nat row_limit) (_ge_pivots c) /\
                    drop (Z.to_nat row_limit) (_ge_pivots c1)
                    = drop (Z.to_nat row_limit) (_ge_pivots c)).
    { rewrite Hpiv. split; [apply swap_take_Permutation; lia|apply swap_drop; lia]. }
    destruct n as [|n].
    + cbn [pivot_loop snd]. split; [apply Hstep|]. split; [apply Hstep|exact Hl1].
    + rewrite (u16_small (pivot_i + 1)) by lia.
      destruct (IH (pivot_i + 1) (CAT_ROL64 ge_mask 1) c1) as (Hperm & Hdrop & Hlen');
        [lia|lia|lia|rewrite Hl1; exact Hlen|].
      split; [etransitivity; [exact Hperm|apply Hstep]|].
      split; [rewrite Hdrop; apply Hstep|congruence].
Qed.

(** X4.  Whether [Triangle] returns [true] or [false], it leaves the
    first [_defer_count + _added_count] entries of the pivot array a
    permutation of the row indices [0 .. _defer_count + _added_count),
    and the entries after them as they were. *)
Theorem Triangle_pivots_permutation (c : Codec) :
  ge_pivot_count c <= Z.of_nat (length (_ge_pivots c)) ->
  let c' := snd (Triangle c) in
  take (Z.to_nat (ge_pivot_count c)) (_ge_pivots c') ≡ₚ seqZ 0 (ge_pivot_count c) /\
  drop (Z.to_nat (ge_pivot_count c)) (_ge_pivots c')
  = drop (Z.to_nat (ge_pivot_count c)) (_ge_pivots c).
Proof.
  intros Hlen. pose proof (u16_range (_defer_count c + _added_count c)) as Hpc.
  fold (ge_pivot_count c) in Hpc. cbv zeta.
  change (Triangle c) with
    (pivot_loop (Z.to_nat (ge_pivot_count c)) (ge_pivot_count c) 0 1 (Triangle_start c)).
  destruct (init_pivots_take (Z.to_nat (ge_pivot_count c)) (_ge_pivots c))
    as [Htake Hdrop]; [lia|lia|].
  rewrite Z2Nat.id in Htake by lia.
  destruct (pivot_loop_pivots (Z.to_nat (ge_pivot_count c)) (ge_pivot_count c) 0 1
              (Triangle_start c)) as (Hperm & Hdrop' & _); [lia|lia|lia| |].
  { unfold Triangle_start. codec_simpl. rewrite length_init_pivots. exact Hlen. }
  split.
  - etransitivity; [exact Hperm|]. unfold Triangle_start. codec_simpl.
    fold (ge_pivot_count c). rewrite Htake. reflexivity.
  - rewrite Hdrop'. unfold Triangle_start. codec_simpl. exact Hdrop.
Qed.

Lemma Triangle_pivots_permutation_witness :
  take 2 (_ge_pivots (snd (Triangle two_row_matrix))) ≡ₚ [0; 1].
Proof.
  refine (proj1 (Triangle_pivots_permutation two_row_matrix _)).
  vm_compute. discriminate.
Defined.

(** ** The deck shuffle *)

(** One step of the shuffle extends the permutation by one entry. *)
Lemma shuffle_step_spec (r ii : Z) (deck : list Z) :
  0 <= r -> 1 <= ii < 2^16 -> ii < Z.of_nat (length deck) ->
  shuffled ii deck ->
  shuffled (ii + 1) (shuffle_step r ii deck) /\
  drop (Z.to_nat (ii + 1)) (shuffle_step r ii deck) = drop (Z.to_nat (ii + 1)) deck /\
  length (shuffle_step r ii deck) = length deck.
Proof.
  intros Hr Hii Hlen Hsh.
  assert (Hjj : 0 <= Z.rem r ii < ii) by (apply Z.rem_bound_pos; lia).
  unfold shuffle_step. set (jj := Z.rem r ii) in *.
  rewrite (u16_small ii) by lia.
  split; [|split].
  - set (D := upd deck ii ii).
    assert (E : upd (upd deck ii (sel 0 deck jj)) jj ii =
                upd (upd D ii (sel 0 D jj)) jj (sel 0 D ii)).
    { unfold D. rewrite sel_upd_eq by lia. rewrite sel_upd_ne by lia.
      f_equal. unfold upd. destruct (Z.ltb_spec ii 0); [lia|].
      rewrite list_insert_insert_eq. reflexivity. }
    rewrite E. unfold shuffled.
    rewrite swap_take_Permutation by (unfold D; rewrite ?length_upd; lia).
    unfold D, upd. destruct (Z.ltb_spec ii 0); [lia|].
    replace (Z.to_nat (ii + 1)) with (S (Z.to_nat ii)) by lia.
    rewrite (take_S_r _ _ ii) by (apply list_lookup_insert_eq; lia).
    rewrite take_insert_ge by lia.
    rewrite seqZ_app by lia. rewrite Hsh. reflexivity.
  - apply swap_drop; lia.
  - rewrite !length_upd. reflexivity.
Qed.

Lemma shuffle_step_next (r ii count : Z) (deck0 deck : list Z) :
  0 <= r -> 1 <= ii < count -> count <= 2^16 ->
  count <= Z.of_nat (length deck0) ->
  shuffled ii deck /\
  drop (Z.to_nat count) deck = drop (Z.to_nat count) deck0 /\
  length deck = length deck0 ->
  u32 (ii + 1) = ii + 1 /\
  shuffled (ii + 1) (shuffle_step r ii deck) /\
  drop (Z.to_nat count) (shuffle_step r ii deck) = drop (Z.to_nat count) deck0 /\
  length (shuffle_step r ii deck) = length deck0.
Proof.
  intros Hr Hii Hc Hlen (Hsh & Hdrop & Hl).
  destruct (shuffle_step_spec r ii deck) as (H1 & _ & H3); try lia; [exact Hsh|].
  split; [unfold u32; apply Z.mod_small; lia|].
  split; [exact H1|]. split; [|congruence].
  rewrite <- Hdrop. unfold shuffle_step.
  assert (0 <= Z.rem r ii < ii) by (apply Z.rem_bound_pos; lia).
  apply swap_drop; lia.
Qed.

Lemma u8_nonneg (x : Z) : 0 <= u8 x.
Proof. unfold u8. apply Z.mod_pos_bound. lia. Qed.

Lemma u16_nonneg (x : Z) : 0 <= u16 x.
Proof. unfold u16. apply Z.mod_pos_bound. lia. Qed.

Ltac shuffle_next count deck0 H :=
  match goal with
  | |- context [shuffle_step ?r ?ii ?deck] =>
      lazymatch deck with
      | context [shuffle_step] => fail
      | _ =>
          let E := fresh "E" in
          let H' := fresh "Hinv" in
          destruct (shuffle_step_next r ii count deck0 deck
                      ltac:(first [apply u8_nonneg | apply u16_nonneg])
                      ltac:(lia) ltac:(assumption) ltac:(assumption) H)
            as (E & H');
          rewrite ?E in *;
          generalize dependent (shuffle_step r ii deck); intros
      end
  end.

Ltac shuffle_done count H :=
  match type of H with
  | shuffled ?k _ /\ _ =>
      replace k with count in H by lia;
      eexists _, _; split; [reflexivity|exact H]
  end.

Lemma ShuffleDeck16_bytes_spec (G : CatsChoice) (count : Z) (deck0 : list Z)
    (fuel : nat) :
  count <= 2^16 -> count <= Z.of_nat (length deck0) ->
  forall (g : prng G) (ii : Z) (deck : list Z),
  1 <= ii <= count -> count - ii < 4 * Z.of_nat fuel ->
  shuffled ii deck /\
  drop (Z.to_nat count) deck = drop (Z.to_nat count) deck0 /\
  length deck = length deck0 ->
  exists g' deck',
    ShuffleDeck16_bytes fuel G g ii count deck = Some (g', deck') /\
    shuffled count deck' /\
    drop (Z.to_nat count) deck' = drop (Z.to_nat count) deck0 /\
    length deck' = length deck0.
Proof.
  intros Hc Hlen. induction fuel as [|fuel IH]; intros g ii deck Hii Hfuel Hinv; [lia|].
  cbn [ShuffleDeck16_bytes]. destruct (Next G g) as [rv g1].
  assert (El : u32 (count - ii) = count - ii) by (unfold u32; apply Z.mod_small; lia).
  rewrite El.
  destruct (Z.eqb_spec (count - ii) 0) as [E0|N0].
  { shuffle_done count Hinv. }
  destruct (Z.eqb_spec (count - ii) 1) as [E1|N1].
  { cbv zeta. shuffle_next count deck0 Hinv. shuffle_done count Hinv0. }
  destruct (Z.eqb_spec (count - ii) 2) as [E2|N2].
  { cbv zeta. shuffle_next count deck0 Hinv. shuffle_next count deck0 Hinv0. shuffle_done count Hinv1. }
  destruct (Z.eqb_spec (count - ii) 3) as [E3|N3].
  { cbv zeta. shuffle_next count deck0 Hinv. shuffle_next count deck0 Hinv0. shuffle_next count deck0 Hinv1.
    shuffle_done count Hinv2. }
  cbv zeta. shuffle_next count deck0 Hinv. shuffle_next count deck0 Hinv0. shuffle_next count deck0 Hinv1.
  shuffle_next count deck0 Hinv2. apply IH; [lia|lia|assumption].
Qed.

Lemma ShuffleDeck16_halves_spec (G : CatsChoice) (count : Z) (deck0 : list Z)
    (fuel : nat) :
  count <= 2^16 -> count <= Z.of_nat (length deck0) ->
  forall (g : prng G) (ii : Z) (deck : list Z),
  1 <= ii <= count -> count - ii < 2 * Z.of_nat fuel ->
  shuffled ii deck /\
  drop (Z.to_nat count) deck = drop (Z.to_nat count) deck0 /\
  length deck = length deck0 ->
  exists g' deck',
    ShuffleDeck16_halves fuel G g ii count deck = Some (g', deck') /\
    shuffled count deck' /\
    drop (Z.to_nat count) deck' = drop (Z.to_nat count) deck0 /\
    length deck' = length deck0.
Proof.
  intros Hc Hlen. induction fuel as [|fuel IH]; intros g ii deck Hii Hfuel Hinv; [lia|].
  cbn [ShuffleDeck16_halves]. destruct (Next G g) as [rv g1].
  assert (El : u32 (count - ii) = count - ii) by (unfold u32; apply Z.mod_small; lia).
  rewrite El.
  destruct (Z.eqb_spec (count - ii) 0) as [E0|N0].
  { shuffle_done count Hinv. }
  destruct (Z.eqb_spec (count - ii) 1) as [E1|N1].
  { cbv zeta. shuffle_next count deck0 Hinv. shuffle_done count Hinv0. }
  cbv zeta. shuffle_next count deck0 Hinv. shuffle_next count deck0 Hinv0.
  apply IH; [lia|lia|assumption].
Qed.

(** X5.  For any generator, [ShuffleDeck16] called with a count between
    1 and 65536 and a deck of at least that many entries returns, leaves
    a permutation of [0 .. count) in the first [count] entries of the
    deck, and leaves the entries after them and the length as they
    were. *)
Theorem ShuffleDeck16_permutation (G : CatsChoice) (g : prng G)
    (deck : list Z) (count : Z) (fuel : nat) :
  1 <= count <= 2^16 -> count <= Z.of_nat (length deck) ->
  count <= 2 * Z.of_nat fuel ->
  exists g' deck',
    ShuffleDeck16 fuel G g deck count = Some (g', deck') /\
    take (Z.to_nat count) deck' ≡ₚ seqZ 0 count /\
    drop (Z.to_nat count) deck' = drop (Z.to_nat count) deck /\
    length deck' = length deck.
Proof.
  intros Hc Hlen Hfuel. unfold ShuffleDeck16.
  assert (Hinv : shuffled 1 (upd deck 0 0) /\
                 drop (Z.to_nat count) (upd deck 0 0) = drop (Z.to_nat count) deck /\
                 length (upd deck 0 0) = length deck).
  { split; [|split; [|apply length_upd]].
    - unfold shuffled, upd. cbn. destruct deck as [|x deck]; [cbn in Hlen; lia|].
      reflexivity.
    - unfold upd. cbn. rewrite drop_insert_lt by lia. reflexivity. }
  destruct (count <=? 256).
  - apply ShuffleDeck16_bytes_spec; try lia. exact Hinv.
  - apply ShuffleDeck16_halves_spec; try lia. exact Hinv.
Qed.

Lemma ShuffleDeck16_permutation_witness :
  exists g' deck',
    ShuffleDeck16 3 (scripted (fun _ _ => [])) [4660; 22136] [7; 7; 7; 7; 7; 7] 5
    = Some (g', deck') /\
    take 5 deck' ≡ₚ seqZ 0 5 /\
    drop 5 deck' = [7] /\
    length deck' = 6%nat.
Proof.
  apply (ShuffleDeck16_permutation (scripted (fun _ _ => [])) [4660; 22136]
           [7; 7; 7; 7; 7; 7] 5 3); cbn; lia.
Defined.

(** ** Regenerated rows *)

Lemma sel_xor_bytes (a b : list Z) (i : Z) :
  0 <= i < Z.of_nat (length a) -> i < Z.of_nat (length b) ->
  sel 0 (xor_bytes a b) i = Z.lxor (sel 0 a i) (sel 0 b i).
Proof.
  intros Ha Hb. unfold xor_bytes.
  unfold sel. destruct (Z.ltb_spec i 0); [lia|].
  rewrite lookup_zip_with.
  destruct (a !! Z.to_nat i) as [x|] eqn:Ea;
    [|apply lookup_ge_None_1 in Ea; lia].
  destruct (b !! Z.to_nat i) as [y|] eqn:Eb;
    [|apply lookup_ge_None_1 in Eb; lia].
  reflexivity.
Qed.

Lemma sel_bload (m : gmap Z Z) (off n i : Z) :
  0 <= i < n -> sel 0 (bload m off n) i = default 0 (m !! (off + i)).
Proof.
  intros Hi. unfold bload, sel. destruct (Z.ltb_spec i 0); [lia|].
  change (map ?f ?l) with (f <$> l).
  rewrite list_lookup_fmap, lookup_seqZ_lt by lia. cbn. do 3 f_equal. lia.
Qed.

Lemma length_bload (m : gmap Z Z) (off n : Z) : length (bload m off n) = Z.to_nat n.
Proof. unfold bload. rewrite length_map. apply length_seqZ. Qed.

Lemma fold_lxor_app (l1 l2 : list Z) :
  fold_right Z.lxor 0 (l1 ++ l2)
  = Z.lxor (fold_right Z.lxor 0 l1) (fold_right Z.lxor 0 l2).
Proof.
  induction l1 as [|x l1 IH]; cbn [fold_right app]; [reflexivity|].
  rewrite IH. symmetry. apply Z.lxor_assoc.
Qed.

Section Regenerated.
Context {H : Header}.
Variables (c : Codec) (dest k : Z).
Hypothesis Hk : dest <= k < dest + _block_bytes c.

Lemma recovery_block_byte (column_i : Z) :
  sel 0 (recovery_block c column_i) (k - dest) = recovery_byte c (k - dest) column_i.
Proof. unfold recovery_block, recovery_byte. apply sel_load. lia. Qed.

Lemma bmemxor_set_byte (out : gmap Z Z) (a b : Z) :
  bmemxor_set out dest (recovery_block c a) (recovery_block c b) !! k
  = Some (Z.lxor (recovery_byte c (k - dest) a) (recovery_byte c (k - dest) b)).
Proof.
  unfold bmemxor_set.
  rewrite bstore_lookup_in
    by (rewrite length_xor_bytes, !length_recovery_block; lia).
  rewrite sel_xor_bytes by (rewrite length_recovery_block; lia).
  rewrite !recovery_block_byte. reflexivity.
Qed.

Lemma bmemxor_byte (out : gmap Z Z) (a v : Z) :
  out !! k = Some v ->
  bmemxor out dest (recovery_block c a) (_block_bytes c) !! k
  = Some (Z.lxor v (recovery_byte c (k - dest) a)).
Proof.
  intros Hv. unfold bmemxor.
  rewrite bstore_lookup_in
    by (rewrite length_xor_bytes, length_bload, length_recovery_block; lia).
  rewrite sel_xor_bytes by (rewrite ?length_bload, ?length_recovery_block; lia).
  rewrite sel_bload by lia. rewrite recovery_block_byte.
  replace (dest + (k - dest)) with k by lia. rewrite Hv. reflexivity.
Qed.

Lemma bmemxor_add_byte (out : gmap Z Z) (a b v : Z) :
  out !! k = Some v ->
  bmemxor_add out dest (recovery_block c a) (recovery_block c b) (_block_bytes c) !! k
  = Some (Z.lxor v (Z.lxor (recovery_byte c (k - dest) a)
                          (recovery_byte c (k - dest) b))).
Proof.
  intros Hv. unfold bmemxor_add.
  rewrite bstore_lookup_in
    by (rewrite !length_xor_bytes, length_bload, !length_recovery_block; lia).
  rewrite sel_xor_bytes
    by (rewrite ?length_xor_bytes, ?length_bload, ?length_recovery_block; lia).
  rewrite sel_xor_bytes by (rewrite ?length_recovery_block; lia).
  rewrite sel_bload by lia. rewrite !recovery_block_byte.
  replace (dest + (k - dest)) with k by lia. rewrite Hv. reflexivity.
Qed.

Lemma mix_peel_columns_byte (n : nat) (peel_x peel_a : Z) (out : gmap Z Z) (v : Z) :
  out !! k = Some v ->
  snd (mix_peel_columns n c peel_x peel_a dest out) !! k
  = Some (Z.lxor v
            (fold_right Z.lxor 0
               (map (recovery_byte c (k - dest))
                  (column_walk n
                     (IterateNextColumn peel_x (_block_count c) (_block_next_prime c)
                        peel_a)
                     (_block_count c) (_block_next_prime c) peel_a)))).
Proof.
  revert peel_x out v. induction n as [|n IH]; intros peel_x out v Hv.
  - cbn. rewrite Z.lxor_0_r. exact Hv.
  - cbn [mix_peel_columns column_walk map fold_right].
    rewrite (IH _ _ _ (bmemxor_byte out _ v Hv)).
    rewrite Z.lxor_assoc. reflexivity.
Qed.

Lemma regenerate_peel_byte (shape : RowShape.t) (out : gmap Z Z) :
  0 <= RowShape.peel_weight shape < 2^16 ->
  regenerate_peel c shape dest out !! k
  = Some (fold_right Z.lxor 0
            (map (recovery_byte c (k - dest))
               ((if 1 <? RowShape.peel_weight shape then
                   column_walk (Z.to_nat (RowShape.peel_weight shape))
                     (RowShape.peel_x0 shape) (_block_count c) (_block_next_prime c)
                     (RowShape.peel_a shape)
                 else [RowShape.peel_x0 shape])
                ++ [_block_count c + RowShape.mix_x0 shape]))).
Proof.
  intros Hw. unfold regenerate_peel. cbv zeta.
  destruct (Z.ltb_spec 1 (RowShape.peel_weight shape)) as [Hgt|Hle].
  - rewrite (u16_small (RowShape.peel_weight shape - 1)) by lia.
    set (peel_x1 := IterateNextColumn (RowShape.peel_x0 shape) (_block_count c)
                      (_block_next_prime c) (RowShape.peel_a shape)).
    pose proof (mix_peel_columns_byte
                  (Z.to_nat (RowShape.peel_weight shape - 1 - 1)) peel_x1
                  (RowShape.peel_a shape) _ _
                  (bmemxor_set_byte out (RowShape.peel_x0 shape) peel_x1)) as Hmix.
    destruct (mix_peel_columns _ c _ _ dest _) as [peel_x out'].
    cbn [snd] in Hmix. rewrite (bmemxor_byte _ _ _ Hmix).
    replace (Z.to_nat (RowShape.peel_weight shape))
      with (S (S (Z.to_nat (RowShape.peel_weight shape - 1 - 1)))) by lia.
    cbn [column_walk]. rewrite map_app, fold_lxor_app.
    cbn [map fold_right]. rewrite Z.lxor_0_r. subst peel_x1.
    do 2 f_equal. apply Z.lxor_assoc.
  - rewrite bmemxor_set_byte. cbn. rewrite Z.lxor_0_r. reflexivity.
Qed.
End Regenerated.

Section RegeneratedFrame.
Context {H : Header}.
Variables (c : Codec) (dest k : Z).
Hypothesis Hk : ~ (dest <= k < dest + _block_bytes c).

Lemma bstore_block_frame (out : gmap Z Z) (bytes : list Z) :
  (length bytes <= Z.to_nat (_block_bytes c))%nat ->
  bstore out dest bytes !! k = out !! k.
Proof. intros Hlen. apply bstore_lookup_out. lia. Qed.

Lemma bmemxor_set_frame (out : gmap Z Z) (a b : Z) :
  bmemxor_set out dest (recovery_block c a) (recovery_block c b) !! k = out !! k.
Proof.
  apply bstore_block_frame. rewrite length_xor_bytes, !length_recovery_block. lia.
Qed.

Lemma bmemxor_frame (out : gmap Z Z) (a : Z) :
  bmemxor out dest (recovery_block c a) (_block_bytes c) !! k = out !! k.
Proof.
  apply bstore_block_frame.
  rewrite length_xor_bytes, length_bload, length_recovery_block. lia.
Qed.

Lemma bmemxor_add_frame (out : gmap Z Z) (a b : Z) :
  bmemxor_add out dest (recovery_block c a) (recovery_block c b) (_block_bytes c) !! k
  = out !! k.
Proof.
  apply bstore_block_frame.
  rewrite !length_xor_bytes, length_bload, !length_recovery_block. lia.
Qed.

Lemma mix_peel_columns_frame (n : nat) (peel_x peel_a : Z) (out : gmap Z Z) :
  snd (mix_peel_columns n c peel_x peel_a dest out) !! k = out !! k.
Proof.
  revert peel_x out. induction n as [|n IH]; intros peel_x out; [reflexivity|].
  cbn [mix_peel_columns]. rewrite IH. apply bmemxor_frame.
Qed.

Lemma regenerate_peel_frame (shape : RowShape.t) (out : gmap Z Z) :
  regenerate_peel c shape dest out !! k = out !! k.
Proof.
  unfold regenerate_peel. cbv zeta.
  destruct (1 <? RowShape.peel_weight shape).
  - match goal with
    | |- context [mix_peel_columns ?n c ?x ?a dest ?o] =>
        pose proof (mix_peel_columns_frame n x a o) as Hmix;
        destruct (mix_peel_columns n c x a dest o) as [peel_x out']
    end.
    cbn [snd] in Hmix. rewrite bmemxor_frame, Hmix. apply bmemxor_set_frame.
  - apply bmemxor_set_frame.
Qed.
End RegeneratedFrame.

Lemma GeneratePeelRow_weight_range (G : CatsChoice) (id p_seed n h : Z) :
  0 <= RowShape.peel_weight (GeneratePeelRow G id p_seed n h) < 2^16.
Proof.
  rewrite GeneratePeelRow_peel_weight.
  destruct (GeneratePeelRowWeight_least (first_draw G id p_seed) (u16 (n - 1)))
    as (i & Hi & _ & _ & ->).
  pose proof (u16_range (n - 1)). destruct (u16 (n - 1) <? i); lia.
Qed.

Section Rows.
Context {H : Header}.

(** The row written by one round of the second loop of
    [ReconstructOutput], and by [Encode] past the copy path. *)
Lemma regenerated_row_byte (c : Codec) (id dest : Z) (out : gmap Z Z) (k : Z) :
  0 <= k < _block_bytes c ->
  let shape := row_shape_of c id in
  let mix_x1 :=
    IterateNextColumn (RowShape.mix_x0 shape) (_added_count c)
      (_added_next_prime c) (RowShape.mix_a shape) in
  let mix_x2 :=
    IterateNextColumn mix_x1 (_added_count c) (_added_next_prime c)
      (RowShape.mix_a shape) in
  bmemxor
    (bmemxor (regenerate_peel c shape dest out) dest
       (recovery_block c (_block_count c + mix_x1)) (_block_bytes c))
    dest (recovery_block c (_block_count c + mix_x2)) (_block_bytes c) !! (dest + k)
  = Some (row_byte c shape k) /\
  bmemxor_add (regenerate_peel c shape dest out) dest
    (recovery_block c (_block_count c + mix_x1))
    (recovery_block c (_block_count c + mix_x2)) (_block_bytes c) !! (dest + k)
  = Some (row_byte c shape k).
Proof.
  intros Hk shape mix_x1 mix_x2.
  assert (Hin : dest <= dest + k < dest + _block_bytes c) by lia.
  pose proof (regenerate_peel_byte c dest (dest + k) Hin shape out
                (GeneratePeelRow_weight_range _ _ _ _ _)) as Hpeel.
  replace (dest + k - dest) with k in * by lia.
  assert (Hrow : forall v peelcols,
            v = fold_right Z.lxor 0
                  (map (recovery_byte c k)
                     (peelcols ++ [_block_count c + RowShape.mix_x0 shape])) ->
            Z.lxor v (Z.lxor (recovery_byte c k (_block_count c + mix_x1))
                             (recovery_byte c k (_block_count c + mix_x2)))
            = fold_right Z.lxor 0
                (map (recovery_byte c k)
                   (peelcols ++ [_block_count c + RowShape.mix_x0 shape;
                                 _block_count c + mix_x1; _block_count c + mix_x2]))).
  { intros v peelcols ->. rewrite !map_app, !fold_lxor_app. cbn [map fold_right].
    rewrite !Z.lxor_0_r, <- !Z.lxor_assoc. reflexivity. }
  split.
  - rewrite (bmemxor_byte c dest (dest + k) Hin _ _ _
               (bmemxor_byte c dest (dest + k) Hin _ _ _ Hpeel)).
    replace (dest + k - dest) with k by lia.
    rewrite Z.lxor_assoc. f_equal. apply Hrow. reflexivity.
  - rewrite (bmemxor_add_byte c dest (dest + k) Hin _ _ _ _ Hpeel).
    replace (dest + k - dest) with k by lia.
    f_equal. apply Hrow. reflexivity.
Qed.

(** X6.  Past the copy path ([CAT_COPY_FIRST_N] not defined, or an id
    from [_block_count] on), [Encode] overwrites the [_block_bytes]
    bytes of the block with the sum of the recovery blocks of the row's
    columns, the peel columns and the three mixing columns of the shape
    that [GeneratePeelRow] gives the id, whatever the block held, and
    writes nowhere else. *)
Theorem Encode_regenerated (id : Z) (block : gmap Z Z) (c : Codec) :
  CAT_COPY_FIRST_N && (id <? _block_count c) = false ->
  (forall k, 0 <= k < _block_bytes c ->
     Encode id block c !! k = Some (row_byte c (row_shape_of c id) k)) /\
  (forall k, ~ (0 <= k < _block_bytes c) -> Encode id block c !! k = block !! k).
Proof.
  intros Hpath. unfold Encode. rewrite Hpath. cbv zeta. split.
  - intros k Hk.
    destruct (regenerated_row_byte c id 0 block k Hk) as [Hrow _].
    cbv zeta in Hrow. exact Hrow.
  - intros k Hk.
    assert (Hout : ~ (0 <= k < 0 + _block_bytes c)) by lia.
    rewrite !(bmemxor_frame c 0 k Hout). apply (regenerate_peel_frame c 0 k Hout).
Qed.
End Rows.

Lemma Encode_regenerated_witness :
  Encode (H := pair_header) 7 (<[0 := 99]> ∅) reconstructing_codec !! 0 = Some 7 /\
  Encode (H := pair_header) 7 (<[0 := 99]> ∅) reconstructing_codec !! 2 = None.
Proof.
  destruct (Encode_regenerated (H := pair_header) 7 (<[0 := 99]> ∅)
              reconstructing_codec) as [Hin Hout]; [reflexivity|].
  split; [rewrite Hin by (cbn; lia)|rewrite Hout by (cbn; lia)]; reflexivity.
Defined.

Section Reconstruct.
Context {H : Header}.

Lemma regenerate_rows_frame (n : nat) (row_i : Z) (c : Codec)
    (copied_rows : list Z) (out : gmap Z Z) (p : Z) :
  0 <= row_i -> row_i + Z.of_nat n <= 2^16 ->
  (forall r, row_i <= r < row_i + Z.of_nat n ->
     CAT_COPY_FIRST_N && negb (sel 0 copied_rows r =? 0) = false ->
     ~ (_block_bytes c * r <= p < _block_bytes c * r + _block_bytes c)) ->
  regenerate_rows n row_i c copied_rows out !! p = out !! p.
Proof.
  revert row_i out. induction n as [|n IH]; intros row_i out Hrow Hn Hp;
    [reflexivity|].
  cbn [regenerate_rows]. cbv zeta.
  set (skip := CAT_COPY_FIRST_N && negb (sel 0 copied_rows row_i =? 0)).
  match goal with
  | |- regenerate_rows n _ c copied_rows ?o !! p = _ => set (out1 := o)
  end.
  assert (H1 : out1 !! p = out !! p).
  { unfold out1. destruct skip eqn:Hskip; [reflexivity|].
    assert (Hout : ~ (_block_bytes c * row_i <= p
                      < _block_bytes c * row_i + _block_bytes c))
      by (apply Hp; [lia|exact Hskip]).
    rewrite (bmemxor_add_frame c _ p Hout). apply (regenerate_peel_frame c _ p Hout). }
  clearbody out1. rewrite <- H1. destruct n as [|n]; [reflexivity|].
  rewrite (u16_small (row_i + 1)) by lia. apply IH; [lia|lia|].
  intros r Hr. apply Hp. lia.
Qed.

Lemma regenerate_rows_row (n : nat) (row_i : Z) (c : Codec)
    (copied_rows : list Z) (out : gmap Z Z) (r k : Z) :
  0 <= row_i -> row_i + Z.of_nat n <= 2^16 ->
  row_i <= r < row_i + Z.of_nat n ->
  CAT_COPY_FIRST_N && negb (sel 0 copied_rows r =? 0) = false ->
  0 <= k < _block_bytes c ->
  regenerate_rows n row_i c copied_rows out !! (_block_bytes c * r + k)
  = Some (row_byte c (row_shape_of c r) k).
Proof.
  revert row_i out. induction n as [|n IH]; intros row_i out Hrow Hn Hr Hflag Hk;
    [lia|].
  cbn [regenerate_rows]. cbv zeta.
  set (skip := CAT_COPY_FIRST_N && negb (sel 0 copied_rows row_i =? 0)).
  match goal with
  | |- regenerate_rows n _ c copied_rows ?o !! _ = _ => set (out1 := o)
  end.
  destruct (Z.eq_dec r row_i) as [->|Hne].
  - assert (H1 : out1 !! (_block_bytes c * row_i + k)
                 = Some (row_byte c (row_shape_of c row_i) k)).
    { unfold out1, skip. rewrite Hflag.
      destruct (regenerated_row_byte c row_i (_block_bytes c * row_i) out k Hk)
        as [_ Hrow']. cbv zeta in Hrow'. exact Hrow'. }
    clearbody out1. rewrite <- H1. destruct n as [|n]; [reflexivity|].
    rewrite (u16_small (row_i + 1)) by lia.
    apply regenerate_rows_frame; [lia|lia|]. intros r Hr' _. nia.
  - clearbody out1. destruct n as [|n]; [lia|].
    rewrite (u16_small (row_i + 1)) by lia. apply IH; try assumption; lia.
Qed.

Lemma copy_received_rows_frame (n : nat) (row_i : Z) (c : Codec)
    (copied_rows : list Z) (out : gmap Z Z) (p : Z) :
  0 <= row_i -> row_i + Z.of_nat n <= 2^16 ->
  (forall r, row_i <= r < row_i + Z.of_nat n ->
     let id := PeelRow.id (sel PeelRow.zero (_peel_rows c) r) in
     id < _block_count c ->
     ~ (_block_bytes c * id <= p < _block_bytes c * id + copy_length c id)) ->
  snd (copy_received_rows n row_i c copied_rows out) !! p = out !! p.
Proof.
  revert row_i copied_rows out.
  induction n as [|n IH]; intros row_i copied_rows out Hrow Hn Hp; [reflexivity|].
  cbn [copy_received_rows]. cbv zeta.
  match goal with
  | |- context [if ?b then (?a1, ?o1) else (?a2, ?o2)] =>
      assert (H1 : snd (if b then (a1, o1) else (a2, o2)) !! p = out !! p);
      [destruct b eqn:Hb; cbn [snd]; [|reflexivity]|
       destruct (if b then (a1, o1) else (a2, o2)) as [copied1 out1]]
  end.
  { apply Z.ltb_lt in Hb. specialize (Hp row_i ltac:(lia) Hb).
    unfold copy_length in Hp. apply bstore_lookup_out. rewrite length_load.
    destruct (negb _); lia. }
  cbn [snd] in H1. rewrite <- H1. destruct n as [|n]; [reflexivity|].
  rewrite (u16_small (row_i + 1)) by lia. apply IH; [lia|lia|].
  intros r Hr. apply Hp. lia.
Qed.

Lemma copy_received_rows_flag_kept (n : nat) (row_i : Z) (c : Codec)
    (copied_rows : list Z) (out : gmap Z Z) (id : Z) :
  sel 0 copied_rows id <> 0 ->
  sel 0 (fst (copy_received_rows n row_i c copied_rows out)) id <> 0 /\
  length (fst (copy_received_rows n row_i c copied_rows out)) = length copied_rows.
Proof.
  revert row_i copied_rows out.
  induction n as [|n IH]; intros row_i copied_rows out Hid; [split; [exact Hid|reflexivity]|].
  cbn [copy_received_rows]. cbv zeta.
  match goal with
  | |- context [if ?b then (?a1, ?o1) else (?a2, ?o2)] =>
      assert (H1 : sel 0 (fst (if b then (a1, o1) else (a2, o2))) id <> 0 /\
                   length (fst (if b then (a1, o1) else (a2, o2))) = length copied_rows);
      [destruct b; cbn [fst]; [|split; [exact Hid|reflexivity]]|
       destruct (if b then (a1, o1) else (a2, o2)) as [copied1 out1]]
  end.
  { split; [|apply length_upd].
    set (id' := PeelRow.id _). destruct (Z.eq_dec id' id) as [->|Hne].
    - unfold sel, upd in *. destruct (Z.ltb_spec id 0); [exact Hid|].
      destruct (copied_rows !! Z.to_nat id) as [x|] eqn:E; [|cbn in Hid; congruence].
      rewrite list_lookup_insert_eq by (eapply lookup_lt_Some; exact E).
      cbn. discriminate.
    - rewrite sel_upd_ne by exact Hne. exact Hid. }
  cbn [fst] in H1. destruct H1 as [H1 H2].
  destruct (IH (u16 (row_i + 1)) copied1 out1 H1) as [H3 H4].
  split; [exact H3|congruence].
Qed.

Lemma copy_length_disjoint (c : Codec) (id id' k : Z) :
  0 <= _block_bytes c -> id < _block_count c -> id' < _block_count c ->
  id' <> id -> 0 <= k < copy_length c id ->
  ~ (_block_bytes c * id' <= _block_bytes c * id + k
     < _block_bytes c * id' + copy_length c id').
Proof.
  unfold copy_length. intros HM Hid Hid' Hne Hk.
  destruct (Z.eqb_spec id (_block_count c - 1));
    destruct (Z.eqb_spec id' (_block_count c - 1)); cbn [negb] in *; nia.
Qed.

Lemma copy_received_rows_row (n : nat) (row_i : Z) (c : Codec)
    (copied_rows : list Z) (out : gmap Z Z) (j k : Z) :
  0 <= row_i -> row_i + Z.of_nat n <= 2^16 ->
  row_i <= j < row_i + Z.of_nat n ->
  let id := PeelRow.id (sel PeelRow.zero (_peel_rows c) j) in
  0 <= _block_bytes c ->
  0 <= id < _block_count c ->
  id < Z.of_nat (length copied_rows) ->
  (forall r, j < r < row_i + Z.of_nat n ->
     PeelRow.id (sel PeelRow.zero (_peel_rows c) r) <> id) ->
  0 <= k < copy_length c id ->
  sel 0 (fst (copy_received_rows n row_i c copied_rows out)) id <> 0 /\
  snd (copy_received_rows n row_i c copied_rows out) !! (_block_bytes c * id + k)
  = Some (sel 0 (_input_blocks c) (_block_bytes c * j + k)).
Proof.
  intros Hrow Hn Hj id HM Hid Hlen Hlast Hk. subst id.
  revert row_i copied_rows out Hrow Hn Hj Hlen Hlast.
  induction n as [|n IH]; intros row_i copied_rows out Hrow Hn Hj Hlen Hlast; [lia|].
  cbn [copy_received_rows]. cbv zeta.
  destruct (Z.eq_dec j row_i) as [->|Hne].
  - set (id := PeelRow.id (sel PeelRow.zero (_peel_rows c) row_i)) in *.
    destruct (Z.ltb_spec id (_block_count c)) as [_|]; [|lia].
    fold (copy_length c id).
    assert (Hflag : sel 0 (upd copied_rows id 1) id <> 0)
      by (rewrite sel_upd_eq by lia; discriminate).
    assert (Hval : bstore out (_block_bytes c * id)
                     (load (_input_blocks c) (_block_bytes c * row_i) (copy_length c id))
                   !! (_block_bytes c * id + k)
                   = Some (sel 0 (_input_blocks c) (_block_bytes c * row_i + k))).
    { rewrite bstore_lookup_in by (rewrite length_load; lia).
      rewrite sel_load by lia. do 2 f_equal. lia. }
    split.
    + apply copy_received_rows_flag_kept. exact Hflag.
    + rewrite <- Hval. destruct n as [|n]; [reflexivity|].
      rewrite (u16_small (row_i + 1)) by lia.
      apply copy_received_rows_frame; [lia|lia|].
      intros r Hr id' Hid'. apply copy_length_disjoint; try assumption; try lia.
      apply Hlast. lia.
  - match goal with
    | |- context [if ?b then (?a1, ?o1) else (?a2, ?o2)] =>
        assert (H1 : length (fst (if b then (a1, o1) else (a2, o2)))
                     = length copied_rows)
          by (destruct b; cbn [fst]; [apply length_upd|reflexivity]);
        destruct (if b then (a1, o1) else (a2, o2)) as [copied1 out1]
    end.
    cbn [fst] in H1. destruct n as [|n]; [lia|].
    rewrite (u16_small (row_i + 1)) by lia.
    apply IH; try lia. intros r Hr. apply Hlast. lia.
Qed.
End Reconstruct.

Section ReconstructTheorems.
Context {H : Header}.

(** X7.  [ReconstructOutput] regenerates every block of the message that
    no held row carries (every block when [CAT_COPY_FIRST_N] is not
    defined): the [_block_bytes] bytes at the block's offset are the sum
    of the recovery blocks of the columns of the row with the block's
    number, which are the bytes [Encode] produces for this id when it
    does not copy. *)
Theorem ReconstructOutput_regenerated (message_out : gmap Z Z) (c : Codec) (r k : Z) :
  0 < _block_count c < 2^16 -> 0 <= _used_count c <= 2^16 ->
  0 <= r < _block_count c ->
  CAT_COPY_FIRST_N = false \/
  (forall row_i, 0 <= row_i < _used_count c ->
     PeelRow.id (sel PeelRow.zero (_peel_rows c) row_i) <> r) ->
  0 <= k < _block_bytes c ->
  ReconstructOutput message_out c !! (_block_bytes c * r + k)
  = Some (row_byte c (row_shape_of c r) k) /\
  (CAT_COPY_FIRST_N = false ->
   forall block,
     ReconstructOutput message_out c !! (_block_bytes c * r + k)
     = Encode r block c !! k).
Proof.
  intros HN Hu Hr Hmiss Hk.
  assert (Hrow : ReconstructOutput message_out c !! (_block_bytes c * r + k)
                 = Some (row_byte c (row_shape_of c r) k)).
  { unfold ReconstructOutput. destruct CAT_COPY_FIRST_N eqn:Hcopy.
    - destruct Hmiss as [Hmiss|Hmiss]; [discriminate|].
      pose proof (copy_received_rows_not_copied (Z.to_nat (_used_count c)) 0 c
                    (replicate (Z.to_nat (_block_count c)) 0) message_out r) as Hnot.
      destruct (copy_received_rows _ 0 c _ message_out) as [copied_rows out].
      cbn [fst] in Hnot.
      assert (Hflag : sel 0 copied_rows r = 0).
      { apply Hnot; [lia|lia|apply (sel_replicate _ 0)|].
        intros row_i Hrow_i. apply Hmiss. lia. }
      apply regenerate_rows_row; [lia|lia|lia| |lia]. rewrite Hcopy, Hflag. reflexivity.
    - apply regenerate_rows_row; [lia|lia|lia| |lia]. rewrite Hcopy. reflexivity. }
  split; [exact Hrow|]. intros Hcopy block. rewrite Hrow. symmetry.
  unfold Encode. rewrite Hcopy. cbn [andb]. cbv zeta.
  destruct (regenerated_row_byte c r 0 block k Hk) as [HE _].
  cbv zeta in HE. exact HE.
Qed.

(** X8.  With [CAT_COPY_FIRST_N], a held row whose id is a block of the
    message is copied out by [ReconstructOutput]: the bytes of its
    input block, [_output_final_bytes] of them for the last block and
    [_block_bytes] otherwise, stand at the block's offset in the
    output, provided no row held after it has the same id. *)
Theorem ReconstructOutput_copied (message_out : gmap Z Z) (c : Codec) (j k : Z) :
  CAT_COPY_FIRST_N = true ->
  0 < _block_count c < 2^16 -> 0 <= _used_count c <= 2^16 ->
  0 <= _block_bytes c ->
  0 <= j < _used_count c ->
  let id := PeelRow.id (sel PeelRow.zero (_peel_rows c) j) in
  0 <= id < _block_count c ->
  (forall row_i, j < row_i < _used_count c ->
     PeelRow.id (sel PeelRow.zero (_peel_rows c) row_i) <> id) ->
  0 <= k < copy_length c id ->
  ReconstructOutput message_out c !! (_block_bytes c * id + k)
  = Some (sel 0 (_input_blocks c) (_block_bytes c * j + k)).
Proof.
  intros Hcopy HN Hu HM Hj id Hid Hlast Hk.
  unfold ReconstructOutput. rewrite Hcopy.
  destruct (copy_received_rows_row (Z.to_nat (_used_count c)) 0 c
              (replicate (Z.to_nat (_block_count c)) 0) message_out j k)
    as [Hflag Hval]; try lia; try assumption.
  { rewrite length_replicate. fold id. lia. }
  { intros r Hr. apply Hlast. lia. }
  fold id in Hflag, Hval.
  destruct (copy_received_rows _ 0 c _ message_out) as [copied_rows out].
  cbn [fst snd] in Hflag, Hval. rewrite <- Hval.
  apply regenerate_rows_frame; [lia|lia|].
  intros r Hr Hskip. destruct (Z.eq_dec r id) as [->|Hne].
  - rewrite Hcopy in Hskip. cbn [andb] in Hskip.
    destruct (Z.eqb_spec (sel 0 copied_rows id) 0); [contradiction|discriminate].
  - unfold copy_length in Hk.
    destruct (Z.eqb_spec id (_block_count c - 1)); cbn [negb] in Hk; nia.
Qed.

(** X9.  When the final block is no longer than a block and the ids of
    the held rows are not negative, [ReconstructOutput] leaves every
    offset outside the [_block_count] blocks of the output as it was:
    nothing before offset 0 and nothing from
    [_block_bytes * _block_count] on is written. *)
Theorem ReconstructOutput_bounds (message_out : gmap Z Z) (c : Codec) (p : Z) :
  0 < _block_count c < 2^16 -> 0 <= _used_count c <= 2^16 ->
  0 <= _block_bytes c -> _output_final_bytes c <= _block_bytes c ->
  (forall row_i, 0 <= row_i < _used_count c ->
     0 <= PeelRow.id (sel PeelRow.zero (_peel_rows c) row_i)) ->
  ~ (0 <= p < _block_bytes c * _block_count c) ->
  ReconstructOutput message_out c !! p = message_out !! p.
Proof.
  intros HN Hu HM HF Hids Hp. unfold ReconstructOutput.
  assert (Hregen : forall copied_rows out,
            regenerate_rows (Z.to_nat (_block_count c)) 0 c copied_rows out !! p
            = out !! p).
  { intros copied_rows out. apply regenerate_rows_frame; [lia|lia|].
    intros r Hr _. nia. }
  destruct CAT_COPY_FIRST_N; [|apply Hregen].
  pose proof (copy_received_rows_frame (Z.to_nat (_used_count c)) 0 c
                (replicate (Z.to_nat (_block_count c)) 0) message_out p) as Hcopy.
  destruct (copy_received_rows _ 0 c _ message_out) as [copied_rows out].
  cbn [snd] in Hcopy. rewrite Hregen. apply Hcopy; [lia|lia|].
  intros r Hr Hid. specialize (Hids r ltac:(lia)). unfold copy_length.
  set (id := PeelRow.id _) in *.
  destruct (Z.eqb_spec id (_block_count c - 1)); cbn [negb]; nia.
Qed.
End ReconstructTheorems.

Lemma ReconstructOutput_regenerated_witness :
  ReconstructOutput (H := pair_header) ∅ reconstructing_codec !! 1 = Some 8.
Proof.
  assert (Hmiss : forall row_i,
            0 <= row_i < _used_count reconstructing_codec ->
            PeelRow.id (sel PeelRow.zero (_peel_rows reconstructing_codec) row_i) <> 0).
  { intros row_i Hrow_i. cbn in Hrow_i.
    assert (Hcases : row_i = 0 \/ row_i = 1 \/ row_i = 2) by lia.
    destruct Hcases as [-> | [-> | ->]]; discriminate. }
  rewrite (proj1 (ReconstructOutput_regenerated (H := pair_header) ∅
                    reconstructing_codec 0 1
                    ltac:(cbn; lia) ltac:(cbn; lia) ltac:(cbn; lia)
                    (or_intror Hmiss) ltac:(cbn; lia))).
  reflexivity.
Defined.

Lemma ReconstructOutput_copied_witness :
  ReconstructOutput (H := pair_header) ∅ reconstructing_codec !! 2 = Some 21.
Proof.
  assert (Hlast : forall row_i,
            0 < row_i < _used_count reconstructing_codec ->
            PeelRow.id (sel PeelRow.zero (_peel_rows reconstructing_codec) row_i) <> 1).
  { intros row_i Hrow_i. cbn in Hrow_i.
    assert (Hcases : row_i = 1 \/ row_i = 2) by lia.
    destruct Hcases as [-> | ->]; discriminate. }
  exact (ReconstructOutput_copied (H := pair_header) ∅ reconstructing_codec 0 0
           eq_refl ltac:(cbn; lia) ltac:(cbn; lia) ltac:(cbn; lia) ltac:(cbn; lia)
           ltac:(vm_compute; split; [discriminate|reflexivity]) Hlast
           ltac:(vm_compute; split; [discriminate|reflexivity])).
Defined.

Lemma ReconstructOutput_bounds_witness :
  ReconstructOutput (H := pair_header) ∅ reconstructing_codec !! 6 = None.
Proof.
  assert (Hids : forall row_i,
            0 <= row_i < _used_count reconstructing_codec ->
            0 <= PeelRow.id (sel PeelRow.zero (_peel_rows reconstructing_codec) row_i)).
  { intros row_i Hrow_i. cbn in Hrow_i.
    assert (Hcases : row_i = 0 \/ row_i = 1 \/ row_i = 2) by lia.
    destruct Hcases as [-> | [-> | ->]]; vm_compute; discriminate. }
  exact (ReconstructOutput_bounds (H := pair_header) ∅ reconstructing_codec 6
           ltac:(cbn; lia) ltac:(cbn; lia) ltac:(cbn; lia) ltac:(cbn; lia)
           Hids ltac:(cbn; lia)).
Defined.

(** ** Column invariants of the peeling functions *)

Section ColumnInvariant.
Context {H : Header}.
Variable Q : Z -> PeelColumn.t -> Prop.
Variable n : nat.
Hypothesis Q_stable : column_stable Q.

Lemma columns_all_same_cols (c c' : Codec) :
  _peel_cols c' = _peel_cols c -> columns_all Q n c -> columns_all Q n c'.
Proof. intros E. unfold columns_all, get_col. rewrite E. auto. Qed.

Lemma columns_all_modify_col (f : PeelColumn.t -> PeelColumn.t) (i : Z) (c : Codec) :
  (Q i (get_col c i) -> Q i (f (get_col c i))) ->
  columns_all Q n c -> columns_all Q n (modify_col f i c).
Proof.
  intros Hf [Hlen HQ]. unfold columns_all, modify_col, get_col in *. codec_simpl.
  split; [rewrite length_upd; exact Hlen|]. intros j Hj.
  destruct (Z.eq_dec i j) as [->|Hne]; [|rewrite sel_upd_ne by exact Hne; auto].
  rewrite sel_upd_eq by lia. auto.
Qed.

Lemma columns_all_modify_row (f : PeelRow.t -> PeelRow.t) (i : Z) (c : Codec) :
  columns_all Q n c -> columns_all Q n (modify_row f i c).
Proof. apply columns_all_same_cols. reflexivity. Qed.

Lemma columns_all_link_deferred_row (row_i : Z) (c : Codec) :
  columns_all Q n c -> columns_all Q n (link_deferred_row row_i c).
Proof. apply columns_all_same_cols. reflexivity. Qed.

Lemma columns_all_incr (i : Z) (c : Codec) :
  columns_all Q n c -> columns_all Q n (modify_col incr_w2_refs i c).
Proof.
  destruct Q_stable as (_ & Hincr & _). apply columns_all_modify_col. apply Hincr.
Qed.

Lemma columns_all_mark (m : MarkTypes) (i : Z) (c : Codec) :
  m <> MARK_TODO ->
  columns_all Q n c -> columns_all Q n (modify_col (PeelColumn.set_mark m) i c).
Proof.
  destruct Q_stable as (Hmark & _). intros Hm. apply columns_all_modify_col.
  apply Hmark. exact Hm.
Qed.

Lemma columns_all_next (v i : Z) (c : Codec) :
  columns_all Q n c -> columns_all Q n (modify_col (PeelColumn.set_next v) i c).
Proof.
  destruct Q_stable as (_ & _ & _ & Hnext). apply columns_all_modify_col. apply Hnext.
Qed.

Lemma RescanRow_columns (k : nat) (r col a uc : Z) (c : Codec) :
  columns_all Q n c -> columns_all Q n (snd (RescanRow k r col a uc c)).
Proof.
  revert col uc c. induction k as [|k IH]; intros col uc c HQ; [exact HQ|].
  rewrite RescanRow_step. cbv zeta. apply IH.
  destruct (is_todo c col); [|exact HQ].
  apply columns_all_incr. apply columns_all_modify_row. exact HQ.
Qed.

Lemma PeelAvalanche_row_columns (peel : Z -> Z -> Codec -> option Codec)
    (column_i r : Z) (c c' : Codec) :
  peel_keeps_columns Q n peel ->
  PeelAvalanche_row peel column_i r c = Some c' ->
  columns_all Q n c -> columns_all Q n c'.
Proof.
  intros Hpeel. unfold PeelAvalanche_row.
  set (c1 := modify_row _ r c). intros Hrun HQ.
  assert (HQ1 : columns_all Q n c1) by (apply columns_all_modify_row; exact HQ).
  clearbody c1. revert Hrun.
  destruct (_ =? 1).
  - match goal with |- context [is_todo c1 ?x] => destruct (is_todo c1 x) end.
    + intros Hrun. eapply Hpeel; eauto.
    + intros [= <-]. apply columns_all_link_deferred_row. exact HQ1.
  - destruct (_ =? 2); [|intros [= <-]; exact HQ1].
    match goal with
    | |- context [RescanRow ?k ?a ?b ?d ?e ?f] =>
        pose proof (RescanRow_columns k a b d e f HQ1) as HQ2;
        destruct (RescanRow k a b d e f) as [uc c2]
    end.
    cbn [snd] in HQ2.
    destruct (uc <=? 1); [|intros [= <-]; exact HQ2].
    destruct (uc =? 1).
    + intros Hrun. eapply Hpeel; [exact Hrun|].
      apply columns_all_modify_row. exact HQ2.
    + intros [= <-]. apply columns_all_link_deferred_row.
      apply columns_all_modify_row. exact HQ2.
Qed.

Lemma PeelAvalanche_rows_columns (peel : Z -> Z -> Codec -> option Codec)
    (column_i : Z) (rows : list Z) (c c' : Codec) :
  peel_keeps_columns Q n peel ->
  PeelAvalanche_rows peel column_i rows c = Some c' ->
  columns_all Q n c -> columns_all Q n c'.
Proof.
  intros Hpeel. revert c. induction rows as [|r rows IH]; intros c Hrun HQ.
  - cbn in Hrun. injection Hrun as <-. exact HQ.
  - cbn [PeelAvalanche_rows] in Hrun.
    destruct (PeelAvalanche_row peel column_i r c) as [c1|] eqn:E1; [|discriminate].
    apply (IH c1 Hrun). eapply PeelAvalanche_row_columns; eauto.
Qed.

Lemma PeelAvalanche_columns (peel : Z -> Z -> Codec -> option Codec)
    (column_i : Z) (c c' : Codec) :
  peel_keeps_columns Q n peel ->
  PeelAvalanche peel column_i c = Some c' ->
  columns_all Q n c -> columns_all Q n c'.
Proof. intros Hpeel. unfold PeelAvalanche. apply PeelAvalanche_rows_columns. exact Hpeel. Qed.
End ColumnInvariant.

Lemma marked_at_stable (j : Z) : column_stable (marked_at j).
Proof.
  unfold column_stable, marked_at.
  split; [|split; [|split]]; intros; cbn; auto.
Qed.

Lemma column_stable_and (Q1 Q2 : Z -> PeelColumn.t -> Prop) :
  column_stable Q1 -> column_stable Q2 ->
  column_stable (fun i x => Q1 i x /\ Q2 i x).
Proof.
  intros (A1 & A2 & A3 & A4) (B1 & B2 & B3 & B4).
  split; [|split; [|split]]; intros; split; intuition auto.
Qed.

Lemma w2_refs_u16_stable : column_stable w2_refs_u16.
Proof.
  unfold column_stable, w2_refs_u16.
  split; [|split; [|split]]; intros; unfold incr_w2_refs in *; cbn in *;
    try contradiction; try apply u16_range; auto.
Qed.

Section PeelInvariant.
Context {H : Header}.

Lemma modify_col_outside (f : PeelColumn.t -> PeelColumn.t) (i : Z) (c : Codec) :
  ~ (0 <= i < Z.of_nat (length (_peel_cols c))) ->
  _peel_cols (modify_col f i c) = _peel_cols c.
Proof.
  intros Hout. unfold modify_col. codec_simpl.
  destruct (Z.ltb_spec i 0) as [Hneg|Hpos].
  - unfold upd. destruct (Z.ltb_spec i 0); [reflexivity|lia].
  - apply upd_out_of_range. lia.
Qed.

Lemma Peel_columns (fuel : nat) (n : nat) :
  forall Q, column_stable Q -> forall row_i, peel_keeps_columns Q n (Peel fuel row_i).
Proof.
  induction fuel as [|fuel IH]; intros Q HQs row_i row column_i c c' Hrun HQ;
    [discriminate|].
  cbn [Peel] in Hrun.
  set (c1 := modify_col (PeelColumn.set_mark MARK_PEEL) column_i c) in Hrun.
  match type of Hrun with
  | match PeelAvalanche _ _ ?c6 with _ => _ end = _ =>
      assert (Hcols : _peel_cols c6 = _peel_cols c1)
        by (destruct (_peel_tail_rows _); reflexivity);
      set (c6' := c6) in *; clearbody c6'
  end.
  destruct (PeelAvalanche (fun r => Peel fuel r r) column_i c6') as [c7|] eqn:E7;
    [|discriminate].
  injection Hrun as <-.
  assert (Hcase : 0 <= column_i < Z.of_nat n \/ ~ (0 <= column_i < Z.of_nat n)) by lia.
  destruct Hcase as [Hin|Hout].
  - set (Q' := fun i x => Q i x /\ marked_at column_i i x).
    assert (HQs' : column_stable Q')
      by (apply column_stable_and; [exact HQs|apply marked_at_stable]).
    assert (HQ7 : columns_all Q' n c7).
    { eapply (PeelAvalanche_columns Q' n HQs'); [|exact E7|].
      - intros r col c0 c0' Hrun0. apply (IH Q' HQs' r r col c0 c0' Hrun0).
      - eapply columns_all_same_cols; [exact Hcols|].
        destruct HQ as [Hlen HQ]. split; [unfold c1, modify_col; codec_simpl;
                                           rewrite length_upd; exact Hlen|].
        intros i Hi. unfold c1, Q', marked_at, modify_col, get_col. codec_simpl.
        destruct (Z.eq_dec column_i i) as [->|Hne].
        + rewrite sel_upd_eq by lia. split; [|intros _; cbn; discriminate].
          destruct HQs as (Hmark & _). apply Hmark; [discriminate|apply HQ; lia].
        + rewrite sel_upd_ne by exact Hne. split; [apply HQ; lia|].
          intros E. congruence. }
    apply columns_all_modify_col.
    + intros Hq. destruct HQ7 as [_ HQ7]. destruct (HQ7 column_i Hin) as [_ Hm].
      destruct HQs as (_ & _ & Hpeel_row & _).
      apply Hpeel_row; [apply Hm; reflexivity|exact Hq].
    + destruct HQ7 as [Hlen HQ7]. split; [exact Hlen|]. intros i Hi. apply (HQ7 i Hi).
  - assert (HQ7 : columns_all Q n c7).
    { eapply (PeelAvalanche_columns Q n HQs); [|exact E7|].
      - intros r col c0 c0' Hrun0. apply (IH Q HQs r r col c0 c0' Hrun0).
      - eapply columns_all_same_cols; [exact Hcols|].
        eapply columns_all_same_cols; [|exact HQ].
        apply modify_col_outside. destruct HQ as [-> _]. exact Hout. }
    eapply columns_all_same_cols; [|exact HQ7].
    apply modify_col_outside. destruct HQ7 as [-> _]. exact Hout.
Qed.

Lemma OpportunisticPeeling_columns (Q : Z -> PeelColumn.t -> Prop) (n : nat)
    (fuel : nat) (row_i id : Z) (c c' : Codec) (ok : bool) :
  column_stable Q ->
  OpportunisticPeeling fuel row_i id c = Some (ok, c') ->
  columns_all Q n c -> columns_all Q n c'.
Proof.
  intros HQs. unfold OpportunisticPeeling. cbv zeta. intros Hrun HQ.
  match type of Hrun with
  | context [AddRowReferences ?k ?r ?x ?a ?uc ?um ?c0] =>
      pose proof (AddRowReferences_spec k r x a uc um c0) as (_ & Hcols & _);
      destruct (AddRowReferences k r x a uc um c0) as [[[uc' um']|] c1]
  end; cbn [snd] in Hcols.
  2:{ injection Hrun as _ <-. eapply columns_all_same_cols; [exact Hcols|].
      do 2 apply columns_all_modify_row. exact HQ. }
  assert (HQ1 : columns_all Q n c1).
  { eapply columns_all_same_cols; [exact Hcols|].
    do 2 apply columns_all_modify_row. exact HQ. }
  clear Hcols. revert Hrun.
  destruct (uc' =? 0).
  { intros [= _ <-]. apply columns_all_link_deferred_row.
    apply columns_all_modify_row. exact HQ1. }
  destruct (uc' =? 1).
  { destruct (Peel fuel _ row_i (fst um') _) as [c2|] eqn:E2; [|discriminate].
    intros [= _ <-]. eapply (Peel_columns fuel n Q HQs); [exact E2|].
    apply columns_all_modify_row. exact HQ1. }
  destruct (uc' =? 2); intros [= _ <-].
  - do 2 (apply columns_all_incr; [exact HQs|]).
    do 3 apply columns_all_modify_row. exact HQ1.
  - apply columns_all_modify_row. exact HQ1.
Qed.

Lemma GreedyPeeling_loop_columns (Q : Z -> PeelColumn.t -> Prop) (n : nat)
    (fuel : nat) (c c' : Codec) :
  column_stable Q ->
  GreedyPeeling_loop fuel c = Some c' -> columns_all Q n c -> columns_all Q n c'.
Proof.
  intros HQs. revert c. induction fuel as [|fuel IH]; intros c Hrun HQ; [discriminate|].
  cbn [GreedyPeeling_loop] in Hrun.
  destruct (GreedyBest _ 0 (LIST_TERM, 0, 0) c) as [[b w] r].
  destruct (b =? LIST_TERM); [injection Hrun as <-; exact HQ|].
  match type of Hrun with
  | match PeelAvalanche _ _ ?c4 with _ => _ end = _ =>
      assert (HQ4 : columns_all Q n c4); [|set (c4' := c4) in *; clearbody c4']
  end.
  { eapply columns_all_same_cols; [reflexivity|].
    apply columns_all_next; [exact HQs|].
    eapply columns_all_same_cols; [reflexivity|].
    apply columns_all_mark; [exact HQs|discriminate|exact HQ]. }
  destruct (PeelAvalanche (fun r => Peel fuel r r) b c4') as [c5|] eqn:E5;
    [|discriminate].
  apply (IH c5 Hrun). eapply (PeelAvalanche_columns Q n HQs); [|exact E5|exact HQ4].
  intros r0 col c0 c0' Hrun0. apply (Peel_columns fuel n Q HQs r0 r0 col c0 c0' Hrun0).
Qed.
End PeelInvariant.

Section GreedyDone.
Context {H : Header}.

(** The scan of [GreedyPeeling] finds a column whenever one of the
    columns it looks at is still to do. *)
Lemma GreedyBest_finds (k : nat) (start : Z) (best : Z * Z * Z) (c : Codec) :
  0 <= start -> start + Z.of_nat k <= LIST_TERM ->
  (forall i, start <= i < start + Z.of_nat k -> w2_refs_u16 i (get_col c i)) ->
  (forall i, 0 <= PeelRefs.row_count (get_refs c i)) ->
  fst (fst best) <> LIST_TERM \/ best = (LIST_TERM, 0, 0) ->
  fst (fst (GreedyBest k start best c)) <> LIST_TERM \/
  (forall i, start <= i < start + Z.of_nat k -> is_todo c i = false).
Proof.
  intros Hstart Hend Hw2 Hrc. revert start best Hstart Hend Hw2.
  induction k as [|k IH]; intros start best Hstart Hend Hw2 Hbest.
  - right. intros i Hi. lia.
  - cbn [GreedyBest]. destruct best as [[b0 w0] r0].
    set (best1 := if MarkTypes_eqb _ _ then _ else _).
    assert (Hb1 : fst (fst best1) <> LIST_TERM \/
                  (best1 = (LIST_TERM, 0, 0) /\ is_todo c start = false)).
    { unfold best1, is_todo.
      destruct (MarkTypes_eqb (PeelColumn.mark (get_col c start)) MARK_TODO) eqn:Em.
      - left. destruct Hbest as [Hb|Hb].
        + cbn [fst] in Hb.
          destruct (_ <=? _); [|exact Hb]. destruct (_ || _); [cbn [fst]; lia|exact Hb].
        + injection Hb as -> -> ->.
          pose proof (Hw2 start ltac:(lia)) as Hw. unfold w2_refs_u16 in Hw.
          assert (Hmark : PeelColumn.mark (get_col c start) = MARK_TODO)
            by (destruct (PeelColumn.mark (get_col c start)); (reflexivity || discriminate)).
          specialize (Hw Hmark). pose proof (Hrc start) as Hr.
          destruct (Z.leb_spec 0 (PeelColumn.w2_refs (get_col c start))); [|lia].
          destruct (Z.leb_spec 0 (PeelRefs.row_count (get_refs c start))); [|lia].
          rewrite orb_true_r. cbn [fst]. lia.
      - destruct Hbest as [Hb|Hb]; [left; exact Hb|right; split; [exact Hb|reflexivity]]. }
    clearbody best1.
    destruct (IH (start + 1) best1 ltac:(lia) ltac:(lia)) as [Hfound|Hnone].
    + intros i Hi. apply Hw2. lia.
    + destruct Hb1 as [Hb1|[Hb1 _]]; [left; exact Hb1|right; exact Hb1].
    + left. exact Hfound.
    + destruct Hb1 as [Hb1|[Hb1 Ht]].
      * left. pose proof (GreedyBest_spec k (start + 1) best1 c) as Hs.
        cbv zeta in Hs. destruct Hs as [Hs|[Hs _]]; [rewrite Hs; exact Hb1|lia].
      * right. intros i Hi. destruct (Z.eq_dec i start) as [->|Hne]; [exact Ht|].
        apply Hnone. lia.
Qed.

Lemma GreedyPeeling_loop_done (fuel : nat) (n : nat) (c : Codec) :
  peel_ready c -> columns_all w2_refs_u16 n c ->
  _block_count c <= Z.of_nat n ->
  _block_count c <= LIST_TERM ->
  (count_todo (_peel_cols c) < fuel)%nat ->
  exists c',
    GreedyPeeling_loop fuel c = Some c' /\ settles c c' /\
    forall i, 0 <= i < _block_count c -> is_todo c' i = false.
Proof.
  revert c. induction fuel as [|fuel IH]; intros c Hready Hw2 Hbc Hterm Hcount; [lia|].
  assert (Hlen : length (_peel_cols c) = n) by apply Hw2.
  destruct (GreedyPeeling_loop_total (S fuel) c Hready ltac:(lia) Hcount)
    as (c' & Hrun & Hs).
  exists c'. split; [exact Hrun|]. split; [exact Hs|].
  cbn [GreedyPeeling_loop] in Hrun.
  pose proof (GreedyBest_spec (Z.to_nat (_block_count c)) 0 (LIST_TERM, 0, 0) c) as Hbest.
  pose proof (GreedyBest_finds (Z.to_nat (_block_count c)) 0 (LIST_TERM, 0, 0) c
                ltac:(lia)) as Hfinds.
  cbv zeta in Hbest.
  destruct (GreedyBest (Z.to_nat (_block_count c)) 0 (LIST_TERM, 0, 0) c)
    as [[b w] r]. cbn [fst] in Hbest, Hfinds.
  destruct (Z.eqb_spec b LIST_TERM) as [Hb|Hb].
  { injection Hrun as <-. intros i Hi.
    destruct Hfinds as [Hf|Hf].
    - lia.
    - intros j Hj. apply Hw2. lia.
    - intros j. apply Hready.
    - right. reflexivity.
    - contradiction.
    - apply Hf. lia. }
  destruct Hbest as [Hbest|[Hrange Ht]]; [contradiction|].
  revert Hrun.
  set (c1 := modify_col (PeelColumn.set_mark MARK_DEFER) b c).
  set (c2 := set_defer_count (_defer_count c1 + 1) c1).
  set (c3 := modify_col (PeelColumn.set_next (_defer_head_columns c2)) b c2).
  set (c4 := set_defer_head_columns b c3).
  assert (Hs1 : settles c c1).
  { apply settles_modify_col. cbn. discriminate. }
  assert (Hdec : S (count_todo (_peel_cols c1)) = count_todo (_peel_cols c)).
  { apply count_todo_mark; [discriminate|exact Ht|lia]. }
  assert (Hs14 : settles c1 c4).
  { eapply settles_trans with (c2 := c2);
      [apply settles_same_arrays; repeat split|].
    eapply settles_trans with (c2 := c3).
    - unfold c3. apply settles_modify_col. intros x Hx. exact Hx.
    - apply settles_same_arrays; repeat split. }
  assert (Hs4 : settles c c4) by (eapply settles_trans; [exact Hs1|exact Hs14]).
  assert (HQ4 : columns_all w2_refs_u16 n c4).
  { eapply columns_all_same_cols; [reflexivity|].
    apply columns_all_next; [exact w2_refs_u16_stable|].
    eapply columns_all_same_cols; [reflexivity|].
    apply columns_all_mark; [exact w2_refs_u16_stable|discriminate|exact Hw2]. }
  destruct (PeelAvalanche (fun r0 => Peel fuel r0 r0) b c4) as [c5|] eqn:E5;
    [|discriminate].
  intros Hrun.
  destruct (PeelAvalanche_total fuel (fun r0 => Peel fuel r0 r0) b c4)
    as (c5' & E5' & Hs5).
  { intros r0 col c0. apply Peel_total. }
  { eapply peel_ready_settles; eauto. }
  { destruct (settles_le _ _ Hs14) as (Hle & _). lia. }
  rewrite E5 in E5'. injection E5' as <-.
  assert (Hs05 : settles c c5) by (eapply settles_trans; eauto).
  destruct (settles_le _ _ Hs05) as (Hle5 & Hbc5 & Hlen5).
  destruct (settles_le _ _ Hs5) as (Hle45 & _ & _).
  destruct (settles_le _ _ Hs14) as (Hle14 & _ & _).
  destruct (IH c5) as (c'' & Hrun'' & _ & Hdone).
  - eapply peel_ready_settles; eauto.
  - eapply (PeelAvalanche_columns w2_refs_u16 n w2_refs_u16_stable);
      [|exact E5|exact HQ4].
    intros r0 col c0 c0' Hrun0.
    apply (Peel_columns fuel n w2_refs_u16 w2_refs_u16_stable r0 r0 col c0 c0' Hrun0).
  - lia.
  - lia.
  - lia.
  - rewrite Hrun in Hrun''. injection Hrun'' as <-.
    intros i Hi. apply Hdone. lia.
Qed.

(** X10.  On a codec whose reference lists are valid and whose columns
    still to do have 16-bit weight-2 counters, with at most [LIST_TERM]
    columns, [GreedyPeeling] returns (its fuel exceeds the number of
    columns), keeps the setup and the reference lists, and leaves no
    column of the [_block_count] columns at [MARK_TODO]. *)
Theorem GreedyPeeling_marks_every_column (c : Codec) :
  peel_ready c ->
  (forall i, is_todo c i = true -> 0 <= PeelColumn.w2_refs (get_col c i) < 2^16) ->
  _block_count c <= Z.of_nat (length (_peel_cols c)) ->
  _block_count c <= LIST_TERM ->
  exists c',
    GreedyPeeling (S (length (_peel_cols c))) c = Some c' /\
    same_setup c c' /\
    _peel_col_refs c' = _peel_col_refs c /\
    forall i, 0 <= i < _block_count c -> is_todo c' i = false.
Proof.
  intros Hready Hw2 Hbc Hterm. unfold GreedyPeeling.
  set (c1 := set_defer_head_columns LIST_TERM c).
  set (c2 := set_defer_count 0 c1).
  assert (Hs : settles c c2) by (apply settles_same_arrays; repeat split).
  destruct (GreedyPeeling_loop_done (S (length (_peel_cols c)))
              (length (_peel_cols c)) c2)
    as (c3 & Hc3 & Hs3 & Hdone).
  - eapply peel_ready_settles; eauto.
  - split; [reflexivity|]. intros i Hi Hm. apply Hw2.
    unfold is_todo. change (get_col c2 i) with (get_col c i) in Hm.
    rewrite Hm. reflexivity.
  - exact Hbc.
  - exact Hterm.
  - change (_peel_cols c2) with (_peel_cols c).
    pose proof (count_todo_le_length (_peel_cols c)). lia.
  - exists c3. split; [exact Hc3|].
    pose proof (settles_trans _ _ _ Hs Hs3) as ((Hsetup & _) & Hrefs & _).
    split; [exact Hsetup|]. split; [exact Hrefs|exact Hdone].
Qed.
End GreedyDone.

Lemma GreedyPeeling_marks_every_column_witness :
  let c := default new_codec (fed_decoder (H := diagonal_header) (P := idle_phases) 15) in
  is_todo c 15 = true /\
  exists c',
    GreedyPeeling (H := diagonal_header) (S (length (_peel_cols c))) c = Some c' /\
    is_todo c' 15 = false.
Proof.
  intros c. split; [vm_compute; reflexivity|].
  assert (Hw2 : forall i,
            is_todo c i = true ->
            0 <= PeelColumn.w2_refs (get_col c i) < 2^16).
  { intros i _. unfold get_col, sel. destruct (i <? 0); [cbn; lia|].
    destruct (_peel_cols c !! Z.to_nat i) as [x|] eqn:E; [|cbn; lia].
    apply list_elem_of_lookup_2 in E. vm_compute in E.
    repeat (apply elem_of_cons in E as [->|E]; [cbn; lia|]).
    apply elem_of_nil in E. contradiction. }
  destruct (GreedyPeeling_marks_every_column (H := diagonal_header) c)
    as (c' & Hrun & _ & _ & Hdone).
  - split; [vm_compute; lia|apply refs_valid_check_sound; vm_compute; reflexivity].
  - exact Hw2.
  - vm_compute. discriminate.
  - vm_compute. discriminate.
  - exists c'. split; [exact Hrun|]. apply Hdone. vm_compute. split; [discriminate|reflexivity].
Defined.

(** ** The next prime *)

Lemma SIEVE_TABLE_checked :
  forall_from (Z.to_nat SIEVE_TABLE_SIZE) 0 SIEVE_TABLE_check = true.
Proof. vm_compute. reflexivity. Qed.

Lemma small_factor_checked :
  forall_from 256 0 small_factor_check = true.
Proof. vm_compute. reflexivity. Qed.

Lemma wheel_free_mod (x : Z) : wheel_free (x mod SIEVE_TABLE_SIZE) = wheel_free x.
Proof.
  unfold wheel_free, SIEVE_TABLE_SIZE.
  rewrite !Z.mod_mod_divide; [reflexivity|exists 30|exists 42|exists 70|exists 105];
    reflexivity.
Qed.

Lemma not_prime_divide (d n : Z) :
  1 < d < n -> (d | n) -> ~ Z.prime n.
Proof.
  intros Hd Hdiv Hp.
  destruct (Z.divide_prime_r d n Hp Hdiv) as [E|[E|[E|E]]]; lia.
Qed.

Lemma not_wheel_free_not_prime (x : Z) :
  7 < x -> wheel_free x = false -> ~ Z.prime x.
Proof.
  unfold wheel_free. intros Hx Hw.
  repeat (apply andb_false_iff in Hw as [Hw|Hw]);
    apply negb_false_iff, Z.eqb_eq in Hw;
    match type of Hw with
    | x mod ?p = 0 =>
        apply (not_prime_divide p x); [lia|apply Z.mod_divide; [lia|exact Hw]]
    end.
Qed.

(** A number above 1 without a divisor [d >= 2] with [d * d <= n] is
    prime. *)
Lemma prime_by_square (n : Z) :
  1 < n -> (forall d, 2 <= d -> d * d <= n -> ~ (d | n)) -> Z.prime n.
Proof.
  intros Hn Hd. split; [exact Hn|].
  intros d Hrange [e He].
  assert (He2 : 2 <= e) by nia.
  destruct (Z.le_gt_cases d e) as [Hle|Hgt].
  - apply (Hd d); [lia|nia|exists e; exact He].
  - apply (Hd e); [lia|nia|exists d; lia].
Qed.

Lemma PRIMES_UNDER_256_sorted : Sorted.StronglySorted Z.lt PRIMES_UNDER_256.
Proof.
  unfold PRIMES_UNDER_256. repeat constructor.
Qed.

Lemma PRIMES_UNDER_256_range :
  Forall (fun p => 11 <= p) PRIMES_UNDER_256.
Proof.
  unfold PRIMES_UNDER_256. repeat (constructor; [lia|]). constructor.
Qed.

(** The scan of the primes: it accepts [n] when no entry up to [p_max]
    divides it, and rejects it at an entry up to [p_max] that does. *)
Lemma trial_division_spec (primes : list Z) (p_max n : Z) :
  Sorted.StronglySorted Z.lt primes ->
  if trial_division primes p_max n
  then Forall (fun p => p <= p_max -> n mod p <> 0) primes
  else Exists (fun p => p <= p_max /\ n mod p = 0) primes.
Proof.
  induction primes as [|p rest IH]; intros Hs; cbn [trial_division].
  - constructor.
  - inversion Hs as [|? ? Hrest Hall]; subst. specialize (IH Hrest).
    destruct (Z.ltb_spec p_max p) as [Hgt|Hle].
    + constructor; [lia|].
      rewrite List.Forall_forall in Hall |- *. intros q Hq Hle. specialize (Hall q Hq). lia.
    + destruct (Z.eqb_spec (n mod p) 0) as [Hz|Hnz].
      * apply Exists_cons_hd. split; [exact Hle|exact Hz].
      * destruct (trial_division rest p_max n).
        -- constructor; [intros _; exact Hnz|exact IH].
        -- apply Exists_cons_tl. exact IH.
Qed.

(** A candidate that the scan accepts is prime. *)
Lemma undivided_prime (p_max n : Z) :
  7 < n < 2^16 -> wheel_free n = true -> 0 <= p_max -> n < (p_max + 1) * (p_max + 1) ->
  undivided p_max n -> Z.prime n.
Proof.
  intros Hn Hw Hp Hsq Hu. apply prime_by_square; [lia|].
  intros d Hd Hdd Hdiv.
  assert (Hd255 : d <= 255) by nia.
  assert (Hdp : d <= p_max) by nia.
  pose proof (forall_from_spec _ _ _ small_factor_checked d ltac:(lia)) as Hc.
  unfold small_factor_check in Hc.
  destruct (Z.ltb_spec d 2); [lia|]. cbn [orb] in Hc.
  apply existsb_exists in Hc as (p & Hin & Hpd).
  apply Z.eqb_eq in Hpd.
  assert (Hp0 : 2 <= p).
  { apply in_app_or in Hin as [Hin|Hin].
    - cbn in Hin. lia.
    - pose proof PRIMES_UNDER_256_range as Hr. rewrite List.Forall_forall in Hr.
      specialize (Hr p Hin). lia. }
  assert (Hpdiv : (p | d)) by (apply Z.mod_divide; [lia|exact Hpd]).
  assert (Hple : p <= d) by (apply Z.divide_pos_le; [lia|exact Hpdiv]).
  assert (Hpn : n mod p = 0).
  { apply Z.mod_divide; [lia|]. eapply Z.divide_trans; eauto. }
  apply in_app_or in Hin as [Hin|Hin].
  - unfold wheel_free in Hw.
    repeat (apply andb_prop in Hw as [Hw ?]).
    repeat match goal with
           | E : negb (_ =? 0) = true |- _ => apply negb_true_iff, Z.eqb_neq in E
           end.
    cbn in Hin. destruct Hin as [<-|[<-|[<-|[<-|[]]]]]; contradiction.
  - unfold undivided in Hu. rewrite List.Forall_forall in Hu.
    apply (Hu p Hin); [lia|exact Hpn].
Qed.

(** A candidate that the scan rejects is not prime. *)
Lemma divided_not_prime (p_max n : Z) :
  p_max < n ->
  Exists (fun p => p <= p_max /\ n mod p = 0) PRIMES_UNDER_256 ->
  11 <= p_max /\ ~ Z.prime n.
Proof.
  intros Hp Hex. apply List.Exists_exists in Hex as (p & Hin & Hle & Hz).
  pose proof PRIMES_UNDER_256_range as Hr. rewrite List.Forall_forall in Hr.
  specialize (Hr p Hin). split; [lia|].
  apply (not_prime_divide p n); [lia|apply Z.mod_divide; [lia|exact Hz]].
Qed.

(** From a number [m], the table leads to the least number from [m] on
    that is free of the four factors. *)
Lemma SIEVE_TABLE_next (m : Z) :
  0 <= m ->
  let next := sel 0 SIEVE_TABLE (m mod SIEVE_TABLE_SIZE) in
  0 <= next <= 10 /\
  (m + next) mod SIEVE_TABLE_SIZE = m mod SIEVE_TABLE_SIZE + next /\
  wheel_free (m + next) = true /\
  forall k, m <= k < m + next -> wheel_free k = false.
Proof.
  intros Hm next.
  assert (Hr : 0 <= m mod SIEVE_TABLE_SIZE < SIEVE_TABLE_SIZE)
    by (apply Z.mod_pos_bound; reflexivity).
  pose proof (forall_from_spec _ _ _ SIEVE_TABLE_checked (m mod SIEVE_TABLE_SIZE)
                ltac:(lia)) as Hc.
  unfold SIEVE_TABLE_check in Hc. fold next in Hc.
  repeat (apply andb_prop in Hc as [Hc ?]).
  repeat match goal with
         | E : (_ <=? _) = true |- _ => apply Z.leb_le in E
         | E : (_ <? _) = true |- _ => apply Z.ltb_lt in E
         end.
  assert (Hmod : forall d, 0 <= d -> m mod SIEVE_TABLE_SIZE + d < SIEVE_TABLE_SIZE ->
            (m + d) mod SIEVE_TABLE_SIZE = m mod SIEVE_TABLE_SIZE + d).
  { intros d Hd Hlt. rewrite <- Z.add_mod_idemp_l by (unfold SIEVE_TABLE_SIZE; lia).
    apply Z.mod_small. lia. }
  split; [lia|]. split; [apply Hmod; lia|]. split.
  - rewrite <- wheel_free_mod, Hmod by lia. assumption.
  - intros k Hk. rewrite <- wheel_free_mod.
    replace k with (m + (k - m)) by lia. rewrite Hmod by lia.
    match goal with
    | E : forallb _ _ = true |- _ => rewrite forallb_forall in E;
        specialize (E (k - m)); rewrite negb_true_iff in E; apply E
    end.
    apply list_elem_of_In, elem_of_seqZ. lia.
Qed.

Lemma prime_65521 : Z.prime 65521.
Proof.
  apply (undivided_prime 255); [lia|reflexivity|lia|lia|].
  unfold undivided, PRIMES_UNDER_256.
  repeat (constructor; [intros _; vm_compute; discriminate|]). constructor.
Qed.

Lemma wheel_free_bound (m k : Z) :
  m <= 65521 -> (forall j, m <= j < k -> wheel_free j = false) -> k <= 65521.
Proof.
  intros Hm Hskip. destruct (Z.le_gt_cases k 65521) as [Hle|Hgt]; [exact Hle|].
  specialize (Hskip 65521 ltac:(lia)). vm_compute in Hskip. discriminate.
Qed.

Lemma NextPrime16_loop_spec (fuel : nat) :
  forall offset n p_max r,
    7 < n <= 65521 -> wheel_free n = true ->
    offset = n mod SIEVE_TABLE_SIZE + 1 ->
    0 <= p_max < n -> n < (p_max + 1) * (p_max + 1) ->
    NextPrime16_loop fuel offset n p_max = Some r ->
    n <= r <= 65521 /\ Z.prime r /\
    forall m, n <= m < r -> ~ Z.prime m.
Proof.
  induction fuel as [|fuel IH]; intros offset n p_max r Hn Hw Hoff Hp Hsq Hrun;
    [discriminate|].
  cbn [NextPrime16_loop] in Hrun.
  pose proof (trial_division_spec PRIMES_UNDER_256 p_max n PRIMES_UNDER_256_sorted) as Ht.
  destruct (trial_division PRIMES_UNDER_256 p_max n).
  - injection Hrun as <-. split; [lia|]. split; [|intros m Hm; lia].
    apply (undivided_prime p_max); try assumption; lia.
  - destruct (divided_not_prime p_max n ltac:(lia) Ht) as [Hp11 Hnp].
    assert (Hlt : n < 65521).
    { destruct (Z.eq_dec n 65521) as [->|]; [|lia]. exfalso. apply Hnp, prime_65521. }
    assert (Hr : 0 <= n mod SIEVE_TABLE_SIZE < SIEVE_TABLE_SIZE)
      by (apply Z.mod_pos_bound; reflexivity).
    assert (Hoff1 : (if SIEVE_TABLE_SIZE <=? offset then offset - SIEVE_TABLE_SIZE
                     else offset) = (n + 1) mod SIEVE_TABLE_SIZE).
    { subst offset. rewrite <- Z.add_mod_idemp_l by (unfold SIEVE_TABLE_SIZE; lia).
      destruct (Z.leb_spec SIEVE_TABLE_SIZE (n mod SIEVE_TABLE_SIZE + 1)).
      - replace (n mod SIEVE_TABLE_SIZE + 1) with SIEVE_TABLE_SIZE by lia.
        rewrite Z.sub_diag. reflexivity.
      - symmetry. apply Z.mod_small. lia. }
    cbv zeta in Hrun. rewrite Hoff1 in Hrun.
    destruct (SIEVE_TABLE_next (n + 1) ltac:(lia)) as (Hnext & Hmod & Hfree & Hskip).
    set (next := sel 0 SIEVE_TABLE ((n + 1) mod SIEVE_TABLE_SIZE)) in *.
    assert (Hn' : n + 1 + next <= 65521)
      by (apply (wheel_free_bound (n + 1)); [lia|exact Hskip]).
    replace (n + (next + 1)) with (n + 1 + next) in Hrun by lia.
    rewrite (u16_small (n + 1 + next)) in Hrun by lia.
    apply IH in Hrun as (Hr1 & Hprime & Hleast).
    + split; [lia|]. split; [exact Hprime|]. intros m Hm.
      destruct (Z.eq_dec m n) as [->|Hne]; [exact Hnp|].
      destruct (Z.lt_ge_cases m (n + 1 + next)) as [Hin|Hout].
      * apply not_wheel_free_not_prime; [lia|apply Hskip; lia].
      * apply Hleast. lia.
    + lia.
    + exact Hfree.
    + rewrite Hmod. lia.
    + destruct (p_max * p_max <? n + 1 + next); lia.
    + destruct (Z.ltb_spec (p_max * p_max) (n + 1 + next)); nia.
Qed.

Lemma NextPrime16_wraps :
  forall_from 14 65522
    (fun n => match NextPrime16 n with Some 1 => true | _ => false end) = true.
Proof. vm_compute. reflexivity. Qed.

(** From 2 up to the largest 16-bit prime, what [NextPrime16] returns
    is the least prime from its argument on. *)
Lemma NextPrime16_next_prime (n p : Z) :
  2 <= n <= 65521 -> NextPrime16 n = Some p ->
  n <= p <= 65521 /\ Z.prime p /\
  forall m, n <= m < p -> ~ Z.prime m.
Proof.
  intros Hmid Hrun. destruct (Z.le_gt_cases n 7) as [Hsmall|Hbig].
  - assert (Hcases : n = 2 \/ n = 3 \/ n = 4 \/ n = 5 \/ n = 6 \/ n = 7) by lia.
    assert (H5 : Z.prime 5).
    { apply prime_by_square; [lia|]. intros d Hd Hdd [e He].
      assert (d = 2) by nia. subst d. lia. }
    assert (H7 : Z.prime 7).
    { apply prime_by_square; [lia|]. intros d Hd Hdd [e He].
      assert (d = 2) by nia. subst d. lia. }
    assert (H4 : ~ Z.prime 4).
    { apply (not_prime_divide 2); [lia|exists 2; reflexivity]. }
    assert (H6 : ~ Z.prime 6).
    { apply (not_prime_divide 2); [lia|exists 3; reflexivity]. }
    destruct Hcases as [-> | [-> | [-> | [-> | [-> | ->]]]]];
      vm_compute in Hrun; injection Hrun as <-;
      (split; [lia|]);
      (split; [first [exact Z.prime_2 | exact Z.prime_3
                     | exact H5 | exact H7]|]);
      intros m Hm;
      first [lia
            | replace m with 4 by lia; exact H4
            | replace m with 6 by lia; exact H6].
  - unfold NextPrime16 in Hrun.
    repeat match type of Hrun with
           | (if ?a <=? ?b then _ else _) = _ =>
               destruct (Z.leb_spec a b); [lia|]
           | (if ?a =? ?b then _ else _) = _ =>
               destruct (Z.eqb_spec a b); [lia|]
           end.
    cbv zeta in Hrun.
    destruct (SIEVE_TABLE_next n ltac:(lia)) as (Hnext & Hmod & Hfree & Hskip).
    set (next := sel 0 SIEVE_TABLE (n mod SIEVE_TABLE_SIZE)) in *.
    assert (Hn1 : n + next <= 65521)
      by (apply (wheel_free_bound n); [lia|exact Hskip]).
    rewrite (u16_small (n + next)) in Hrun by lia.
    pose proof (forall_from_spec _ _ _ SquareRoot16_checked (n + next) ltac:(lia))
      as Hsq.
    unfold SquareRoot16_check in Hsq.
    set (p_max := SquareRoot16 (n + next)) in *.
    apply andb_prop in Hsq as [Hsq Hs3]. apply andb_prop in Hsq as [Hs1 Hs2].
    apply Z.leb_le in Hs1, Hs2. apply Z.ltb_lt in Hs3.
    apply NextPrime16_loop_spec in Hrun as (Hr1 & Hprime & Hleast).
    + split; [lia|]. split; [exact Hprime|]. intros m Hm.
      destruct (Z.lt_ge_cases m (n + next)) as [Hin|Hout].
      * apply not_wheel_free_not_prime; [lia|apply Hskip; lia].
      * apply Hleast. lia.
    + lia.
    + exact Hfree.
    + rewrite Hmod. lia.
    + nia.
    + exact Hs3.
Qed.

(** X11.  [NextPrime16] returns on every 16-bit argument.  From 2 up
    to 65521, the largest prime below 2^16, it returns the least prime
    that is not below its argument; it returns 1 for 0 and 1, and also
    for every argument above 65521, where the 16-bit candidate wraps
    around. *)
Theorem NextPrime16_least_prime (n : Z) :
  0 <= n < 2^16 ->
  exists p,
    NextPrime16 n = Some p /\
    (n <= 1 -> p = 1) /\
    (2 <= n <= 65521 ->
     n <= p <= 65521 /\ Z.prime p /\
     forall m, n <= m < p -> ~ Z.prime m) /\
    (65521 < n -> p = 1).
Proof.
  intros Hn.
  destruct (NextPrime16_total n) as (p & Hrun). rewrite (u16_small n) in Hrun by lia.
  exists p. split; [exact Hrun|]. split; [|split].
  - intros Hle. unfold NextPrime16 in Hrun.
    destruct (Z.leb_spec n 1); [congruence|lia].
  - intros Hmid. apply NextPrime16_next_prime; assumption.
  - intros Hbig.
    pose proof (forall_from_spec _ _ _ NextPrime16_wraps n ltac:(lia)) as Hw.
    cbv beta in Hw. rewrite Hrun in Hw.
    destruct p as [|[q|q|]|q]; try discriminate. reflexivity.
Qed.

Lemma NextPrime16_least_prime_witness :
  exists p,
    NextPrime16 114 = Some p /\ 114 <= p /\ Z.prime p /\
    ~ Z.prime 121.
Proof.
  destruct (NextPrime16_least_prime 114 ltac:(lia)) as (p & Hrun & _ & Hp & _).
  destruct (Hp ltac:(lia)) as (Hr & Hprime & Hleast).
  exists p. split; [exact Hrun|]. split; [lia|]. split; [exact Hprime|].
  apply Hleast. vm_compute in Hrun. injection Hrun as <-. lia.
Defined.

(** ** The primes of the column walks *)

Lemma matrix_parameter_table_ranges (n l d : Z) :
  switch_block_count matrix_parameter_table n = Some (l, d) ->
  16 <= n <= 64000 /\ 6 <= l <= 600 /\ 8 <= l + d <= 756.
Proof.
  unfold matrix_parameter_table. cbn [switch_block_count].
  repeat match goal with
         | |- (if ?n =? ?k then _ else _) = _ -> _ =>
             destruct (Z.eqb_spec n k); [intros [= <- <-]; lia|]
         end.
  discriminate.
Qed.

(** X12.  When [ChooseMatrix] succeeds, the three moduli it derives for
    the column walks are primes: [_block_next_prime] is the least prime
    from the block count on, [_light_next_prime] the least prime from
    the light count on and [_added_next_prime] the least prime from the
    number of added rows on. *)
Theorem ChooseMatrix_primes `{H : Header} (g : Globals) (message_bytes block_bytes : Z)
    (c c' : Codec) :
  ChooseMatrix g message_bytes block_bytes c = Some (R_WIN, c') ->
  least_prime_from (_block_count c') (_block_next_prime c') /\
  least_prime_from (_light_count c') (_light_next_prime c') /\
  least_prime_from (_added_count c') (_added_next_prime c').
Proof.
  intros Hrun.
  destruct (ChooseMatrix_win g message_bytes block_bytes c c' Hrun)
    as (l & d & Htab & _ & HN & Hl & Hd & Hadd & _).
  destruct (matrix_parameter_table_ranges _ l d Htab) as (HNr & Hlr & Hldr).
  rewrite <- HN in HNr. clear Htab.
  assert (Hprimes :
            NextPrime16 (u16 (_block_count c')) = Some (_block_next_prime c') /\
            NextPrime16 (u16 (_light_count c')) = Some (_light_next_prime c') /\
            NextPrime16 (u16 (_added_count c')) = Some (_added_next_prime c')).
  { revert Hrun. unfold ChooseMatrix. cbv zeta. codec_simpl.
    destruct (NextPrime16 (u16 _)) as [p1|] eqn:E1; [|discriminate].
    destruct (GenerateMatrixParameters _ _ _) as [found mp]. codec_simpl.
    destruct found; cbn [negb]; [|discriminate].
    destruct (NextPrime16 (u16 (mp_light_count mp))) as [p2|] eqn:E2; [|discriminate].
    codec_simpl.
    destruct (NextPrime16 (u16 (mp_light_count mp + mp_dense_count mp))) as [p3|] eqn:E3;
      [|discriminate].
    intros [= <-]. codec_simpl. auto. }
  destruct Hprimes as (H1 & H2 & H3).
  rewrite u16_small in H1, H2, H3 by lia.
  unfold least_prime_from.
  apply NextPrime16_next_prime in H1; [|lia].
  apply NextPrime16_next_prime in H2; [|lia].
  apply NextPrime16_next_prime in H3; [|lia].
  intuition lia.
Qed.

Lemma ChooseMatrix_primes_witness :
  let c :=
    snd (default (R_WIN, new_codec)
           (ChooseMatrix (H := diagonal_header) {| g_p_seed := 1; g_c_seed := 1 |}
              31 2 new_codec)) in
  _block_count c = 16 /\ _block_next_prime c = 17 /\
  least_prime_from (_block_count c) (_block_next_prime c).
Proof.
  intros c. split; [reflexivity|]. split; [vm_compute; reflexivity|].
  apply (ChooseMatrix_primes (H := diagonal_header) {| g_p_seed := 1; g_c_seed := 1 |}
           31 2 new_codec c).
  vm_compute. reflexivity.
Defined.

(** ** The pivot array across a resumed elimination *)

Lemma take_upd_end (l : list Z) (n : Z) (x : Z) :
  0 <= n < Z.of_nat (length l) ->
  take (Z.to_nat (n + 1)) (upd l n x) = take (Z.to_nat n) l ++ [x].
Proof.
  intros Hn. unfold upd. destruct (Z.ltb_spec n 0); [lia|].
  replace (Z.to_nat (n + 1)) with (S (Z.to_nat n)) by lia.
  rewrite (take_S_r _ _ x) by (apply list_lookup_insert_eq; lia).
  rewrite take_insert_ge by lia. reflexivity.
Qed.

Lemma upd_upd_eq (l : list Z) (n : Z) (x y : Z) :
  upd (upd l n x) n y = upd l n y.
Proof.
  unfold upd. destruct (n <? 0); [reflexivity|]. apply list_insert_insert_eq.
Qed.

(** X13.  While a decoder has room for the row ([_used_count] below
    [_block_count + _extra_count]), [ResumeSolveMatrix] adds one GE row
    and keeps the pivot array a permutation of the GE rows: if the
    first [_ge_rows] entries were a permutation of [0 .. _ge_rows), the
    first [_ge_rows + 1] entries are a permutation of
    [0 .. _ge_rows + 1) afterwards, whether a pivot was found or not,
    and the entries after them are untouched. *)
Theorem ResumeSolveMatrix_pivots_permutation `{H : Header} (id : Z) (block : list Z)
    (c : Codec) :
  _used_count c < _block_count c + _extra_count c ->
  0 <= _ge_rows c < 2^16 - 1 ->
  _ge_rows c < Z.of_nat (length (_ge_pivots c)) ->
  0 <= _ge_resume_pivot c <= _ge_rows c ->
  take (Z.to_nat (_ge_rows c)) (_ge_pivots c) ≡ₚ seqZ 0 (_ge_rows c) ->
  let c' := snd (ResumeSolveMatrix id block c) in
  _ge_rows c' = _ge_rows c + 1 /\
  take (Z.to_nat (_ge_rows c + 1)) (_ge_pivots c') ≡ₚ seqZ 0 (_ge_rows c + 1) /\
  drop (Z.to_nat (_ge_rows c + 1)) (_ge_pivots c')
  = drop (Z.to_nat (_ge_rows c + 1)) (_ge_pivots c).
Proof.
  intros Hroom Hrows Hlen Hresume Hperm. cbv zeta.
  rewrite ResumeSolveMatrix_outcome. cbv zeta.
  destruct (Resume_prepared_fields id block c) as (Hf & _ & Hslot & _).
  cbv zeta in Hf, Hslot.
  destruct (Hslot Hroom) as (_ & Hge_row & _ & Hrows1).
  destruct Hf as (_ & _ & Hpiv1 & _).
  destruct (Resume_prepared id block c) as [[row_i ge_row_i] c1].
  cbn [fst snd] in *. rewrite (u16_small (_ge_rows c)) in Hge_row by lia. subst ge_row_i.
  rewrite (u16_small (_ge_resume_pivot c)) by lia.
  set (G := _ge_rows c) in *. set (P := _ge_pivots c) in *.
  set (p := _ge_resume_pivot c) in *.
  assert (HD : take (Z.to_nat (G + 1)) (upd P G G) ≡ₚ seqZ 0 (G + 1)).
  { rewrite take_upd_end by lia. rewrite Hperm.
    rewrite (seqZ_app 0 G 1) by lia. reflexivity. }
  match goal with
  | |- context [if ?b then _ else _] => destruct b
  end.
  - match goal with
    | |- context [pivot_loop ?n ?rl ?pi ?gm ?c0] =>
        pose proof (pivot_loop_ge_only n rl pi gm c0) as Hge;
        pose proof (pivot_loop_pivots n rl pi gm c0) as Hloop;
        destruct (pivot_loop n rl pi gm c0) as [ok c']
    end.
    cbn [snd] in *. apply ge_only_fields in Hge as (_ & Hrows' & _).
    revert Hrows' Hloop. codec_simpl. intros Hrows' Hloop.
    pose proof (u16_range (p + 1)) as Hp1.
    pose proof (u16_range (_defer_count c + _added_count c)) as Hpc.
    fold (ge_pivot_count c) in Hpc.
    destruct Hloop as (Hperm' & Hdrop' & _).
    { lia. }
    { lia. }
    { lia. }
    { rewrite !length_upd. rewrite Hrows1. lia. }
    rewrite Hrows1 in *. split; [lia|].
    assert (Hswap : upd (upd P G (sel 0 P p)) p G
                    = upd (upd (upd P G G) G (sel 0 (upd P G G) p)) p
                        (sel 0 (upd P G G) G)).
    { rewrite sel_upd_eq by lia. rewrite upd_upd_eq.
      destruct (Z.eq_dec p G) as [->|Hne].
      - rewrite sel_upd_eq by lia. rewrite !upd_upd_eq. reflexivity.
      - rewrite sel_upd_ne by lia. reflexivity. }
    split.
    + etransitivity; [exact Hperm'|]. rewrite Hswap.
      etransitivity; [|exact HD].
      apply swap_take_Permutation; [lia|lia|rewrite length_upd; lia].
    + rewrite Hdrop'. rewrite swap_drop by lia. reflexivity.
  - cbn [snd]. codec_simpl. split; [lia|]. split; [exact HD|].
    unfold upd. destruct (Z.ltb_spec G 0); [lia|].
    rewrite drop_insert_lt by lia. reflexivity.
Qed.

Lemma ResumeSolveMatrix_pivots_permutation_witness :
  take 5 (_ge_pivots (snd (ResumeSolveMatrix (H := pair_header) 7 [0] waiting_decoder)))
  ≡ₚ [0; 1; 2; 3; 4].
Proof.
  refine (proj1 (proj2 (ResumeSolveMatrix_pivots_permutation (H := pair_header) 7 [0]
                          waiting_decoder _ _ _ _ _))).
  - cbn. lia.
  - cbn. lia.
  - cbn. lia.
  - cbn. lia.
  - reflexivity.
Defined.

Lemma Resume_prepared_reuse `{H : Header} (id : Z) (block : list Z) (c : Codec) :
  _block_count c + _extra_count c <= _used_count c ->
  snd (fst (Resume_prepared id block c))
  = reuse_search (Z.to_nat (_ge_rows c - _ge_resume_pivot c)) (_ge_resume_pivot c) 0 c.
Proof.
  intros Hfull. unfold Resume_prepared, Resume_slot.
  destruct (Z.leb_spec (_block_count c + _extra_count c) (_used_count c)); [|lia].
  reflexivity.
Qed.

Lemma repeated_not_NoDup (l : list Z) (n : nat) (i j x : Z) :
  0 <= i < Z.of_nat n -> 0 <= j < Z.of_nat n -> (n <= length l)%nat -> i <> j ->
  sel 0 l i = x -> sel 0 l j = x -> ~ NoDup (take n l).
Proof.
  intros Hi Hj Hn Hij Hxi Hxj Hnd.
  assert (E : Z.to_nat i = Z.to_nat j); [|lia].
  apply (NoDup_lookup (take n l) _ _ x Hnd).
  - rewrite lookup_take_lt by lia. rewrite (lookup_sel 0) by lia. congruence.
  - rewrite lookup_take_lt by lia. rewrite (lookup_sel 0) by lia. congruence.
Qed.

(** X14.  When no room is left ([_used_count] has reached
    [_block_count + _extra_count]), [ResumeSolveMatrix] reuses the GE
    row [r] it finds among the pivots from the resume point on, and
    writes the pivot array at index [r] as if the row stood there.  If
    the row stands at another position [k], the array holds [r] twice
    afterwards: its first [_ge_rows] entries are no longer a permutation
    of the GE rows. *)
Theorem ResumeSolveMatrix_reuse_repeats_row `{H : Header} (id : Z) (block : list Z)
    (c : Codec) (k : Z) :
  _block_count c + _extra_count c <= _used_count c ->
  0 <= _ge_rows c <= 2^16 ->
  _ge_rows c <= Z.of_nat (length (_ge_pivots c)) ->
  0 <= _ge_resume_pivot c < _ge_rows c ->
  let r :=
    reuse_search (Z.to_nat (_ge_rows c - _ge_resume_pivot c)) (_ge_resume_pivot c) 0 c in
  0 <= r < _ge_rows c ->
  0 <= k < _ge_rows c -> sel 0 (_ge_pivots c) k = r -> k <> r ->
  ~ NoDup (take (Z.to_nat (_ge_rows c))
             (_ge_pivots (snd (ResumeSolveMatrix id block c)))).
Proof.
  intros Hfull Hrows Hlen Hresume r Hr Hk Hkr Hne.
  rewrite ResumeSolveMatrix_outcome. cbv zeta.
  pose proof (Resume_prepared_reuse id block c Hfull) as Hslot. fold r in Hslot.
  destruct (Resume_prepared_fields id block c) as (Hf & _ & _ & Hkeep).
  cbv zeta in Hf, Hkeep. destruct (Hkeep Hfull) as (_ & Hrows1).
  destruct (Resume_prepared id block c) as [[row_i ge_row_i] c1].
  cbn [fst snd] in *. subst ge_row_i.
  rewrite (u16_small (_ge_resume_pivot c)) by lia.
  set (G := _ge_rows c) in *. set (P := _ge_pivots c) in *.
  set (p := _ge_resume_pivot c) in *.
  match goal with
  | |- context [if ?b then _ else _] => destruct b
  end.
  - match goal with
    | |- context [pivot_loop ?n ?rl ?pi ?gm ?c0] =>
        pose proof (pivot_loop_pivots n rl pi gm c0) as Hloop;
        destruct (pivot_loop n rl pi gm c0) as [ok c']
    end.
    cbn [snd] in *. revert Hloop. codec_simpl. intros Hloop.
    pose proof (u16_range (p + 1)) as Hp1.
    pose proof (u16_range (_defer_count c + _added_count c)) as Hpc.
    fold (ge_pivot_count c) in Hpc.
    destruct Hloop as (Hperm' & _ & _).
    { lia. }
    { lia. }
    { lia. }
    { rewrite !length_upd. lia. }
    rewrite Hrows1 in Hperm'. rewrite Hperm'.
    destruct (Z.eq_dec k p) as [Hkp|Hkp].
    + apply (repeated_not_NoDup _ _ p r r); try lia.
      * rewrite !length_upd. lia.
      * apply sel_upd_eq. rewrite length_upd. lia.
      * rewrite sel_upd_ne by lia. rewrite sel_upd_eq by lia. congruence.
    + apply (repeated_not_NoDup _ _ p k r); try lia.
      * rewrite !length_upd. lia.
      * apply sel_upd_eq. rewrite length_upd. lia.
      * rewrite !sel_upd_ne by lia. exact Hkr.
  - cbn [snd]. codec_simpl.
    apply (repeated_not_NoDup _ _ r k r); try lia.
    + rewrite length_upd. lia.
    + apply sel_upd_eq. lia.
    + rewrite sel_upd_ne by lia. exact Hkr.
Qed.

Lemma ResumeSolveMatrix_reuse_repeats_row_witness :
  sel 0 (_ge_pivots full_decoder) 0 = 3 /\
  ~ NoDup (take 4 (_ge_pivots (snd (ResumeSolveMatrix (H := pair_header) 7 [0]
                                      full_decoder)))).
Proof.
  split; [reflexivity|].
  apply (ResumeSolveMatrix_reuse_repeats_row (H := pair_header) 7 [0] full_decoder 0).
  - cbn. lia.
  - cbn. lia.
  - cbn. lia.
  - cbn. lia.
  - vm_compute. split; [discriminate|reflexivity].
  - cbn. lia.
  - reflexivity.
  - vm_compute. discriminate.
Defined.

(** ** Forward substitution in the recovery blocks *)

Lemma recovery_only_refl (c : Codec) : recovery_only c c.
Proof. exists (_recovery_blocks c). destruct c. reflexivity. Qed.

Lemma recovery_only_trans (c1 c2 c3 : Codec) :
  recovery_only c1 c2 -> recovery_only c2 c3 -> recovery_only c1 c3.
Proof. intros [b1 ->] [b2 ->]. exists b2. reflexivity. Qed.

Lemma recovery_only_fields (c c' : Codec) :
  recovery_only c c' ->
  _block_bytes c' = _block_bytes c /\ _ge_matrix c' = _ge_matrix c /\
  _ge_pitch c' = _ge_pitch c /\ _ge_pivots c' = _ge_pivots c /\
  _ge_col_map c' = _ge_col_map c /\ _defer_count c' = _defer_count c /\
  _added_count c' = _added_count c.
Proof. intros [b ->]. repeat split. Qed.

(** [memxor] on a block inside the buffer. *)
Lemma memxor_spec (mem : list Z) (dst n : Z) (src : list Z) :
  0 <= dst -> 0 <= n -> dst + n <= Z.of_nat (length mem) ->
  length src = Z.to_nat n ->
  length (memxor mem dst src n) = length mem /\
  (forall q, ~ (dst <= q < dst + n) -> sel 0 (memxor mem dst src n) q = sel 0 mem q) /\
  (forall k, 0 <= k < n ->
     sel 0 (memxor mem dst src n) (dst + k) = Z.lxor (sel 0 mem (dst + k)) (sel 0 src k)).
Proof.
  intros Hdst Hn Hlen Hsrc. unfold memxor.
  assert (Hl : length (xor_bytes (load mem dst n) src) = Z.to_nat n)
    by (rewrite length_xor_bytes, length_load; lia).
  split; [apply length_store|]. split.
  - intros q Hq. apply sel_store_out. lia.
  - intros k Hk. rewrite sel_store_in by lia.
    replace (dst + k - dst) with k by lia.
    rewrite sel_xor_bytes by (rewrite ?length_load; lia).
    rewrite sel_load by lia. reflexivity.
Qed.

(** One pivot: the blocks of the earlier pivots with a bit in the row
    are added to the block at [buffer_dest]; nothing else changes. *)
Lemma AddSubdiagonalValues_row_spec (n : nat) (ge_row_i buffer_dest : Z) :
  forall ge_column_i c,
    0 <= _block_bytes c -> 0 <= ge_column_i -> ge_column_i + Z.of_nat n <= 2^16 ->
    0 <= buffer_dest ->
    buffer_dest + _block_bytes c <= Z.of_nat (length (_recovery_blocks c)) ->
    (forall j, ge_column_i <= j < ge_column_i + Z.of_nat n ->
       _block_bytes c * sel 0 (_ge_col_map c) j + _block_bytes c <= buffer_dest \/
       buffer_dest + _block_bytes c <= _block_bytes c * sel 0 (_ge_col_map c) j) ->
    let c' :=
      AddSubdiagonalValues_row n ge_column_i (pivot_mask ge_column_i)
        (_ge_pitch c * ge_row_i) buffer_dest c in
    recovery_only c c' /\
    length (_recovery_blocks c') = length (_recovery_blocks c) /\
    (forall q, ~ (buffer_dest <= q < buffer_dest + _block_bytes c) ->
       sel 0 (_recovery_blocks c') q = sel 0 (_recovery_blocks c) q) /\
    (forall k, 0 <= k < _block_bytes c ->
       sel 0 (_recovery_blocks c') (buffer_dest + k)
       = Z.lxor (sel 0 (_recovery_blocks c) (buffer_dest + k))
           (fold_right Z.lxor 0
              (map (fun j =>
                      if ge_bit c ge_row_i j
                      then recovery_byte c k (sel 0 (_ge_col_map c) j)
                      else 0)
                 (seqZ ge_column_i (Z.of_nat n))))).
Proof.
  induction n as [|n IH]; intros gc c HM Hgc Hn Hdest Hlen Hdisj; cbv zeta.
  - cbn [AddSubdiagonalValues_row]. split; [apply recovery_only_refl|].
    split; [reflexivity|]. split; [reflexivity|].
    intros k Hk. cbn. rewrite Z.lxor_0_r. reflexivity.
  - cbn [AddSubdiagonalValues_row]. cbv zeta.
    replace (_ge_pitch c * ge_row_i + Z.shiftr gc 6)
      with (Z.shiftr gc 6 + _ge_pitch c * ge_row_i) by lia.
    rewrite masked_pivot_mask, pivot_mask_next.
    rewrite (seqZ_cons gc) by lia. cbn [map fold_right].
    replace (Z.pred (Z.of_nat (S n))) with (Z.of_nat n) by lia.
    replace (Z.succ gc) with (gc + 1) by lia.
    destruct (Z.eq_dec (Z.of_nat n) 0) as [Hz|Hnz].
    { assert (n = 0%nat) by lia. subst n.
      cbn [AddSubdiagonalValues_row seqZ map fold_right]. cbn.
      destruct (ge_bit c ge_row_i gc).
      - destruct (memxor_spec (_recovery_blocks c) buffer_dest (_block_bytes c)
                    (load (_recovery_blocks c)
                       (_block_bytes c * sel 0 (_ge_col_map c) gc) (_block_bytes c)))
          as (Hl & Hout & Hin); try lia; [apply length_load|].
        split; [eexists; reflexivity|]. codec_simpl.
        split; [exact Hl|]. split; [exact Hout|].
        intros k Hk. rewrite Hin by lia. rewrite sel_load by lia.
        rewrite Z.lxor_0_r. reflexivity.
      - split; [apply recovery_only_refl|]. split; [reflexivity|].
        split; [reflexivity|]. intros k Hk. rewrite Z.lxor_0_l, Z.lxor_0_r.
        reflexivity. }
    rewrite (u16_small (gc + 1)) by lia.
    destruct (ge_bit c ge_row_i gc) eqn:Hbit.
    + destruct (memxor_spec (_recovery_blocks c) buffer_dest (_block_bytes c)
                  (load (_recovery_blocks c)
                     (_block_bytes c * sel 0 (_ge_col_map c) gc) (_block_bytes c)))
        as (Hl & Hout & Hin); try lia; [apply length_load|].
      set (c1 := set_recovery_blocks _ c).
      specialize (IH (gc + 1) c1). cbv zeta in IH.
      change (_ge_pitch c1) with (_ge_pitch c) in IH.
      change (_block_bytes c1) with (_block_bytes c) in IH.
      change (_ge_col_map c1) with (_ge_col_map c) in IH.
      destruct IH as (Ho & Hl' & Hout' & Hin'); try lia.
      { unfold c1. codec_simpl. lia. }
      { intros j Hj. apply Hdisj. lia. }
      split; [eapply recovery_only_trans; [eexists; reflexivity|exact Ho]|].
      split; [rewrite Hl'; exact Hl|].
      split; [intros q Hq; rewrite Hout' by exact Hq; apply Hout; exact Hq|].
      intros k Hk. rewrite Hin' by exact Hk.
      unfold c1 at 1. codec_simpl. rewrite Hin by lia. rewrite sel_load by lia.
      rewrite Z.lxor_assoc. f_equal. f_equal.
      apply f_equal. apply map_ext_in. intros j Hj.
      apply list_elem_of_In, elem_of_seqZ in Hj.
      change (ge_bit c1 ge_row_i j) with (ge_bit c ge_row_i j).
      destruct (ge_bit c ge_row_i j); [|reflexivity].
      unfold recovery_byte. change (_block_bytes c1) with (_block_bytes c).
      change (_ge_col_map c1) with (_ge_col_map c).
      unfold c1. codec_simpl. apply Hout.
      specialize (Hdisj j ltac:(lia)). lia.
    + specialize (IH (gc + 1) c). cbv zeta in IH.
      destruct IH as (Ho & Hl' & Hout' & Hin'); try lia.
      { intros j Hj. apply Hdisj. lia. }
      split; [exact Ho|]. split; [exact Hl'|]. split; [exact Hout'|].
      intros k Hk. rewrite Hin' by exact Hk. rewrite Z.lxor_0_l. reflexivity.
Qed.

Lemma blocks_apart (M a b k : Z) :
  a <> b -> 0 <= k < M -> ~ (M * a <= M * b + k < M * a + M).
Proof. intros Hab Hk. nia. Qed.

Lemma subdiagonal_sum_ext (c0 c c' c'' : Codec) (pivot_i k : Z) :
  recovery_only c0 c ->
  (forall j, 0 <= j < pivot_i ->
     recovery_byte c'' k (sel 0 (_ge_col_map c0) j)
     = recovery_byte c' k (sel 0 (_ge_col_map c0) j)) ->
  subdiagonal_sum c c'' pivot_i k = subdiagonal_sum c0 c' pivot_i k.
Proof.
  intros [b ->] Hbytes. unfold subdiagonal_sum. apply f_equal.
  apply map_ext_in. intros j Hj. apply list_elem_of_In, elem_of_seqZ in Hj.
  change (ge_bit (set_recovery_blocks b c0) ?r j) with (ge_bit c0 r j).
  codec_simpl. destruct (ge_bit c0 _ j); [|reflexivity]. apply Hbytes. lia.
Qed.

Lemma AddSubdiagonalValues_loop_spec (n : nat) :
  forall pivot_i c,
    0 <= _block_bytes c -> 0 <= pivot_i -> pivot_i + Z.of_nat n <= 2^16 ->
    (forall i, 0 <= i < pivot_i + Z.of_nat n ->
       0 <= sel 0 (_ge_col_map c) i /\
       _block_bytes c * sel 0 (_ge_col_map c) i + _block_bytes c
       <= Z.of_nat (length (_recovery_blocks c))) ->
    (forall i j, 0 <= i < j -> j < pivot_i + Z.of_nat n ->
       sel 0 (_ge_col_map c) i <> sel 0 (_ge_col_map c) j) ->
    let c' := AddSubdiagonalValues_loop n pivot_i c in
    recovery_only c c' /\
    length (_recovery_blocks c') = length (_recovery_blocks c) /\
    (forall q,
       (forall i, pivot_i <= i < pivot_i + Z.of_nat n ->
          ~ (_block_bytes c * sel 0 (_ge_col_map c) i <= q
             < _block_bytes c * sel 0 (_ge_col_map c) i + _block_bytes c)) ->
       sel 0 (_recovery_blocks c') q = sel 0 (_recovery_blocks c) q) /\
    (forall i k, pivot_i <= i < pivot_i + Z.of_nat n -> 0 <= k < _block_bytes c ->
       recovery_byte c' k (sel 0 (_ge_col_map c) i)
       = Z.lxor (recovery_byte c k (sel 0 (_ge_col_map c) i))
           (subdiagonal_sum c c' i k)).
Proof.
  induction n as [|n IH]; intros pivot_i c HM Hp Hn Hcols Hinj; cbv zeta.
  - cbn [AddSubdiagonalValues_loop]. split; [apply recovery_only_refl|].
    split; [reflexivity|]. split; [reflexivity|]. intros i k Hi. lia.
  - cbn [AddSubdiagonalValues_loop]. cbv zeta.
    set (cm := fun i => sel 0 (_ge_col_map c) i) in *.
    set (M := _block_bytes c) in *.
    change (AddSubdiagonalValues_row ?a 0 1 ?b ?d c)
      with (AddSubdiagonalValues_row a 0 (pivot_mask 0) b d c).
    destruct (AddSubdiagonalValues_row_spec (Z.to_nat pivot_i)
                (sel 0 (_ge_pivots c) pivot_i) (M * cm pivot_i) 0 c)
      as (Ho1 & Hl1 & Hout1 & Hin1); try (fold M; lia).
    { specialize (Hcols pivot_i ltac:(lia)). fold M. unfold cm in *. cbv beta in *. nia. }
    { specialize (Hcols pivot_i ltac:(lia)). fold M. unfold cm in *. cbv beta in *. lia. }
    { intros j Hj. fold M. fold (cm j).
      assert (Hne : cm j <> cm pivot_i) by (apply Hinj; lia).
      destruct (Z.lt_ge_cases (cm j) (cm pivot_i)); [left|right]; nia. }
    fold M in Hout1, Hin1.
    set (c1 := AddSubdiagonalValues_row _ 0 _ _ _ c) in *.
    destruct (recovery_only_fields c c1 Ho1) as (EM & Emat & Epitch & Epiv & Ecm & _).
    destruct (Z.eq_dec (Z.of_nat n) 0) as [Hz|Hnz].
    { assert (n = 0%nat) by lia. subst n. cbn [AddSubdiagonalValues_loop].
      split; [exact Ho1|]. split; [exact Hl1|]. split.
      - intros q Hq. apply Hout1. apply (Hq pivot_i). lia.
      - intros i k Hi Hk. assert (i = pivot_i) by lia. subst i.
        unfold recovery_byte at 1 2. rewrite EM. fold M. fold (cm pivot_i).
        rewrite Hin1 by exact Hk. f_equal. unfold subdiagonal_sum.
        rewrite Z2Nat.id by lia. apply (f_equal (fold_right Z.lxor 0)). apply map_ext_in.
        intros j Hj. apply list_elem_of_In, elem_of_seqZ in Hj.
        destruct (ge_bit c _ j); [|reflexivity].
        unfold recovery_byte. rewrite EM. fold M. symmetry. apply Hout1.
        fold (cm j). apply blocks_apart; [apply not_eq_sym, Hinj; lia|exact Hk]. }
    rewrite (u16_small (pivot_i + 1)) by lia.
    specialize (IH (pivot_i + 1) c1). cbv zeta in IH.
    rewrite EM, Ecm, Hl1 in IH. fold M in IH.
    destruct IH as (Ho & Hl & Hout & Hin); try lia.
    { intros i Hi. apply Hcols. lia. }
    { intros i j Hi Hj. apply Hinj; lia. }
    set (c' := AddSubdiagonalValues_loop n (pivot_i + 1) c1) in *.
    split; [exact (recovery_only_trans _ _ _ Ho1 Ho)|]. split; [exact Hl|].
    assert (Hframe : forall q,
              (forall i, pivot_i <= i < pivot_i + Z.of_nat (S n) ->
                 ~ (M * cm i <= q < M * cm i + M)) ->
              sel 0 (_recovery_blocks c') q = sel 0 (_recovery_blocks c) q).
    { intros q Hq. rewrite Hout by (intros i Hi; apply Hq; lia).
      apply Hout1. apply (Hq pivot_i). lia. }
    split; [exact Hframe|].
    assert (Hearlier : forall i j k, pivot_i <= i -> 0 <= j < i ->
              i < pivot_i + Z.of_nat (S n) -> 0 <= k < M ->
              j < pivot_i ->
              recovery_byte c' k (cm j) = recovery_byte c k (cm j)).
    { intros i j k Hi Hj Hi' Hk Hjp. unfold recovery_byte.
      destruct (recovery_only_fields c c' (recovery_only_trans _ _ _ Ho1 Ho))
        as (EM' & _). rewrite EM'. fold M.
      apply Hframe. intros i' Hi''. apply blocks_apart; [|exact Hk].
      apply not_eq_sym, Hinj; lia. }
    intros i k Hi Hk.
    destruct (Z.eq_dec i pivot_i) as [->|Hne].
    + transitivity (recovery_byte c1 k (cm pivot_i)).
      { unfold recovery_byte.
        destruct (recovery_only_fields c1 c' Ho) as (EM' & _). rewrite EM', EM. fold M.
        apply Hout. intros i' Hi'. apply blocks_apart; [|exact Hk].
        apply not_eq_sym, Hinj; lia. }
      unfold recovery_byte at 1 2. rewrite EM. fold M.
      rewrite Hin1 by exact Hk. f_equal. unfold subdiagonal_sum.
      rewrite Z2Nat.id by lia. apply (f_equal (fold_right Z.lxor 0)). apply map_ext_in.
      intros j Hj. apply list_elem_of_In, elem_of_seqZ in Hj.
      destruct (ge_bit c _ j); [|reflexivity].
      symmetry. apply (Hearlier pivot_i j k); lia.
    + unfold cm. rewrite (Hin i k) by lia.
      f_equal.
      * unfold recovery_byte. rewrite EM. fold M. apply Hout1.
        apply blocks_apart; [apply Hinj; lia|exact Hk].
      * apply (subdiagonal_sum_ext c c1 c' c'); [exact Ho1|reflexivity].
Qed.

(** X15.  [AddSubdiagonalValues] is a forward substitution.  When the
    pivots solve distinct columns whose blocks lie inside the recovery
    buffer, it changes nothing but recovery blocks, and afterwards, for
    every pivot [i], the block of its column is the block it held
    before plus the blocks, as they are afterwards, of the columns of
    the pivots [j < i] whose bit [j] is set in the GE row of pivot [i];
    the block of every column that no pivot solves is unchanged. *)
Theorem AddSubdiagonalValues_forward_substitution (c : Codec) :
  0 <= _block_bytes c ->
  (forall i, 0 <= i < ge_pivot_count c ->
     0 <= sel 0 (_ge_col_map c) i /\
     _block_bytes c * sel 0 (_ge_col_map c) i + _block_bytes c
     <= Z.of_nat (length (_recovery_blocks c))) ->
  (forall i j, 0 <= i < j -> j < ge_pivot_count c ->
     sel 0 (_ge_col_map c) i <> sel 0 (_ge_col_map c) j) ->
  let c' := AddSubdiagonalValues c in
  recovery_only c c' /\
  (forall i k, 0 <= i < ge_pivot_count c -> 0 <= k < _block_bytes c ->
     recovery_byte c' k (sel 0 (_ge_col_map c) i)
     = Z.lxor (recovery_byte c k (sel 0 (_ge_col_map c) i))
         (subdiagonal_sum c c' i k)) /\
  (forall column_i k,
     (forall i, 0 <= i < ge_pivot_count c -> sel 0 (_ge_col_map c) i <> column_i) ->
     0 <= k < _block_bytes c ->
     recovery_byte c' k column_i = recovery_byte c k column_i).
Proof.
  intros HM Hcols Hinj. cbv zeta. unfold AddSubdiagonalValues. cbv zeta.
  fold (ge_pivot_count c).
  pose proof (u16_range (_defer_count c + _added_count c)) as HG.
  fold (ge_pivot_count c) in HG.
  destruct (AddSubdiagonalValues_loop_spec (Z.to_nat (ge_pivot_count c)) 0 c)
    as (Ho & _ & Hout & Hin); try lia.
  { intros i Hi. apply Hcols. lia. }
  { intros i j Hi Hj. apply Hinj; lia. }
  split; [exact Ho|]. split.
  - intros i k Hi Hk. apply Hin; lia.
  - intros column_i k Hcol Hk. unfold recovery_byte.
    destruct (recovery_only_fields _ _ Ho) as (-> & _).
    apply Hout. intros i Hi. apply blocks_apart; [|exact Hk].
    apply Hcol. lia.
Qed.

Lemma AddSubdiagonalValues_forward_substitution_witness :
  let c := substituting_codec in
  let c' := AddSubdiagonalValues c in
  recovery_byte c' 0 (sel 0 (_ge_col_map c) 2)
  = Z.lxor (recovery_byte c 0 (sel 0 (_ge_col_map c) 2)) (subdiagonal_sum c c' 2 0) /\
  subdiagonal_sum c c' 2 0 = Z.lxor 30 20 /\
  _recovery_blocks c' = [20; 20; 30; 30; 30; 31].
Proof.
  intros c c'. split; [|split; vm_compute; reflexivity].
  assert (Hcount : ge_pivot_count c = 3) by reflexivity.
  assert (Hcases : forall i, 0 <= i < ge_pivot_count c -> i = 0 \/ i = 1 \/ i = 2)
    by (intros i Hi; lia).
  assert (Hcols : forall i, 0 <= i < ge_pivot_count c ->
            0 <= sel 0 (_ge_col_map c) i /\
            _block_bytes c * sel 0 (_ge_col_map c) i + _block_bytes c
            <= Z.of_nat (length (_recovery_blocks c))).
  { intros i Hi.
    destruct (Hcases i Hi) as [-> | [-> | ->]]; vm_compute; split; discriminate. }
  assert (Hinj : forall i j, 0 <= i < j -> j < ge_pivot_count c ->
            sel 0 (_ge_col_map c) i <> sel 0 (_ge_col_map c) j).
  { intros i j Hi Hj.
    destruct (Hcases i ltac:(lia)) as [-> | [-> | ->]];
      destruct (Hcases j ltac:(lia)) as [-> | [-> | ->]]; try lia;
      vm_compute; discriminate. }
  assert (HM : 0 <= _block_bytes c) by (vm_compute; discriminate).
  assert (Hk : 0 <= 0 < _block_bytes c) by (vm_compute; split; [discriminate|reflexivity]).
  assert (Hi : 0 <= 2 < ge_pivot_count c) by lia.
  destruct (AddSubdiagonalValues_forward_substitution c HM Hcols Hinj) as (_ & Hsum & _).
  exact (Hsum 2 0 Hi Hk).
Defined.

(** ** The invertible matrix generator *)

Lemma matrix_bit_flip_bit (pitch row_i column : Z) (m : list Z) (r b : Z) :
  0 <= row_i -> pitch * (row_i + 1) <= Z.of_nat (length m) ->
  0 <= column < 64 * pitch -> 0 <= r -> 0 <= b < 64 * pitch ->
  matrix_bit (flip_bit (pitch * row_i) column m) pitch r b
  = xorb (matrix_bit m pitch r b) ((r =? row_i) && (b =? column)).
Proof.
  intros Hrow Hlen Hcol Hr Hb. unfold matrix_bit, flip_bit.
  pose proof (shiftr_6_range b pitch Hb) as Hwb.
  pose proof (shiftr_6_range column pitch Hcol) as Hwc.
  destruct (Z.eqb_spec r row_i) as [->|Hne]; cbn [andb].
  - rewrite <- (column_word_bit b column) by lia.
    destruct (Z.eqb_spec (Z.shiftr b 6) (Z.shiftr column 6)) as [E|Hne]; cbn [andb].
    + rewrite E. rewrite sel_upd_eq by nia.
      rewrite Z.lxor_spec, Z.shiftl_1_l, Z.pow2_bits_eqb by apply land_63_range.
      f_equal. apply Z.eqb_sym.
    + rewrite sel_upd_ne by lia. symmetry. apply xorb_false_r.
  - rewrite sel_upd_ne by nia. symmetry. apply xorb_false_r.
Qed.

Lemma add_diagonal_spec (n : nat) (ii offset pitch : Z) (m : list Z) :
  0 <= ii -> 0 <= offset -> offset + ii + Z.of_nat n <= 64 * pitch ->
  pitch * (ii + Z.of_nat n) <= Z.of_nat (length m) ->
  let m' := add_diagonal n ii (pitch * ii) offset pitch m in
  length m' = length m /\
  forall r b, 0 <= r -> 0 <= b < 64 * pitch ->
    matrix_bit m' pitch r b
    = xorb (matrix_bit m pitch r b)
        ((ii <=? r) && (r <? ii + Z.of_nat n) && (b =? offset + r)).
Proof.
  revert ii m. induction n as [|n IH]; intros ii m Hii Hoff Hcols Hlen; cbn zeta.
  - cbn [add_diagonal]. split; [reflexivity|]. intros r b Hr Hb.
    destruct (Z.leb_spec ii r); destruct (Z.ltb_spec r (ii + Z.of_nat 0));
      cbn [andb]; try lia; symmetry; apply xorb_false_r.
  - cbn [add_diagonal].
    replace (pitch * ii + pitch) with (pitch * (ii + 1)) by lia.
    assert (Hp : 0 < pitch) by lia.
    destruct (IH (ii + 1) (flip_bit (pitch * ii) (offset + ii) m))
      as [Hl Hbits]; try lia.
    { rewrite length_flip_bit. lia. }
    split; [rewrite Hl; apply length_flip_bit|].
    intros r b Hr Hb. rewrite (Hbits r b Hr Hb).
    rewrite matrix_bit_flip_bit by nia.
    rewrite xorb_assoc. f_equal.
    destruct (Z.eqb_spec r ii) as [->|Hne]; cbn [andb].
    + case_compare; try lia. apply xorb_false_r.
    + rewrite xorb_false_l. f_equal. case_compare; try lia; reflexivity.
Qed.

(** X16.  For [n >= 512] the generator adds the identity matrix: in a
    matrix that holds [n] rows of [pitch] words and the columns
    [offset .. offset + n), the call returns [true] and flips the bit
    of column [offset + r] in every row [r < n], and no other bit. *)
Theorem AddInvertibleGF2Matrix_identity (G : CatsChoice)
    (Initialize1 : Z -> prng G) (m : list Z) (offset pitch n : Z) :
  512 <= n -> 0 <= offset -> offset + n <= 64 * pitch ->
  pitch * n <= Z.of_nat (length m) ->
  exists m',
    AddInvertibleGF2Matrix G Initialize1 m offset pitch n = (true, m') /\
    length m' = length m /\
    forall r b, 0 <= r -> 0 <= b < 64 * pitch ->
      matrix_bit m' pitch r b
      = xorb (matrix_bit m pitch r b) ((r <? n) && (b =? offset + r)).
Proof.
  intros Hn Hoff Hcols Hlen. unfold AddInvertibleGF2Matrix.
  destruct (Z.leb_spec n 0); [lia|]. destruct (Z.ltb_spec n 512); [lia|].
  eexists. split; [reflexivity|].
  pose proof (add_diagonal_spec (Z.to_nat n) 0 offset pitch m) as Hd.
  rewrite Z.mul_0_r, Z2Nat.id in Hd by lia.
  destruct Hd as [Hl Hbits]; try lia.
  split; [exact Hl|]. intros r b Hr Hb. rewrite (Hbits r b Hr Hb).
  destruct (Z.leb_spec 0 r); [reflexivity|lia].
Qed.

Lemma AddInvertibleGF2Matrix_identity_witness :
  let G := scripted (fun _ _ => []) in
  let m := replicate 4096%nat 0 in
  exists m',
    AddInvertibleGF2Matrix G (fun _ => []) m 0 8 512 = (true, m') /\
    length m' = length m /\
    forall r b, 0 <= r -> 0 <= b < 64 * 8 ->
      matrix_bit m' 8 r b
      = xorb (matrix_bit m 8 r b) ((r <? 512) && (b =? 0 + r)).
Proof.
  intros G m.
  apply (AddInvertibleGF2Matrix_identity G (fun _ => []) m 0 8 512).
  - lia.
  - lia.
  - lia.
  - unfold m. rewrite length_replicate. lia.
Defined.

(** *** The matrix is added, not written *)

Lemma list_eq_sel (a b : list Z) :
  length a = length b -> (forall w, sel 0 a w = sel 0 b w) -> a = b.
Proof.
  intros Hl Hs. apply list_eq. intros i.
  destruct (decide (i < length a)%nat) as [Hi|Hi].
  - pose proof (lookup_sel 0 a (Z.of_nat i) ltac:(lia)) as Ea.
    pose proof (lookup_sel 0 b (Z.of_nat i) ltac:(lia)) as Eb.
    rewrite Nat2Z.id in Ea, Eb. rewrite Ea, Eb, Hs. reflexivity.
  - rewrite !lookup_ge_None_2 by lia. reflexivity.
Qed.

Lemma added_to_zeros (m : list Z) : added_to m m (replicate (length m) 0).
Proof.
  split; [reflexivity|]. split; [apply length_replicate|].
  intros w. rewrite (sel_replicate _ 0). symmetry. apply Z.lxor_0_r.
Qed.

Lemma added_to_upd (m0 m z : list Z) (i v : Z) :
  added_to m0 m z ->
  added_to m0 (upd m i (Z.lxor (sel 0 m i) v)) (upd z i (Z.lxor (sel 0 z i) v)).
Proof.
  intros (Hl & Hz & Hs).
  split; [rewrite length_upd; exact Hl|]. split; [rewrite length_upd; exact Hz|].
  intros w. destruct (Z.eq_dec i w) as [->|Hne].
  - destruct (Z.ltb_spec w 0) as [Hneg|Hpos].
    { unfold upd. destruct (Z.ltb_spec w 0); [apply Hs|lia]. }
    destruct (Z.ltb_spec w (Z.of_nat (length m))) as [Hin|Hout].
    + rewrite !sel_upd_eq by lia. rewrite Hs. apply Z.lxor_assoc.
    + rewrite !upd_out_of_range by lia. apply Hs.
  - rewrite !sel_upd_ne by exact Hne. apply Hs.
Qed.

Lemma add_shifted_words_added (G : CatsChoice) (n : nat) (ii row shift prev : Z)
    (g : prng G) (m0 m z : list Z) :
  added_to m0 m z ->
  let '(p1, g1, m1) := add_shifted_words G n ii row shift prev g m in
  let '(p2, g2, z2) := add_shifted_words G n ii row shift prev g z in
  p1 = p2 /\ g1 = g2 /\ added_to m0 m1 z2.
Proof.
  revert ii prev g m z. induction n as [|n IH]; intros ii prev g m z Ha.
  - cbn [add_shifted_words]. auto.
  - cbn [add_shifted_words]. destruct (next_word G g) as [word g'].
    apply IH. apply added_to_upd. exact Ha.
Qed.

Lemma add_shifted_rows_added (G : CatsChoice) (rows : nat)
    (row pitch n shift : Z) (g : prng G) (m0 m z : list Z) :
  added_to m0 m z ->
  added_to m0 (add_shifted_rows G rows row pitch n shift g m)
    (add_shifted_rows G rows row pitch n shift g z).
Proof.
  revert row g m z. induction rows as [|rows IH]; intros row g m z Ha.
  - exact Ha.
  - cbn [add_shifted_rows].
    pose proof (add_shifted_words_added G (Z.to_nat (Z.quot (n + 63) 64)) 0 row
                  shift 0 g m0 m z Ha) as Hw.
    destruct (add_shifted_words G _ 0 row shift 0 g m) as [[p1 g1] m1].
    destruct (add_shifted_words G _ 0 row shift 0 g z) as [[p2 g2] z2].
    destruct Hw as (-> & -> & Ha1). apply IH.
    destruct (_ <? _); [apply added_to_upd|]; exact Ha1.
Qed.

Lemma add_aligned_words_added (G : CatsChoice) (n : nat) (ii row : Z)
    (g : prng G) (m0 m z : list Z) :
  added_to m0 m z ->
  let '(g1, m1) := add_aligned_words G n ii row g m in
  let '(g2, z2) := add_aligned_words G n ii row g z in
  g1 = g2 /\ added_to m0 m1 z2.
Proof.
  revert ii g m z. induction n as [|n IH]; intros ii g m z Ha.
  - cbn [add_aligned_words]. auto.
  - cbn [add_aligned_words]. destruct (next_word G g) as [word g'].
    apply IH. apply added_to_upd. exact Ha.
Qed.

Lemma add_aligned_rows_added (G : CatsChoice) (rows : nat)
    (row pitch n : Z) (g : prng G) (m0 m z : list Z) :
  added_to m0 m z ->
  added_to m0 (add_aligned_rows G rows row pitch n g m)
    (add_aligned_rows G rows row pitch n g z).
Proof.
  revert row g m z. induction rows as [|rows IH]; intros row g m z Ha.
  - exact Ha.
  - cbn [add_aligned_rows].
    pose proof (add_aligned_words_added G (Z.to_nat (Z.quot (n + 63) 64)) 0 row
                  g m0 m z Ha) as Hw.
    destruct (add_aligned_words G _ 0 row g m) as [g1 m1].
    destruct (add_aligned_words G _ 0 row g z) as [g2 z2].
    destruct Hw as (-> & Ha1). apply IH. exact Ha1.
Qed.

Lemma add_diagonal_added (n : nat) (ii row offset pitch : Z) (m0 m z : list Z) :
  added_to m0 m z ->
  added_to m0 (add_diagonal n ii row offset pitch m)
    (add_diagonal n ii row offset pitch z).
Proof.
  revert ii row m z. induction n as [|n IH]; intros ii row m z Ha.
  - exact Ha.
  - cbn [add_diagonal]. apply IH. unfold flip_bit. apply added_to_upd. exact Ha.
Qed.

Lemma AddInvertibleGF2Matrix_added (G : CatsChoice) (Initialize1 : Z -> prng G)
    (m0 m z : list Z) (offset pitch n : Z) :
  added_to m0 m z ->
  added_to m0 (snd (AddInvertibleGF2Matrix G Initialize1 m offset pitch n))
    (snd (AddInvertibleGF2Matrix G Initialize1 z offset pitch n)).
Proof.
  intros Ha. unfold AddInvertibleGF2Matrix.
  destruct (n <=? 0); [exact Ha|].
  destruct (n <? 512); [|apply add_diagonal_added; exact Ha].
  destruct (0 <? _); cbn [snd];
    [apply add_shifted_rows_added|apply add_aligned_rows_added]; exact Ha.
Qed.

(** X17.  The generated matrix is added to what the matrix holds, it
    does not replace it: the length is kept, and every word after the
    call is the word before it plus the word the same call leaves in a
    zero matrix of the same size.  So a second call with the same
    arguments restores the matrix. *)
Theorem AddInvertibleGF2Matrix_adds (G : CatsChoice) (Initialize1 : Z -> prng G)
    (m : list Z) (offset pitch n : Z) :
  let add m := snd (AddInvertibleGF2Matrix G Initialize1 m offset pitch n) in
  added_to m (add m) (add (replicate (length m) 0)) /\
  add (add m) = m.
Proof.
  cbn zeta.
  pose proof (AddInvertibleGF2Matrix_added G Initialize1 m m _ offset pitch n
                (added_to_zeros m)) as H1.
  split; [exact H1|].
  destruct H1 as (Hl1 & Hz1 & Hs1).
  set (m1 := snd (AddInvertibleGF2Matrix G Initialize1 m offset pitch n)) in *.
  pose proof (AddInvertibleGF2Matrix_added G Initialize1 m1 m1 _ offset pitch n
                (added_to_zeros m1)) as (Hl2 & Hz2 & Hs2).
  rewrite Hl1 in Hs2.
  apply list_eq_sel; [congruence|].
  intros w. rewrite Hs2, Hs1, Z.lxor_assoc, Z.lxor_nilpotent.
  apply Z.lxor_0_r.
Qed.

(** *** What the generator leaves alone *)

Lemma testbit_upd_xor (m : list Z) (i v w j : Z) :
  w <> i \/ Z.testbit v j = false ->
  Z.testbit (sel 0 (upd m i (Z.lxor (sel 0 m i) v)) w) j
  = Z.testbit (sel 0 m w) j.
Proof.
  intros Hw. destruct (Z.eq_dec i w) as [->|Hne];
    [|rewrite sel_upd_ne by exact Hne; reflexivity].
  destruct Hw as [Hw|Hv]; [contradiction|].
  destruct (Z.ltb_spec w 0) as [Hneg|Hpos].
  { unfold upd. destruct (Z.ltb_spec w 0); [reflexivity|lia]. }
  destruct (Z.ltb_spec w (Z.of_nat (length m))) as [Hin|Hout].
  - rewrite sel_upd_eq by lia. rewrite Z.lxor_spec, Hv. apply xorb_false_r.
  - rewrite upd_out_of_range by lia. reflexivity.
Qed.

Lemma shifted_word_low (word shift j : Z) :
  0 <= j < shift -> shift < 64 ->
  Z.testbit (Z.lor (Z.shiftr 0 (64 - shift)) (u64 (Z.shiftl word shift))) j = false.
Proof.
  intros Hj Hs. rewrite Z.shiftr_0_l, Z.lor_0_l. unfold u64.
  rewrite Z.mod_pow2_bits_low by lia. apply Z.shiftl_spec_low. lia.
Qed.

Lemma add_shifted_words_frame (G : CatsChoice) (n : nat) (ii row shift prev : Z)
    (g : prng G) (m : list Z) (w j : Z) :
  shift < 64 ->
  w < row + ii \/ row + ii + Z.of_nat n <= w \/
    (w = row + ii /\ 0 <= j < shift /\ prev = 0) ->
  Z.testbit (sel 0 (snd (add_shifted_words G n ii row shift prev g m)) w) j
  = Z.testbit (sel 0 m w) j.
Proof.
  intros Hs. revert ii prev g m.
  induction n as [|n IH]; intros ii prev g m Hw; [reflexivity|].
  cbn [add_shifted_words]. destruct (next_word G g) as [word g'].
  rewrite IH.
  - apply testbit_upd_xor. destruct Hw as [Hw|[Hw|(-> & Hj & ->)]];
      [left; lia|left; lia|right; apply shifted_word_low; lia].
  - lia.
Qed.

Lemma add_shifted_rows_frame (G : CatsChoice) (rows : nat)
    (row pitch n shift : Z) (g : prng G) (m : list Z) (w j : Z) :
  0 < n < 512 -> 0 <= shift < 64 ->
  (forall i, 0 <= i < Z.of_nat rows ->
     w < row + pitch * i \/ row + pitch * i + (shift + n + 63) / 64 <= w \/
     (w = row + pitch * i /\ 0 <= j < shift)) ->
  Z.testbit (sel 0 (add_shifted_rows G rows row pitch n shift g m) w) j
  = Z.testbit (sel 0 m w) j.
Proof.
  intros Hn Hs. revert row g m.
  induction rows as [|rows IH]; intros row g m Hw; [reflexivity|].
  cbn [add_shifted_rows].
  pose proof (add_shifted_words_frame G (Z.to_nat (Z.quot (n + 63) 64)) 0 row
                shift 0 g m w j ltac:(lia)) as Hrow.
  destruct (add_shifted_words G _ 0 row shift 0 g m) as [[prev g1] m1].
  cbn [snd] in Hrow.
  rewrite Z.quot_div_nonneg in * by lia.
  assert (Hu : u32 (shift + n + 63) = shift + n + 63)
    by (unfold u32; apply Z.mod_small; lia).
  rewrite Hu, Z.quot_div_nonneg by lia.
  assert (Ha : 1 <= (n + 63) / 64) by (apply Z.div_le_lower_bound; lia).
  assert (Hle : (n + 63) / 64 <= (shift + n + 63) / 64)
    by (apply Z.div_le_mono; lia).
  assert (Hlast : (shift + n + 63) / 64 <= (n + 63) / 64 + 1).
  { replace ((n + 63) / 64 + 1) with ((n + 63 + 1 * 64) / 64)
      by (rewrite Z.div_add by lia; reflexivity).
    apply Z.div_le_mono; lia. }
  pose proof (Hw 0 ltac:(lia)) as H0. rewrite Z.mul_0_r, Z.add_0_r in H0.
  rewrite IH.
  - rewrite <- Hrow.
    + destruct (Z.ltb_spec ((n + 63) / 64) ((shift + n + 63) / 64)); [|reflexivity].
      apply testbit_upd_xor. left. lia.
    + rewrite Z2Nat.id by lia. lia.
  - intros i Hi. specialize (Hw (i + 1) ltac:(lia)).
    replace (row + pitch + pitch * i) with (row + pitch * (i + 1)) by lia.
    exact Hw.
Qed.

Lemma add_aligned_words_frame (G : CatsChoice) (n : nat) (ii row : Z)
    (g : prng G) (m : list Z) (w : Z) :
  w < row + ii \/ row + ii + Z.of_nat n <= w ->
  sel 0 (snd (add_aligned_words G n ii row g m)) w = sel 0 m w.
Proof.
  revert ii g m. induction n as [|n IH]; intros ii g m Hw; [reflexivity|].
  cbn [add_aligned_words]. destruct (next_word G g) as [word g'].
  rewrite IH by lia. apply sel_upd_ne. lia.
Qed.

Lemma add_aligned_rows_frame (G : CatsChoice) (rows : nat)
    (row pitch n : Z) (g : prng G) (m : list Z) (w : Z) :
  0 < n ->
  (forall i, 0 <= i < Z.of_nat rows ->
     w < row + pitch * i \/ row + pitch * i + (n + 63) / 64 <= w) ->
  sel 0 (add_aligned_rows G rows row pitch n g m) w = sel 0 m w.
Proof.
  intros Hn. revert row g m.
  induction rows as [|rows IH]; intros row g m Hw; [reflexivity|].
  cbn [add_aligned_rows].
  pose proof (add_aligned_words_frame G (Z.to_nat (Z.quot (n + 63) 64)) 0 row
                g m w) as Hrow.
  destruct (add_aligned_words G _ 0 row g m) as [g1 m1]. cbn [snd] in Hrow.
  rewrite Z.quot_div_nonneg in * by lia.
  assert (Ha : 1 <= (n + 63) / 64) by (apply Z.div_le_lower_bound; lia).
  pose proof (Hw 0 ltac:(lia)) as H0. rewrite Z.mul_0_r, Z.add_0_r in H0.
  rewrite IH.
  - apply Hrow. rewrite Z2Nat.id by lia. lia.
  - intros i Hi. specialize (Hw (i + 1) ltac:(lia)).
    replace (row + pitch + pitch * i) with (row + pitch * (i + 1)) by lia.
    exact Hw.
Qed.

Lemma add_diagonal_frame (n : nat) (ii row offset pitch : Z) (m : list Z)
    (w j : Z) :
  0 <= j ->
  (forall i, 0 <= i < Z.of_nat n ->
     w <> row + pitch * i + Z.shiftr (offset + ii + i) 6 \/
     j <> Z.land (offset + ii + i) 63) ->
  Z.testbit (sel 0 (add_diagonal n ii row offset pitch m) w) j
  = Z.testbit (sel 0 m w) j.
Proof.
  intros Hj. revert ii row m.
  induction n as [|n IH]; intros ii row m Hw; [reflexivity|].
  cbn [add_diagonal]. rewrite IH.
  - unfold flip_bit. apply testbit_upd_xor.
    specialize (Hw 0 ltac:(lia)). rewrite Z.mul_0_r, !Z.add_0_r in Hw.
    destruct Hw as [Hw|Hw]; [left; exact Hw|right].
    rewrite Z.shiftl_1_l, Z.pow2_bits_eqb by apply land_63_range.
    apply Z.eqb_neq. congruence.
  - intros i Hi. specialize (Hw (i + 1) ltac:(lia)).
    replace (row + pitch + pitch * i) with (row + pitch * (i + 1)) by lia.
    replace (offset + (ii + 1) + i) with (offset + ii + (i + 1)) by lia.
    exact Hw.
Qed.

(** X18.  In a matrix wide enough for the columns
    [offset .. offset + n), the generator changes bits only in the
    rows below [n], and there only from column [offset] up to the end
    of the word that holds column [offset + n - 1]: every bit of
    another row, of a column below [offset], or of a later word of the
    row, is what it was. *)
Theorem AddInvertibleGF2Matrix_frame (G : CatsChoice) (Initialize1 : Z -> prng G)
    (m : list Z) (offset pitch n r b : Z) :
  0 <= offset -> offset + n <= 64 * pitch ->
  0 <= r -> 0 <= b < 64 * pitch ->
  n <= r \/ b < offset \/ 64 * ((offset + n + 63) / 64) <= b ->
  matrix_bit (snd (AddInvertibleGF2Matrix G Initialize1 m offset pitch n)) pitch r b
  = matrix_bit m pitch r b.
Proof.
  intros Hoff Hcols Hr Hb Hout. unfold AddInvertibleGF2Matrix, matrix_bit.
  destruct (Z.leb_spec n 0) as [|Hn]; [reflexivity|].
  pose proof (shiftr_6_range b pitch Hb) as Hwb.
  pose proof (land_63_range b) as Hjb.
  assert (Hbq : b = 64 * Z.shiftr b 6 + Z.land b 63).
  { rewrite Z.shiftr_div_pow2 by lia. change 63 with (Z.ones 6).
    rewrite Z.land_ones by lia. apply Z.div_mod. lia. }
  assert (Hmul : forall i, i < r -> pitch * (i + 1) <= pitch * r) by (intros; nia).
  assert (Hmul' : forall i, r < i -> pitch * (r + 1) <= pitch * i) by (intros; nia).
  destruct (Z.ltb_spec n 512) as [Hsmall|Hbig].
  - pose proof (land_63_range offset) as Hs.
    assert (Hoq : offset = 64 * Z.shiftr offset 6 + Z.land offset 63).
    { rewrite Z.shiftr_div_pow2 by lia. change 63 with (Z.ones 6).
      rewrite Z.land_ones by lia. apply Z.div_mod. lia. }
    set (q := Z.shiftr offset 6) in *. set (s := Z.land offset 63) in *.
    assert (Hq : 0 <= q).
    { unfold q. rewrite Z.shiftr_div_pow2 by lia. apply Z.div_pos; lia. }
    assert (Hlast : (offset + n + 63) / 64 = q + (s + n + 63) / 64).
    { rewrite Hoq at 1.
      replace (64 * q + s + n + 63) with (s + n + 63 + q * 64) by lia.
      rewrite Z.div_add by lia. lia. }
    assert (Hfit : q + (s + n + 63) / 64 <= pitch).
    { rewrite <- Hlast.
      replace pitch with ((63 + pitch * 64) / 64)
        by (rewrite Z.div_add by lia; reflexivity).
      apply Z.div_le_mono; lia. }
    rewrite Hlast in Hout.
    destruct (Z.ltb_spec 0 s) as [Hshift|Haligned]; cbn [snd].
    + apply add_shifted_rows_frame; [lia|lia|].
      intros i Hi. rewrite Z2Nat.id in Hi by lia.
      destruct (Z.lt_trichotomy i r) as [Hlt|[->|Hgt]].
      * right. left. specialize (Hmul i Hlt). lia.
      * destruct Hout as [Hout|[Hout|Hout]]; [lia| |right; left; lia].
        destruct (Z.lt_trichotomy (Z.shiftr b 6) q) as [Hlow|[Heq|Hhigh]];
          [left; lia|right; right; lia|lia].
      * left. specialize (Hmul' i Hgt). lia.
    + assert (Hs0 : s = 0) by lia. rewrite Hs0 in *.
      f_equal. apply add_aligned_rows_frame; [lia|].
      intros i Hi. rewrite Z2Nat.id in Hi by lia.
      replace (0 + n + 63) with (n + 63) in * by lia.
      destruct (Z.lt_trichotomy i r) as [Hlt|[->|Hgt]].
      * right. specialize (Hmul i Hlt). lia.
      * destruct Hout as [Hout|[Hout|Hout]]; [lia|left; lia|right; lia].
      * left. specialize (Hmul' i Hgt). lia.
  - cbn [snd]. apply add_diagonal_frame; [lia|].
    intros i Hi. rewrite Z2Nat.id in Hi by lia.
    rewrite Z.add_0_l, Z.add_0_r.
    assert (Hci : 0 <= offset + i < 64 * pitch) by lia.
    pose proof (shiftr_6_range _ pitch Hci) as Hwi.
    pose proof (land_63_range (offset + i)) as Hji.
    assert (Hiq : offset + i = 64 * Z.shiftr (offset + i) 6 + Z.land (offset + i) 63).
    { rewrite Z.shiftr_div_pow2 by lia. change 63 with (Z.ones 6).
      rewrite Z.land_ones by lia. apply Z.div_mod. lia. }
    destruct (Z.lt_trichotomy i r) as [Hlt|[->|Hgt]].
    + left. specialize (Hmul i Hlt). lia.
    + destruct (Z.eq_dec (Z.shiftr b 6) (Z.shiftr (offset + r) 6)) as [E|Hne];
        [right|left; lia].
      intros E2.
      assert (b = offset + r) by lia.
      assert (64 * ((offset + n + 63) / 64) >= offset + n).
      { pose proof (Z.div_mod (offset + n + 63) 64 ltac:(lia)).
        pose proof (Z.mod_pos_bound (offset + n + 63) 64 ltac:(lia)). lia. }
      lia.
    + left. specialize (Hmul' i Hgt). lia.
Qed.

Lemma AddInvertibleGF2Matrix_frame_witness :
  let G := scripted (fun _ _ => []) in
  let m := replicate 8%nat 5 in
  matrix_bit (snd (AddInvertibleGF2Matrix G (fun _ => [7; 7; 7; 7; 7; 7; 7; 7]) m 1 2 4))
    2 0 0
  = matrix_bit m 2 0 0.
Proof.
  intros G m.
  apply (AddInvertibleGF2Matrix_frame G (fun _ => [7; 7; 7; 7; 7; 7; 7; 7]) m 1 2 4 0 0).
  - lia.
  - lia.
  - lia.
  - lia.
  - right. left. lia.
Defined.

(** ** The deferred columns after peeling *)

Section KeepsMarked.
Context {H : Header}.

Lemma keeps_marked_refl (c : Codec) : keeps_marked c c.
Proof. repeat split; auto. Qed.

Lemma is_todo_false_kept (c c' : Codec) (i : Z) :
  keeps_marked c c' -> is_todo c i = false -> is_todo c' i = false.
Proof.
  intros (_ & _ & _ & _ & _ & _ & Hf & _) Ht. unfold is_todo in *.
  rewrite (Hf i Ht). exact Ht.
Qed.

Lemma keeps_marked_trans (c1 c2 c3 : Codec) :
  keeps_marked c1 c2 -> keeps_marked c2 c3 -> keeps_marked c1 c3.
Proof.
  intros A B.
  destruct A as (A1 & A2 & A3 & A4 & A5 & A6 & A7 & A8).
  destruct B as (B1 & B2 & B3 & B4 & B5 & B6 & B7 & B8).
  repeat split; try congruence.
  - intros i Hi. rewrite B7; [apply A7; exact Hi|].
    unfold is_todo in *. rewrite (A7 i Hi). exact Hi.
  - intros i Hi. apply A8, B8, Hi.
Qed.

Lemma keeps_marked_same_cols (c c' : Codec) :
  _peel_cols c' = _peel_cols c -> _peel_col_refs c' = _peel_col_refs c ->
  length (_peel_rows c') = length (_peel_rows c) ->
  _block_count c' = _block_count c ->
  _defer_head_columns c' = _defer_head_columns c ->
  _defer_count c' = _defer_count c ->
  keeps_marked c c'.
Proof.
  intros Hc Hr Hl Hb Hh Hd. unfold keeps_marked, get_col. rewrite Hc.
  repeat split; auto.
Qed.

Lemma keeps_marked_modify_row (f : PeelRow.t -> PeelRow.t) (i : Z) (c : Codec) :
  keeps_marked c (modify_row f i c).
Proof.
  apply keeps_marked_same_cols; unfold modify_row; codec_simpl; try reflexivity.
  apply length_upd.
Qed.

Lemma keeps_marked_link_deferred_row (row_i : Z) (c : Codec) :
  keeps_marked c (link_deferred_row row_i c).
Proof.
  unfold link_deferred_row.
  eapply keeps_marked_trans; [apply keeps_marked_modify_row|].
  apply keeps_marked_same_cols; reflexivity.
Qed.

(** A write to a column that was still to do, after steps that keep
    the marked columns. *)
Lemma keeps_marked_modify_col (f : PeelColumn.t -> PeelColumn.t) (i : Z)
    (c c' : Codec) :
  keeps_marked c c' -> is_todo c i = true ->
  (forall x, PeelColumn.mark (f x) = MARK_DEFER -> PeelColumn.mark x = MARK_DEFER) ->
  keeps_marked c (modify_col f i c').
Proof.
  intros (A1 & A2 & A3 & A4 & A5 & A6 & A7 & A8) Ht Hf.
  unfold keeps_marked, modify_col, get_col. codec_simpl. rewrite length_upd.
  repeat split; try assumption.
  - intros j Hj. rewrite sel_upd_ne by congruence. apply A7. exact Hj.
  - intros j. destruct (Z.eq_dec i j) as [->|Hne].
    + destruct (Z.ltb_spec j 0) as [Hneg|Hpos].
      { unfold upd. destruct (Z.ltb_spec j 0); [apply A8|lia]. }
      destruct (Z.ltb_spec j (Z.of_nat (length (_peel_cols c')))) as [Hin|Hout].
      * rewrite sel_upd_eq by lia. intros Hm. apply A8, Hf, Hm.
      * rewrite upd_out_of_range by lia. apply A8.
    + rewrite sel_upd_ne by exact Hne. apply A8.
Qed.

Lemma peel_ready_keeps_marked (c c' : Codec) :
  keeps_marked c c' -> peel_ready c -> peel_ready c'.
Proof.
  intros (Hrefs & Hr & Hc & _) (Hlen & Hv). split; [rewrite Hrefs; lia|].
  unfold refs_valid, get_refs in *. rewrite Hrefs, Hr. exact Hv.
Qed.

Lemma RescanRow_keeps_marked (n : nat) (r col a uc : Z) (c : Codec) :
  keeps_marked c (snd (RescanRow n r col a uc c)).
Proof.
  revert col uc c. induction n as [|n IH]; intros col uc c.
  - apply keeps_marked_refl.
  - rewrite RescanRow_step. cbv zeta.
    destruct (is_todo c col) eqn:Ht; [|apply IH].
    eapply keeps_marked_trans; [|apply IH].
    apply keeps_marked_modify_col.
    + apply keeps_marked_modify_row.
    + exact Ht.
    + intros x Hx. exact Hx.
Qed.

Lemma PeelAvalanche_row_keeps_marked (peel : Z -> Z -> Codec -> option Codec)
    (column_i r : Z) (c c' : Codec) :
  peel_keeps_marked peel -> peel_ready c ->
  0 <= r < Z.of_nat (length (_peel_rows c)) ->
  PeelAvalanche_row peel column_i r c = Some c' -> keeps_marked c c'.
Proof.
  intros Hpeel Hready Hr. unfold PeelAvalanche_row.
  set (c1 := modify_row _ r c).
  assert (Hk1 : keeps_marked c c1) by apply keeps_marked_modify_row.
  assert (Hready1 : peel_ready c1) by (eapply peel_ready_keeps_marked; eauto).
  assert (Hr1 : 0 <= r < Z.of_nat (length (_peel_rows c1))).
  { destruct Hk1 as (_ & Hlen & _). lia. }
  destruct (_ =? 1).
  - match goal with |- context [is_todo c1 ?x] => destruct (is_todo c1 x) eqn:Ht end.
    + intros Hrun. eapply keeps_marked_trans; [exact Hk1|].
      eapply Hpeel; eauto.
    + intros [= <-]. eapply keeps_marked_trans; [exact Hk1|].
      apply keeps_marked_link_deferred_row.
  - destruct (_ =? 2).
    + match goal with
      | |- context [RescanRow ?n ?a ?b ?d ?e ?f] =>
          pose proof (RescanRow_settles n a b d e f) as [Hs2 Hj];
          pose proof (RescanRow_keeps_marked n a b d e f) as Hk2;
          destruct (RescanRow n a b d e f) as [uc c2]
      end.
      cbn [fst snd] in Hs2, Hj, Hk2.
      specialize (Hj Hr1 (or_introl eq_refl)).
      assert (Hk02 : keeps_marked c c2) by (eapply keeps_marked_trans; eauto).
      destruct (Z.leb_spec uc 1) as [Hle|Hgt].
      * set (c3 := modify_row (PeelRow.set_unmarked_count 0) r c2).
        assert (Hk3 : keeps_marked c2 c3) by apply keeps_marked_modify_row.
        assert (Hk03 : keeps_marked c c3) by (eapply keeps_marked_trans; eauto).
        destruct (Z.eqb_spec uc 1) as [Huc|Huc].
        -- assert (Ht : is_todo c3 (PeelRow.unmarked0 (get_row c3 r)) = true).
           { destruct Hj as [Hj|Hj]; [lia|].
             unfold c3. rewrite (is_todo_same_cols c2) by reflexivity.
             rewrite get_row_modify_row.
             - exact Hj.
             - destruct Hk2 as (_ & Hlen & _). lia. }
           intros Hrun. eapply keeps_marked_trans; [exact Hk03|].
           eapply Hpeel; [exact Hrun| |exact Ht].
           eapply peel_ready_keeps_marked; eauto.
        -- intros [= <-]. eapply keeps_marked_trans; [exact Hk03|].
           apply keeps_marked_link_deferred_row.
      * intros [= <-]. exact Hk02.
    + intros [= <-]. exact Hk1.
Qed.

Lemma PeelAvalanche_rows_keeps_marked (peel : Z -> Z -> Codec -> option Codec)
    (column_i : Z) (rows : list Z) (c c' : Codec) :
  peel_keeps_marked peel -> peel_ready c ->
  Forall (fun r => 0 <= r < Z.of_nat (length (_peel_rows c))) rows ->
  PeelAvalanche_rows peel column_i rows c = Some c' -> keeps_marked c c'.
Proof.
  intros Hpeel. revert c. induction rows as [|r rows IH]; intros c Hready Hrows.
  - intros [= <-]. apply keeps_marked_refl.
  - cbn [PeelAvalanche_rows]. inversion Hrows as [|? ? Hr Hrest]; subst.
    destruct (PeelAvalanche_row peel column_i r c) as [c1|] eqn:E1; [|discriminate].
    intros Hrun.
    pose proof (PeelAvalanche_row_keeps_marked peel column_i r c c1 Hpeel Hready
                  Hr E1) as Hk1.
    eapply keeps_marked_trans; [exact Hk1|]. apply IH.
    + eapply peel_ready_keeps_marked; eauto.
    + destruct Hk1 as (_ & Hlen & _). rewrite Hlen. exact Hrest.
    + exact Hrun.
Qed.

Lemma PeelAvalanche_keeps_marked (peel : Z -> Z -> Codec -> option Codec)
    (column_i : Z) (c c' : Codec) :
  peel_keeps_marked peel -> peel_ready c ->
  PeelAvalanche peel column_i c = Some c' -> keeps_marked c c'.
Proof.
  intros Hpeel Hready. unfold PeelAvalanche.
  apply PeelAvalanche_rows_keeps_marked; try assumption.
  apply refs_valid_read. apply Hready.
Qed.

(** [Peel] on a column still to do leaves every marked column as it
    is. *)
Lemma Peel_keeps_marked (fuel : nat) (row_i row column_i : Z) (c c' : Codec) :
  Peel fuel row_i row column_i c = Some c' -> peel_ready c ->
  is_todo c column_i = true -> keeps_marked c c'.
Proof.
  revert row_i row column_i c c'.
  induction fuel as [|fuel IH]; intros row_i row column_i c c' Hrun Hready Ht;
    [discriminate|].
  cbn [Peel] in Hrun. revert Hrun.
  set (c1 := modify_col (PeelColumn.set_mark MARK_PEEL) column_i c).
  set (c2 := modify_row (PeelRow.set_peel_column column_i) row c1).
  set (c3 := match _peel_tail_rows c2 with
             | Some tail => modify_row (PeelRow.set_next row_i) tail c2
             | None => set_peel_head_rows row_i c2
             end).
  set (c4 := modify_row (PeelRow.set_next LIST_TERM) row c3).
  set (c5 := set_peel_tail_rows (Some row) c4).
  set (c6 := modify_row (PeelRow.set_is_copied 0) row c5).
  assert (Hk1 : keeps_marked c c1).
  { apply keeps_marked_modify_col; [apply keeps_marked_refl|exact Ht|].
    cbn. discriminate. }
  assert (Hk12 : keeps_marked c1 c2) by (unfold c2; apply keeps_marked_modify_row).
  assert (Hk23 : keeps_marked c2 c3).
  { unfold c3. destruct (_peel_tail_rows c2).
    - apply keeps_marked_modify_row.
    - apply keeps_marked_same_cols; reflexivity. }
  assert (Hk34 : keeps_marked c3 c4) by (unfold c4; apply keeps_marked_modify_row).
  assert (Hk45 : keeps_marked c4 c5).
  { unfold c5. apply keeps_marked_same_cols; reflexivity. }
  assert (Hk56 : keeps_marked c5 c6) by (unfold c6; apply keeps_marked_modify_row).
  assert (Hk6 : keeps_marked c c6).
  { eapply keeps_marked_trans; [exact Hk1|].
    eapply keeps_marked_trans; [exact Hk12|].
    eapply keeps_marked_trans; [exact Hk23|].
    eapply keeps_marked_trans; [exact Hk34|].
    eapply keeps_marked_trans; [exact Hk45|exact Hk56]. }
  destruct (PeelAvalanche (fun r => Peel fuel r r) column_i c6) as [c7|] eqn:E7;
    [|discriminate].
  intros [= <-].
  apply keeps_marked_modify_col; [|exact Ht|intros x Hx; exact Hx].
  eapply keeps_marked_trans; [exact Hk6|].
  eapply PeelAvalanche_keeps_marked; [|eapply peel_ready_keeps_marked; eauto|exact E7].
  intros r col c0 c0' Hrun0. apply (IH r r col c0 c0' Hrun0).
Qed.

Lemma column_chain_ext (cols cols' : list PeelColumn.t) (head : Z) (l : list Z) :
  (forall x, x ∈ l -> sel PeelColumn.zero cols' x = sel PeelColumn.zero cols x) ->
  column_chain cols head l -> column_chain cols' head l.
Proof.
  revert head. induction l as [|x l IH]; intros head Hsame; [exact id|].
  cbn [column_chain]. intros (Hh & Hx & Hc). split; [exact Hh|]. split; [exact Hx|].
  rewrite Hsame by (left). apply IH; [|exact Hc].
  intros y Hy. apply Hsame. right. exact Hy.
Qed.

Lemma deferred_columns_keeps_marked (c c' : Codec) (l : list Z) :
  keeps_marked c c' -> deferred_columns c l -> deferred_columns c' l.
Proof.
  intros (A1 & A2 & A3 & A4 & A5 & A6 & A7 & A8) (Hc & Hl & Hn & Hm).
  assert (Hsame : forall x, x ∈ l -> get_col c' x = get_col c x).
  { intros x Hx. apply A7. apply Hm in Hx as [_ Hx]. unfold is_todo.
    rewrite Hx. reflexivity. }
  split; [|split; [congruence|split; [exact Hn|]]].
  - rewrite A5. eapply column_chain_ext; [|exact Hc]. exact Hsame.
  - intros i. rewrite A4. split.
    + intros Hi. rewrite (Hsame i Hi). apply Hm. exact Hi.
    + intros [Hi Hd]. apply Hm. split; [exact Hi|apply A8; exact Hd].
Qed.

(** A step of the loop of [GreedyPeeling] puts the column it defers in
    front of the list. *)
Lemma GreedyPeeling_loop_deferred (fuel : nat) (c c' : Codec) (l : list Z) :
  GreedyPeeling_loop fuel c = Some c' -> peel_ready c ->
  _block_count c <= Z.of_nat (length (_peel_cols c)) ->
  deferred_columns c l ->
  exists l', deferred_columns c' l'.
Proof.
  revert c l. induction fuel as [|fuel IH]; intros c l Hrun Hready Hbc Hd;
    [discriminate|].
  cbn [GreedyPeeling_loop] in Hrun.
  pose proof (GreedyBest_spec (Z.to_nat (_block_count c)) 0 (LIST_TERM, 0, 0) c)
    as Hbest.
  cbv zeta in Hbest.
  destruct (GreedyBest (Z.to_nat (_block_count c)) 0 (LIST_TERM, 0, 0) c)
    as [[b w] r]. cbn [fst] in Hbest.
  destruct (Z.eqb_spec b LIST_TERM) as [Hb|Hb].
  { injection Hrun as <-. exists l. exact Hd. }
  destruct Hbest as [Hbest|[Hrange Ht]]; [contradiction|].
  revert Hrun.
  set (c1 := modify_col (PeelColumn.set_mark MARK_DEFER) b c).
  set (c2 := set_defer_count (_defer_count c1 + 1) c1).
  set (c3 := modify_col (PeelColumn.set_next (_defer_head_columns c2)) b c2).
  set (c4 := set_defer_head_columns b c3).
  assert (Hs1 : settles c c1).
  { apply settles_modify_col. cbn. discriminate. }
  assert (Hs14 : settles c1 c4).
  { eapply settles_trans with (c2 := c2);
      [apply settles_same_arrays; repeat split|].
    eapply settles_trans with (c2 := c3).
    - unfold c3. apply settles_modify_col. intros x Hx. exact Hx.
    - apply settles_same_arrays; repeat split. }
  assert (Hs4 : settles c c4) by (eapply settles_trans; [exact Hs1|exact Hs14]).
  assert (Hready4 : peel_ready c4) by (eapply peel_ready_settles; eauto).
  destruct Hd as (Hc & Hl & Hn & Hm).
  assert (Hnotin : b ∉ l).
  { intros Hin. apply Hm in Hin as [_ Hin]. unfold is_todo in Ht.
    rewrite Hin in Ht. discriminate. }
  assert (Hb4 : get_col c4 b
                = PeelColumn.mk (_defer_head_columns c)
                    (PeelColumn.w2_refs (get_col c b)) MARK_DEFER).
  { unfold c4, c3, c2, c1, modify_col, get_col. codec_simpl.
    rewrite sel_upd_eq by (rewrite length_upd; lia).
    rewrite sel_upd_eq by lia. reflexivity. }
  assert (Hne4 : forall x, x <> b -> get_col c4 x = get_col c x).
  { intros x Hx. unfold c4, c3, c2, c1, modify_col, get_col. codec_simpl.
    rewrite !sel_upd_ne by congruence. reflexivity. }
  assert (Hd4 : deferred_columns c4 (b :: l)).
  { split; [|split; [|split]].
    - cbn [column_chain]. split; [reflexivity|]. split; [exact Hb|].
      fold (get_col c4 b). rewrite Hb4. cbn [PeelColumn.next].
      eapply column_chain_ext; [|exact Hc].
      intros x Hx. apply (Hne4 x). intros ->. contradiction.
    - cbn [length]. change (_defer_count c4) with (_defer_count c + 1). lia.
    - constructor; assumption.
    - intros i. change (_block_count c4) with (_block_count c).
      rewrite elem_of_cons. destruct (Z.eq_dec i b) as [->|Hne].
      + rewrite Hb4. cbn [PeelColumn.mark]. split; [intros _; split; [lia|reflexivity]|].
        intros _. left. reflexivity.
      + rewrite (Hne4 i Hne). rewrite <- Hm. split; [intros [?|?]; [contradiction|assumption]|].
        intros Hi. right. exact Hi. }
  destruct (PeelAvalanche (fun r0 => Peel fuel r0 r0) b c4) as [c5|] eqn:E5;
    [|discriminate].
  intros Hrun.
  assert (Hk5 : keeps_marked c4 c5).
  { eapply PeelAvalanche_keeps_marked; [|exact Hready4|exact E5].
    intros r0 col c0 c0' Hrun0. apply (Peel_keeps_marked fuel r0 r0 col c0 c0' Hrun0). }
  apply (IH c5 (b :: l) Hrun).
  - eapply peel_ready_keeps_marked; eauto.
  - destruct Hk5 as (_ & _ & Hlen5 & Hbc5 & _). rewrite Hlen5, Hbc5.
    destruct (settles_le _ _ Hs4) as (_ & Hbc4 & Hlen4). lia.
  - eapply deferred_columns_keeps_marked; eauto.
Qed.

End KeepsMarked.

Section DeferredColumns.
Context {H : Header}.

(** X19.  Under the conditions in which [GreedyPeeling] returns, and
    when no column is marked [MARK_DEFER] before the call, the list
    that starts at [_defer_head_columns] and follows [next] ends with
    [LIST_TERM] and holds exactly the columns marked [MARK_DEFER],
    each of them once, and [_defer_count] is their number. *)
Theorem GreedyPeeling_deferred_columns (c : Codec) :
  peel_ready c ->
  (forall i, is_todo c i = true -> 0 <= PeelColumn.w2_refs (get_col c i) < 2^16) ->
  _block_count c <= Z.of_nat (length (_peel_cols c)) ->
  _block_count c <= LIST_TERM ->
  (forall i, 0 <= i < _block_count c ->
     PeelColumn.mark (get_col c i) <> MARK_DEFER) ->
  exists c' l,
    GreedyPeeling (S (length (_peel_cols c))) c = Some c' /\
    deferred_columns c' l.
Proof.
  intros Hready Hw2 Hbc Hterm Hnone. unfold GreedyPeeling.
  set (c1 := set_defer_head_columns LIST_TERM c).
  set (c2 := set_defer_count 0 c1).
  assert (Hs : settles c c2) by (apply settles_same_arrays; repeat split).
  assert (Hready2 : peel_ready c2) by (eapply peel_ready_settles; eauto).
  destruct (GreedyPeeling_loop_done (S (length (_peel_cols c)))
              (length (_peel_cols c)) c2)
    as (c3 & Hc3 & _ & _).
  - exact Hready2.
  - split; [reflexivity|]. intros i Hi Hm. apply Hw2.
    unfold is_todo. change (get_col c2 i) with (get_col c i) in Hm.
    rewrite Hm. reflexivity.
  - exact Hbc.
  - exact Hterm.
  - change (_peel_cols c2) with (_peel_cols c).
    pose proof (count_todo_le_length (_peel_cols c)). lia.
  - destruct (GreedyPeeling_loop_deferred _ c2 c3 [] Hc3 Hready2 Hbc) as [l Hl].
    + split; [reflexivity|]. split; [reflexivity|]. split; [constructor|].
      intros i. split; [intros Hi; apply elem_of_nil in Hi; contradiction|].
      intros [Hi Hm]. exfalso. exact (Hnone i Hi Hm).
    + exists c3, l. split; [exact Hc3|exact Hl].
Qed.

End DeferredColumns.

Lemma get_col_forallb (p : PeelColumn.t -> bool) (c : Codec) (i : Z) :
  p PeelColumn.zero = true -> forallb p (_peel_cols c) = true ->
  p (get_col c i) = true.
Proof.
  intros H0 Hall. unfold get_col, sel. destruct (i <? 0); [exact H0|].
  destruct (_peel_cols c !! Z.to_nat i) as [x|] eqn:E; [|exact H0].
  rewrite forallb_forall in Hall. apply Hall.
  apply list_elem_of_In. eapply list_elem_of_lookup_2. exact E.
Qed.

Lemma GreedyPeeling_deferred_columns_witness :
  let c := default new_codec (fed_decoder (H := diagonal_header) (P := idle_phases) 15) in
  exists c' l,
    GreedyPeeling (H := diagonal_header) (S (length (_peel_cols c))) c = Some c' /\
    deferred_columns (H := diagonal_header) c' l.
Proof.
  intros c.
  apply (GreedyPeeling_deferred_columns (H := diagonal_header) c).
  - split; [vm_compute; lia|apply refs_valid_check_sound; vm_compute; reflexivity].
  - intros i _.
    pose proof (get_col_forallb
                  (fun x => (0 <=? PeelColumn.w2_refs x)
                            && (PeelColumn.w2_refs x <? 2^16)) c i
                  eq_refl ltac:(vm_compute; reflexivity)) as Hw.
    cbv beta in Hw. apply andb_true_iff in Hw as [Hlo Hhi].
    apply Z.leb_le in Hlo. apply Z.ltb_lt in Hhi. split; assumption.
  - vm_compute. discriminate.
  - vm_compute. discriminate.
  - intros i _.
    pose proof (get_col_forallb
                  (fun x => negb (MarkTypes_eqb (PeelColumn.mark x) MARK_DEFER)) c i
                  eq_refl ltac:(vm_compute; reflexivity)) as Hm.
    cbv beta in Hm. intros E. rewrite E in Hm. discriminate.
Defined.

(** ** The column map *)

Section ColumnMap.
Context {H : Header}.

Lemma columns_mapped_refl (c : Codec) : columns_mapped c c.
Proof.
  exists (_peel_cols c), (_ge_col_map c), (_ge_compress_matrix c).
  destruct c; reflexivity.
Qed.

Lemma columns_mapped_trans (c1 c2 c3 : Codec) :
  columns_mapped c1 c2 -> columns_mapped c2 c3 -> columns_mapped c1 c3.
Proof.
  intros (a1 & b1 & m1 & ->) (a2 & b2 & m2 & ->).
  exists a2, b2, m2. reflexivity.
Qed.

Lemma columns_mapped_step (c : Codec) (cols : list PeelColumn.t) (map m : list Z) :
  columns_mapped c
    (set_peel_cols cols (set_ge_col_map map (set_ge_compress_matrix m c))).
Proof. exists cols, map, m. reflexivity. Qed.

Lemma column_chain_head (cols : list PeelColumn.t) (head : Z) (l : list Z) :
  0 <= LIST_TERM < 2^16 ->
  column_chain cols head l -> Forall (fun x => 0 <= x < 2^16) l ->
  u16 head = head.
Proof.
  intros Hterm Hc Hl. apply u16_small. destruct l as [|x l].
  - cbn in Hc. lia.
  - destruct Hc as (-> & _). inversion Hl; subst. assumption.
Qed.

Lemma SetDeferredColumns_loop_spec (l : list Z) :
  forall (fuel : nat) (k defer_i : Z) (c : Codec),
  0 <= LIST_TERM < 2^16 ->
  column_chain (_peel_cols c) defer_i l -> NoDup l ->
  Forall (fun x => 0 <= x < 2^16) l ->
  Forall (fun x => 0 <= x < Z.of_nat (length (_peel_cols c))) l ->
  (length l < fuel)%nat ->
  0 <= k -> k + Z.of_nat (length l) < 2^16 ->
  k + Z.of_nat (length l) <= Z.of_nat (length (_ge_col_map c)) ->
  exists c',
    SetDeferredColumns_loop fuel k defer_i c = Some c' /\
    columns_mapped c c' /\
    length (_ge_col_map c') = length (_ge_col_map c) /\
    length (_peel_cols c') = length (_peel_cols c) /\
    (forall j x, l !! j = Some x ->
       sel 0 (_ge_col_map c') (k + Z.of_nat j) = x /\
       PeelColumn.ge_column (get_col c' x) = k + Z.of_nat j) /\
    (forall i, i < k \/ k + Z.of_nat (length l) <= i ->
       sel 0 (_ge_col_map c') i = sel 0 (_ge_col_map c) i) /\
    (forall x, x ∉ l -> get_col c' x = get_col c x) /\
    (forall x,
       PeelColumn.mark (get_col c' x) = PeelColumn.mark (get_col c x) /\
       PeelColumn.next (get_col c' x) = PeelColumn.next (get_col c x)).
Proof.
  induction l as [|x l IH];
    intros fuel k defer_i c Hterm Hc Hnd H16 Hin Hfuel Hk Hk16 Hmap;
    (destruct fuel as [|fuel]; [cbn [length] in Hfuel; lia|]);
    cbn [SetDeferredColumns_loop].
  - cbn in Hc. subst defer_i. rewrite Z.eqb_refl.
    exists c. split; [reflexivity|]. split; [apply columns_mapped_refl|].
    repeat split; try reflexivity.
    + rewrite lookup_nil in H0. discriminate.
    + rewrite lookup_nil in H0. discriminate.
  - destruct Hc as (-> & Hx & Hc).
    destruct (Z.eqb_spec x LIST_TERM) as [|_]; [contradiction|].
    inversion Hnd as [|? ? Hnotin Hnd']; subst.
    inversion H16 as [|? ? Hx16 H16']; subst.
    inversion Hin as [|? ? Hxin Hin']; subst.
    cbn [length] in *.
    match goal with
    | |- context [SetDeferredColumns_loop fuel _ _ ?c1] => set (c1' := c1)
    end.
    assert (Hcols1 : _peel_cols c1'
                     = upd (_peel_cols c) x
                         (PeelColumn.set_ge_column k (get_col c x))) by reflexivity.
    assert (Hmap1 : _ge_col_map c1' = upd (_ge_col_map c) k x) by reflexivity.
    assert (Hx1 : get_col c1' x = PeelColumn.set_ge_column k (get_col c x)).
    { unfold get_col at 1. rewrite Hcols1. apply sel_upd_eq. lia. }
    assert (Hne1 : forall y, y <> x -> get_col c1' y = get_col c y).
    { intros y Hy. unfold get_col at 1. rewrite Hcols1. apply sel_upd_ne. congruence. }
    rewrite Hx1. cbn [PeelColumn.set_ge_column PeelColumn.set_w2_refs PeelColumn.next].
    fold (get_col c x) in Hc.
    rewrite (column_chain_head _ _ l Hterm Hc H16').
    rewrite (u16_small (k + 1)) by lia.
    assert (Hc1 : column_chain (_peel_cols c1') (PeelColumn.next (get_col c x)) l).
    { eapply column_chain_ext; [|exact Hc].
      intros y Hy. apply (Hne1 y). intros ->. contradiction. }
    assert (Hin1 : Forall (fun x => 0 <= x < Z.of_nat (length (_peel_cols c1'))) l).
    { rewrite Hcols1, length_upd. exact Hin'. }
    assert (Hlen1 : k + 1 + Z.of_nat (length l) <= Z.of_nat (length (_ge_col_map c1'))).
    { rewrite Hmap1, length_upd. lia. }
    destruct (IH fuel (k + 1) (PeelColumn.next (get_col c x)) c1' Hterm Hc1 Hnd'
                H16' Hin1 ltac:(lia) ltac:(lia) ltac:(lia) Hlen1)
      as (c' & Hrun & Hcm & Hlm & Hlc & Hmaps & Hframe & Hout & Hkeep).
    exists c'. split; [exact Hrun|].
    split; [eapply columns_mapped_trans; [|exact Hcm]; apply columns_mapped_step|].
    split; [rewrite Hlm, Hmap1; apply length_upd|].
    split; [rewrite Hlc, Hcols1; apply length_upd|].
    split; [|split; [|split]].
    + intros j y Hj. destruct j as [|j]; cbn in Hj.
      * injection Hj as <-. rewrite Nat2Z.inj_0, Z.add_0_r.
        rewrite Hframe by lia. rewrite Hmap1, sel_upd_eq by lia.
        split; [reflexivity|]. rewrite (Hout x Hnotin), Hx1. reflexivity.
      * destruct (Hmaps j y Hj) as [Hm1 Hg1].
        replace (k + Z.of_nat (S j)) with (k + 1 + Z.of_nat j) by lia.
        split; assumption.
    + intros i Hi. rewrite Hframe by lia. rewrite Hmap1.
      apply sel_upd_ne. lia.
    + intros y Hy. rewrite not_elem_of_cons in Hy. destruct Hy as [Hyx Hy].
      rewrite (Hout y Hy). apply Hne1. exact Hyx.
    + intros y. destruct (Hkeep y) as [Hm Hn]. rewrite Hm, Hn.
      destruct (Z.eq_dec y x) as [->|Hyx];
        [rewrite Hx1; split; reflexivity|rewrite (Hne1 y Hyx); split; reflexivity].
Qed.

Lemma set_mix_columns_spec (n : nat) :
  forall (added_i : Z) (c : Codec),
  0 <= added_i -> 0 <= _defer_count c -> 0 <= _block_count c ->
  added_i + Z.of_nat n < 2^16 ->
  _defer_count c + added_i + Z.of_nat n <= 2^16 ->
  _block_count c + added_i + Z.of_nat n <= 2^16 ->
  _defer_count c + added_i + Z.of_nat n <= Z.of_nat (length (_ge_col_map c)) ->
  let c' := set_mix_columns n added_i c in
  (exists map, c' = set_ge_col_map map c) /\
  length (_ge_col_map c') = length (_ge_col_map c) /\
  (forall i, added_i <= i < added_i + Z.of_nat n ->
     sel 0 (_ge_col_map c') (_defer_count c + i) = _block_count c + i) /\
  (forall i, i < _defer_count c + added_i \/
             _defer_count c + added_i + Z.of_nat n <= i ->
     sel 0 (_ge_col_map c') i = sel 0 (_ge_col_map c) i).
Proof.
  induction n as [|n IH]; intros added_i c Ha Hd Hb Ha16 Hd16 Hb16 Hlen; cbn zeta.
  - cbn [set_mix_columns]. split; [exists (_ge_col_map c); destruct c; reflexivity|].
    split; [reflexivity|]. split; [intros i Hi; lia|reflexivity].
  - cbn [set_mix_columns].
    rewrite (u16_small (_defer_count c + added_i)) by lia.
    rewrite (u16_small (_block_count c + added_i)) by lia.
    rewrite (u16_small (added_i + 1)) by lia.
    set (c1 := set_ge_col_map _ c).
    destruct (IH (added_i + 1) c1) as ((map & Hmap) & Hl & Hin & Hout);
      try (unfold c1; codec_simpl; rewrite ?length_upd; lia).
    change (_defer_count c1) with (_defer_count c) in *.
    change (_block_count c1) with (_block_count c) in *.
    change (_ge_col_map c1)
      with (upd (_ge_col_map c) (_defer_count c + added_i) (_block_count c + added_i))
      in *.
    split; [exists map; rewrite Hmap; reflexivity|].
    split; [rewrite Hl; apply length_upd|]. split.
    + intros i Hi. destruct (Z.eq_dec i added_i) as [->|Hne].
      * rewrite Hout by lia. apply sel_upd_eq. lia.
      * apply Hin. lia.
    + intros i Hi. rewrite Hout by lia. apply sel_upd_ne. lia.
Qed.

Lemma deferred_columns_count (c : Codec) (l : list Z) :
  deferred_columns c l -> _defer_count c <= Z.max 0 (_block_count c).
Proof.
  intros (_ & Hl & Hnd & Hm). rewrite <- Hl.
  assert (Hsub : l ⊆+ seqZ 0 (_block_count c)).
  { apply NoDup_submseteq; [exact Hnd|]. intros x Hx. apply Hm in Hx as [Hx _].
    apply elem_of_seqZ. lia. }
  apply submseteq_length in Hsub. rewrite length_seqZ in Hsub. lia.
Qed.

(** X20.  When the list of deferred columns holds the columns [l],
    [SetDeferredColumns] numbers them in list order: GE column [k] is
    mapped to the [k]-th column of the list, whose [ge_column] is [k]
    in turn, and the [_added_count] GE columns that follow are mapped
    to the mix columns [_block_count + i].  The marks and the links of
    the columns stay as they are. *)
Theorem SetDeferredColumns_maps (fuel : nat) (c : Codec) (l : list Z) :
  deferred_columns c l ->
  0 <= _block_count c <= Z.of_nat (length (_peel_cols c)) ->
  _block_count c <= LIST_TERM -> LIST_TERM < 2^16 ->
  0 <= _added_count c < 2^16 -> _block_count c + _added_count c <= 2^16 ->
  _defer_count c + _added_count c <= Z.of_nat (length (_ge_col_map c)) ->
  (length l < fuel)%nat ->
  exists c',
    SetDeferredColumns fuel c = Some c' /\
    columns_mapped c c' /\
    (forall k x, l !! k = Some x ->
       sel 0 (_ge_col_map c') (Z.of_nat k) = x /\
       PeelColumn.ge_column (get_col c' x) = Z.of_nat k) /\
    (forall i, 0 <= i < _added_count c ->
       sel 0 (_ge_col_map c') (_defer_count c + i) = _block_count c + i) /\
    deferred_columns c' l.
Proof.
  intros Hd Hbc Hterm Hterm16 Hadd Hadd16 Hmap Hfuel.
  pose proof (deferred_columns_count c l Hd) as Hcount.
  destruct Hd as (Hc & Hl & Hnd & Hm).
  assert (Hrange : Forall (fun x => 0 <= x < _block_count c) l).
  { apply List.Forall_forall. intros x Hx. apply list_elem_of_In in Hx.
    apply Hm in Hx. tauto. }
  unfold SetDeferredColumns.
  assert (H16 : Forall (fun x => 0 <= x < 2^16) l).
  { eapply Forall_impl; [exact Hrange|]. cbv beta. intros x Hx. lia. }
  rewrite (column_chain_head _ _ l ltac:(lia) Hc H16).
  destruct (SetDeferredColumns_loop_spec l fuel 0 (_defer_head_columns c) c)
    as (c1 & Hrun & Hcm & Hlm & Hlc & Hmaps & Hframe & Hout & Hkeep);
    try assumption; try lia.
  { eapply Forall_impl; [exact Hrange|]. cbv beta. intros x Hx. lia. }
  rewrite Hrun.
  assert (Hsame : _added_count c1 = _added_count c /\
                  _defer_count c1 = _defer_count c /\
                  _block_count c1 = _block_count c /\
                  _defer_head_columns c1 = _defer_head_columns c).
  { destruct Hcm as (a & b & m & ->). repeat split. }
  destruct Hsame as (Ha1 & Hd1 & Hb1 & Hh1).
  rewrite Ha1. destruct (Z.leb_spec (2^16) (_added_count c)) as [|_]; [lia|].
  destruct (set_mix_columns_spec (Z.to_nat (_added_count c)) 0 c1)
    as ((map & Hmix) & Hl2 & Hin2 & Hout2); try lia.
  set (c2 := set_mix_columns (Z.to_nat (_added_count c)) 0 c1) in *.
  assert (Hcols2 : _peel_cols c2 = _peel_cols c1) by (rewrite Hmix; reflexivity).
  exists c2. split; [reflexivity|].
  split.
  { destruct Hcm as (a & b & m & ->). rewrite Hmix.
    exists a, map, m. reflexivity. }
  split; [|split].
  - intros k x Hk. destruct (Hmaps k x Hk) as [Hm1 Hg1].
    apply lookup_lt_Some in Hk. rewrite Z.add_0_l in *.
    rewrite Hout2 by lia. split; [exact Hm1|].
    unfold get_col in *. rewrite Hcols2. exact Hg1.
  - intros i Hi. rewrite <- Hd1, <- Hb1. apply Hin2. lia.
  - split; [|split; [|split]].
    + rewrite Hcols2. replace (_defer_head_columns c2) with (_defer_head_columns c)
        by (rewrite Hmix; symmetry; exact Hh1).
      clear - Hc Hkeep. revert Hc. generalize (_defer_head_columns c).
      induction l as [|x l IH]; intros h; [exact id|].
      cbn [column_chain]. intros (Hh & Hx & Hc).
      split; [exact Hh|]. split; [exact Hx|].
      fold (get_col c1 x). fold (get_col c x) in Hc.
      destruct (Hkeep x) as [_ ->]. apply IH. exact Hc.
    + rewrite Hl. rewrite Hmix. symmetry. exact Hd1.
    + exact Hnd.
    + intros i. replace (_block_count c2) with (_block_count c)
        by (rewrite Hmix; symmetry; exact Hb1).
      unfold get_col at 1. rewrite Hcols2. fold (get_col c1 i).
      destruct (Hkeep i) as [-> _]. apply Hm.
Qed.

End ColumnMap.

Lemma deferred_codec_columns :
  deferred_columns (H := diagonal_header) deferred_codec [2; 1].
Proof.
  split; [|split; [|split]].
  - vm_compute. repeat split; discriminate.
  - reflexivity.
  - constructor; [rewrite list_elem_of_singleton; discriminate|].
    constructor; [apply not_elem_of_nil|constructor].
  - intros i. split.
    + intros Hi. apply elem_of_cons in Hi as [->|Hi];
        [split; [vm_compute; split; [discriminate|reflexivity]|reflexivity]|].
      apply list_elem_of_singleton in Hi as ->.
      split; [vm_compute; split; [discriminate|reflexivity]|reflexivity].
    + intros [Hi Hm]. change (_block_count deferred_codec) with 3 in Hi.
      assert (Hcases : i = 0 \/ i = 1 \/ i = 2) by lia.
      destruct Hcases as [-> | [-> | ->]].
      * vm_compute in Hm. discriminate.
      * right. left.
      * left.
Qed.

Lemma SetDeferredColumns_maps_witness :
  let c := deferred_codec in
  let l := [2; 1] in
  exists c',
    SetDeferredColumns (H := diagonal_header) 3 c = Some c' /\
    columns_mapped c c' /\
    (forall k x, l !! k = Some x ->
       sel 0 (_ge_col_map c') (Z.of_nat k) = x /\
       PeelColumn.ge_column (get_col c' x) = Z.of_nat k) /\
    (forall i, 0 <= i < _added_count c ->
       sel 0 (_ge_col_map c') (_defer_count c + i) = _block_count c + i) /\
    deferred_columns (H := diagonal_header) c' l.
Proof.
  intros c l.
  apply (SetDeferredColumns_maps (H := diagonal_header) 3 c l).
  - exact deferred_codec_columns.
  - vm_compute. split; discriminate.
  - vm_compute. discriminate.
  - vm_compute. reflexivity.
  - vm_compute. split; [discriminate|reflexivity].
  - vm_compute. discriminate.
  - vm_compute. discriminate.
  - cbn. lia.
Defined.

(** ** The deferred columns in the compress matrix *)

Lemma matrix_bit_set_bit (pitch row_i column : Z) (m : list Z) (r b : Z) :
  0 <= row_i -> pitch * (row_i + 1) <= Z.of_nat (length m) ->
  0 <= column < 64 * pitch -> 0 <= r -> 0 <= b < 64 * pitch ->
  let w := Z.shiftr column 6 + pitch * row_i in
  matrix_bit (upd m w (Z.lor (sel 0 m w) (Z.shiftl 1 (Z.land column 63)))) pitch r b
  = matrix_bit m pitch r b || ((r =? row_i) && (b =? column)).
Proof.
  intros Hrow Hlen Hcol Hr Hb. cbn zeta. unfold matrix_bit.
  pose proof (shiftr_6_range b pitch Hb) as Hwb.
  pose proof (shiftr_6_range column pitch Hcol) as Hwc.
  destruct (Z.eqb_spec r row_i) as [->|Hne]; cbn [andb].
  - rewrite <- (column_word_bit b column) by lia.
    destruct (Z.eqb_spec (Z.shiftr b 6) (Z.shiftr column 6)) as [E|Hne]; cbn [andb].
    + rewrite E. rewrite (Z.add_comm (pitch * row_i)). rewrite sel_upd_eq by nia.
      rewrite Z.lor_spec, Z.shiftl_1_l, Z.pow2_bits_eqb by apply land_63_range.
      f_equal. apply Z.eqb_sym.
    + rewrite sel_upd_ne by lia. symmetry. apply orb_false_r.
  - rewrite sel_upd_ne by nia. symmetry. apply orb_false_r.
Qed.

Lemma set_column_bits_spec (rows : list Z) (pitch column : Z) :
  forall m : list Z,
  0 <= column < 64 * pitch ->
  Forall (fun r => 0 <= r /\ pitch * (r + 1) <= Z.of_nat (length m)) rows ->
  let m' :=
    set_column_bits rows (Z.shiftr column 6) (Z.shiftl 1 (Z.land column 63))
      pitch m in
  length m' = length m /\
  forall r b, 0 <= r -> 0 <= b < 64 * pitch ->
    matrix_bit m' pitch r b
    = matrix_bit m pitch r b || ((b =? column) && bool_decide (r ∈ rows)).
Proof.
  induction rows as [|x rows IH]; intros m Hcol Hrows; cbn zeta.
  - cbn [set_column_bits]. split; [reflexivity|]. intros r b Hr Hb.
    rewrite bool_decide_eq_false_2 by apply not_elem_of_nil.
    rewrite andb_false_r, orb_false_r. reflexivity.
  - cbn [set_column_bits]. inversion Hrows as [|? ? [Hx Hxl] Hrest]; subst.
    match goal with
    | |- context [set_column_bits rows _ _ _ ?m1] => set (m1' := m1)
    end.
    assert (Hl1 : length m1' = length m) by apply length_upd.
    destruct (IH m1' Hcol) as [Hl Hbits].
    { rewrite Hl1. exact Hrest. }
    split; [rewrite Hl; exact Hl1|].
    intros r b Hr Hb. rewrite (Hbits r b Hr Hb). unfold m1'.
    rewrite matrix_bit_set_bit by assumption.
    rewrite <- orb_assoc. f_equal.
    destruct (Z.eqb_spec b column) as [->|Hb']; cbn [andb];
      [|rewrite andb_false_r; reflexivity].
    rewrite andb_true_r.
    destruct (Z.eqb_spec r x) as [->|Hrx]; cbn [orb].
    + symmetry. apply bool_decide_eq_true_2. left.
    + apply bool_decide_ext. rewrite elem_of_cons. tauto.
Qed.

Section ColumnBits.
Context {H : Header}.

Lemma SetDeferredColumns_loop_bits (l : list Z) :
  forall (fuel : nat) (k defer_i : Z) (c c' : Codec),
  SetDeferredColumns_loop fuel k defer_i c = Some c' ->
  0 <= LIST_TERM < 2^16 ->
  column_chain (_peel_cols c) defer_i l -> NoDup l ->
  Forall (fun x => 0 <= x < 2^16) l ->
  0 <= k -> k + Z.of_nat (length l) < 2^16 ->
  k + Z.of_nat (length l) <= 64 * _ge_pitch c ->
  (forall x, x ∈ l ->
     Forall (fun r => 0 <= r /\
                      _ge_pitch c * (r + 1)
                      <= Z.of_nat (length (_ge_compress_matrix c)))
       (column_refs c x)) ->
  forall r, 0 <= r ->
    (forall j x, l !! j = Some x ->
       matrix_bit (_ge_compress_matrix c') (_ge_pitch c) r (k + Z.of_nat j)
       = matrix_bit (_ge_compress_matrix c) (_ge_pitch c) r (k + Z.of_nat j)
         || bool_decide (r ∈ column_refs c x)) /\
    (forall b, 0 <= b < 64 * _ge_pitch c ->
       b < k \/ k + Z.of_nat (length l) <= b ->
       matrix_bit (_ge_compress_matrix c') (_ge_pitch c) r b
       = matrix_bit (_ge_compress_matrix c) (_ge_pitch c) r b).
Proof.
  induction l as [|x l IH];
    intros fuel k defer_i c c' Hrun Hterm Hc Hnd H16 Hk Hk16 Hpitch Hrows r Hr;
    (destruct fuel as [|fuel]; [discriminate|]);
    cbn [SetDeferredColumns_loop] in Hrun.
  - cbn in Hc. subst defer_i. rewrite Z.eqb_refl in Hrun. injection Hrun as <-.
    split; [intros j x Hj; rewrite lookup_nil in Hj; discriminate|reflexivity].
  - destruct Hc as (-> & Hx & Hc).
    destruct (Z.eqb_spec x LIST_TERM) as [|_]; [contradiction|].
    inversion Hnd as [|? ? Hnotin Hnd']; subst.
    inversion H16 as [|? ? Hx16 H16']; subst.
    cbn [length] in *.
    revert Hrun.
    match goal with
    | |- context [SetDeferredColumns_loop fuel _ _ ?c1] => set (c1' := c1)
    end.
    assert (Hcols1 : _peel_cols c1'
                     = upd (_peel_cols c) x
                         (PeelColumn.set_ge_column k (get_col c x))) by reflexivity.
    assert (Hm1 : _ge_compress_matrix c1'
                  = set_column_bits (column_refs c x) (Z.shiftr k 6)
                      (Z.shiftl 1 (Z.land k 63)) (_ge_pitch c)
                      (_ge_compress_matrix c)) by reflexivity.
    assert (Hnext : PeelColumn.next (get_col c1' x) = PeelColumn.next (get_col c x)).
    { unfold get_col at 1. rewrite Hcols1.
      destruct (Z.ltb_spec x (Z.of_nat (length (_peel_cols c)))).
      - rewrite sel_upd_eq by lia. reflexivity.
      - rewrite upd_out_of_range by lia. reflexivity. }
    rewrite Hnext. fold (get_col c x) in Hc.
    rewrite (column_chain_head _ _ l Hterm Hc H16').
    rewrite (u16_small (k + 1)) by lia.
    intros Hrun.
    destruct (set_column_bits_spec (column_refs c x) (_ge_pitch c) k
                (_ge_compress_matrix c) ltac:(lia) (Hrows x ltac:(left)))
      as [Hl1 Hbits1].
    rewrite <- Hm1 in Hl1, Hbits1.
    assert (Hc1 : column_chain (_peel_cols c1') (PeelColumn.next (get_col c x)) l).
    { eapply column_chain_ext; [|exact Hc].
      intros y Hy. rewrite Hcols1. apply sel_upd_ne. intros ->. contradiction. }
    destruct (IH fuel (k + 1) _ c1' c' Hrun Hterm Hc1 Hnd' H16' ltac:(lia)
                ltac:(lia) ltac:(change (_ge_pitch c1') with (_ge_pitch c); lia))
      with (r := r) as [Hin Hout].
    { intros y Hy. change (column_refs c1' y) with (column_refs c y).
      change (_ge_pitch c1') with (_ge_pitch c). rewrite Hl1.
      apply Hrows. right. exact Hy. }
    { exact Hr. }
    change (_ge_pitch c1') with (_ge_pitch c) in Hin, Hout.
    change (column_refs c1') with (column_refs c) in Hin.
    split.
    + intros j y Hj. destruct j as [|j]; cbn in Hj.
      * injection Hj as <-. rewrite Nat2Z.inj_0, Z.add_0_r.
        rewrite Hout by lia. rewrite Hbits1 by lia.
        rewrite Z.eqb_refl. reflexivity.
      * replace (k + Z.of_nat (S j)) with (k + 1 + Z.of_nat j) by lia.
        rewrite (Hin j y Hj). apply lookup_lt_Some in Hj.
        rewrite Hbits1 by lia.
        destruct (Z.eqb_spec (k + 1 + Z.of_nat j) k); [lia|].
        cbn [andb]. rewrite orb_false_r. reflexivity.
    + intros b Hb Hbk. rewrite Hout by lia. rewrite Hbits1 by lia.
      destruct (Z.eqb_spec b k); [lia|]. cbn [andb]. apply orb_false_r.
Qed.

Lemma set_mix_columns_matrix (n : nat) (added_i : Z) (c : Codec) :
  _ge_compress_matrix (set_mix_columns n added_i c) = _ge_compress_matrix c.
Proof.
  revert added_i c. induction n as [|n IH]; intros added_i c; [reflexivity|].
  cbn [set_mix_columns]. rewrite IH. reflexivity.
Qed.

Lemma SetDeferredColumns_returns (fuel : nat) (c : Codec) (l : list Z) :
  deferred_columns c l ->
  0 <= _block_count c <= Z.of_nat (length (_peel_cols c)) ->
  _block_count c <= LIST_TERM -> LIST_TERM < 2^16 ->
  _added_count c < 2^16 ->
  _defer_count c <= Z.of_nat (length (_ge_col_map c)) ->
  (length l < fuel)%nat ->
  exists c', SetDeferredColumns fuel c = Some c'.
Proof.
  intros Hd Hbc Hterm Hterm16 Hadd Hmap Hfuel.
  pose proof (deferred_columns_count c l Hd) as Hcount.
  destruct Hd as (Hc & Hl & Hnd & Hm).
  assert (Hrange : Forall (fun x => 0 <= x < _block_count c) l).
  { apply List.Forall_forall. intros x Hx. apply list_elem_of_In in Hx.
    apply Hm in Hx. tauto. }
  assert (H16 : Forall (fun x => 0 <= x < 2^16) l).
  { eapply Forall_impl; [exact Hrange|]. cbv beta. intros x Hx. lia. }
  assert (Hin : Forall (fun x => 0 <= x < Z.of_nat (length (_peel_cols c))) l).
  { eapply Forall_impl; [exact Hrange|]. cbv beta. intros x Hx. lia. }
  assert (Hterm' : 0 <= LIST_TERM < 2^16) by lia.
  unfold SetDeferredColumns.
  rewrite (column_chain_head _ _ l Hterm' Hc H16).
  destruct (SetDeferredColumns_loop_spec l fuel 0 (_defer_head_columns c) c
              Hterm' Hc Hnd H16 Hin Hfuel ltac:(lia) ltac:(lia) ltac:(lia))
    as (c1 & Hrun & Hcm & _).
  rewrite Hrun.
  assert (Ha1 : _added_count c1 = _added_count c).
  { destruct Hcm as (a & b & m & ->). reflexivity. }
  rewrite Ha1. destruct (Z.leb_spec (2^16) (_added_count c)) as [|_]; [lia|].
  eexists. reflexivity.
Qed.

(** X21.  [SetDeferredColumns] writes the deferred columns into the
    compress matrix: when the list of deferred columns holds [l] and
    the rows on their reference lists are rows of the matrix, the call
    returns, the bit of GE column [k] is then set in the rows that the
    [k]-th column of the list refers to and is kept in the other rows,
    and the bits of the GE columns from [_defer_count] on are kept. *)
Theorem SetDeferredColumns_bits (fuel : nat) (c : Codec) (l : list Z) :
  deferred_columns c l ->
  0 <= _block_count c <= Z.of_nat (length (_peel_cols c)) ->
  _block_count c <= LIST_TERM -> LIST_TERM < 2^16 ->
  _added_count c < 2^16 ->
  _defer_count c <= Z.of_nat (length (_ge_col_map c)) ->
  (length l < fuel)%nat ->
  _defer_count c <= 64 * _ge_pitch c ->
  (forall x, x ∈ l ->
     Forall (fun r => 0 <= r /\
                      _ge_pitch c * (r + 1)
                      <= Z.of_nat (length (_ge_compress_matrix c)))
       (column_refs c x)) ->
  exists c',
    SetDeferredColumns fuel c = Some c' /\
    forall r, 0 <= r ->
      (forall k x, l !! k = Some x ->
         matrix_bit (_ge_compress_matrix c') (_ge_pitch c) r (Z.of_nat k)
         = matrix_bit (_ge_compress_matrix c) (_ge_pitch c) r (Z.of_nat k)
           || bool_decide (r ∈ column_refs c x)) /\
      (forall b, _defer_count c <= b < 64 * _ge_pitch c ->
         matrix_bit (_ge_compress_matrix c') (_ge_pitch c) r b
         = matrix_bit (_ge_compress_matrix c) (_ge_pitch c) r b).
Proof.
  intros Hd Hbc Hterm Hterm16 Hadd Hmap Hfuel Hpitch Hrows.
  destruct (SetDeferredColumns_returns fuel c l Hd Hbc Hterm Hterm16 Hadd Hmap Hfuel)
    as [c' Hrun].
  exists c'. split; [exact Hrun|]. intros r Hr.
  pose proof (deferred_columns_count c l Hd) as Hcount.
  destruct Hd as (Hc & Hl & Hnd & Hm).
  assert (H16 : Forall (fun x => 0 <= x < 2^16) l).
  { apply List.Forall_forall. intros x Hx. apply list_elem_of_In in Hx.
    apply Hm in Hx. lia. }
  assert (Hterm' : 0 <= LIST_TERM < 2^16) by lia.
  unfold SetDeferredColumns in Hrun.
  rewrite (column_chain_head _ _ l Hterm' Hc H16) in Hrun.
  destruct (SetDeferredColumns_loop fuel 0 (_defer_head_columns c) c) as [c1|] eqn:E1;
    [|discriminate].
  destruct (2^16 <=? _added_count c1); [discriminate|]. injection Hrun as <-.
  rewrite set_mix_columns_matrix.
  destruct (SetDeferredColumns_loop_bits l fuel 0 (_defer_head_columns c) c c1 E1
              Hterm' Hc Hnd H16 ltac:(lia) ltac:(lia) ltac:(lia) Hrows r Hr)
    as [Hin Hout].
  split.
  - intros k x Hk. apply (Hin k x Hk).
  - intros b Hb. apply Hout; lia.
Qed.

End ColumnBits.

Lemma SetDeferredColumns_bits_witness :
  let c := deferred_codec in
  let l := [2; 1] in
  exists c',
    SetDeferredColumns (H := diagonal_header) 3 c = Some c' /\
    forall r, 0 <= r ->
      (forall k x, l !! k = Some x ->
         matrix_bit (_ge_compress_matrix c') (_ge_pitch c) r (Z.of_nat k)
         = matrix_bit (_ge_compress_matrix c) (_ge_pitch c) r (Z.of_nat k)
           || bool_decide (r ∈ column_refs c x)) /\
      (forall b, _defer_count c <= b < 64 * _ge_pitch c ->
         matrix_bit (_ge_compress_matrix c') (_ge_pitch c) r b
         = matrix_bit (_ge_compress_matrix c) (_ge_pitch c) r b).
Proof.
  intros c l.
  apply (SetDeferredColumns_bits (H := diagonal_header) 3 c l).
  - exact deferred_codec_columns.
  - vm_compute. split; discriminate.
  - vm_compute. discriminate.
  - vm_compute. reflexivity.
  - vm_compute. reflexivity.
  - vm_compute. discriminate.
  - cbn. lia.
  - vm_compute. discriminate.
  - intros x Hx. apply elem_of_cons in Hx as [->|Hx].
    + vm_compute. repeat constructor; discriminate.
    + apply list_elem_of_singleton in Hx as ->.
      vm_compute. repeat constructor; discriminate.
Defined.
